(** * dom-batch / fastdom: batching DOM reads and writes per animation frame

    A shallow embedding of the scheduler variants of the repository:

    - [FastDom]   : [src/lib/fastdom.js] (job ids, registry, [defer],
                    [onError]), whose [_request] and [_frame] are those of
                    [src/lib/dom-batch.js];
    - [Sandboxed] : the bundled variant with task objects, [_flushList],
                    [catch] and [Sandbox];
    - [DomBatch]  : [src/lib/dom-batch.js] itself, where the queues hold the
                    functions and nothing is caught.

    The facts about each are in [FastDomFacts] and [SandboxedFacts]; what
    concerns both is in [FailureFacts].  [FastDomMore] and [SandboxedMore]
    add invariants of the two over whole runs of the host,
    [DomBatchFacts] has the facts about [DomBatch], and [ReadsFirst] the
    order of reads and writes in [FastDom] and [DomBatch] alike.

    The scheduler is single threaded.  Its state is a JavaScript object that
    every method mutates; here every method is a function from state to
    state.  The callbacks handed to the scheduler are user code; they are
    represented by the finite type [script] of the calls a callback makes to
    the scheduler, in order, ending with a normal return or a throw. *)

From stdpp Require Import base option list gmap fin_maps sorting.
From Stdlib Require Import ZArith Lia.

Local Open Scope Z_scope.

(** ** User callbacks *)

(** The receiver ([ctx]) bound to a callback: [None] is [undefined]. *)
Definition context := option nat.

(** What a callback does, as far as the scheduler can tell: it calls
    [read], [write], [clear] or [defer] and goes on, returns, or throws. *)
Inductive script : Type :=
  | Ret
  | Throw (e : nat)
  | CallRead (fn : script) (ctx : context) (k : script)
  | CallWrite (fn : script) (ctx : context) (k : script)
  | CallClear (id : Z) (k : script)
  | CallDefer (frames : Z) (fn : script) (ctx : context) (k : script).

(** A thrown value: the number that user code throws, or the [TypeError]
    of a property access on [undefined]. *)
Inductive err : Type :=
  | UserError (e : nat)
  | TypeError.

Inductive outcome : Type :=
  | Normal
  | Threw (e : err).

#[global] Instance err_eq_dec : EqDecision err.
Proof. solve_decision. Defined.

Module FastDom.

(** ** Data model of [src/lib/fastdom.js] *)

(** [job.type]: ['read'], ['write'] or ['defer']. *)
Inductive jobtype : Type := TRead | TWrite | TDefer.

(** [this.mode]: ['reading'] or ['writing']; [null] is [None]. *)
Inductive phase : Type := Reading | Writing.

#[global] Instance jobtype_eq_dec : EqDecision jobtype.
Proof. solve_decision. Defined.

#[global] Instance phase_eq_dec : EqDecision phase.
Proof. solve_decision. Defined.

(** The record built by [_add]; [defer] later adds the [timer] field. *)
Record job : Type := Job {
  job_id : Z;
  job_fn : script;
  job_ctx : context;
  job_type : jobtype;
  job_timer : option nat
}.

(** A callback pending in the host's animation-frame queue: the closure
    [function() { self._frame(); }] of [_request], or the closure [wrapped]
    of [defer] with the current value of its captured [frames]. *)
Inductive rafcb : Type :=
  | FrameCb
  | Wrapped (frames : Z) (id : Z) (fn : script) (ctx : context).

(** Observation points, recorded in a ghost log: a job was created by
    [_add], a job's callback was invoked, [clear] found its job, the
    [catch] clause of [_run] caught what a job's callback threw.  The first
    two record [this.mode] at that point. *)
Inductive event : Type :=
  | EvAdd (id : Z) (ty : jobtype) (m : option phase)
  | EvCall (id : Z) (ty : jobtype) (m : option phase)
  | EvClear (id : Z)
  | EvFail (id : Z) (e : err).

#[global] Instance event_eq_dec : EqDecision event.
Proof. solve_decision. Defined.

(** The [FastDom] instance (first six fields and [onError]) together with
    the host it runs in: the animation-frame queue, the errors that reached
    the handler, the errors that reached the host, and the ghost log. *)
Record state : Type := State {
  lastId : Z;
  jobs : gmap Z job;
  mode : option phase;
  pending : bool;
  queue_read : list Z;
  queue_write : list Z;
  onError : bool;
  next_handle : nat;
  rafq : list (nat * rafcb);
  current : list (nat * rafcb);
  handled : list err;
  reported : list err;
  log : list event
}.

(** [new FastDom()] in a fresh host; [h] tells whether [onError] is set. *)
Definition new (h : bool) : state :=
  State 0 ∅ None false [] [] h 0%nat [] [] [] [] [].

Definition set_lastId (v : Z) (s : state) : state :=
  State v (jobs s) (mode s) (pending s) (queue_read s) (queue_write s)
        (onError s) (next_handle s) (rafq s) (current s) (handled s)
        (reported s) (log s).

Definition set_jobs (v : gmap Z job) (s : state) : state :=
  State (lastId s) v (mode s) (pending s) (queue_read s) (queue_write s)
        (onError s) (next_handle s) (rafq s) (current s) (handled s)
        (reported s) (log s).

Definition set_mode (v : option phase) (s : state) : state :=
  State (lastId s) (jobs s) v (pending s) (queue_read s) (queue_write s)
        (onError s) (next_handle s) (rafq s) (current s) (handled s)
        (reported s) (log s).

Definition set_pending (v : bool) (s : state) : state :=
  State (lastId s) (jobs s) (mode s) v (queue_read s) (queue_write s)
        (onError s) (next_handle s) (rafq s) (current s) (handled s)
        (reported s) (log s).

Definition set_next_handle (v : nat) (s : state) : state :=
  State (lastId s) (jobs s) (mode s) (pending s) (queue_read s)
        (queue_write s) (onError s) v (rafq s) (current s) (handled s)
        (reported s) (log s).

Definition set_rafq (v : list (nat * rafcb)) (s : state) : state :=
  State (lastId s) (jobs s) (mode s) (pending s) (queue_read s)
        (queue_write s) (onError s) (next_handle s) v (current s)
        (handled s) (reported s) (log s).

Definition set_current (v : list (nat * rafcb)) (s : state) : state :=
  State (lastId s) (jobs s) (mode s) (pending s) (queue_read s)
        (queue_write s) (onError s) (next_handle s) (rafq s) v
        (handled s) (reported s) (log s).

Definition set_handled (v : list err) (s : state) : state :=
  State (lastId s) (jobs s) (mode s) (pending s) (queue_read s)
        (queue_write s) (onError s) (next_handle s) (rafq s) (current s)
        v (reported s) (log s).

Definition set_reported (v : list err) (s : state) : state :=
  State (lastId s) (jobs s) (mode s) (pending s) (queue_read s)
        (queue_write s) (onError s) (next_handle s) (rafq s) (current s)
        (handled s) v (log s).

Definition emit (e : event) (s : state) : state :=
  State (lastId s) (jobs s) (mode s) (pending s) (queue_read s)
        (queue_write s) (onError s) (next_handle s) (rafq s) (current s)
        (handled s) (reported s) (log s ++ [e]).

(** [this.queue[type]]; only ['read'] and ['write'] name a queue. *)
Definition queue (ty : jobtype) (s : state) : list Z :=
  match ty with
  | TRead => queue_read s
  | TWrite => queue_write s
  | TDefer => []
  end.

Definition set_queue (ty : jobtype) (v : list Z) (s : state) : state :=
  match ty with
  | TRead =>
      State (lastId s) (jobs s) (mode s) (pending s) v (queue_write s)
            (onError s) (next_handle s) (rafq s) (current s) (handled s)
            (reported s) (log s)
  | TWrite =>
      State (lastId s) (jobs s) (mode s) (pending s) (queue_read s) v
            (onError s) (next_handle s) (rafq s) (current s) (handled s)
            (reported s) (log s)
  | TDefer => s
  end.

(** ** The frame primitive *)

(** [raf(cb)]: the callback joins the host's queue for the next frame and a
    fresh handle is returned. *)
Definition raf (cb : rafcb) (s : state) : nat * state :=
  let h := next_handle s in
  (h, set_next_handle (S h) (set_rafq (rafq s ++ [(h, cb)]) s)).

Definition drop_handle (h : nat) (l : list (nat * rafcb)) : list (nat * rafcb) :=
  filter (λ p, p.1 ≠ h) l.

(** [caf(handle)]: the callback with that handle is never run;
    [caf(undefined)] does nothing. *)
Definition caf (h : option nat) (s : state) : state :=
  match h with
  | None => s
  | Some h =>
      set_current (drop_handle h (current s))
        (set_rafq (drop_handle h (rafq s)) s)
  end.

(** ** Methods of [FastDom] *)

(** [_uniqueId]: [return ++this.lastId].  [lastId] is a JavaScript
    number, on which [++] is exact as long as it is below 2^53; the integer
    here is the counter within that range. *)
Definition _uniqueId (s : state) : Z * state :=
  (lastId s + 1, set_lastId (lastId s + 1) s).

(** [_add(type, fn, ctx)]. *)
Definition _add (ty : jobtype) (fn : script) (ctx : context) (s : state)
  : job * state :=
  let '(id, s1) := _uniqueId s in
  let j := Job id fn ctx ty None in
  (j, emit (EvAdd id ty (mode s)) (set_jobs (<[id := j]> (jobs s1)) s1)).

(** [_request(type)]: the three early returns, the [pending] test, then
    [raf] and [pending = true]. *)
Definition _request (ty : jobtype) (s : state) : state :=
  match mode s, ty with
  | Some Writing, TWrite => s
  | Some Reading, TRead => s
  | Some Reading, TWrite => s
  | _, _ =>
      if pending s then s
      else set_pending true (raf FrameCb s).2
  end.

(** [read(fn, ctx)]. *)
Definition read (fn : script) (ctx : context) (s : state) : Z * state :=
  let '(j, s1) := _add TRead fn ctx s in
  let s2 := set_queue TRead (queue TRead s1 ++ [job_id j]) s1 in
  (job_id j, _request TRead s2).

(** [write(fn, ctx)]. *)
Definition write (fn : script) (ctx : context) (s : state) : Z * state :=
  let '(j, s1) := _add TWrite fn ctx s in
  let s2 := set_queue TWrite (queue TWrite s1 ++ [job_id j]) s1 in
  (job_id j, _request TWrite s2).

(** [index = list.indexOf(id); if (~index) list.splice(index, 1)]. *)
Fixpoint remove_first (id : Z) (l : list Z) : list Z :=
  match l with
  | [] => []
  | x :: l' => if decide (x = id) then l' else x :: remove_first id l'
  end.

(** [clear(id)]. *)
Definition clear (id : Z) (s : state) : state :=
  match jobs s !! id with
  | None => s
  | Some j =>
      match job_type j with
      | TDefer => emit (EvClear id) (caf (job_timer j) s)
      | ty =>
          let s1 := set_queue ty (remove_first id (queue ty s)) s in
          emit (EvClear id) (set_jobs (delete id (jobs s1)) s1)
      end
  end.

(** [job.timer = h]: the job object is shared with the registry. *)
Definition set_timer (id : Z) (h : nat) (s : state) : state :=
  set_jobs (alter (λ j, Job (job_id j) (job_fn j) (job_ctx j) (job_type j)
                            (Some h)) id (jobs s)) s.

(** [job.timer = raf(wrapped)], [frames] having been decremented. *)
Definition rearm (frames : Z) (id : Z) (fn : script) (ctx : context)
    (s : state) : state :=
  let '(h, s1) := raf (Wrapped (frames - 1) id fn ctx) s in
  set_timer id h s1.

(** The closure [wrapped] of [defer].  [call] is the invocation of [fn].
    The file is in strict mode and [wrapped] is called without a receiver,
    so inside it [this] is [undefined]: when [fn] throws, the handler's
    [this.onError] is itself a [TypeError], which leaves [wrapped]. *)
Definition wrapped (call : state → state * outcome)
    (frames : Z) (id : Z) (fn : script) (ctx : context) (s : state)
  : state * outcome :=
  if decide (frames = 0) then
    match call (emit (EvCall id TDefer (mode s)) s) with
    | (s1, Normal) => (s1, Normal)
    | (s1, Threw _) => (s1, Threw TypeError)
    end
  else (rearm frames id fn ctx s, Normal).

(** [defer(frames, fn, ctx)], with the invocation of [fn] abstracted. *)
Definition defer_with (call : state → state * outcome)
    (frames : Z) (fn : script) (ctx : context) (s : state)
  : state * option Z * outcome :=
  if decide (frames < 0) then (s, None, Normal)
  else
    let '(j, s1) := _add TDefer fn None s in
    match wrapped call frames (job_id j) fn ctx s1 with
    | (s2, Normal) => (s2, Some (job_id j), Normal)
    | (s2, Threw e) => (s2, None, Threw e)
    end.

(** Running a callback: each call is made on the scheduler in turn; an
    exception leaving [defer] ends the callback. *)
Fixpoint exec (c : script) (s : state) : state * outcome :=
  match c with
  | Ret => (s, Normal)
  | Throw e => (s, Threw (UserError e))
  | CallRead fn ctx k => exec k (read fn ctx s).2
  | CallWrite fn ctx k => exec k (write fn ctx s).2
  | CallClear id k => exec k (clear id s)
  | CallDefer frames fn ctx k =>
      match defer_with (exec fn) frames fn ctx s with
      | (s1, _, Normal) => exec k s1
      | (s1, _, Threw e) => (s1, Threw e)
      end
  end.

Definition defer (frames : Z) (fn : script) (ctx : context) (s : state)
  : state * option Z * outcome :=
  defer_with (exec fn) frames fn ctx s.

(** ** The run loop *)

(** A bound on what running a callback can add to the queues and the
    registry; it makes the loop of [_run] a terminating recursion. *)
Fixpoint cost (c : script) : nat :=
  match c with
  | Ret | Throw _ => 0
  | CallRead fn _ k | CallWrite fn _ k => S (cost fn + cost k)
  | CallClear _ k => cost k
  | CallDefer _ fn _ k => (cost fn + cost fn + cost k)%nat
  end.

Definition jobs_cost (m : gmap Z job) : nat :=
  map_fold (λ _ j acc, (cost (job_fn j) + acc)%nat) 0%nat m.

Definition weight (ty : jobtype) (s : state) : nat :=
  (length (queue ty s) + jobs_cost (jobs s))%nat.

(** The [catch] clause of [_run]: [if (this.onError) this.onError(e)].
    The handler is user code; it is taken to record the failure and
    return. *)
Definition catch_run (id : Z) (o : outcome) (s : state) : state :=
  match o with
  | Normal => s
  | Threw e =>
      let s1 := emit (EvFail id e) s in
      if onError s1 then set_handled (handled s1 ++ [e]) s1 else s1
  end.

(** [delete this.jobs[id]], the job being about to be called. *)
Definition take_job (id : Z) (j : job) (s : state) : state :=
  let s2 := set_jobs (delete id (jobs s)) s in
  emit (EvCall id (job_type j) (mode s2)) s2.

(** The body of the loop of [_run] for the job [j] found under [id]:
    [delete this.jobs[id]], then [job.fn.call(ctx)] inside the [try]. *)
Definition run_job (id : Z) (j : job) (s : state) : state :=
  let '(s3, o) := exec (job_fn j) (take_job id j s) in
  catch_run id o s3.

(** [_run(list)] where [list] is [this.queue[ty]], the live array:
    [while (id = list.shift())] ends on an empty list and on a falsy id;
    [job.ctx] on a missing job is a [TypeError] outside the [try]. *)
Fixpoint run_loop (fuel : nat) (ty : jobtype) (s : state)
  : option (state * outcome) :=
  match fuel with
  | O => None
  | S fuel' =>
      match queue ty s with
      | [] => Some (s, Normal)
      | id :: rest =>
          let s1 := set_queue ty rest s in
          if decide (id = 0) then Some (s1, Normal)
          else
            match jobs s1 !! id with
            | None => Some (s1, Threw TypeError)
            | Some j => run_loop fuel' ty (run_job id j s1)
            end
      end
  end.

Definition _run (ty : jobtype) (s : state) : state * outcome :=
  match run_loop (S (weight ty s)) ty s with
  | Some r => r
  | None => (s, Normal)
  end.

(** [_frame()]. *)
Definition _frame (s : state) : state * outcome :=
  let s1 := set_mode (Some Reading) (set_pending false s) in
  match _run TRead s1 with
  | (s2, Threw e) => (s2, Threw e)
  | (s2, Normal) =>
      match _run TWrite (set_mode (Some Writing) s2) with
      | (s3, Threw e) => (s3, Threw e)
      | (s3, Normal) => (set_mode None s3, Normal)
      end
  end.

(** ** The host *)

(** An exception that leaves a frame callback reaches the host's error
    reporting; the other callbacks of the frame still run. *)
Definition report (r : state * outcome) : state :=
  match r with
  | (s, Normal) => s
  | (s, Threw e) => set_reported (reported s ++ [e]) s
  end.

Definition run_rafcb (cb : rafcb) (s : state) : state :=
  match cb with
  | FrameCb => report (_frame s)
  | Wrapped frames id fn ctx => report (wrapped (exec fn) frames id fn ctx s)
  end.

Fixpoint tick_loop (n : nat) (s : state) : state :=
  match n with
  | O => s
  | S n' =>
      match current s with
      | [] => s
      | (_, cb) :: rest => tick_loop n' (run_rafcb cb (set_current rest s))
      end
  end.

(** One animation frame: the callbacks requested so far are run in the
    order of their requests; callbacks requested meanwhile wait for the
    next frame, callbacks cancelled meanwhile are skipped. *)
Definition tick (s : state) : state :=
  let s1 := set_current (rafq s) (set_rafq [] s) in
  tick_loop (length (current s1)) s1.

Fixpoint ticks (n : nat) (s : state) : state :=
  match n with
  | O => s
  | S n' => ticks n' (tick s)
  end.

(** A synchronous turn of user code outside any frame; an exception that
    leaves it reaches the host. *)
Definition turn (c : script) (s : state) : state := report (exec c s).

(** ** Reading the log *)

Definition ev_id (e : event) : Z :=
  match e with
  | EvAdd id _ _ | EvCall id _ _ | EvClear id | EvFail id _ => id
  end.

(** The ids of the callbacks invoked, in order. *)
Definition call_ids (l : list event) : list Z :=
  omap (λ e, match e with EvCall id _ _ => Some id | _ => None end) l.

(** The failures caught by [_run], in order. *)
Definition failures (l : list event) : list err :=
  omap (λ e, match e with EvFail _ x => Some x | _ => None end) l.

(** [this.mode] at the point an event was recorded, where it records it. *)
Definition ev_mode_is (m : option phase) (e : event) : Prop :=
  match e with
  | EvAdd _ _ m' | EvCall _ _ m' => m' = m
  | _ => True
  end.

(** No write callback is invoked before a read callback. *)
Definition reads_first (l : list event) : Prop :=
  ∀ i j id1 id2 m1 m2,
    l !! i = Some (EvCall id1 TWrite m1) →
    l !! j = Some (EvCall id2 TRead m2) →
    (j < i)%nat.

(** The phase in which [_frame] drains the queue of a job type. *)
Definition phase_of (ty : jobtype) : option phase :=
  match ty with
  | TRead => Some Reading
  | TWrite => Some Writing
  | TDefer => None
  end.

Definition is_frame (p : nat * rafcb) : bool :=
  match p.2 with FrameCb => true | _ => false end.

Definition count_frames (l : list (nat * rafcb)) : nat :=
  length (filter (λ p, is_frame p = true) l).

(** How many [_frame] callbacks are pending at the host. *)
Definition frame_cbs (s : state) : nat :=
  count_frames (rafq s ++ current s).

(** The callback of job [id] was invoked. *)
Definition called (id : Z) (l : list event) : Prop :=
  ∃ ty m, EvCall id ty m ∈ l.

(** ** Invariants *)

(** What holds of every state the scheduler reaches from [new]. *)
Record wf (s : state) : Prop := Wf {
  wf_lastId : 0 ≤ lastId s;
  wf_jobs : ∀ id j, jobs s !! id = Some j → 0 < id ≤ lastId s;
  wf_queue : ∀ ty id, id ∈ queue ty s →
    (∃ j, jobs s !! id = Some j ∧ job_type j = ty) ∧
    (∃ m, EvAdd id ty m ∈ log s);
  wf_nodup : ∀ ty, NoDup (queue ty s);
  wf_log : ∀ e, e ∈ log s → 0 < ev_id e ≤ lastId s;
  wf_uncalled : ∀ id j, jobs s !! id = Some j → job_type j ≠ TDefer →
    ¬ called id (log s) ∧ (EvClear id ∉ log s);
  wf_added : ∀ id ty m, EvAdd id ty m ∈ log s → ty ≠ TDefer →
    id ∈ queue ty s ∨ (∃ m', EvCall id ty m' ∈ log s) ∨ EvClear id ∈ log s;
  wf_once : NoDup (call_ids (log s));
  wf_call_mode : ∀ id ty m, EvCall id ty m ∈ log s → ty ≠ TDefer →
    m = phase_of ty;
  wf_handles : ∀ h cb, (h, cb) ∈ rafq s ++ current s →
    (h < next_handle s)%nat;
  wf_handles_nodup : NoDup ((rafq s ++ current s).*1);
  wf_wrapped : ∀ h n id fn ctx,
    (h, Wrapped n id fn ctx) ∈ rafq s ++ current s →
    0 ≤ n ∧ ¬ called id (log s) ∧
    ∃ j, jobs s !! id = Some j ∧ job_type j = TDefer ∧ job_timer j = Some h;
  wf_timer : ∀ id j h, jobs s !! id = Some j → job_timer j = Some h →
    (h < next_handle s)%nat ∧
    ∀ cb, (h, cb) ∈ rafq s ++ current s → ∃ n fn ctx, cb = Wrapped n id fn ctx;
  wf_gone : ∀ id ty m, EvCall id ty m ∈ log s → ty ≠ TDefer →
    jobs s !! id = None
}.

(** [pending] says whether a [_frame] callback waits at the host. *)
Definition sched (s : state) : Prop :=
  frame_cbs s = if pending s then 1%nat else 0%nat.

(** A frame has been requested for every job that the frame in progress,
    if any, will not run. *)
Definition armed (s : state) : Prop :=
  match mode s with
  | None => queue_read s ≠ [] ∨ queue_write s ≠ [] → pending s = true
  | Some Writing => queue_read s ≠ [] → pending s = true
  | Some Reading => True
  end.

(** Ids are handed out in increasing order: whatever the log holds before
    the creation of a job concerns older jobs. *)
Definition ordered (s : state) : Prop :=
  ∀ l1 l2 id ty m, log s = l1 ++ EvAdd id ty m :: l2 →
    ∀ e, e ∈ l1 → ev_id e < id.

(** Between two frames and outside any callback. *)
Definition quiescent (s : state) : Prop :=
  wf s ∧ sched s ∧ armed s ∧ ordered s ∧ mode s = None ∧ current s = [].

(** The log of one animation frame: what the deferred callbacks before the
    scheduler's frame callback did, the reading phase, the writing phase,
    what the deferred callbacks after it did. *)
Definition phased (pre R W post : list event) : Prop :=
  Forall (ev_mode_is None) pre ∧ Forall (ev_mode_is (Some Reading)) R ∧
  Forall (ev_mode_is (Some Writing)) W ∧ Forall (ev_mode_is None) post.

(** Where an animation frame stands: [L] and [l0] are [lastId] and the log
    when it began. *)
Definition tick_inv (L : Z) (l0 : list event) (s : state) : Prop :=
  L ≤ lastId s ∧
  ∃ pre R W post,
    log s = l0 ++ pre ++ R ++ W ++ post ∧ phased pre R W post ∧
    match mode s with
    | None =>
        (count_frames (current s) = 1%nat ∧ R = [] ∧ W = [] ∧ post = []) ∨
        (count_frames (current s) = 0%nat ∧
         (∀ id, id ∈ queue_read s →
            L < id ∧ ∀ e, e ∈ pre ++ R → ev_id e < id) ∧
         (∀ id, id ∈ queue_write s →
            L < id ∧ ∀ e, e ∈ pre ++ R ++ W → ev_id e < id))
    | Some Reading =>
        count_frames (current s) = 0%nat ∧ W = [] ∧ post = []
    | Some Writing =>
        count_frames (current s) = 0%nat ∧ post = [] ∧
        ∀ id, id ∈ queue_read s →
          L < id ∧ ∀ e, e ∈ pre ++ R → ev_id e < id
    end.

(** ** Transitions *)

(** The state changes made while callbacks run: [exec] and [_run] are
    sequences of these. *)
Inductive step : state → state → Prop :=
  | step_read fn ctx s : step s (read fn ctx s).2
  | step_write fn ctx s : step s (write fn ctx s).2
  | step_clear id s : step s (clear id s)
  | step_defer_now fn s :
      step s (let s1 := (_add TDefer fn None s).2 in
              emit (EvCall (lastId s + 1) TDefer (mode s1)) s1)
  | step_defer_later frames fn ctx s :
      0 < frames →
      step s (rearm frames (lastId s + 1) fn ctx (_add TDefer fn None s).2)
  | step_job ty id rest j s :
      queue ty s = id :: rest →
      jobs s !! id = Some j →
      mode s = phase_of ty →
      step s (take_job id j (set_queue ty rest s))
  | step_catch id o s : 0 < id ≤ lastId s → step s (catch_run id o s).

(** The state changes of the host and of [_frame] around them. *)
Inductive hstep : state → state → Prop :=
  | hstep_step s s' : step s s' → hstep s s'
  | hstep_tick_begin s :
      current s = [] → mode s = None →
      hstep s (set_current (rafq s) (set_rafq [] s))
  | hstep_frame_begin h rest s :
      current s = (h, FrameCb) :: rest → mode s = None →
      hstep s (set_mode (Some Reading) (set_pending false (set_current rest s)))
  | hstep_frame_write s :
      mode s = Some Reading → queue_read s = [] →
      hstep s (set_mode (Some Writing) s)
  | hstep_frame_end s :
      mode s = Some Writing → queue_write s = [] →
      hstep s (set_mode None s)
  | hstep_wrapped_now h id fn ctx rest s :
      current s = (h, Wrapped 0 id fn ctx) :: rest → mode s = None →
      hstep s (let s1 := set_current rest s in
               emit (EvCall id TDefer (mode s1)) s1)
  | hstep_wrapped_later h n id fn ctx rest s :
      current s = (h, Wrapped n id fn ctx) :: rest → mode s = None →
      n ≠ 0 →
      hstep s (rearm n id fn ctx (set_current rest s))
  | hstep_report r : hstep r.1 (report r).

(** The same, within one animation frame of the host. *)
Inductive fstep : state → state → Prop :=
  | fstep_step s s' : step s s' → fstep s s'
  | fstep_frame_begin h rest s :
      current s = (h, FrameCb) :: rest → mode s = None →
      fstep s (set_mode (Some Reading) (set_pending false (set_current rest s)))
  | fstep_frame_write s :
      mode s = Some Reading → queue_read s = [] →
      fstep s (set_mode (Some Writing) s)
  | fstep_frame_end s :
      mode s = Some Writing → queue_write s = [] →
      fstep s (set_mode None s)
  | fstep_wrapped_now h id fn ctx rest s :
      current s = (h, Wrapped 0 id fn ctx) :: rest → mode s = None →
      fstep s (let s1 := set_current rest s in
               emit (EvCall id TDefer (mode s1)) s1)
  | fstep_wrapped_later h n id fn ctx rest s :
      current s = (h, Wrapped n id fn ctx) :: rest → mode s = None →
      n ≠ 0 →
      fstep s (rearm n id fn ctx (set_current rest s))
  | fstep_report r : fstep r.1 (report r).

(** A run of [wrapped] for the deferred job [id] waits at the host. *)
Definition wrapped_pending (id : Z) (s : state) : Prop :=
  ∃ h n fn ctx, (h, Wrapped n id fn ctx) ∈ rafq s ++ current s.

(** A job that can no longer be invoked: its id is used up, and it waits
    in no queue and in no frame callback. *)
Definition dead (id : Z) (s : state) : Prop :=
  id ≤ lastId s ∧ (∀ ty, id ∉ queue ty s) ∧ ¬ wrapped_pending id s.

(** Where the run of [wrapped] pending under handle [h] for the deferred
    job [id] stands in the course of a frame: the job was cancelled, the run
    still waits its turn, it has invoked [fn], or it has requested the next
    run. *)
Definition entry_inv (h : nat) (n id : Z) (fn : script) (ctx : context)
    (s : state) : Prop :=
  (EvClear id ∈ log s ∧ ¬ called id (log s) ∧ dead id s) ∨
  (h, Wrapped n id fn ctx) ∈ current s ∨
  (n = 0 ∧ EvCall id TDefer None ∈ log s) ∨
  (n ≠ 0 ∧ ∃ h', (h', Wrapped (n - 1) id fn ctx) ∈ rafq s).

(** ** Sample states *)


(** Between two frames, with one read queued whose callback submits a
    write whose callback submits a read. *)
Definition relay : state :=
  turn (CallRead (CallWrite (CallRead Ret None Ret) None Ret) None Ret)
       (new false).

(** In the reading phase, with one read queued whose callback submits a
    read. *)
Definition nested_read : state :=
  set_mode (Some Reading) (read (CallRead Ret None Ret) None (new false)).2.

(** ** The scheduler over time *)

(** What a fresh scheduler can become: user code runs in turns between
    animation frames, and the host runs frames. *)
Inductive host_run : state → state → Prop :=
  | host_stay s : host_run s s
  | host_turn c s s' : host_run (turn c s) s' → host_run s s'
  | host_tick s s' : host_run (tick s) s' → host_run s s'.

(** The ids of the callbacks of type [ty] invoked, in order. *)
Definition calls_of (ty : jobtype) (l : list event) : list Z :=
  omap (λ e, match e with
             | EvCall id ty' _ => if decide (ty' = ty) then Some id else None
             | _ => None
             end) l.

(** The jobs of a type that were run, then those that wait, are in the
    order of their ids, which none exceeds [lastId]. *)
Definition fifo (s : state) : Prop :=
  ∀ ty, ty ≠ TDefer →
    StronglySorted Z.lt (calls_of ty (log s) ++ queue ty s) ∧
    ∀ id, id ∈ calls_of ty (log s) ++ queue ty s → id ≤ lastId s.

(** [_remove(list, id)] where [list] is [this.queue[ty]]. *)
Definition _remove (ty : jobtype) (id : Z) (s : state) : state :=
  let s1 := set_queue ty (remove_first id (queue ty s)) s in
  set_jobs (delete id (jobs s1)) s1.

End FastDom.

Module Sandboxed.

(** ** Data model of the bundled variant with [Sandbox] *)

(** What a task's [fn] is: a function of the user, or the closure that
    [Sandbox.prototype.measure] or [mutate] builds around one for the
    sandbox numbered [box]. *)
Inductive callback : Type :=
  | Plain (fn : script)
  | ReadWrapper (box : nat) (fn : script) (ctx : context)
  | WriteWrapper (box : nat) (fn : script) (ctx : context).

(** A task object [{ fn: fn, ctx: ctx }].  Objects are compared by
    identity, for which the allocation number [task_ref] stands. *)
Record task : Type := Task {
  task_ref : Z;
  task_fn : callback;
  task_ctx : context
}.

(** A [Sandbox]: its two arrays of tasks. *)
Record sandbox : Type := Sandbox {
  sb_reads : list task;
  sb_writes : list task
}.

(** The two arrays of the scheduler, [this.reads] and [this.writes]. *)
Inductive kind : Type := Reads | Writes.

#[global] Instance kind_eq_dec : EqDecision kind.
Proof. solve_decision. Defined.

(** A callback pending at the host: [_flush] in the animation-frame queue,
    [_flushReads] in the timer queue. *)
Inductive hostcb : Type := Flush | FlushReads.

(** Observation points, recorded in a ghost log: a task's [fn] was called,
    it threw, [clear] found its task. *)
Inductive event : Type :=
  | EvCall (r : Z)
  | EvFail (r : Z) (e : err)
  | EvClear (r : Z).

#[global] Instance event_eq_dec : EqDecision event.
Proof. solve_decision. Defined.

(** The [FastDom] instance ([reads], [writes], [scheduled],
    [scheduledRead], [catch]), the sandboxes made from it, the allocation
    counter, and the host: its pending callbacks, the failures handed to
    [catch], the failures that reached the host, and the ghost log. *)
Record state : Type := State {
  next_ref : Z;
  reads : list task;
  writes : list task;
  scheduled : bool;
  scheduledRead : bool;
  catch : bool;
  boxes : list sandbox;
  rafq : list hostcb;
  timers : list hostcb;
  handled : list err;
  reported : list err;
  log : list event
}.

(** [new FastDom()] in a fresh host; [h] tells whether [catch] is set. *)
Definition new (h : bool) : state :=
  State 1 [] [] false false h [] [] [] [] [] [].

Definition set_reads (v : list task) (s : state) : state :=
  State (next_ref s) v (writes s) (scheduled s) (scheduledRead s) (catch s)
        (boxes s) (rafq s) (timers s) (handled s) (reported s) (log s).

Definition set_writes (v : list task) (s : state) : state :=
  State (next_ref s) (reads s) v (scheduled s) (scheduledRead s) (catch s)
        (boxes s) (rafq s) (timers s) (handled s) (reported s) (log s).

Definition set_scheduled (v : bool) (s : state) : state :=
  State (next_ref s) (reads s) (writes s) v (scheduledRead s) (catch s)
        (boxes s) (rafq s) (timers s) (handled s) (reported s) (log s).

Definition set_scheduledRead (v : bool) (s : state) : state :=
  State (next_ref s) (reads s) (writes s) (scheduled s) v (catch s)
        (boxes s) (rafq s) (timers s) (handled s) (reported s) (log s).

Definition set_boxes (v : list sandbox) (s : state) : state :=
  State (next_ref s) (reads s) (writes s) (scheduled s) (scheduledRead s)
        (catch s) v (rafq s) (timers s) (handled s) (reported s) (log s).

Definition set_rafq (v : list hostcb) (s : state) : state :=
  State (next_ref s) (reads s) (writes s) (scheduled s) (scheduledRead s)
        (catch s) (boxes s) v (timers s) (handled s) (reported s) (log s).

Definition set_timers (v : list hostcb) (s : state) : state :=
  State (next_ref s) (reads s) (writes s) (scheduled s) (scheduledRead s)
        (catch s) (boxes s) (rafq s) v (handled s) (reported s) (log s).

Definition set_handled (v : list err) (s : state) : state :=
  State (next_ref s) (reads s) (writes s) (scheduled s) (scheduledRead s)
        (catch s) (boxes s) (rafq s) (timers s) v (reported s) (log s).

Definition set_reported (v : list err) (s : state) : state :=
  State (next_ref s) (reads s) (writes s) (scheduled s) (scheduledRead s)
        (catch s) (boxes s) (rafq s) (timers s) (handled s) v (log s).

Definition emit (e : event) (s : state) : state :=
  State (next_ref s) (reads s) (writes s) (scheduled s) (scheduledRead s)
        (catch s) (boxes s) (rafq s) (timers s) (handled s) (reported s)
        (log s ++ [e]).

Definition tasks (k : kind) (s : state) : list task :=
  match k with Reads => reads s | Writes => writes s end.

Definition set_tasks (k : kind) (v : list task) (s : state) : state :=
  match k with Reads => set_reads v s | Writes => set_writes v s end.

(** [array.indexOf(task)]: the first position holding that object. *)
Fixpoint indexOf (r : Z) (l : list task) : option nat :=
  match l with
  | [] => None
  | t :: l' => if decide (task_ref t = r) then Some O
               else S <$> indexOf r l'
  end.

(** ** Methods of [FastDom] *)

(** [scheduleFlush(fastdom)]. *)
Definition scheduleFlush (s : state) : state :=
  if scheduled s then s
  else set_rafq (rafq s ++ [Flush]) (set_scheduled true s).

(** [scheduleReadFlush(fastdom)]. *)
Definition scheduleReadFlush (s : state) : state :=
  if scheduledRead s then s
  else scheduleFlush
         (set_timers (timers s ++ [FlushReads]) (set_scheduledRead true s)).

(** The object literal [{ fn: fn, ctx: ctx }]: a new object. *)
Definition alloc (fn : callback) (ctx : context) (s : state) : task * state :=
  (Task (next_ref s) fn ctx,
   State (next_ref s + 1) (reads s) (writes s) (scheduled s)
         (scheduledRead s) (catch s) (boxes s) (rafq s) (timers s)
         (handled s) (reported s) (log s)).

(** [measure(fn, ctx)], alias [read]. *)
Definition measure (fn : callback) (ctx : context) (s : state) : task * state :=
  let '(t, s1) := alloc fn ctx s in
  (t, scheduleReadFlush (set_reads (reads s1 ++ [t]) s1)).

(** [mutate(fn, ctx)], alias [write]. *)
Definition mutate (fn : callback) (ctx : context) (s : state) : task * state :=
  let '(t, s1) := alloc fn ctx s in
  (t, scheduleFlush (set_writes (writes s1 ++ [t]) s1)).

(** [FastDom.prototype.clear(task)] for the object of identity [r]: it is
    spliced out of [reads] if found there, else out of [writes] if found
    there. *)
Definition clear_ref (r : Z) (s : state) : state :=
  match indexOf r (reads s) with
  | Some i => emit (EvClear r) (set_reads (delete i (reads s)) s)
  | None =>
      match indexOf r (writes s) with
      | Some i => emit (EvClear r) (set_writes (delete i (writes s)) s)
      | None => s
      end
  end.

(** [clear(task)]; [None] is [undefined], found in no array. *)
Definition clear (t : option task) (s : state) : state :=
  match t with
  | None => s
  | Some t => clear_ref (task_ref t) s
  end.

(** ** [Sandbox] *)

(** The loop of [clearAll(fastdom, tasks)]:
    [for (i = 0, l = tasks.length; i < l; i++)] with the body
    [fastdom.clear(tasks[i]); tasks.splice(i, 1)], [n] iterations being
    left.  [tasks[i]] past the end is [undefined]. *)
Fixpoint clearAll_loop (n i : nat) (ts : list task) (s : state)
  : list task * state :=
  match n with
  | O => (ts, s)
  | S n' => clearAll_loop n' (S i) (delete i ts) (clear (ts !! i) s)
  end.

Definition clearAll (ts : list task) (s : state) : list task * state :=
  clearAll_loop (length ts) 0 ts s.

(** [fastdom.sandbox()]. *)
Definition sandbox_new (s : state) : nat * state :=
  (length (boxes s), set_boxes (boxes s ++ [Sandbox [] []]) s).

Definition box (b : nat) (s : state) : sandbox :=
  default (Sandbox [] []) (boxes s !! b).

Definition set_box (b : nat) (v : sandbox) (s : state) : state :=
  set_boxes (<[b := v]> (boxes s)) s.

(** [Sandbox.prototype.measure(fn, ctx)]. *)
Definition sandbox_measure (b : nat) (fn : script) (ctx : context)
    (s : state) : task * state :=
  let '(t, s1) := measure (ReadWrapper b fn ctx) None s in
  (t, set_box b (Sandbox (sb_reads (box b s1) ++ [t]) (sb_writes (box b s1))) s1).

(** [Sandbox.prototype.mutate(fn, ctx)]. *)
Definition sandbox_mutate (b : nat) (fn : script) (ctx : context)
    (s : state) : task * state :=
  let '(t, s1) := mutate (WriteWrapper b fn ctx) None s in
  (t, set_box b (Sandbox (sb_reads (box b s1)) (sb_writes (box b s1) ++ [t])) s1).

(** [Sandbox.prototype.clear(task)]: with a task, [fastdom.clear(task)];
    without, [clearAll] on the writes, then on the reads. *)
Definition sandbox_clear (b : nat) (t : option task) (s : state) : state :=
  match t with
  | Some t => clear (Some t) s
  | None =>
      let '(ws, s1) := clearAll (sb_writes (box b s)) s in
      let s2 := set_box b (Sandbox (sb_reads (box b s1)) ws) s1 in
      let '(rs, s3) := clearAll (sb_reads (box b s2)) s2 in
      set_box b (Sandbox rs (sb_writes (box b s3))) s3
  end.

(** [array.splice(start)] with the one argument [array.indexOf(task)]:
    everything from [start] on is removed; [-1], for a task that is not in
    the array, counts from the end and removes the last element. *)
Definition splice_from (i : option nat) (l : list task) : list task :=
  match i with
  | Some i => take i l
  | None => take (length l - 1) l
  end.

(** ** Running tasks *)

(** A callback of the user run against this variant, which has no
    [defer]: calling it is a [TypeError]. *)
Fixpoint exec (c : script) (s : state) : state * outcome :=
  match c with
  | Ret => (s, Normal)
  | Throw e => (s, Threw (UserError e))
  | CallRead fn ctx k => exec k (measure (Plain fn) ctx s).2
  | CallWrite fn ctx k => exec k (mutate (Plain fn) ctx s).2
  | CallClear r k => exec k (clear_ref r s)
  | CallDefer _ _ _ _ => (s, Threw TypeError)
  end.

(** The body of a task's [fn]: the user's function, or a sandbox's closure
    [reads.splice(reads.indexOf(task)); fn.call(ctx)]. *)
Definition body (t : task) (s : state) : state * outcome :=
  match task_fn t with
  | Plain fn => exec fn s
  | ReadWrapper b fn ctx =>
      let rs := sb_reads (box b s) in
      exec fn (set_box b (Sandbox (splice_from (indexOf (task_ref t) rs) rs)
                                  (sb_writes (box b s))) s)
  | WriteWrapper b fn ctx =>
      let ws := sb_writes (box b s) in
      exec fn (set_box b (Sandbox (sb_reads (box b s))
                                  (splice_from (indexOf (task_ref t) ws) ws)) s)
  end.

(** [task.fn.call(task.ctx)]. *)
Definition call_task (t : task) (s : state) : state * outcome :=
  match body t (emit (EvCall (task_ref t)) s) with
  | (s1, Normal) => (s1, Normal)
  | (s1, Threw e) => (emit (EvFail (task_ref t) e) s1, Threw e)
  end.

(** A bound on the tasks that running a callback can add. *)
Fixpoint cost (c : script) : nat :=
  match c with
  | Ret | Throw _ | CallDefer _ _ _ _ => 0
  | CallRead fn _ k | CallWrite fn _ k => S (cost fn + cost k)
  | CallClear _ k => cost k
  end.

Definition task_cost (t : task) : nat :=
  match task_fn t with
  | Plain fn | ReadWrapper _ fn _ | WriteWrapper _ fn _ => S (cost fn)
  end.

Definition weight (s : state) : nat :=
  sum_list_with task_cost (reads s) + sum_list_with task_cost (writes s).

(** [runTasks(tasks)] where [tasks] is the live array of kind [k]:
    [while (task = tasks.shift()) task.fn.call(task.ctx)]; a task object is
    never falsy, and what a task throws leaves the loop. *)
Fixpoint runTasks_loop (fuel : nat) (k : kind) (s : state)
  : option (state * outcome) :=
  match fuel with
  | O => None
  | S fuel' =>
      match tasks k s with
      | [] => Some (s, Normal)
      | t :: rest =>
          match call_task t (set_tasks k rest s) with
          | (s1, Normal) => runTasks_loop fuel' k s1
          | (s1, Threw e) => Some (s1, Threw e)
          end
      end
  end.

Definition runTasks (k : kind) (s : state) : state * outcome :=
  default (s, Normal) (runTasks_loop (S (weight s)) k s).

(** A thrown value as the condition of [if (error)].  A callback's
    [Throw e] throws the number [e], and of the numbers 0 is the falsy one;
    a [TypeError] is an object. *)
Definition truthy (e : err) : bool :=
  match e with
  | UserError O => false
  | _ => true
  end.

(** The end of [_flushList]: [if (error)], then [this.catch(error)] if
    [catch] is set, else [throw error].  [error] is [undefined] when
    nothing was thrown, and a falsy value that was thrown fails the test
    like it.  The handler is user code, taken to record the failure and
    return. *)
Definition settle (o : outcome) (s : state) : state * outcome :=
  match o with
  | Normal => (s, Normal)
  | Threw e =>
      if truthy e then
        if catch s then (set_handled (handled s ++ [e]) s, Normal)
        else (s, Threw e)
      else (s, Normal)
  end.

(** [_flushList(taskList)]: [runTasks] inside [try], both flags reset, the
    recursive call if tasks are left, whose exception leaves this call at
    once, then [settle]. *)
Fixpoint flushList_loop (fuel : nat) (k : kind) (s : state)
  : option (state * outcome) :=
  match fuel with
  | O => None
  | S fuel' =>
      let '(s1, o) := runTasks k s in
      let s2 := set_scheduledRead false (set_scheduled false s1) in
      match tasks k s2 with
      | [] => Some (settle o s2)
      | _ :: _ =>
          match flushList_loop fuel' k s2 with
          | None => None
          | Some (s3, Threw e) => Some (s3, Threw e)
          | Some (s3, Normal) => Some (settle o s3)
          end
      end
  end.

Definition _flushList (k : kind) (s : state) : state * outcome :=
  default (s, Normal) (flushList_loop (S (weight s)) k s).

(** [_flushReads()]. *)
Definition _flushReads (s : state) : state * outcome :=
  match _flushList Reads s with
  | (s1, Threw e) => (s1, Threw e)
  | (s1, Normal) => (set_scheduledRead false s1, Normal)
  end.

(** [_flush()]. *)
Definition _flush (s : state) : state * outcome :=
  match _flushReads s with
  | (s1, Threw e) => (s1, Threw e)
  | (s1, Normal) =>
      match _flushList Writes s1 with
      | (s2, Threw e) => (s2, Threw e)
      | (s2, Normal) => (set_scheduled false s2, Normal)
      end
  end.

(** ** The host *)

(** An exception that leaves a callback of the host reaches the host's
    error reporting. *)
Definition report (r : state * outcome) : state :=
  match r with
  | (s, Normal) => s
  | (s, Threw e) => set_reported (reported s ++ [e]) s
  end.

Definition run_hostcb (cb : hostcb) (s : state) : state :=
  match cb with
  | Flush => report (_flush s)
  | FlushReads => report (_flushReads s)
  end.

(** One animation frame: the callbacks requested so far are run; those
    requested meanwhile wait for the next frame. *)
Definition frame (s : state) : state :=
  foldl (λ s cb, run_hostcb cb s) (set_rafq [] s) (rafq s).

(** The timers set so far expire. *)
Definition timeout (s : state) : state :=
  foldl (λ s cb, run_hostcb cb s) (set_timers [] s) (timers s).

(** ** Reading the log *)

(** The tasks called, in order. *)
Definition calls (l : list event) : list Z :=
  omap (λ e, match e with EvCall r => Some r | _ => None end) l.

(** What the tasks threw, in order. *)
Definition failures (l : list event) : list err :=
  omap (λ e, match e with EvFail _ x => Some x | _ => None end) l.

(** Of what the tasks threw, the values that pass [if (error)]. *)
Definition truthy_failures (l : list event) : list err :=
  filter (λ e, truthy e = true) (failures l).

(** What running tasks does: from [s] to [s'] the log grew by [ext], no
    failure was handed on, and a task left an array only by being called or
    cleared. *)
Record grows (s s' : state) (ext : list event) : Prop := Grows {
  grows_log : log s' = log s ++ ext;
  grows_catch : catch s' = catch s;
  grows_handled : handled s' = handled s;
  grows_reported : reported s' = reported s;
  grows_kept : ∀ k u, u ∈ tasks k s →
    u ∈ tasks k s' ∨ EvCall (task_ref u) ∈ ext ∨ EvClear (task_ref u) ∈ ext
}.

(** ** Positions in an array *)

(** The elements at the odd positions 1, 3, 5, ... of an array. *)
Fixpoint odds {A} (l : list A) : list A :=
  match l with
  | _ :: b :: l' => b :: odds l'
  | _ => []
  end.

(** The elements at the even positions 0, 2, 4, ... *)
Definition evens {A} (l : list A) : list A :=
  match l with
  | [] => []
  | a :: l' => a :: odds l'
  end.

(** [fastdom.clear] on each task of a list, from left to right. *)
Definition clear_each (ts : list task) (s : state) : state :=
  foldl (λ s t, clear (Some t) s) s ts.

(** ** Transitions *)

(** The state changes made while tasks of the array of kind [k] are run:
    [exec], [runTasks] and [_flushList] are sequences of these. *)
Inductive step (k : kind) : state → state → Prop :=
  | step_measure fn ctx s : step k s (measure fn ctx s).2
  | step_mutate fn ctx s : step k s (mutate fn ctx s).2
  | step_clear r s : step k s (clear_ref r s)
  | step_call t rest s :
      tasks k s = t :: rest →
      step k s (emit (EvCall (task_ref t)) (set_tasks k rest s))
  | step_box b v s : step k s (set_box b v s)
  | step_fail r e s : step k s (emit (EvFail r e) s)
  | step_scheduled_off s : step k s (set_scheduled false s)
  | step_scheduledRead_off s : step k s (set_scheduledRead false s)
  | step_catch e s :
      catch s = true → step k s (set_handled (handled s ++ [e]) s).

(** The same, with what the host and a sandbox do around them. *)
Inductive hstep : state → state → Prop :=
  | hstep_step k s s' : step k s s' → hstep s s'
  | hstep_rafq v s : hstep s (set_rafq v s)
  | hstep_timers v s : hstep s (set_timers v s)
  | hstep_boxes v s : hstep s (set_boxes v s)
  | hstep_report r : hstep r.1 (report r).

(** What a scheduler can become: user code runs in turns, directly or
    through sandboxes, timers expire and the host runs frames. *)
Inductive host_run : state → state → Prop :=
  | host_stay s : host_run s s
  | host_turn c s s' : host_run (report (exec c s)) s' → host_run s s'
  | host_frame s s' : host_run (frame s) s' → host_run s s'
  | host_timeout s s' : host_run (timeout s) s' → host_run s s'
  | host_sandbox s s' : host_run (sandbox_new s).2 s' → host_run s s'
  | host_sandbox_measure b fn ctx s s' :
      host_run (sandbox_measure b fn ctx s).2 s' → host_run s s'
  | host_sandbox_mutate b fn ctx s s' :
      host_run (sandbox_mutate b fn ctx s).2 s' → host_run s s'
  | host_sandbox_clear b t s s' :
      host_run (sandbox_clear b t s) s' → host_run s s'.

(** ** Invariants *)

(** The identities of the tasks in an array, in order. *)
Definition refs (k : kind) (s : state) : list Z := task_ref <$> tasks k s.

(** Each array holds its tasks in the order of their allocation, no task
    is in both arrays, and every task is older than the next allocation. *)
Definition tidy (s : state) : Prop :=
  StronglySorted Z.lt (refs Reads s) ∧ StronglySorted Z.lt (refs Writes s) ∧
  (∀ r, r ∈ refs Reads s → r ∉ refs Writes s) ∧
  ∀ k r, r ∈ refs k s → r < next_ref s.

(** The task of identity [r] has been allocated and waits in no array. *)
Definition absent (r : Z) (s : state) : Prop :=
  r < next_ref s ∧ ∀ k, r ∉ refs k s.

(** A flush is due at the host whenever a flag says so, and whenever a
    read waits. *)
Definition flush_due (s : state) : Prop :=
  (scheduled s = true → Flush ∈ rafq s) ∧
  (scheduledRead s = true → Flush ∈ rafq s) ∧
  (reads s ≠ [] → Flush ∈ rafq s).

(** ** Sample states *)

(** The example of the documentation of [sandbox()]: two tasks through a
    sandbox, two directly. *)
Definition documented_example : state :=
  let '(b, s0) := sandbox_new (new false) in
  let s1 := (sandbox_measure b Ret None s0).2 in
  let s2 := (sandbox_measure b Ret None s1).2 in
  let s3 := (measure (Plain Ret) None s2).2 in
  (measure (Plain Ret) None s3).2.

(** Two reads that throw, a read and a write that return. *)
Definition two_failures (h : bool) : state :=
  let s1 := (measure (Plain (Throw 1)) None (new h)).2 in
  let s2 := (measure (Plain (Throw 2)) None s1).2 in
  let s3 := (measure (Plain Ret) None s2).2 in
  (mutate (Plain Ret) None s3).2.

End Sandboxed.

Module DomBatch.

(** ** Data model of [src/lib/dom-batch.js] *)

(** The two arrays [this.reads] and [this.writes], and the argument
    ['read'] or ['write'] of [request]. *)
Inductive kind : Type := Reads | Writes.

(** [this.mode]: ['reading'] or ['writing']; [null] is [None]. *)
Inductive phase : Type := Reading | Writing.

#[global] Instance kind_eq_dec : EqDecision kind.
Proof. solve_decision. Defined.

#[global] Instance phase_eq_dec : EqDecision phase.
Proof. solve_decision. Defined.

(** What a function handed to this variant does, as far as the scheduler
    can tell: it calls one of the four public methods and goes on, returns,
    or throws.  A function object is named by its identity [r]; [fn] is what
    the function does when it is called. *)
Inductive code : Type :=
  | Done
  | Raise (e : nat)
  | DoRead (r : Z) (fn : code) (k : code)
  | DoWrite (r : Z) (fn : code) (k : code)
  | DoClearRead (r : Z) (k : code)
  | DoClearWrite (r : Z) (k : code).

(** A function object.  The arrays hold the functions themselves, and
    [indexOf] compares them by identity, for which [fn_ref] stands. *)
Record fnobj : Type := Fn {
  fn_ref : Z;
  fn_body : code
}.

(** Observation points, recorded in a ghost log: [run] called a function
    shifted off the array of kind [k], [this.mode] being [m]; [clearRead]
    or [clearWrite] was called for the function [r]. *)
Inductive event : Type :=
  | EvCall (r : Z) (k : kind) (m : option phase)
  | EvClear (r : Z) (k : kind).

#[global] Instance event_eq_dec : EqDecision event.
Proof. solve_decision. Defined.

(** The [DomBatch] instance (first four fields) together with the host:
    the number of frame callbacks waiting, the errors that reached it, and
    the ghost log. *)
Record state : Type := State {
  reads : list fnobj;
  writes : list fnobj;
  mode : option phase;
  pending : bool;
  rafq : nat;
  reported : list err;
  log : list event
}.

(** [new DomBatch()] in a fresh host. *)
Definition new : state := State [] [] None false 0 [] [].

Definition set_reads (v : list fnobj) (s : state) : state :=
  State v (writes s) (mode s) (pending s) (rafq s) (reported s) (log s).

Definition set_writes (v : list fnobj) (s : state) : state :=
  State (reads s) v (mode s) (pending s) (rafq s) (reported s) (log s).

Definition set_mode (v : option phase) (s : state) : state :=
  State (reads s) (writes s) v (pending s) (rafq s) (reported s) (log s).

Definition set_pending (v : bool) (s : state) : state :=
  State (reads s) (writes s) (mode s) v (rafq s) (reported s) (log s).

Definition set_rafq (v : nat) (s : state) : state :=
  State (reads s) (writes s) (mode s) (pending s) v (reported s) (log s).

Definition set_reported (v : list err) (s : state) : state :=
  State (reads s) (writes s) (mode s) (pending s) (rafq s) v (log s).

Definition emit (e : event) (s : state) : state :=
  State (reads s) (writes s) (mode s) (pending s) (rafq s) (reported s)
        (log s ++ [e]).

Definition jobs (k : kind) (s : state) : list fnobj :=
  match k with Reads => reads s | Writes => writes s end.

Definition set_jobs (k : kind) (v : list fnobj) (s : state) : state :=
  match k with Reads => set_reads v s | Writes => set_writes v s end.

(** ** Methods of [DomBatch] *)

(** [request(type)]: the three early returns, the [pending] test, then
    [raf] and [pending = true]. *)
Definition request (k : kind) (s : state) : state :=
  match mode s, k with
  | Some Writing, Writes => s
  | Some Reading, Reads => s
  | Some Reading, Writes => s
  | _, _ =>
      if pending s then s
      else set_pending true (set_rafq (S (rafq s)) s)
  end.

(** [read(fn)]. *)
Definition read (f : fnobj) (s : state) : state :=
  request Reads (set_reads (reads s ++ [f]) s).

(** [write(fn)]. *)
Definition write (f : fnobj) (s : state) : state :=
  request Writes (set_writes (writes s ++ [f]) s).

(** [remove(array, item)], [item] being the function of identity [r]:
    [index = array.indexOf(item); if (~index) array.splice(index, 1)]. *)
Fixpoint remove (r : Z) (l : list fnobj) : list fnobj :=
  match l with
  | [] => []
  | f :: l' => if decide (fn_ref f = r) then l' else f :: remove r l'
  end.

(** [clearRead(fn)], [fn] being the function of identity [r]. *)
Definition clearRead (r : Z) (s : state) : state :=
  emit (EvClear r Reads) (set_reads (remove r (reads s)) s).

(** [clearWrite(fn)]. *)
Definition clearWrite (r : Z) (s : state) : state :=
  emit (EvClear r Writes) (set_writes (remove r (writes s)) s).

(** Running the body of a function against the instance. *)
Fixpoint exec (c : code) (s : state) : state * outcome :=
  match c with
  | Done => (s, Normal)
  | Raise e => (s, Threw (UserError e))
  | DoRead r fn k => exec k (read (Fn r fn) s)
  | DoWrite r fn k => exec k (write (Fn r fn) s)
  | DoClearRead r k => exec k (clearRead r s)
  | DoClearWrite r k => exec k (clearWrite r s)
  end.

(** A bound on the jobs that running a function can add. *)
Fixpoint cost (c : code) : nat :=
  match c with
  | Done | Raise _ => 0
  | DoRead _ fn k | DoWrite _ fn k => S (cost fn + cost k)
  | DoClearRead _ k | DoClearWrite _ k => cost k
  end.

Definition weight (s : state) : nat :=
  sum_list_with (λ f, S (cost (fn_body f))) (reads s) +
  sum_list_with (λ f, S (cost (fn_body f))) (writes s).

(** [list.shift().call(this)] on the array of kind [k], whose first
    element is [f]. *)
Definition call_job (k : kind) (f : fnobj) (rest : list fnobj) (s : state)
  : state * outcome :=
  let s1 := set_jobs k rest s in
  exec (fn_body f) (emit (EvCall (fn_ref f) k (mode s1)) s1).

(** [run(list)] where [list] is the live array of kind [k]:
    [while (list.length) list.shift().call(this)]; nothing is caught. *)
Fixpoint run_loop (fuel : nat) (k : kind) (s : state)
  : option (state * outcome) :=
  match fuel with
  | O => None
  | S fuel' =>
      match jobs k s with
      | [] => Some (s, Normal)
      | f :: rest =>
          match call_job k f rest s with
          | (s1, Normal) => run_loop fuel' k s1
          | (s1, Threw e) => Some (s1, Threw e)
          end
      end
  end.

Definition run (k : kind) (s : state) : state * outcome :=
  default (s, Normal) (run_loop (S (weight s)) k s).

(** [frame()]: what a callback throws leaves [run] and [frame], and
    [this.mode] stays as it is. *)
Definition frame (s : state) : state * outcome :=
  let s1 := set_mode (Some Reading) (set_pending false s) in
  match run Reads s1 with
  | (s2, Threw e) => (s2, Threw e)
  | (s2, Normal) =>
      match run Writes (set_mode (Some Writing) s2) with
      | (s3, Threw e) => (s3, Threw e)
      | (s3, Normal) => (set_mode None s3, Normal)
      end
  end.

(** ** The host *)

Definition report (r : state * outcome) : state :=
  match r with
  | (s, Normal) => s
  | (s, Threw e) => set_reported (reported s ++ [e]) s
  end.

(** One animation frame: the frame callbacks requested so far are run;
    those requested meanwhile wait for the next frame. *)
Definition tick (s : state) : state :=
  Nat.iter (rafq s) (λ s, report (frame s)) (set_rafq 0 s).

(** A synchronous turn of user code outside any frame. *)
Definition turn (c : code) (s : state) : state := report (exec c s).

(** What a scheduler can become: between frames user code calls the four
    public methods, one at a time or in a turn, and the host runs frames. *)
Inductive host_run : state → state → Prop :=
  | host_stay s : host_run s s
  | host_read f s s' : host_run (read f s) s' → host_run s s'
  | host_write f s s' : host_run (write f s) s' → host_run s s'
  | host_clearRead r s s' : host_run (clearRead r s) s' → host_run s s'
  | host_clearWrite r s s' : host_run (clearWrite r s) s' → host_run s s'
  | host_turn c s s' : host_run (turn c s) s' → host_run s s'
  | host_tick s s' : host_run (tick s) s' → host_run s s'.

(** ** Transitions and invariants *)

(** The state changes made while callbacks run in the phase of kind [k]. *)
Inductive step (k : kind) : state → state → Prop :=
  | step_read f s : step k s (read f s)
  | step_write f s : step k s (write f s)
  | step_clearRead r s : step k s (clearRead r s)
  | step_clearWrite r s : step k s (clearWrite r s)
  | step_call f rest s :
      jobs k s = f :: rest →
      step k s (emit (EvCall (fn_ref f) k (mode s)) (set_jobs k rest s)).

(** [pending] says whether a frame callback waits at the host, and there
    is never more than one. *)
Definition sched (s : state) : Prop :=
  rafq s = if pending s then 1%nat else 0%nat.

(** While no frame runs, a frame has been requested for every job. *)
Definition armed (s : state) : Prop :=
  match mode s with
  | None => reads s ≠ [] ∨ writes s ≠ [] → pending s = true
  | Some Writing => reads s ≠ [] → pending s = true
  | Some Reading => True
  end.

(** A frame died in its reading phase and none is requested. *)
Definition wedged (s : state) : Prop :=
  mode s = Some Reading ∧ rafq s = 0%nat.

(** The phase in which [frame] runs the array of a kind. *)
Definition phase_of (k : kind) : phase :=
  match k with Reads => Reading | Writes => Writing end.

(** An event of the phase of kind [k]: a call of a function of the array
    of that kind, made in its mode, or a cancellation. *)
Definition call_in_phase (k : kind) (e : event) : Prop :=
  match e with
  | EvCall _ k' m => k' = k ∧ m = Some (phase_of k)
  | EvClear _ _ => True
  end.

(** An event that is not a call. *)
Definition no_call (e : event) : Prop :=
  match e with EvCall _ _ _ => False | EvClear _ _ => True end.

(** What running callbacks in the phase of kind [k] does: from [s] to [s']
    the log grew by [ext], whose calls are of that phase only; a job left
    an array only by being called, if the array is that of kind [k], or by
    being cancelled. *)
Record grows (k : kind) (s s' : state) (ext : list event) : Prop := Grows {
  grows_log : log s' = log s ++ ext;
  grows_mode : mode s' = mode s;
  grows_reported : reported s' = reported s;
  grows_calls : ∀ e, e ∈ ext →
    (∃ r, e = EvCall r k (mode s)) ∨ (∃ r k', e = EvClear r k');
  grows_kept : ∀ f, f ∈ jobs k s →
    f ∈ jobs k s' ∨ EvCall (fn_ref f) k (mode s) ∈ ext ∨
    EvClear (fn_ref f) k ∈ ext;
  grows_other : ∀ k' f, k' ≠ k → f ∈ jobs k' s →
    f ∈ jobs k' s' ∨ EvClear (fn_ref f) k' ∈ ext
}.

End DomBatch.

Module FastDomFacts.
Import FastDom.

(** ** Termination of the run loop *)

Lemma cost_fold_comm (j1 j2 : job) (y : nat) :
  (cost (job_fn j1) + (cost (job_fn j2) + y) =
   cost (job_fn j2) + (cost (job_fn j1) + y))%nat.
Proof. lia. Qed.

Lemma jobs_cost_delete (m : gmap Z job) id j :
  m !! id = Some j →
  jobs_cost m = (cost (job_fn j) + jobs_cost (delete id m))%nat.
Proof.
  intros H. unfold jobs_cost.
  apply (map_fold_delete_L (λ _ j acc, (cost (job_fn j) + acc)%nat)); [|done].
  intros. apply cost_fold_comm.
Qed.

Lemma jobs_cost_insert_fresh (m : gmap Z job) id j :
  m !! id = None →
  jobs_cost (<[id:=j]> m) = (cost (job_fn j) + jobs_cost m)%nat.
Proof.
  intros H. unfold jobs_cost.
  apply (map_fold_insert_L (λ _ j acc, (cost (job_fn j) + acc)%nat)); [|done].
  intros. apply cost_fold_comm.
Qed.

Lemma jobs_cost_delete_le (m : gmap Z job) id :
  (jobs_cost (delete id m) ≤ jobs_cost m)%nat.
Proof.
  destruct (m !! id) as [j|] eqn:E.
  - rewrite (jobs_cost_delete m id j E). lia.
  - rewrite delete_id by done. lia.
Qed.

Lemma jobs_cost_insert (m : gmap Z job) id j :
  (jobs_cost (<[id:=j]> m) ≤ cost (job_fn j) + jobs_cost m)%nat.
Proof.
  rewrite <- insert_delete_eq.
  rewrite jobs_cost_insert_fresh by apply lookup_delete_eq.
  pose proof (jobs_cost_delete_le m id). lia.
Qed.

Lemma jobs_cost_alter (m : gmap Z job) id (f : job → job) :
  (∀ j, job_fn (f j) = job_fn j) →
  jobs_cost (alter f id m) = jobs_cost m.
Proof.
  intros Hf. destruct (m !! id) as [j|] eqn:E.
  - rewrite (jobs_cost_delete m id j E).
    rewrite (jobs_cost_delete (alter f id m) id (f j)).
    + rewrite Hf. f_equal. f_equal. apply map_eq. intros i.
      destruct (decide (i = id)) as [->|Hne].
      * by rewrite !lookup_delete_eq.
      * rewrite !lookup_delete_ne by done. by rewrite lookup_alter_ne.
    + rewrite lookup_alter_eq, E. done.
  - f_equal. apply map_eq. intros i. rewrite lookup_alter.
    case_decide; subst; [by rewrite E|done].
Qed.

(** The fields touched by each method. *)

Lemma request_fields ty s :
  let s' := _request ty s in
  jobs s' = jobs s ∧ queue_read s' = queue_read s ∧
  queue_write s' = queue_write s ∧ lastId s' = lastId s ∧
  mode s' = mode s ∧ log s' = log s ∧ onError s' = onError s ∧
  handled s' = handled s ∧ reported s' = reported s ∧
  current s' = current s.
Proof.
  unfold _request. destruct s; cbn. repeat case_match; cbn; tauto.
Qed.

Lemma read_fields fn ctx s :
  let s' := (read fn ctx s).2 in
  let id := lastId s + 1 in
  (read fn ctx s).1 = id ∧
  jobs s' = <[id := Job id fn ctx TRead None]> (jobs s) ∧
  queue_read s' = queue_read s ++ [id] ∧
  queue_write s' = queue_write s ∧ lastId s' = id ∧
  mode s' = mode s ∧ log s' = log s ++ [EvAdd id TRead (mode s)] ∧
  onError s' = onError s ∧ handled s' = handled s ∧
  reported s' = reported s ∧ current s' = current s.
Proof.
  unfold read, _add, _uniqueId. cbn.
  match goal with |- context [_request ?t ?x] =>
    pose proof (request_fields t x) as H end.
  cbn in H. tauto.
Qed.

Lemma write_fields fn ctx s :
  let s' := (write fn ctx s).2 in
  let id := lastId s + 1 in
  (write fn ctx s).1 = id ∧
  jobs s' = <[id := Job id fn ctx TWrite None]> (jobs s) ∧
  queue_read s' = queue_read s ∧
  queue_write s' = queue_write s ++ [id] ∧ lastId s' = id ∧
  mode s' = mode s ∧ log s' = log s ++ [EvAdd id TWrite (mode s)] ∧
  onError s' = onError s ∧ handled s' = handled s ∧
  reported s' = reported s ∧ current s' = current s.
Proof.
  unfold write, _add, _uniqueId. cbn.
  match goal with |- context [_request ?t ?x] =>
    pose proof (request_fields t x) as H end.
  cbn in H. tauto.
Qed.

Lemma remove_first_length id l :
  (length (remove_first id l) ≤ length l)%nat.
Proof. induction l; cbn; [lia|]. case_decide; cbn; lia. Qed.

Lemma clear_weight ty id s : (weight ty (clear id s) ≤ weight ty s)%nat.
Proof.
  unfold clear, weight. destruct (jobs s !! id) as [j|]; [|lia].
  destruct (job_type j) eqn:Et.
  - cbn. pose proof (jobs_cost_delete_le (jobs s) id).
    pose proof (remove_first_length id (queue_read s)).
    destruct ty; cbn; lia.
  - cbn. pose proof (jobs_cost_delete_le (jobs s) id).
    pose proof (remove_first_length id (queue_write s)).
    destruct ty; cbn; lia.
  - destruct (job_timer j), ty; cbn; lia.
Qed.

Lemma weight_exec c : ∀ ty s,
  (weight ty (exec c s).1 ≤ weight ty s + cost c)%nat.
Proof.
  induction c as [|e|fn IHfn ctx k IHk|fn IHfn ctx k IHk|id k IHk
                  |frames fn IHfn ctx k IHk]; intros ty s; cbn [exec cost].
  - cbn. lia.
  - cbn. lia.
  - specialize (IHk ty (read fn ctx s).2).
    destruct (read_fields fn ctx s) as (_ & Hj & Hr & Hw & _).
    pose proof (jobs_cost_insert (jobs s) (lastId s + 1)
                  (Job (lastId s + 1) fn ctx TRead None)) as Hc.
    unfold weight in *. rewrite Hj in IHk.
    destruct ty; cbn [queue] in *; rewrite ?Hr, ?Hw, ?length_app in IHk;
      cbn in *; lia.
  - specialize (IHk ty (write fn ctx s).2).
    destruct (write_fields fn ctx s) as (_ & Hj & Hr & Hw & _).
    pose proof (jobs_cost_insert (jobs s) (lastId s + 1)
                  (Job (lastId s + 1) fn ctx TWrite None)) as Hc.
    unfold weight in *. rewrite Hj in IHk.
    destruct ty; cbn [queue] in *; rewrite ?Hr, ?Hw, ?length_app in IHk;
      cbn in *; lia.
  - specialize (IHk ty (clear id s)). pose proof (clear_weight ty id s). lia.
  - unfold defer_with. case_decide as Hneg.
    { specialize (IHk ty s). lia. }
    unfold _add, _uniqueId, wrapped. cbn.
    pose proof (jobs_cost_insert (jobs s) (lastId s + 1)
                  (Job (lastId s + 1) fn None TDefer None)) as Hc.
    case_decide as Hz.
    + match goal with |- context [exec fn ?x] =>
        specialize (IHfn ty x); destruct (exec fn x) as [s1 [|e]] end.
      * specialize (IHk ty s1). unfold weight in *.
        destruct ty; cbn in *; lia.
      * unfold weight in *. destruct ty; cbn in *; lia.
    + cbn.
      match goal with |- context [exec k ?x] => specialize (IHk ty x) end.
      unfold weight in *. unfold set_timer in *. cbn in IHk.
      rewrite jobs_cost_alter in IHk by done.
      destruct ty; cbn in *; lia.
Qed.

Lemma catch_run_fields id o s :
  let s' := catch_run id o s in
  jobs s' = jobs s ∧ queue_read s' = queue_read s ∧
  queue_write s' = queue_write s ∧ lastId s' = lastId s ∧
  mode s' = mode s ∧ onError s' = onError s ∧
  reported s' = reported s ∧ current s' = current s ∧ rafq s' = rafq s ∧
  next_handle s' = next_handle s ∧ pending s' = pending s.
Proof. destruct o, s; cbn; [tauto|]. case_match; cbn; tauto. Qed.

Lemma queue_set_queue ty l s : ty ≠ TDefer → queue ty (set_queue ty l s) = l.
Proof. by destruct ty. Qed.

Lemma jobs_set_queue ty l s : jobs (set_queue ty l s) = jobs s.
Proof. by destruct ty. Qed.

Lemma queue_cons_not_defer ty s id rest : queue ty s = id :: rest → ty ≠ TDefer.
Proof. by destruct ty. Qed.

Lemma run_job_weight ty s id rest j :
  queue ty s = id :: rest →
  jobs s !! id = Some j →
  (weight ty (run_job id j (set_queue ty rest s)) < weight ty s)%nat.
Proof.
  intros Hq Hj. unfold run_job, take_job.
  match goal with |- context [exec ?c ?x] =>
    pose proof (weight_exec c ty x) as Hw; destruct (exec c x) as [s3 o] end.
  cbn [fst] in Hw.
  destruct (catch_run_fields id o s3) as (Hcj & Hcr & Hcw & _).
  pose proof (jobs_cost_delete (jobs s) id j Hj) as Hd.
  unfold weight in *. rewrite Hcj.
  assert (queue ty (catch_run id o s3) = queue ty s3) as -> by (by destruct ty).
  rewrite Hq. destruct ty; [| |done]; cbn in *; subst; cbn in *; lia.
Qed.

Lemma run_loop_enough ty : ∀ fuel s,
  (weight ty s < fuel)%nat →
  ∃ r, ∀ fuel', (weight ty s < fuel')%nat → run_loop fuel' ty s = Some r.
Proof.
  induction fuel as [|fuel IH]; intros s Hlt; [lia|].
  destruct (queue ty s) as [|id rest] eqn:Hq.
  { exists (s, Normal). intros [|f] ?; [lia|]. cbn. by rewrite Hq. }
  destruct (decide (id = 0)) as [Hz|Hz].
  { exists (set_queue ty rest s, Normal). intros [|f] ?; [lia|].
    cbn. rewrite Hq. by rewrite decide_True. }
  destruct (jobs s !! id) as [j|] eqn:Hj.
  - pose proof (run_job_weight ty s id rest j Hq Hj) as Hw.
    destruct (IH (run_job id j (set_queue ty rest s))) as [r Hr]; [lia|].
    exists r. intros [|f] ?; [lia|]. cbn. rewrite Hq.
    rewrite decide_False by done. rewrite jobs_set_queue, Hj.
    apply Hr. lia.
  - exists (set_queue ty rest s, Threw TypeError). intros [|f] ?; [lia|].
    cbn. rewrite Hq. rewrite decide_False by done.
    by rewrite jobs_set_queue, Hj.
Qed.

Lemma run_loop_run ty s fuel :
  (weight ty s < fuel)%nat → run_loop fuel ty s = Some (_run ty s).
Proof.
  intros Hlt. destruct (run_loop_enough ty fuel s Hlt) as [r Hr].
  unfold _run. rewrite (Hr (S (weight ty s))) by lia. by apply Hr.
Qed.

(** The loop of [_run], as the source writes it. *)
Lemma _run_eq ty s :
  _run ty s =
  match queue ty s with
  | [] => (s, Normal)
  | id :: rest =>
      let s1 := set_queue ty rest s in
      if decide (id = 0) then (s1, Normal)
      else match jobs s1 !! id with
           | None => (s1, Threw TypeError)
           | Some j => _run ty (run_job id j s1)
           end
  end.
Proof.
  pose proof (run_loop_run ty s (S (weight ty s))) as H.
  cbn [run_loop] in H. specialize (H ltac:(lia)).
  destruct (queue ty s) as [|id rest] eqn:Hq; [congruence|].
  cbn zeta in *. destruct (decide (id = 0)); [congruence|].
  rewrite jobs_set_queue in *.
  destruct (jobs s !! id) as [j|] eqn:Hj; [|congruence].
  pose proof (run_job_weight ty s id rest j Hq Hj) as Hw.
  rewrite run_loop_run in H by lia. congruence.
Qed.

(** Induction along the iterations of the loop. *)
Lemma _run_ind ty (P : state → state * outcome → Prop) :
  (∀ s, queue ty s = [] → P s (s, Normal)) →
  (∀ s rest, queue ty s = 0 :: rest → P s (set_queue ty rest s, Normal)) →
  (∀ s id rest, queue ty s = id :: rest → id ≠ 0 → jobs s !! id = None →
     P s (set_queue ty rest s, Threw TypeError)) →
  (∀ s id rest j, queue ty s = id :: rest → id ≠ 0 → jobs s !! id = Some j →
     let s' := run_job id j (set_queue ty rest s) in
     P s' (_run ty s') → P s (_run ty s')) →
  ∀ s, P s (_run ty s).
Proof.
  intros Hnil Hzero Hmiss Hstep s.
  remember (weight ty s) as n eqn:Hn. revert s Hn.
  induction n as [n IH] using lt_wf_ind. intros s ->.
  rewrite _run_eq. destruct (queue ty s) as [|id rest] eqn:Hq; [by apply Hnil|].
  cbn zeta. destruct (decide (id = 0)) as [->|Hz]; [by apply Hzero|].
  rewrite jobs_set_queue.
  destruct (jobs s !! id) as [j|] eqn:Hj; [|by apply (Hmiss s id rest)].
  apply Hstep; try done.
  eapply IH; [|done]. by apply (run_job_weight ty s id rest j).
Qed.

(** ** The invariant is kept by every transition *)

#[local] Arguments call_ids : simpl never.
#[local] Set Warnings "-clear-no-such-hyp".

Lemma elem_of_call_ids id l :
  id ∈ call_ids l ↔ ∃ ty m, EvCall id ty m ∈ l.
Proof.
  unfold call_ids. rewrite list_elem_of_omap. split.
  - intros (e & He & Hid). destruct e; simplify_eq. eauto.
  - intros (ty & m & He). eauto.
Qed.

Lemma call_ids_snoc l e :
  call_ids (l ++ [e]) =
  call_ids l ++ match e with EvCall id _ _ => [id] | _ => [] end.
Proof. unfold call_ids. rewrite omap_app. by destruct e. Qed.

Lemma call_ids_app l1 l2 : call_ids (l1 ++ l2) = call_ids l1 ++ call_ids l2.
Proof. apply omap_app. Qed.

Lemma failures_app l1 l2 : failures (l1 ++ l2) = failures l1 ++ failures l2.
Proof. apply omap_app. Qed.

Lemma request_cases ty s :
  _request ty s = s ∨
  _request ty s =
    set_pending true (set_next_handle (S (next_handle s))
      (set_rafq (rafq s ++ [(next_handle s, FrameCb)]) s)) ∧
  pending s = false.
Proof.
  unfold _request, raf. destruct s; cbn. repeat case_match; cbn; auto.
Qed.

Lemma entries_raf (rq cur : list (nat * rafcb)) e x :
  x ∈ (rq ++ [e]) ++ cur ↔ x = e ∨ x ∈ rq ++ cur.
Proof. rewrite !elem_of_app, list_elem_of_singleton. tauto. Qed.

Lemma entries_raf_nodup (rq cur : list (nat * rafcb)) e :
  e.1 ∉ (rq ++ cur).*1 → NoDup (rq ++ cur).*1 → NoDup ((rq ++ [e]) ++ cur).*1.
Proof.
  intros Hn Hd.
  assert ((rq ++ [e]) ++ cur ≡ₚ e :: (rq ++ cur)) as ->.
  { rewrite <- app_assoc. cbn. by rewrite <- Permutation_middle. }
  cbn. by apply NoDup_cons.
Qed.

Lemma fresh_handle s :
  (∀ h cb, (h, cb) ∈ rafq s ++ current s → (h < next_handle s)%nat) →
  next_handle s ∉ (rafq s ++ current s).*1.
Proof.
  intros Hh Hin. apply list_elem_of_fmap in Hin as ([h cb] & Heq & Hin).
  apply Hh in Hin. cbn in Heq. lia.
Qed.

Lemma wf_request ty s : wf s → wf (_request ty s).
Proof.
  intros Hwf. destruct (request_cases ty s) as [->|[-> Hp]]; [done|].
  destruct Hwf as [? ? ? ? ? ? ? ? ? Hh Hnd Hw Ht ?].
  constructor; cbn; try done.
  - intros h cb [[= -> ->]|Hin]%entries_raf; [lia|].
    apply Hh in Hin. lia.
  - apply entries_raf_nodup; [|done]. by apply fresh_handle.
  - intros h n id fn ctx [?|Hin]%entries_raf; [done|]. eauto.
  - intros id j h Hj Htm. destruct (Ht id j h Hj Htm) as [Hlt Hcb].
    split; [lia|]. intros cb [?|Hin]%entries_raf; [|eauto].
    simplify_eq. lia.
Qed.

Lemma wf_set_mode m s : wf s → wf (set_mode m s).
Proof. intros []. by constructor. Qed.

Lemma wf_report r : wf r.1 → wf (report r).
Proof. destruct r as [s [|e]]; [done|]. intros []. by constructor. Qed.

Lemma fresh_not_logged s e : wf s → ev_id e = lastId s + 1 → e ∉ log s.
Proof. intros Hwf He Hin. apply (wf_log _ Hwf) in Hin. lia. Qed.

Lemma fresh_not_called s : wf s → ¬ called (lastId s + 1) (log s).
Proof.
  intros Hwf (ty & m & Hin).
  by apply (fresh_not_logged s _ Hwf) in Hin.
Qed.

Lemma fresh_not_job s : wf s → jobs s !! (lastId s + 1) = None.
Proof.
  intros Hwf. destruct (jobs s !! (lastId s + 1)) eqn:E; [|done].
  apply (wf_jobs _ Hwf) in E. lia.
Qed.

Lemma fresh_not_queued s ty : wf s → lastId s + 1 ∉ queue ty s.
Proof.
  intros Hwf Hin. apply (wf_queue _ Hwf) in Hin as [(j & Hj & _) _].
  rewrite fresh_not_job in Hj; done.
Qed.

Lemma elem_of_snoc {A} (l : list A) (e x : A) : x ∈ l ++ [e] ↔ x ∈ l ∨ x = e.
Proof. rewrite elem_of_app, list_elem_of_singleton. tauto. Qed.

Lemma called_snoc id l e :
  called id (l ++ [e]) ↔ called id l ∨ ∃ ty m, e = EvCall id ty m.
Proof.
  unfold called. split.
  - intros (ty & m & [H| <-]%elem_of_snoc); eauto.
  - intros [(ty & m & H)|(ty & m & ->)]; exists ty, m; apply elem_of_snoc; auto.
Qed.

Lemma queue_enqueue ty ty' i id s :
  ty ≠ TDefer →
  i ∈ queue ty' (set_queue ty (queue ty s ++ [id]) s) ↔
  i ∈ queue ty' s ∨ (ty' = ty ∧ i = id).
Proof.
  intros Hty. destruct ty, ty'; cbn;
    rewrite ?elem_of_app, ?list_elem_of_singleton; try tauto;
    split; intros; destruct_or?; destruct_and?; auto; try done.
Qed.

Lemma wf_enqueue ty fn ctx s :
  ty ≠ TDefer → wf s →
  let s1 := (_add ty fn ctx s).2 in
  wf (set_queue ty (queue ty s1 ++ [lastId s + 1]) s1).
Proof.
  intros Hty Hwf. cbn zeta.
  pose proof (fresh_not_job s Hwf) as Hfj.
  pose proof (fresh_not_called s Hwf) as Hfc.
  pose proof (λ ty, fresh_not_queued s ty Hwf) as Hfq.
  pose proof (λ e, fresh_not_logged s e Hwf) as Hfl.
  destruct Hwf as [Hl Hj Hq Hnd Hlog Hunc Hadd Honce Hcm Hh Hhnd Hw Ht Hg].
  set (id := lastId s + 1) in *.
  set (j := Job id fn ctx ty None).
  set (s1 := (_add ty fn ctx s).2).
  set (s' := set_queue ty (queue ty s1 ++ [id]) s1).
  assert (lastId s' = id) as Es_last by (by destruct ty).
  assert (jobs s' = <[id := j]> (jobs s)) as Es_jobs by (by destruct ty).
  assert (log s' = log s ++ [EvAdd id ty (mode s)]) as Es_log by (by destruct ty).
  assert (rafq s' = rafq s) as Es_rafq by (by destruct ty).
  assert (current s' = current s) as Es_cur by (by destruct ty).
  assert (next_handle s' = next_handle s) as Es_nh by (by destruct ty).
  assert (∀ ty' i, i ∈ queue ty' s' ↔ i ∈ queue ty' s ∨ (ty' = ty ∧ i = id))
    as Es_q.
  { intros. unfold s'. rewrite queue_enqueue by done.
    assert (queue ty' s1 = queue ty' s) as -> by (by destruct ty'). done. }
  assert (∀ ty', NoDup (queue ty' s')) as Es_nd.
  { intros ty'. pose proof (Hnd TRead) as HnR. pose proof (Hnd TWrite) as HnW.
    pose proof (Hfq TRead) as HfR. pose proof (Hfq TWrite) as HfW.
    destruct ty, ty'; cbn in *; try done; try apply NoDup_nil_2;
      apply NoDup_app; (split; [done|]); (split; [|apply NoDup_singleton]);
      by intros x Hx ->%list_elem_of_singleton. }
  clearbody s'. clear s1.
  constructor; rewrite ?Es_last, ?Es_jobs, ?Es_log, ?Es_rafq, ?Es_cur, ?Es_nh;
    try done.
  - lia.
  - intros i j'. rewrite lookup_insert. case_decide; [intros; simplify_eq; lia|].
    intros H'%Hj. lia.
  - intros ty' i [Hi|[-> ->]]%Es_q.
    + destruct (Hq _ _ Hi) as [(j' & Hj' & Hty') [m Hm]]. split.
      * exists j'. rewrite lookup_insert_ne; [done|]. intros <-. congruence.
      * exists m. apply elem_of_snoc. auto.
    + split; [exists j; by rewrite lookup_insert_eq|].
      exists (mode s). apply elem_of_snoc. auto.
  - intros e [He| ->]%elem_of_snoc; [apply Hlog in He; lia|cbn; lia].
  - intros i j'. rewrite lookup_insert. case_decide.
    + intros [= <-] _. subst i. split.
      * intros [Hc|(? & ? & ?)]%called_snoc; [done|done].
      * intros [Hc|Hc]%elem_of_snoc; [|done]. by apply Hfl in Hc.
    + intros Hj' Hty'. destruct (Hunc _ _ Hj' Hty') as [Hc1 Hc2]. split.
      * intros [Hc|(? & ? & ?)]%called_snoc; [done|done].
      * intros [Hc|Hc]%elem_of_snoc; [done|done].
  - intros i ty' m [Hi|Hi]%elem_of_snoc Hty'.
    + destruct (Hadd _ _ _ Hi Hty') as [H'|[(m' & H')|H']].
      * left. apply Es_q. auto.
      * right. left. exists m'. apply elem_of_snoc. auto.
      * right. right. apply elem_of_snoc. auto.
    + simplify_eq. left. apply Es_q. auto.
  - rewrite call_ids_snoc. cbn. by rewrite app_nil_r.
  - intros i ty' m [Hi|Hi]%elem_of_snoc; [eauto|done].
  - intros h n i fn' ctx' Hin. destruct (Hw _ _ _ _ _ Hin) as (Hn & Hc & j' & Hj' & Hx).
    split; [done|]. split.
    + intros [Hc'|(? & ? & ?)]%called_snoc; [done|done].
    + exists j'. rewrite lookup_insert_ne; [done|]. intros <-. congruence.
  - intros i j' h. rewrite lookup_insert. case_decide.
    + intros [= <-]. done.
    + apply Ht.
  - intros i ty' m [Hi|Hi]%elem_of_snoc Hty'; [|done].
    rewrite lookup_insert_ne; [eauto|]. intros <-. by apply Hfl in Hi.
Qed.

(** States that differ only in the callbacks pending at the host. *)
Lemma wf_entries_shrink s s' :
  wf s →
  lastId s' = lastId s → jobs s' = jobs s →
  queue_read s' = queue_read s → queue_write s' = queue_write s →
  log s' = log s → next_handle s' = next_handle s →
  (∀ x, x ∈ rafq s' ++ current s' → x ∈ rafq s ++ current s) →
  NoDup (rafq s' ++ current s').*1 →
  wf s'.
Proof.
  intros [Hl Hj Hq Hnd Hlog Hunc Hadd Honce Hcm Hh Hhnd Hw Ht Hg]
    El Ej Er Ew Elog Enh Hsub Hnd'.
  assert (∀ ty, queue ty s' = queue ty s) as Eq
    by (intros []; cbn; congruence).
  constructor; rewrite ?El, ?Ej, ?Elog, ?Enh; try done.
  - intros ty id. rewrite Eq. apply Hq.
  - intros ty. rewrite Eq. apply Hnd.
  - intros id ty m. rewrite Eq. apply Hadd.
  - intros h cb Hin%Hsub. eauto.
  - intros h n id fn ctx Hin%Hsub. eauto.
  - intros id j h Hj' Htm. destruct (Ht id j h Hj' Htm) as [? Hcb].
    split; [done|]. intros cb Hin%Hsub. eauto.
Qed.

Lemma wf_pop_current s e rest :
  wf s → current s = e :: rest → wf (set_current rest s).
Proof.
  intros Hwf Hc. apply (wf_entries_shrink s); try done; cbn.
  - intros x. rewrite Hc, !elem_of_app, elem_of_cons. tauto.
  - pose proof (wf_handles_nodup _ Hwf) as Hnd. rewrite Hc in Hnd.
    rewrite fmap_app in *. cbn in Hnd.
    apply NoDup_app in Hnd as (H1 & H2 & H3). apply NoDup_cons in H3 as [_ H3].
    apply NoDup_app. split_and!; [done| |done].
    intros x Hx Hx'. apply (H2 x Hx). by apply elem_of_cons; right.
Qed.

Lemma wf_tick_begin s :
  wf s → current s = [] → wf (set_current (rafq s) (set_rafq [] s)).
Proof.
  intros Hwf Hc. apply (wf_entries_shrink s); try done; cbn.
  - intros x. rewrite Hc, app_nil_r. done.
  - pose proof (wf_handles_nodup _ Hwf) as Hnd. by rewrite Hc, app_nil_r in Hnd.
Qed.

Lemma drop_handle_app h l1 l2 :
  drop_handle h l1 ++ drop_handle h l2 = drop_handle h (l1 ++ l2).
Proof. unfold drop_handle. by rewrite filter_app. Qed.

Lemma wf_caf h s : wf s → wf (caf h s).
Proof.
  intros Hwf. destruct h as [h|]; [|done].
  apply (wf_entries_shrink s); try done; cbn; rewrite drop_handle_app.
  - intros x Hx. unfold drop_handle in Hx. by apply list_elem_of_filter in Hx as [_ ?].
  - eapply sublist_NoDup; [apply (wf_handles_nodup _ Hwf)|].
    apply fmap_sublist, sublist_filter.
Qed.

(** Appending an event that concerns no queued job. *)
Lemma wf_emit e s :
  wf s → 0 < ev_id e ≤ lastId s →
  match e with
  | EvAdd _ _ _ => False
  | EvCall id ty _ =>
      ty = TDefer ∧ ¬ called id (log s) ∧
      (∀ j, jobs s !! id = Some j → job_type j = TDefer) ∧
      ∀ h n fn ctx, (h, Wrapped n id fn ctx) ∉ rafq s ++ current s
  | EvClear id => ∀ j, jobs s !! id = Some j → job_type j = TDefer
  | EvFail _ _ => True
  end →
  wf (emit e s).
Proof.
  intros [Hl Hj Hq Hnd Hlog Hunc Hadd Honce Hcm Hh Hhnd Hw Ht Hg] Hid He.
  constructor; cbn; try done.
  - intros ty i Hi. destruct (Hq ty i) as [? [m Hm]]; [by destruct ty|].
    split; [done|]. exists m. apply elem_of_snoc. auto.
  - intros x [Hx| ->]%elem_of_snoc; [eauto|done].
  - intros i j Hj' Hty. destruct (Hunc i j Hj' Hty) as [H1 H2]. split.
    + intros [?|(ty & m & ->)]%called_snoc; [done|].
      destruct He as (-> & _ & He & _). by apply He in Hj'.
    + intros [?| <-]%elem_of_snoc; [done|]. by apply He in Hj'.
  - intros i ty m [Hi| <-]%elem_of_snoc Hty; [|done].
    destruct (Hadd i ty m Hi Hty) as [H'|[(m' & H')|H']].
    + left. by destruct ty.
    + right. left. exists m'. apply elem_of_snoc. auto.
    + right. right. apply elem_of_snoc. auto.
  - rewrite call_ids_snoc. destruct e; rewrite ?app_nil_r; try done.
    apply NoDup_app. split_and!; [done| |apply NoDup_singleton].
    intros x Hx ->%list_elem_of_singleton. destruct He as (_ & He & _).
    by apply He, elem_of_call_ids.
  - intros i ty m [Hi| <-]%elem_of_snoc Hty; [eauto|]. by destruct He.
  - intros h n i fn ctx Hin. destruct (Hw _ _ _ _ _ Hin) as (? & Hc & ?).
    split_and!; [done| |done]. intros [?|(ty & m & ->)]%called_snoc; [done|].
    destruct He as (_ & _ & _ & He). by apply He in Hin.
  - intros i ty m [Hi| <-]%elem_of_snoc Hty; [eauto|]. by destruct He.
Qed.

Lemma wf_catch_run id o s : wf s → 0 < id ≤ lastId s → wf (catch_run id o s).
Proof.
  intros Hwf Hid. destruct o as [|e]; [done|].
  pose proof (wf_emit (EvFail id e) s Hwf Hid I) as Hwf'.
  unfold catch_run. destruct (onError (emit (EvFail id e) s)); [|done].
  destruct Hwf'. by constructor.
Qed.

Lemma wf_add_defer fn ctx s : wf s → wf (_add TDefer fn ctx s).2.
Proof.
  intros Hwf.
  pose proof (fresh_not_job s Hwf) as Hfj.
  pose proof (fresh_not_called s Hwf) as Hfc.
  pose proof (λ ty, fresh_not_queued s ty Hwf) as Hfq.
  pose proof (λ e, fresh_not_logged s e Hwf) as Hfl.
  destruct Hwf as [Hl Hj Hq Hnd Hlog Hunc Hadd Honce Hcm Hh Hhnd Hw Ht Hg].
  set (id := lastId s + 1) in *.
  constructor; cbn; fold id; try done.
  - lia.
  - intros i j'. rewrite lookup_insert. case_decide; [intros; simplify_eq; lia|].
    intros H'%Hj. lia.
  - intros ty i Hi. destruct (Hq ty i) as [(j' & Hj' & Hty') [m Hm]]; [by destruct ty|].
    split.
    + exists j'. rewrite lookup_insert_ne; [done|]. intros <-. congruence.
    + exists m. apply elem_of_snoc. auto.
  - intros e [He| ->]%elem_of_snoc; [apply Hlog in He; lia|cbn; lia].
  - intros i j'. rewrite lookup_insert. case_decide; [by intros [= <-]|].
    intros Hj' Hty'. destruct (Hunc _ _ Hj' Hty') as [Hc1 Hc2]. split.
    + intros [Hc|(? & ? & ?)]%called_snoc; done.
    + intros [Hc|Hc]%elem_of_snoc; done.
  - intros i ty' m [Hi|Hi]%elem_of_snoc Hty'; [|by simplify_eq].
    destruct (Hadd _ _ _ Hi Hty') as [H'|[(m' & H')|H']].
    + left. by destruct ty'.
    + right. left. exists m'. apply elem_of_snoc. auto.
    + right. right. apply elem_of_snoc. auto.
  - rewrite call_ids_snoc. cbn. by rewrite app_nil_r.
  - intros i ty' m [Hi|Hi]%elem_of_snoc; [eauto|done].
  - intros h n i fn' ctx' Hin. destruct (Hw _ _ _ _ _ Hin) as (Hn & Hc & j' & Hj' & Hx).
    split; [done|]. split.
    + intros [Hc'|(? & ? & ?)]%called_snoc; done.
    + exists j'. rewrite lookup_insert_ne; [done|]. intros <-. congruence.
  - intros i j' h. rewrite lookup_insert. case_decide.
    + intros [= <-]. done.
    + apply Ht.
  - intros i ty' m [Hi|Hi]%elem_of_snoc Hty'; [|done].
    rewrite lookup_insert_ne; [eauto|]. intros <-. by apply Hfl in Hi.
Qed.

Lemma add_defer_fields fn ctx s :
  let s' := (_add TDefer fn ctx s).2 in
  lastId s' = lastId s + 1 ∧
  jobs s' = <[lastId s + 1 := Job (lastId s + 1) fn ctx TDefer None]> (jobs s) ∧
  log s' = log s ++ [EvAdd (lastId s + 1) TDefer (mode s)] ∧
  rafq s' = rafq s ∧ current s' = current s ∧ mode s' = mode s.
Proof. done. Qed.

(** The state in which [defer] calls [fn] at once. *)
Lemma wf_defer_now fn s :
  wf s →
  wf (let s1 := (_add TDefer fn None s).2 in
      emit (EvCall (lastId s + 1) TDefer (mode s1)) s1).
Proof.
  intros Hwf. cbn zeta.
  pose proof (wf_add_defer fn None s Hwf) as Hwf1.
  destruct (add_defer_fields fn None s) as (Hl & Hj & Hlog & Hr & Hc & _).
  apply wf_emit; [done|cbn; pose proof (wf_lastId _ Hwf); lia|].
  split_and!; [done| | |].
  - rewrite Hlog. intros [Hc'|(? & ? & ?)]%called_snoc; [|done].
    by apply (fresh_not_called s Hwf).
  - rewrite Hj. intros j. rewrite lookup_insert_eq. by intros [= <-].
  - rewrite Hr, Hc. intros h n fn' ctx' Hin.
    apply (wf_wrapped _ Hwf) in Hin as (_ & _ & j & Hj' & _).
    by rewrite (fresh_not_job s Hwf) in Hj'.
Qed.

Lemma lookup_set_timer id h i j (m : gmap Z job) :
  alter (λ j, Job (job_id j) (job_fn j) (job_ctx j) (job_type j) (Some h)) id m
    !! i = Some j →
  ∃ j0, m !! i = Some j0 ∧ job_type j = job_type j0 ∧
        (i ≠ id → j = j0) ∧ (i = id → job_timer j = Some h).
Proof.
  rewrite lookup_alter. case_decide as Hd.
  - subst. destruct (m !! i) as [j0|]; [|done]. intros [= <-]. exists j0. done.
  - intros ->. exists j. done.
Qed.

(** Requesting the next run of [wrapped] for a deferred job that has no
    run pending. *)
Lemma wf_rearm frames id fn ctx s j :
  wf s → 0 < frames →
  jobs s !! id = Some j → job_type j = TDefer →
  ¬ called id (log s) →
  (∀ h n fn ctx, (h, Wrapped n id fn ctx) ∉ rafq s ++ current s) →
  wf (rearm frames id fn ctx s).
Proof.
  intros Hwf Hfr Hjid Htyj Hnc Hnw.
  pose proof (fresh_handle s (wf_handles _ Hwf)) as Hfh.
  destruct Hwf as [Hl Hj Hq Hnd Hlog Hunc Hadd Honce Hcm Hh Hhnd Hw Ht Hg].
  constructor; cbn; try done.
  - intros i j' (j0 & Hj0 & _)%lookup_set_timer. eauto.
  - intros ty i Hi. destruct (Hq ty i) as [(j' & Hj' & Hty') Hm]; [by destruct ty|].
    split; [|done]. destruct (decide (i = id)) as [->|Hne].
    + rewrite lookup_alter_eq, Hj'. eexists; split; [done|]. done.
    + exists j'. by rewrite lookup_alter_ne.
  - intros i j' (j0 & Hj0 & Hty & _)%lookup_set_timer. rewrite Hty. eauto.
  - intros h cb [[= -> ->]|Hin]%entries_raf; [lia|].
    apply Hh in Hin. lia.
  - by apply entries_raf_nodup.
  - intros h n i fn' ctx' [[= -> -> -> -> ->]|Hin]%entries_raf.
    + split_and!; [lia|done|]. rewrite lookup_alter_eq, Hjid. eexists. done.
    + destruct (Hw _ _ _ _ _ Hin) as (? & ? & j' & Hj' & ? & ?).
      split_and!; [done|done|]. exists j'. rewrite lookup_alter_ne; [done|].
      intros <-. by apply Hnw in Hin.
  - intros i j' h (j0 & Hj0 & Hty & Hne & Heq)%lookup_set_timer Htm.
    destruct (decide (i = id)) as [->|Hd].
    + rewrite Heq in Htm by done. simplify_eq. split; [lia|].
      intros cb [[= ->]|Hin]%entries_raf; [eauto|].
      apply Hh in Hin. lia.
    + rewrite Hne in Htm by done. destruct (Ht _ _ _ Hj0 Htm) as [Hlt Hcb].
      split; [lia|]. intros cb [[= -> ->]|Hin]%entries_raf; [lia|eauto].
  - intros i ty m Hi Hty. rewrite lookup_alter. case_decide; [subst|eauto].
    by rewrite (Hg _ _ _ Hi Hty).
Qed.

Lemma wf_defer_later frames fn ctx s :
  wf s → 0 < frames →
  wf (rearm frames (lastId s + 1) fn ctx (_add TDefer fn None s).2).
Proof.
  intros Hwf Hfr.
  pose proof (wf_add_defer fn None s Hwf) as Hwf1.
  destruct (add_defer_fields fn None s) as (Hl & Hj & Hlog & Hr & Hc & _).
  eapply wf_rearm; [done|done| | | |].
  - rewrite Hj. apply lookup_insert_eq.
  - done.
  - rewrite Hlog. intros [Hc'|(? & ? & ?)]%called_snoc; [|done].
    by apply (fresh_not_called s Hwf).
  - rewrite Hr, Hc. intros h n fn' ctx' Hin.
    apply (wf_wrapped _ Hwf) in Hin as (_ & _ & j & Hj' & _).
    by rewrite (fresh_not_job s Hwf) in Hj'.
Qed.

Lemma remove_first_elem id i l :
  NoDup l → i ∈ remove_first id l ↔ i ∈ l ∧ i ≠ id.
Proof.
  induction 1 as [|x l Hx Hnd IH]; cbn.
  - rewrite elem_of_nil. tauto.
  - case_decide.
    + subst. rewrite elem_of_cons. split; [|tauto].
      intros Hi. split; [auto|]. by intros ->.
    + rewrite !elem_of_cons, IH. split; [|tauto].
      intros [->|[? ?]]; auto.
Qed.

Lemma remove_first_sublist id l : remove_first id l `sublist_of` l.
Proof.
  induction l as [|x l IH]; cbn; [done|].
  case_decide; [by apply sublist_cons|by apply sublist_skip].
Qed.

Lemma wf_clear_rw ty id j s :
  wf s → jobs s !! id = Some j → job_type j = ty → ty ≠ TDefer →
  wf (emit (EvClear id)
        (set_jobs (delete id (jobs s))
           (set_queue ty (remove_first id (queue ty s)) s))).
Proof.
  intros Hwf Hjid Htyj Hd.
  set (s' := emit _ _).
  assert (lastId s' = lastId s) as El by (by destruct ty).
  assert (jobs s' = delete id (jobs s)) as Ej by (by destruct ty).
  assert (log s' = log s ++ [EvClear id]) as Elog by (by destruct ty).
  assert (rafq s' = rafq s) as Er by (by destruct ty).
  assert (current s' = current s) as Ec by (by destruct ty).
  assert (next_handle s' = next_handle s) as Enh by (by destruct ty).
  destruct Hwf as [Hl Hj Hq Hnd Hlog Hunc Hadd Honce Hcm Hh Hhnd Hw Ht Hg].
  assert (∀ ty' i, i ∈ queue ty' s' ↔ i ∈ queue ty' s ∧ i ≠ id) as Eq.
  { intros ty' i. pose proof (Hnd ty) as Hn.
    assert (ty' ≠ ty → i ∈ queue ty' s → i ≠ id) as Hother.
    { intros Hne Hi ->. apply Hq in Hi as [(j' & Hj' & Hty') _]. congruence. }
    destruct ty eqn:Ety, ty'; cbn in *; rewrite ?remove_first_elem by done;
      try tauto; try (split; [intros Hi; split; [done|by apply Hother]|tauto]). }
  assert (∀ ty', NoDup (queue ty' s')) as End.
  { intros ty'. pose proof (Hnd TRead). pose proof (Hnd TWrite).
    destruct ty eqn:Ety, ty'; cbn in *; try done;
      try apply NoDup_nil_2;
      (eapply sublist_NoDup; [|apply remove_first_sublist]; done). }
  clearbody s'.
  constructor; rewrite ?El, ?Ej, ?Elog, ?Er, ?Ec, ?Enh; try done.
  - intros i j' [_ Hj']%lookup_delete_Some. eauto.
  - intros ty' i [Hi Hne]%Eq. destruct (Hq _ _ Hi) as [(j' & Hj' & Hty') [m Hm]].
    split.
    + exists j'. by rewrite lookup_delete_ne.
    + exists m. apply elem_of_snoc. auto.
  - intros e [He| ->]%elem_of_snoc; [eauto|]. cbn. eauto.
  - intros i j' [Hne Hj']%lookup_delete_Some Hty'.
    destruct (Hunc _ _ Hj' Hty') as [H1 H2]. split.
    + intros [?|(? & ? & ?)]%called_snoc; done.
    + intros [?|[= ->]]%elem_of_snoc; done.
  - intros i ty' m [Hi|Hi]%elem_of_snoc Hty'; [|done].
    destruct (decide (i = id)) as [->|Hne].
    { right. right. apply elem_of_snoc. auto. }
    destruct (Hadd _ _ _ Hi Hty') as [H'|[(m' & H')|H']].
    + left. by apply Eq.
    + right. left. exists m'. apply elem_of_snoc. auto.
    + right. right. apply elem_of_snoc. auto.
  - rewrite call_ids_snoc. cbn. by rewrite app_nil_r.
  - intros i ty' m [Hi|Hi]%elem_of_snoc; [eauto|done].
  - intros h n i fn ctx Hin. destruct (Hw _ _ _ _ _ Hin) as (? & Hc & j' & Hj' & Hty' & ?).
    split_and!; [done| |].
    + intros [?|(? & ? & ?)]%called_snoc; done.
    + exists j'. rewrite lookup_delete_ne; [done|]. intros <-. congruence.
  - intros i j' h [_ Hj']%lookup_delete_Some. eauto.
  - intros i ty' m [Hi|Hi]%elem_of_snoc Hty'; [|done].
    apply lookup_delete_None. eauto.
Qed.

Lemma wf_clear id s : wf s → wf (clear id s).
Proof.
  intros Hwf. unfold clear. destruct (jobs s !! id) as [j|] eqn:Hjid; [|done].
  destruct (job_type j) eqn:Hd.
  - exact (wf_clear_rw TRead id j s Hwf Hjid Hd ltac:(done)).
  - exact (wf_clear_rw TWrite id j s Hwf Hjid Hd ltac:(done)).
  - pose proof (wf_caf (job_timer j) s Hwf) as Hwf1.
    assert (jobs (caf (job_timer j) s) = jobs s) as Ej by (by destruct (job_timer j)).
    assert (lastId (caf (job_timer j) s) = lastId s) as El by (by destruct (job_timer j)).
    apply wf_emit; [done| |].
    + cbn. rewrite El. by apply (wf_jobs _ Hwf) in Hjid.
    + rewrite Ej. intros j'. rewrite Hjid. by intros [= <-].
Qed.

Lemma wf_take_job ty id rest j s :
  wf s →
  queue ty s = id :: rest → jobs s !! id = Some j → mode s = phase_of ty →
  wf (take_job id j (set_queue ty rest s)).
Proof.
  intros Hwf Hqs Hjid Hmode.
  pose proof (queue_cons_not_defer _ _ _ _ Hqs) as Hty.
  destruct Hwf as [Hl Hj Hq Hnd Hlog Hunc Hadd Honce Hcm Hh Hhnd Hw Ht Hg].
  assert (job_type j = ty) as Htyj.
  { destruct (Hq ty id) as [(j' & Hj' & Hty') _]; [rewrite Hqs; left|]. congruence. }
  set (s' := take_job _ _ _).
  assert (lastId s' = lastId s) as El by (by destruct ty).
  assert (jobs s' = delete id (jobs s)) as Ej by (by destruct ty).
  assert (log s' = log s ++ [EvCall id ty (phase_of ty)]) as Elog.
  { unfold s', take_job. cbn. rewrite Htyj. by destruct ty; cbn; rewrite Hmode. }
  assert (rafq s' = rafq s) as Er by (by destruct ty).
  assert (current s' = current s) as Ec by (by destruct ty).
  assert (next_handle s' = next_handle s) as Enh by (by destruct ty).
  assert (∀ ty' i, i ∈ queue ty' s' ↔ i ∈ queue ty' s ∧ i ≠ id) as Eq.
  { intros ty' i. pose proof (Hnd ty) as Hn. rewrite Hqs in Hn.
    apply NoDup_cons in Hn as [Hn1 Hn2].
    assert (ty' ≠ ty → i ∈ queue ty' s → i ≠ id) as Hother.
    { intros Hne Hi ->. apply Hq in Hi as [(j' & Hj' & Hty') _]. congruence. }
    destruct ty eqn:Ety, ty'; cbn in *; rewrite ?Hqs, ?elem_of_cons;
      try tauto; try (split; [intros Hi; split; [done|by apply Hother]|tauto]);
      (split; [intros Hi; split; [auto|by intros ->]|tauto]). }
  assert (∀ ty', NoDup (queue ty' s')) as End.
  { intros ty'. pose proof (Hnd TRead) as H1. pose proof (Hnd TWrite) as H2.
    destruct ty eqn:Ety, ty'; cbn in *; try done; try apply NoDup_nil_2;
      rewrite Hqs in *; by eapply NoDup_cons_1_2. }
  clearbody s'.
  destruct (Hunc _ _ Hjid ltac:(congruence)) as [Hnc Hncl].
  constructor; rewrite ?El, ?Ej, ?Elog, ?Er, ?Ec, ?Enh; try done.
  - intros i j' [_ Hj']%lookup_delete_Some. eauto.
  - intros ty' i [Hi Hne]%Eq. destruct (Hq _ _ Hi) as [(j' & Hj' & Hty') [m Hm]].
    split.
    + exists j'. by rewrite lookup_delete_ne.
    + exists m. apply elem_of_snoc. auto.
  - intros e [He| ->]%elem_of_snoc; [eauto|]. cbn. eauto.
  - intros i j' [Hne Hj']%lookup_delete_Some Hty'.
    destruct (Hunc _ _ Hj' Hty') as [H1 H2]. split.
    + intros [?|(? & ? & [= ->])]%called_snoc; done.
    + intros [?|?]%elem_of_snoc; done.
  - intros i ty' m [Hi|Hi]%elem_of_snoc Hty'; [|done].
    destruct (Hadd _ _ _ Hi Hty') as [H'|[(m' & H')|H']].
    + destruct (decide (i = id)) as [->|Hne]; [|left; by apply Eq].
      right. left. exists (phase_of ty). apply elem_of_snoc. right.
      destruct (Hq _ _ H') as [(j' & Hj' & Hty'') _]. congruence.
    + right. left. exists m'. apply elem_of_snoc. auto.
    + right. right. apply elem_of_snoc. auto.
  - rewrite call_ids_snoc. apply NoDup_app. split_and!; [done| |apply NoDup_singleton].
    intros x Hx ->%list_elem_of_singleton. by apply Hnc, elem_of_call_ids.
  - intros i ty' m [Hi|[= -> -> ->]]%elem_of_snoc; [eauto|done].
  - intros h n i fn ctx Hin. destruct (Hw _ _ _ _ _ Hin) as (? & Hc & j' & Hj' & Hty' & ?).
    split_and!; [done| |].
    + intros [?|(? & ? & [= ->])]%called_snoc; [done|]. congruence.
    + exists j'. rewrite lookup_delete_ne; [done|]. intros <-. congruence.
  - intros i j' h [_ Hj']%lookup_delete_Some. eauto.
  - intros i ty' m [Hi|[= -> -> ->]]%elem_of_snoc Hty'.
    + apply lookup_delete_None. eauto.
    + apply lookup_delete_eq.
Qed.

Lemma popped_handle_fresh s h cb rest :
  wf s → current s = (h, cb) :: rest → h ∉ (rafq s ++ rest).*1.
Proof.
  intros Hwf Hc. pose proof (wf_handles_nodup _ Hwf) as Hnd.
  rewrite Hc, fmap_app in Hnd. cbn in Hnd.
  apply NoDup_app in Hnd as (H1 & H2 & H3). apply NoDup_cons in H3 as [H3 _].
  rewrite fmap_app, elem_of_app. intros [Hin|Hin]; [|done].
  apply (H2 _ Hin). left.
Qed.

Lemma popped_unique s h n id fn ctx rest :
  wf s → current s = (h, Wrapped n id fn ctx) :: rest →
  ∀ h' n' fn' ctx', (h', Wrapped n' id fn' ctx') ∉ rafq s ++ rest.
Proof.
  intros Hwf Hc h' n' fn' ctx' Hin.
  pose proof (popped_handle_fresh s h _ rest Hwf Hc) as Hfresh.
  destruct (wf_wrapped _ Hwf h n id fn ctx) as (_ & _ & j & Hj & _ & Ht).
  { rewrite Hc, elem_of_app, elem_of_cons. auto. }
  destruct (wf_wrapped _ Hwf h' n' id fn' ctx') as (_ & _ & j' & Hj' & _ & Ht').
  { rewrite Hc, elem_of_app, elem_of_cons. apply elem_of_app in Hin. tauto. }
  assert (h' = h) as -> by congruence.
  apply Hfresh. apply list_elem_of_fmap. by eexists (_, _).
Qed.

Lemma wf_wrapped_now h id fn ctx rest s :
  wf s → current s = (h, Wrapped 0 id fn ctx) :: rest →
  wf (let s1 := set_current rest s in emit (EvCall id TDefer (mode s1)) s1).
Proof.
  intros Hwf Hc. cbn zeta.
  destruct (wf_wrapped _ Hwf h 0 id fn ctx) as (_ & Hnc & j & Hj & Hty & _).
  { rewrite Hc, elem_of_app, elem_of_cons. auto. }
  apply wf_emit; [by eapply wf_pop_current| |].
  - cbn. by apply (wf_jobs _ Hwf) in Hj.
  - split_and!; [done|done| |].
    + cbn. intros j'. rewrite Hj. by intros [= <-].
    + cbn. by eapply popped_unique.
Qed.

Lemma wf_wrapped_later h n id fn ctx rest s :
  wf s → current s = (h, Wrapped n id fn ctx) :: rest → n ≠ 0 →
  wf (rearm n id fn ctx (set_current rest s)).
Proof.
  intros Hwf Hc Hn.
  destruct (wf_wrapped _ Hwf h n id fn ctx) as (Hn0 & Hnc & j & Hj & Hty & _).
  { rewrite Hc, elem_of_app, elem_of_cons. auto. }
  eapply (wf_rearm _ _ _ _ _ j); [by eapply wf_pop_current|lia|done|done|done|].
  cbn. by eapply popped_unique.
Qed.

Lemma wf_set_pending b s : wf s → wf (set_pending b s).
Proof. intros []. by constructor. Qed.

Lemma read_eq fn ctx s :
  (read fn ctx s).2 =
  _request TRead
    (set_queue TRead (queue TRead (_add TRead fn ctx s).2 ++ [lastId s + 1])
       (_add TRead fn ctx s).2).
Proof. done. Qed.

Lemma write_eq fn ctx s :
  (write fn ctx s).2 =
  _request TWrite
    (set_queue TWrite (queue TWrite (_add TWrite fn ctx s).2 ++ [lastId s + 1])
       (_add TWrite fn ctx s).2).
Proof. done. Qed.

Lemma wf_step s s' : wf s → step s s' → wf s'.
Proof.
  intros Hwf Hs. destruct Hs.
  - rewrite read_eq. by apply wf_request, wf_enqueue.
  - rewrite write_eq. by apply wf_request, wf_enqueue.
  - by apply wf_clear.
  - by apply wf_defer_now.
  - by apply wf_defer_later.
  - by eapply wf_take_job.
  - by apply wf_catch_run.
Qed.

Lemma wf_hstep s s' : wf s → hstep s s' → wf s'.
Proof.
  intros Hwf Hs. destruct Hs.
  - by eapply wf_step.
  - by apply wf_tick_begin.
  - by eapply wf_set_mode, wf_set_pending, wf_pop_current.
  - by apply wf_set_mode.
  - by apply wf_set_mode.
  - by eapply wf_wrapped_now.
  - by eapply wf_wrapped_later.
  - by apply wf_report.
Qed.

(** ** What no callback can change *)

Lemma step_basics s s' :
  step s s' →
  mode s' = mode s ∧ onError s' = onError s ∧ reported s' = reported s ∧
  lastId s ≤ lastId s' ∧ (next_handle s ≤ next_handle s')%nat ∧
  (pending s = true → pending s' = true) ∧
  log s `prefix_of` log s' ∧
  (length (current s') ≤ length (current s))%nat.
Proof.
  intros Hs. destruct Hs as [fn ctx s|fn ctx s|id s|fn s|frames fn ctx s Hfr
                             |ty id rest j s Hq Hj Hm|id o s Hid].
  - rewrite read_eq. destruct (request_cases TRead
      (set_queue TRead (queue TRead (_add TRead fn ctx s).2 ++ [lastId s + 1])
         (_add TRead fn ctx s).2)) as [->|[-> Hp]]; cbn;
      split_and!; try done; try lia; try (by eexists).
  - rewrite write_eq. destruct (request_cases TWrite
      (set_queue TWrite (queue TWrite (_add TWrite fn ctx s).2 ++ [lastId s + 1])
         (_add TWrite fn ctx s).2)) as [->|[-> Hp]]; cbn;
      split_and!; try done; try lia; try (by eexists).
  - unfold clear. destruct (jobs s !! id) as [j|]; [|by split_and!].
    destruct (job_type j); cbn.
    + split_and!; try done; by eexists.
    + split_and!; try done; by eexists.
    + destruct (job_timer j) as [h|]; cbn; split_and!; try done; try (by eexists).
      unfold drop_handle. apply length_filter.
  - cbn. split_and!; try done; try lia. rewrite <- app_assoc. by eexists.
  - cbn. split_and!; try done; try lia. by eexists.
  - unfold take_job. destruct ty; cbn; split_and!; try done; by eexists.
  - destruct o as [|e]; cbn; [by split_and!|].
    destruct (onError s) eqn:E; cbn; rewrite ?E; split_and!; try done; by eexists.
Qed.

Lemma steps_basics s s' :
  rtc step s s' →
  mode s' = mode s ∧ onError s' = onError s ∧ reported s' = reported s ∧
  lastId s ≤ lastId s' ∧ (next_handle s ≤ next_handle s')%nat ∧
  (pending s = true → pending s' = true) ∧
  log s `prefix_of` log s' ∧
  (length (current s') ≤ length (current s))%nat.
Proof.
  induction 1 as [s|s s1 s2 H1 H2 IH]; [by split_and!|].
  apply step_basics in H1.
  destruct H1 as (? & ? & ? & ? & ? & ? & ? & ?).
  destruct IH as (? & ? & ? & ? & ? & ? & ? & ?).
  split_and!; try congruence; try lia; [auto|by etrans].
Qed.

Lemma wf_steps s s' : wf s → rtc step s s' → wf s'.
Proof. induction 2; eauto using wf_step. Qed.

Lemma wf_hsteps s s' : wf s → rtc hstep s s' → wf s'.
Proof. induction 2; eauto using wf_hstep. Qed.

(** Lifting an invariant of the transitions to their sequences. *)
Lemma steps_invariant (I : state → Prop) :
  (∀ s s', wf s → I s → step s s' → I s') →
  ∀ s s', wf s → I s → rtc step s s' → I s'.
Proof.
  intros HI s s' Hwf Hi Hs. induction Hs as [s|s s1 s2 H1 H2 IH]; [done|].
  apply IH; [by eapply wf_step|by eapply HI].
Qed.

(** ** Callbacks and the run loop as sequences of transitions *)

Lemma exec_steps c : ∀ s, rtc step s (exec c s).1.
Proof.
  induction c as [|e|fn IHfn ctx k IHk|fn IHfn ctx k IHk|id k IHk
                  |frames fn IHfn ctx k IHk]; intros s; cbn [exec].
  - done.
  - done.
  - eapply rtc_l; [apply step_read|apply IHk].
  - eapply rtc_l; [apply step_write|apply IHk].
  - eapply rtc_l; [apply step_clear|apply IHk].
  - unfold defer_with. case_decide as Hneg; [apply IHk|].
    cbn [_add _uniqueId job_id fst snd]. unfold wrapped. case_decide as Hz.
    + eapply rtc_l; [apply (step_defer_now fn)|]. cbn zeta.
      match goal with |- context [exec fn ?x] =>
        specialize (IHfn x); destruct (exec fn x) as [s1 [|e]] end.
      * etrans; [apply IHfn|apply IHk].
      * apply IHfn.
    + eapply rtc_l; [apply (step_defer_later frames fn ctx); lia|]. apply IHk.
Qed.

Lemma run_steps ty s :
  wf s → mode s = phase_of ty →
  rtc step s (_run ty s).1 ∧ (_run ty s).2 = Normal ∧
  queue ty (_run ty s).1 = [].
Proof.
  revert s. apply (_run_ind ty (λ s r, wf s → mode s = phase_of ty →
    rtc step s r.1 ∧ r.2 = Normal ∧ queue ty r.1 = [])).
  - intros s Hq _ _. done.
  - intros s rest Hq Hwf _. exfalso.
    destruct (wf_queue _ Hwf ty 0) as [(j & Hj & _) _]; [rewrite Hq; left|].
    apply (wf_jobs _ Hwf) in Hj. lia.
  - intros s id rest Hq _ Hj Hwf _. exfalso.
    destruct (wf_queue _ Hwf ty id) as [(j & Hj' & _) _]; [rewrite Hq; left|].
    congruence.
  - intros s id rest j Hq Hz Hj s' IH Hwf Hm.
    assert (rtc step s s') as Hsteps.
    { unfold s', run_job.
      eapply rtc_l; [by apply (step_job ty id rest j)|].
      pose proof (exec_steps (job_fn j) (take_job id j (set_queue ty rest s))) as He.
      destruct (exec (job_fn j) (take_job id j (set_queue ty rest s))) as [s3 o].
      eapply rtc_r; [apply He|]. apply step_catch.
      apply steps_basics in He as (_ & _ & _ & Hl & _).
      apply (wf_jobs _ Hwf) in Hj.
      assert (lastId (take_job id j (set_queue ty rest s)) = lastId s)
        by (by destruct ty).
      cbn [fst] in Hl. lia. }
    destruct IH as (IH1 & IH2 & IH3).
    + by eapply wf_steps.
    + apply steps_basics in Hsteps as (-> & _). done.
    + split_and!; [by etrans|done|done].
Qed.

(** ** [pending] and the frame callback *)

#[local] Arguments count_frames : simpl never.

Lemma frame_cbs_eq s : frame_cbs s = count_frames (rafq s ++ current s).
Proof. done. Qed.

Lemma count_frames_app l1 l2 :
  count_frames (l1 ++ l2) = (count_frames l1 + count_frames l2)%nat.
Proof. unfold count_frames. by rewrite filter_app, length_app. Qed.

Lemma count_frames_cons p l :
  count_frames (p :: l) =
  ((if is_frame p then 1 else 0) + count_frames l)%nat.
Proof.
  unfold count_frames. rewrite filter_cons.
  destruct (is_frame p); case_decide; cbn; done.
Qed.

Lemma count_frames_drop h l :
  (∀ cb, (h, cb) ∈ l → is_frame (h, cb) = false) →
  count_frames (drop_handle h l) = count_frames l.
Proof.
  induction l as [|[h' cb] l IH]; intros Hl; [done|].
  assert (count_frames (drop_handle h l) = count_frames l) as IH'.
  { apply IH. intros cb' Hin. apply Hl. by right. }
  unfold drop_handle in *. rewrite filter_cons. cbn [fst].
  destruct (decide (h' ≠ h)) as [Hne|Heq].
  - by rewrite !count_frames_cons, IH'.
  - rewrite count_frames_cons, IH'.
    assert (h' = h) as -> by (by destruct (decide (h' = h))).
    rewrite (Hl cb); [done|left].
Qed.

Lemma count_frames_pos l h : (h, FrameCb) ∈ l → (0 < count_frames l)%nat.
Proof.
  induction l as [|p l IH]; [by intros ?%elem_of_nil|].
  rewrite elem_of_cons, count_frames_cons. intros [<-|Hin]; cbn; [lia|].
  apply IH in Hin. lia.
Qed.

Lemma count_frames_zero l h : count_frames l = 0%nat → (h, FrameCb) ∉ l.
Proof. intros Hz Hin%count_frames_pos. lia. Qed.

Lemma sched_request ty s : sched s → sched (_request ty s).
Proof.
  intros Hs. destruct (request_cases ty s) as [->|[-> Hp]]; [done|].
  unfold sched in *. rewrite frame_cbs_eq in *. cbn. rewrite Hp in Hs.
  rewrite <- app_assoc, count_frames_app in *. cbn.
  rewrite count_frames_cons. cbn. lia.
Qed.

Lemma sched_step s s' : wf s → sched s → step s s' → sched s'.
Proof.
  intros Hwf Hs Hst.
  destruct Hst as [fn ctx s|fn ctx s|id s|fn s|frames fn ctx s Hfr
                   |ty id rest j s Hq Hj Hm|id o s Hid].
  - rewrite read_eq. by apply sched_request.
  - rewrite write_eq. by apply sched_request.
  - unfold clear. destruct (jobs s !! id) as [j|] eqn:Hj; [|done].
    destruct (job_type j); try done.
    destruct (job_timer j) as [h|] eqn:Ht; [|done].
    unfold sched in *. rewrite frame_cbs_eq in *. cbn.
    rewrite drop_handle_app, count_frames_drop; [done|].
    intros cb Hin. destruct (wf_timer _ Hwf id j h Hj Ht) as [_ Hcb].
    by destruct (Hcb cb Hin) as (n & fn & ctx & ->).
  - done.
  - unfold sched in *. rewrite frame_cbs_eq in *. cbn.
    rewrite <- app_assoc, count_frames_app in *. cbn.
    by rewrite count_frames_cons.
  - unfold take_job. by destruct ty.
  - destruct o as [|e]; [done|]. unfold catch_run. cbn.
    by destruct (onError s).
Qed.

Lemma sched_hstep s s' : wf s → sched s → hstep s s' → sched s'.
Proof.
  intros Hwf Hs Hst.
  destruct Hst as [s s' Hst|s Hc Hm|h rest s Hc Hm|s Hm Hq|s Hm Hq
                   |h id fn ctx rest s Hc Hm|h n id fn ctx rest s Hc Hm Hn|r].
  - by eapply sched_step.
  - unfold sched in *. rewrite frame_cbs_eq in *. cbn.
    by rewrite Hc, app_nil_r in Hs.
  - unfold sched in *. rewrite frame_cbs_eq in *. cbn.
    rewrite Hc, count_frames_app, count_frames_cons in Hs. cbn in Hs.
    rewrite count_frames_app. destruct (pending s); lia.
  - done.
  - done.
  - unfold sched in *. rewrite frame_cbs_eq in *. cbn.
    rewrite Hc, count_frames_app, count_frames_cons in Hs. cbn in Hs.
    by rewrite count_frames_app.
  - unfold sched in *. rewrite frame_cbs_eq in *. cbn.
    rewrite Hc, count_frames_app, count_frames_cons in Hs. cbn in Hs.
    rewrite <- app_assoc, !count_frames_app. cbn. by rewrite count_frames_cons.
  - by destruct r as [s [|e]].
Qed.

Lemma sched_steps s s' : wf s → sched s → rtc step s s' → sched s'.
Proof. intros ? ? ?. by eapply (steps_invariant sched); eauto using sched_step. Qed.

Lemma hsteps_invariant (I : state → Prop) :
  (∀ s s', wf s → I s → hstep s s' → I s') →
  ∀ s s', wf s → I s → rtc hstep s s' → I s'.
Proof.
  intros HI s s' Hwf Hi Hs. induction Hs as [s|s s1 s2 H1 H2 IH]; [done|].
  apply IH; [by eapply wf_hstep|by eapply HI].
Qed.

Lemma steps_hsteps s s' : rtc step s s' → rtc hstep s s'.
Proof. induction 1; [done|]. eapply rtc_l; [by apply hstep_step|done]. Qed.

(** ** Events carry the phase in which they happen *)

Lemma step_tagged s s' :
  step s s' →
  ∃ ext, log s' = log s ++ ext ∧ Forall (ev_mode_is (mode s)) ext.
Proof.
  intros Hs. destruct Hs as [fn ctx s|fn ctx s|id s|fn s|frames fn ctx s Hfr
                             |ty id rest j s Hq Hj Hm|id o s Hid].
  - destruct (read_fields fn ctx s) as (_ & _ & _ & _ & _ & _ & -> & _).
    eexists. split; [done|]. by repeat constructor.
  - destruct (write_fields fn ctx s) as (_ & _ & _ & _ & _ & _ & -> & _).
    eexists. split; [done|]. by repeat constructor.
  - unfold clear. destruct (jobs s !! id) as [j|].
    2:{ exists []. by rewrite app_nil_r. }
    destruct (job_type j); cbn; try destruct (job_timer j); cbn;
      (eexists; split; [done|]; by repeat constructor).
  - cbn. rewrite <- app_assoc. eexists. split; [done|]. by repeat constructor.
  - cbn. eexists. split; [done|]. by repeat constructor.
  - unfold take_job. destruct ty; cbn;
      (eexists; split; [done|]; by repeat constructor).
  - destruct o as [|e]; cbn.
    { exists []. by rewrite app_nil_r. }
    destruct (onError s); cbn; (eexists; split; [done|]; by repeat constructor).
Qed.

Lemma steps_tagged s s' :
  rtc step s s' →
  ∃ ext, log s' = log s ++ ext ∧ Forall (ev_mode_is (mode s)) ext.
Proof.
  induction 1 as [s|s s1 s2 H1 H2 (ext2 & E2 & F2)].
  { exists []. by rewrite app_nil_r. }
  destruct (step_tagged _ _ H1) as (ext1 & E1 & F1).
  apply step_basics in H1 as (Hm & _). rewrite Hm in F2.
  exists (ext1 ++ ext2). rewrite E2, E1, app_assoc. split; [done|].
  by apply Forall_app.
Qed.

(** ** One run of [_frame] *)

Lemma frame_spec s :
  wf s →
  ∃ s2 s3,
    rtc step (set_mode (Some Reading) (set_pending false s)) s2 ∧
    queue_read s2 = [] ∧
    rtc step (set_mode (Some Writing) s2) s3 ∧
    queue_write s3 = [] ∧
    _frame s = (set_mode None s3, Normal).
Proof.
  intros Hwf. unfold _frame.
  set (s1 := set_mode (Some Reading) (set_pending false s)).
  assert (wf s1) as Hwf1 by (by apply wf_set_mode, wf_set_pending).
  destruct (run_steps TRead s1 Hwf1 eq_refl) as (Hr1 & Hr2 & Hr3).
  destruct (_run TRead s1) as [s2 o2]. cbn in *. subst o2.
  assert (wf (set_mode (Some Writing) s2)) as Hwf2
    by (by eapply wf_set_mode, wf_steps).
  destruct (run_steps TWrite _ Hwf2 eq_refl) as (Hw1 & Hw2 & Hw3).
  destruct (_run TWrite (set_mode (Some Writing) s2)) as [s3 o3].
  cbn in *. subst o3. by exists s2, s3.
Qed.

Lemma fstep_hstep s s' : fstep s s' → hstep s s'.
Proof. destruct 1; by econstructor. Qed.

Lemma fsteps_hsteps s s' : rtc fstep s s' → rtc hstep s s'.
Proof. induction 1; [done|]. eapply rtc_l; [by apply fstep_hstep|done]. Qed.

Lemma steps_fsteps s s' : rtc step s s' → rtc fstep s s'.
Proof. induction 1; [done|]. eapply rtc_l; [by apply fstep_step|done]. Qed.

Lemma frame_fsteps h rest s :
  wf s → current s = (h, FrameCb) :: rest → mode s = None →
  rtc fstep s (_frame (set_current rest s)).1 ∧
  mode (_frame (set_current rest s)).1 = None ∧
  (_frame (set_current rest s)).2 = Normal ∧
  (length (current (_frame (set_current rest s)).1) ≤ length rest)%nat.
Proof.
  intros Hwf Hc Hm.
  destruct (frame_spec (set_current rest s)) as (s2 & s3 & H1 & Hq1 & H2 & Hq2 & ->).
  { by eapply wf_pop_current. }
  pose proof (steps_basics _ _ H1) as (Hm1 & _ & _ & _ & _ & _ & _ & Hl1).
  pose proof (steps_basics _ _ H2) as (Hm2 & _ & _ & _ & _ & _ & _ & Hl2).
  split_and!; [|done|done|cbn in *; lia].
  eapply rtc_l; [by apply (fstep_frame_begin h rest)|].
  etrans; [by apply steps_fsteps|].
  eapply rtc_l; [by apply fstep_frame_write|].
  etrans; [by apply steps_fsteps|].
  by apply rtc_once, fstep_frame_end.
Qed.

(** The log of a frame: a reading part, then a writing part. *)
Lemma frame_log s :
  wf s →
  ∃ R W,
    log (_frame s).1 = log s ++ R ++ W ∧
    Forall (ev_mode_is (Some Reading)) R ∧
    Forall (ev_mode_is (Some Writing)) W.
Proof.
  intros Hwf.
  destruct (frame_spec s Hwf) as (s2 & s3 & H1 & _ & H2 & _ & ->).
  apply steps_tagged in H1 as (R & ER & FR).
  apply steps_tagged in H2 as (W & EW & FW).
  exists R, W. cbn in *. by rewrite EW, ER, app_assoc.
Qed.

Lemma report_fsteps s r : rtc fstep s r.1 → rtc fstep s (report r).
Proof. intros H. eapply rtc_r; [done|apply fstep_report]. Qed.

Lemma report_fields r :
  mode (report r) = mode r.1 ∧ current (report r) = current r.1 ∧
  log (report r) = log r.1 ∧ lastId (report r) = lastId r.1 ∧
  queue_read (report r) = queue_read r.1 ∧
  queue_write (report r) = queue_write r.1 ∧
  jobs (report r) = jobs r.1 ∧ rafq (report r) = rafq r.1 ∧
  pending (report r) = pending r.1 ∧ handled (report r) = handled r.1 ∧
  onError (report r) = onError r.1.
Proof. by destruct r as [s [|e]]. Qed.

Lemma wrapped_fsteps h n id fn ctx rest s :
  wf s → current s = (h, Wrapped n id fn ctx) :: rest → mode s = None →
  let r := wrapped (exec fn) n id fn ctx (set_current rest s) in
  rtc fstep s r.1 ∧ mode r.1 = None ∧
  (length (current r.1) ≤ length rest)%nat.
Proof.
  intros Hwf Hc Hm. unfold wrapped. case_decide as Hn.
  - subst n.
    pose proof (fstep_wrapped_now h id fn ctx rest s Hc Hm) as H1.
    cbn zeta in H1.
    match goal with |- context [exec fn ?x] =>
      pose proof (exec_steps fn x) as He;
      pose proof (steps_basics _ _ He) as (Hm1 & _ & _ & _ & _ & _ & _ & Hl1);
      destruct (exec fn x) as [s2 [|e]] end; cbn in *;
      (split_and!; [|congruence|done]);
      (eapply rtc_l; [exact H1|by apply steps_fsteps]).
  - cbn. split_and!; [|done|done].
    by apply rtc_once, (fstep_wrapped_later h n id fn ctx rest).
Qed.

Lemma run_rafcb_fsteps h cb rest s :
  wf s → current s = (h, cb) :: rest → mode s = None →
  let s' := run_rafcb cb (set_current rest s) in
  rtc fstep s s' ∧ mode s' = None ∧
  (length (current s') ≤ length rest)%nat.
Proof.
  intros Hwf Hc Hm. destruct cb as [|n id fn ctx]; cbn [run_rafcb].
  - destruct (frame_fsteps h rest s Hwf Hc Hm) as (H1 & H2 & H3 & H4).
    destruct (report_fields (_frame (set_current rest s))) as (-> & -> & _).
    split_and!; [|done|done]. by apply report_fsteps.
  - destruct (wrapped_fsteps h n id fn ctx rest s Hwf Hc Hm) as (H1 & H2 & H3).
    destruct (report_fields (wrapped (exec fn) n id fn ctx (set_current rest s)))
      as (-> & -> & _).
    split_and!; [|done|done]. by apply report_fsteps.
Qed.

Lemma tick_loop_fsteps n : ∀ s,
  wf s → mode s = None →
  rtc fstep s (tick_loop n s) ∧ mode (tick_loop n s) = None ∧
  ((length (current s) ≤ n)%nat → current (tick_loop n s) = []).
Proof.
  induction n as [|n IH]; intros s Hwf Hm; cbn [tick_loop].
  { split_and!; [done|done|]. intros Hl. destruct (current s); [done|cbn in Hl; lia]. }
  destruct (current s) as [|[h cb] rest] eqn:Hc; [done|].
  destruct (run_rafcb_fsteps h cb rest s Hwf Hc Hm) as (H1 & H2 & H3).
  destruct (IH (run_rafcb cb (set_current rest s))) as (I1 & I2 & I3);
    [by eapply wf_hsteps, fsteps_hsteps|done|].
  split_and!; [by etrans|done|]. cbn. intros Hl. apply I3. lia.
Qed.

(** The state in which the host starts running the callbacks of a frame. *)
Lemma tick_fsteps s :
  wf s → mode s = None → current s = [] →
  rtc fstep (set_current (rafq s) (set_rafq [] s)) (tick s) ∧
  mode (tick s) = None ∧ current (tick s) = [].
Proof.
  intros Hwf Hm Hc. unfold tick.
  destruct (tick_loop_fsteps (length (current (set_current (rafq s) (set_rafq [] s))))
              (set_current (rafq s) (set_rafq [] s))) as (H1 & H2 & H3);
    [by apply wf_tick_begin|done|].
  split_and!; [done|done|by apply H3].
Qed.

Lemma tick_hsteps s :
  wf s → mode s = None → current s = [] →
  rtc hstep s (tick s) ∧ mode (tick s) = None ∧ current (tick s) = [].
Proof.
  intros Hwf Hm Hc. destruct (tick_fsteps s Hwf Hm Hc) as (H1 & H2 & H3).
  split_and!; [|done|done].
  eapply rtc_l; [by apply hstep_tick_begin|by apply fsteps_hsteps].
Qed.

Lemma turn_fsteps c s : rtc fstep s (turn c s).
Proof. apply report_fsteps, steps_fsteps, exec_steps. Qed.

Lemma turn_hsteps c s : rtc hstep s (turn c s).
Proof. apply fsteps_hsteps, turn_fsteps. Qed.

Lemma wf_new h : wf (new h).
Proof.
  constructor; cbn; try done; try (intros; by apply elem_of_nil in H);
    try apply NoDup_nil_2.
  - intros ty id Hin. destruct ty; by apply elem_of_nil in Hin.
  - intros []; apply NoDup_nil_2.
Qed.

(** ** Where queued jobs, pending callbacks and invocations come from *)

Lemma remove_first_subset id i l : i ∈ remove_first id l → i ∈ l.
Proof. intros Hi. eapply elem_of_sublist; [done|apply remove_first_sublist]. Qed.

Lemma request_sources ty s :
  let s' := _request ty s in
  ∀ i, wrapped_pending i s' → wrapped_pending i s.
Proof.
  cbn zeta. destruct (request_cases ty s) as [->|[-> Hp]]; [done|].
  intros i (h & n & fn & ctx & Hin). cbn in Hin.
  apply entries_raf in Hin as [?|Hin]; [done|]. by exists h, n, fn, ctx.
Qed.

Lemma step_sources s s' :
  step s s' →
  lastId s ≤ lastId s' ∧
  (∀ ty i, i ∈ queue ty s' → i ∈ queue ty s ∨ i = lastId s + 1) ∧
  (∀ i, wrapped_pending i s' → wrapped_pending i s ∨ i = lastId s + 1) ∧
  (∀ i, called i (log s') →
        called i (log s) ∨ i = lastId s + 1 ∨ ∃ ty, i ∈ queue ty s).
Proof.
  intros Hs. destruct Hs as [fn ctx s|fn ctx s|id s|fn s|frames fn ctx s Hfr
                             |ty id rest j s Hq Hj Hm|id o s Hid].
  - destruct (read_fields fn ctx s) as (_ & _ & Hr & Hw & Hl & _ & Hlog & _).
    split_and!.
    + lia.
    + intros [] i; unfold queue; rewrite ?Hr, ?Hw, ?elem_of_snoc; tauto.
    + intros i Hi. left. rewrite read_eq in Hi. by apply request_sources in Hi.
    + intros i. rewrite Hlog. intros [?|(? & ? & ?)]%called_snoc; [auto|done].
  - destruct (write_fields fn ctx s) as (_ & _ & Hr & Hw & Hl & _ & Hlog & _).
    split_and!.
    + lia.
    + intros [] i; unfold queue; rewrite ?Hr, ?Hw, ?elem_of_snoc; tauto.
    + intros i Hi. left. rewrite write_eq in Hi. by apply request_sources in Hi.
    + intros i. rewrite Hlog. intros [?|(? & ? & ?)]%called_snoc; [auto|done].
  - unfold clear. destruct (jobs s !! id) as [j|]; [|by split_and!; auto].
    destruct (job_type j) eqn:Hty.
    + split_and!; [done| |by auto|].
      * intros [] i; cbn; auto. intros ?%remove_first_subset. auto.
      * intros i. cbn. intros [?|(? & ? & ?)]%called_snoc; [auto|done].
    + split_and!; [done| |by auto|].
      * intros [] i; cbn; auto. intros ?%remove_first_subset. auto.
      * intros i. cbn. intros [?|(? & ? & ?)]%called_snoc; [auto|done].
    + assert (∀ i, wrapped_pending i (caf (job_timer j) s) → wrapped_pending i s)
        as Hsub.
      { intros i (h & n & fn & ctx & Hin). exists h, n, fn, ctx.
        destruct (job_timer j) as [h'|]; cbn in Hin; [|done].
        rewrite drop_handle_app in Hin. unfold drop_handle in Hin.
        by apply list_elem_of_filter in Hin as [_ ?]. }
      destruct (job_timer j); cbn in *;
        (split_and!; [done|by intros []; auto|by auto|]);
        (intros i [?|(? & ? & ?)]%called_snoc; [auto|done]).
  - cbn. split_and!; [lia|by intros []; auto|by auto|].
    intros i [[?|(? & ? & ?)]%called_snoc|(? & ? & [= ->])]%called_snoc; auto.
    done.
  - cbn. split_and!; [lia|by intros []; auto| |].
    + intros i (h & n & fn' & ctx' & [[= -> -> -> -> ->]|Hin]%entries_raf).
      * auto.
      * left. by exists h, n, fn', ctx'.
    + intros i [?|(? & ? & ?)]%called_snoc; [auto|done].
  - split_and!.
    + by destruct ty.
    + intros ty' i Hi. left. destruct ty, ty'; cbn in *; rewrite ?Hq; auto;
        by right.
    + intros i Hi. left. by destruct ty.
    + intros i Hi. assert (log (take_job id j (set_queue ty rest s)) =
        log s ++ [EvCall id (job_type j) (mode s)]) as E by (by destruct ty).
      rewrite E in Hi. apply called_snoc in Hi as [?|(? & ? & [= ->])]; [auto|].
      right. right. exists ty. rewrite Hq. left.
  - destruct o as [|e]; [by split_and!; auto|]. unfold catch_run. cbn.
    destruct (onError s); cbn; (split_and!; [done|by intros []; auto|by auto|]);
      (intros i [?|(? & ? & ?)]%called_snoc; [auto|done]).
Qed.

Lemma hstep_sources s s' :
  hstep s s' →
  lastId s ≤ lastId s' ∧
  (∀ ty i, i ∈ queue ty s' → i ∈ queue ty s ∨ i = lastId s + 1) ∧
  (∀ i, wrapped_pending i s' → wrapped_pending i s ∨ i = lastId s + 1) ∧
  (∀ i, called i (log s') →
        called i (log s) ∨ i = lastId s + 1 ∨ (∃ ty, i ∈ queue ty s) ∨
        wrapped_pending i s).
Proof.
  intros Hst.
  destruct Hst as [s s' Hst|s Hc Hm|h rest s Hc Hm|s Hm Hq|s Hm Hq
                   |h id fn ctx rest s Hc Hm|h n id fn ctx rest s Hc Hm Hn|r].
  - destruct (step_sources _ _ Hst) as (? & ? & ? & Hcl).
    split_and!; [done..|]. intros i Hi. destruct (Hcl i Hi) as [?|[?|?]]; auto.
  - split_and!; [done|by intros []; auto| |by auto].
    intros i (h & n & fn & ctx & Hin). left. exists h, n, fn, ctx.
    cbn in Hin. by rewrite Hc, app_nil_r.
  - split_and!; [done|by intros []; auto| |by auto].
    intros i (h' & n & fn & ctx & Hin). left. exists h', n, fn, ctx.
    cbn in Hin. rewrite Hc. rewrite elem_of_app, elem_of_cons.
    apply elem_of_app in Hin. tauto.
  - split_and!; [done|by intros []; auto|by auto|by auto].
  - split_and!; [done|by intros []; auto|by auto|by auto].
  - cbn. split_and!; [done|by intros []; auto| |].
    + intros i (h' & n & fn' & ctx' & Hin). left. exists h', n, fn', ctx'.
      rewrite Hc. rewrite elem_of_app, elem_of_cons.
      apply elem_of_app in Hin. tauto.
    + intros i [?|(? & ? & [= ->])]%called_snoc; [auto|].
      right. right. right. exists h, 0, fn, ctx. rewrite Hc.
      rewrite elem_of_app, elem_of_cons. auto.
  - cbn. split_and!; [done|by intros []; auto| |by auto].
    intros i (h' & n' & fn' & ctx' & [[= -> -> -> -> ->]|Hin]%entries_raf).
    + left. exists h, n, fn, ctx. rewrite Hc.
      rewrite elem_of_app, elem_of_cons. auto.
    + left. exists h', n', fn', ctx'. rewrite Hc.
      rewrite elem_of_app, elem_of_cons. apply elem_of_app in Hin. tauto.
  - destruct (report_fields r) as (_ & Ec & El & Eid & Er & Ew & _ & Erq & _).
    split_and!.
    + lia.
    + intros [] i; cbn; rewrite ?Er, ?Ew; auto.
    + intros i (h & n & fn & ctx & Hin). left. exists h, n, fn, ctx. congruence.
    + intros i. rewrite El. auto.
Qed.

(** A dead job stays dead and is never invoked. *)
Lemma dead_hstep id s s' :
  hstep s s' → dead id s →
  dead id s' ∧ (called id (log s') → called id (log s)).
Proof.
  intros (Hl & Hq & Hw & Hc)%hstep_sources (Hid & Hnq & Hnw).
  split.
  - split_and!; [lia| |].
    + intros ty [?|?]%Hq; [by eapply Hnq|lia].
    + intros [?|?]%Hw; [done|lia].
  - intros [?|[?|[[ty ?]|?]]]%Hc; [done|lia|by destruct (Hnq ty)|done].
Qed.

Lemma dead_hsteps id s s' :
  rtc hstep s s' → dead id s →
  dead id s' ∧ (called id (log s') → called id (log s)).
Proof.
  induction 1 as [s|s s1 s2 H1 H2 IH]; [done|]. intros Hd.
  destruct (dead_hstep id _ _ H1 Hd) as [Hd1 Hc1].
  destruct (IH Hd1) as [Hd2 Hc2]. auto.
Qed.

(** ** Cancellation *)

Lemma clear_unknown id s : jobs s !! id = None → clear id s = s.
Proof. intros H. unfold clear. by rewrite H. Qed.

Lemma clear_removes id j s :
  jobs s !! id = Some j → job_type j ≠ TDefer →
  jobs (clear id s) !! id = None.
Proof.
  intros Hj Hty. unfold clear. rewrite Hj.
  destruct (job_type j); [| |done]; cbn; apply lookup_delete_eq.
Qed.

Lemma clear_makes_dead id j s :
  wf s → jobs s !! id = Some j → job_type j ≠ TDefer →
  dead id (clear id s) ∧ ¬ called id (log (clear id s)).
Proof.
  intros Hwf Hj Hty.
  pose proof (wf_clear id s Hwf) as Hwf'.
  pose proof (clear_removes id j s Hj Hty) as Hnone.
  split; [split_and!|].
  - apply (wf_jobs _ Hwf) in Hj.
    pose proof (step_basics _ _ (step_clear id s)) as (_ & _ & _ & ? & _). lia.
  - intros ty Hin. apply (wf_queue _ Hwf') in Hin as [(j' & Hj' & _) _].
    congruence.
  - intros (h & n & fn & ctx & Hin).
    apply (wf_wrapped _ Hwf') in Hin as (_ & _ & j' & Hj' & _). congruence.
  - destruct (wf_uncalled _ Hwf id j Hj Hty) as [Hnc _].
    unfold clear. rewrite Hj.
    destruct (job_type j); [| |done]; cbn;
      intros [?|(? & ? & ?)]%called_snoc; done.
Qed.

(** C5: once [clear] has cancelled a read or write job, no later activity of
    the scheduler or the host invokes its callback; a second [clear] of the
    same id changes nothing, [clear] of an id without a record changes
    nothing, and a read or write job that has run has no record. *)
Theorem clear_cancels_for_good s id j :
  wf s → jobs s !! id = Some j → job_type j ≠ TDefer →
  (∀ s', rtc hstep (clear id s) s' → ¬ called id (log s')) ∧
  clear id (clear id s) = clear id s ∧
  (∀ s0 id0, jobs s0 !! id0 = None → clear id0 s0 = s0) ∧
  (∀ s0 id0 ty m, wf s0 → EvCall id0 ty m ∈ log s0 → ty ≠ TDefer →
     clear id0 s0 = s0).
Proof.
  intros Hwf Hj Hty. split_and!.
  - intros s' Hs' Hc.
    destruct (clear_makes_dead id j s Hwf Hj Hty) as [Hd Hnc].
    destruct (dead_hsteps id _ _ Hs' Hd) as [_ Hc']. auto.
  - apply clear_unknown. by eapply clear_removes.
  - intros. by apply clear_unknown.
  - intros s0 id0 ty m Hwf0 Hin Hty0. apply clear_unknown.
    by eapply wf_gone.
Qed.

Lemma clear_cancels_for_good_witness :
  (∀ s', rtc hstep (clear 1 (read Ret None (new false)).2) s' →
         ¬ called 1 (log s')) ∧
  clear 1 (clear 1 (read Ret None (new false)).2) =
  clear 1 (read Ret None (new false)).2.
Proof.
  destruct (clear_cancels_for_good (read Ret None (new false)).2 1
              (Job 1 Ret None TRead None)) as (H1 & H2 & _).
  - apply (wf_step (new false)); [apply wf_new|apply step_read].
  - reflexivity.
  - discriminate.
  - split; assumption.
Defined.

(** ** Deferral *)

(** C9: [defer] with a negative frame count returns at once: the state
    (registry, queues, frame callbacks, log of invocations) is unchanged,
    nothing is thrown and no id is returned. *)
Theorem defer_negative_is_noop frames fn ctx s :
  frames < 0 → defer frames fn ctx s = (s, None, Normal).
Proof. intros H. unfold defer, defer_with. by rewrite decide_True. Qed.

Lemma defer_negative_is_noop_witness :
  defer (-1) (Throw 0) None (new false) = (new false, None, Normal).
Proof. apply defer_negative_is_noop. lia. Defined.

(** What [clear] does to a deferred job: its frame callback is cancelled
    and the record stays. *)
Lemma clear_deferred_keeps_record id j s :
  jobs s !! id = Some j → job_type j = TDefer →
  jobs (clear id s) = jobs s ∧
  rafq (clear id s) = match job_timer j with
                      | Some h => drop_handle h (rafq s)
                      | None => rafq s
                      end.
Proof.
  intros Hj Hty. unfold clear. rewrite Hj, Hty. by destruct (job_timer j).
Qed.

(** C7, on [defer(2, fn)] followed by [clear(1)]: the frame callback is
    cancelled, and the job record is still in the registry. *)
Theorem clear_deferred_leaves_record :
  let s1 := (defer 2 Ret None (new false)).1.1 in
  let s2 := clear 1 s1 in
  rafq s1 = [(0%nat, Wrapped 1 1 Ret None)] ∧
  rafq s2 = [] ∧
  jobs s2 !! 1 = Some (Job 1 Ret None TDefer (Some 0%nat)).
Proof. by vm_compute. Qed.

(** ** What a sequence of transitions adds to the log *)

Lemma hstep_ext s s' :
  hstep s s' →
  onError s' = onError s ∧ lastId s ≤ lastId s' ∧
  ∃ ext, log s' = log s ++ ext ∧
    (∀ id ty m, EvAdd id ty m ∈ ext → id = lastId s + 1) ∧
    handled s' = handled s ++ (if onError s then failures ext else []).
Proof.
  intros Hst.
  destruct Hst as [s s' Hst|s Hc Hm|h rest s Hc Hm|s Hm Hq|s Hm Hq
                   |h id fn ctx rest s Hc Hm|h n id fn ctx rest s Hc Hm Hn|r].
  - destruct Hst as [fn ctx s|fn ctx s|id s|fn s|frames fn ctx s Hfr
                     |ty id rest j s Hq Hj Hm|id o s Hid].
    + destruct (read_fields fn ctx s)
        as (_ & _ & _ & _ & Hl & _ & Hlog & He & Hh & _).
      split_and!; [done|lia|]. eexists. split; [done|]. split.
      * by intros i ty m [= -> _ _]%list_elem_of_singleton.
      * rewrite Hh. destruct (onError s); cbn; by rewrite app_nil_r.
    + destruct (write_fields fn ctx s)
        as (_ & _ & _ & _ & Hl & _ & Hlog & He & Hh & _).
      split_and!; [done|lia|]. eexists. split; [done|]. split.
      * by intros i ty m [= -> _ _]%list_elem_of_singleton.
      * rewrite Hh. destruct (onError s); cbn; by rewrite app_nil_r.
    + unfold clear. destruct (jobs s !! id) as [j|].
      2:{ split_and!; [done..|]. exists []. rewrite !app_nil_r.
          split_and!; [done|by intros ? ? ? ?%elem_of_nil|].
          destruct (onError s); by rewrite app_nil_r. }
      destruct (job_type j); try destruct (job_timer j); cbn;
        (split_and!; [done|done|]; eexists; split; [done|]; split;
         [by intros i ty m ?%list_elem_of_singleton
         |destruct (onError s); cbn; by rewrite app_nil_r]).
    + cbn. split_and!; [done|lia|]. rewrite <- app_assoc. eexists.
      split; [done|]. split.
      * intros i ty m [[= -> _ _]|[=]%list_elem_of_singleton]%elem_of_cons. done.
      * destruct (onError s); cbn; by rewrite app_nil_r.
    + cbn. split_and!; [done|lia|]. eexists. split; [done|]. split.
      * by intros i ty m [= -> _ _]%list_elem_of_singleton.
      * destruct (onError s); cbn; by rewrite app_nil_r.
    + unfold take_job. destruct ty; cbn;
        (split_and!; [done|done|]; eexists; split; [done|]; split;
         [by intros i ty m ?%list_elem_of_singleton
         |destruct (onError s); cbn; by rewrite app_nil_r]).
    + destruct o as [|e]; cbn.
      { split_and!; [done..|]. exists []. rewrite !app_nil_r.
        split_and!; [done|by intros ? ? ? ?%elem_of_nil|].
        destruct (onError s); by rewrite app_nil_r. }
      destruct (onError s) eqn:E; cbn; rewrite ?E;
        (split_and!; [done|done|]; eexists; split; [done|]; split;
         [by intros i ty m ?%list_elem_of_singleton|by rewrite ?app_nil_r]).
  - cbn. split_and!; [done..|]. exists []. rewrite !app_nil_r.
    split_and!; [done|by intros ? ? ? ?%elem_of_nil|].
    destruct (onError s); by rewrite app_nil_r.
  - cbn. split_and!; [done..|]. exists []. rewrite !app_nil_r.
    split_and!; [done|by intros ? ? ? ?%elem_of_nil|].
    destruct (onError s); by rewrite app_nil_r.
  - cbn. split_and!; [done..|]. exists []. rewrite !app_nil_r.
    split_and!; [done|by intros ? ? ? ?%elem_of_nil|].
    destruct (onError s); by rewrite app_nil_r.
  - cbn. split_and!; [done..|]. exists []. rewrite !app_nil_r.
    split_and!; [done|by intros ? ? ? ?%elem_of_nil|].
    destruct (onError s); by rewrite app_nil_r.
  - cbn. split_and!; [done..|]. eexists. split; [done|]. split.
    + by intros i ty m ?%list_elem_of_singleton.
    + destruct (onError s); cbn; by rewrite app_nil_r.
  - cbn. split_and!; [done..|]. exists []. rewrite !app_nil_r.
    split_and!; [done|by intros ? ? ? ?%elem_of_nil|].
    destruct (onError s); by rewrite app_nil_r.
  - destruct (report_fields r) as (_ & _ & El & Eid & _ & _ & _ & _ & _ & Eh & Ee).
    split_and!; [done|lia|]. exists []. rewrite !app_nil_r.
    split_and!; [done|by intros ? ? ? ?%elem_of_nil|].
    rewrite Eh. destruct (onError r.1); by rewrite app_nil_r.
Qed.

Lemma hsteps_ext s s' :
  rtc hstep s s' →
  onError s' = onError s ∧ lastId s ≤ lastId s' ∧
  ∃ ext, log s' = log s ++ ext ∧
    (∀ id ty m, EvAdd id ty m ∈ ext → lastId s < id) ∧
    handled s' = handled s ++ (if onError s then failures ext else []).
Proof.
  induction 1 as [s|s s1 s2 H1 H2 (E2 & L2 & ext2 & G2 & A2 & Hd2)].
  { split_and!; [done..|]. exists []. rewrite !app_nil_r.
    split_and!; [done|by intros ? ? ? ?%elem_of_nil|].
    destruct (onError s); by rewrite app_nil_r. }
  destruct (hstep_ext _ _ H1) as (E1 & L1 & ext1 & G1 & A1 & Hd1).
  split_and!; [congruence|lia|]. exists (ext1 ++ ext2).
  rewrite G2, G1, app_assoc. split; [done|]. split.
  - intros id ty m [Hi|Hi]%elem_of_app.
    + apply A1 in Hi. lia.
    + apply A2 in Hi. lia.
  - rewrite Hd2, Hd1, E1. destruct (onError s); [|by rewrite !app_nil_r].
    by rewrite failures_app, app_assoc.
Qed.

Lemma steps_ext s s' :
  rtc step s s' →
  ∃ ext, log s' = log s ++ ext ∧
    Forall (ev_mode_is (mode s)) ext ∧
    (∀ id ty m, EvAdd id ty m ∈ ext → lastId s < id) ∧
    handled s' = handled s ++ (if onError s then failures ext else []).
Proof.
  intros Hs. destruct (steps_tagged _ _ Hs) as (ext & E & F).
  apply steps_hsteps, hsteps_ext in Hs as (_ & _ & ext' & E' & A & Hd).
  assert (ext' = ext) as -> by (rewrite E in E'; by apply app_inv_head in E').
  by exists ext.
Qed.

(** A queued job that left its queue was invoked or cancelled meanwhile. *)
Lemma drained ty id s s' ext :
  wf s → wf s' → log s' = log s ++ ext →
  id ∈ queue ty s → id ∉ queue ty s' →
  EvCall id ty (phase_of ty) ∈ ext ∨ EvClear id ∈ ext.
Proof.
  intros Hwf Hwf' E Hin Hout.
  assert (ty ≠ TDefer) as Hty by (intros ->; by apply elem_of_nil in Hin).
  destruct (wf_queue _ Hwf _ _ Hin) as [(j & Hj & Htyj) (m & Hadd)].
  destruct (wf_uncalled _ Hwf id j Hj ltac:(congruence)) as [Hnc Hncl].
  destruct (wf_added _ Hwf' id ty m) as [?|[(m' & Hc)|Hc]];
    [rewrite E, elem_of_app; auto|done|done| |].
  - left. pose proof (wf_call_mode _ Hwf' _ _ _ Hc Hty) as ->.
    rewrite E in Hc. apply elem_of_app in Hc as [Hc|Hc]; [|done].
    destruct Hnc. by eexists _, _.
  - right. rewrite E in Hc. by apply elem_of_app in Hc as [Hc|Hc].
Qed.

(** A job created meanwhile that waits in no queue was invoked or
    cancelled meanwhile. *)
Lemma added_drained ty id m s s' ext :
  wf s → wf s' → log s' = log s ++ ext →
  (∀ id ty m, EvAdd id ty m ∈ ext → lastId s < id) →
  EvAdd id ty m ∈ ext → ty ≠ TDefer → id ∉ queue ty s' →
  EvCall id ty (phase_of ty) ∈ ext ∨ EvClear id ∈ ext.
Proof.
  intros Hwf Hwf' E Hfresh Hin Hty Hout.
  pose proof (Hfresh _ _ _ Hin) as Hid.
  destruct (wf_added _ Hwf' id ty m) as [?|[(m' & Hc)|Hc]];
    [rewrite E, elem_of_app; auto|done|done| |].
  - left. pose proof (wf_call_mode _ Hwf' _ _ _ Hc Hty) as ->.
    rewrite E in Hc. apply elem_of_app in Hc as [Hc|Hc]; [|done].
    apply (wf_log _ Hwf) in Hc. cbn in Hc. lia.
  - right. rewrite E in Hc. apply elem_of_app in Hc as [Hc|Hc]; [|done].
    apply (wf_log _ Hwf) in Hc. cbn in Hc. lia.
Qed.

(** ** The run loop, in full *)

Lemma call_ids_ext_nodup l ext : NoDup (call_ids (l ++ ext)) → NoDup (call_ids ext).
Proof. rewrite call_ids_app. by intros (_ & _ & ?)%NoDup_app. Qed.

Lemma run_spec ty s :
  wf s → ty ≠ TDefer → mode s = phase_of ty →
  let s' := (_run ty s).1 in
  (_run ty s).2 = Normal ∧ queue ty s' = [] ∧ wf s' ∧
  reported s' = reported s ∧
  ∃ ext, log s' = log s ++ ext ∧
    Forall (ev_mode_is (phase_of ty)) ext ∧
    (∀ id, id ∈ queue ty s →
       EvCall id ty (phase_of ty) ∈ ext ∨ EvClear id ∈ ext) ∧
    (∀ id m, EvAdd id ty m ∈ ext →
       EvCall id ty (phase_of ty) ∈ ext ∨ EvClear id ∈ ext) ∧
    NoDup (call_ids ext) ∧
    handled s' = handled s ++ (if onError s then failures ext else []).
Proof.
  intros Hwf Hty Hm. cbn zeta.
  destruct (run_steps ty s Hwf Hm) as (Hs & Ho & Hq).
  pose proof (wf_steps _ _ Hwf Hs) as Hwf'.
  pose proof (steps_basics _ _ Hs) as (_ & _ & Hrep & _).
  destruct (steps_ext _ _ Hs) as (ext & E & F & A & Hd).
  split_and!; [done..|]. exists ext. rewrite <- Hm. split_and!; [done..| | | |done].
  - intros id Hin. rewrite Hm.
    apply (drained ty id s (_run ty s).1); try done.
    rewrite Hq. apply not_elem_of_nil.
  - intros id m Hin. rewrite Hm.
    apply (added_drained ty id m s (_run ty s).1); try done.
    rewrite Hq. apply not_elem_of_nil.
  - eapply call_ids_ext_nodup. rewrite <- E. apply (wf_once _ Hwf').
Qed.

Lemma run_job_outcome id j s :
  let r := exec (job_fn j) (take_job id j s) in
  run_job id j s = catch_run id r.2 r.1.
Proof. unfold run_job. by destruct (exec _ _). Qed.

(** ** Failures of queued jobs *)

Lemma wf_read fn ctx s : wf s → wf (read fn ctx s).2.
Proof. intros H. exact (wf_step _ _ H (step_read fn ctx s)). Qed.




(** ** Jobs submitted while their queue is drained *)

(** C4 (as the code has it): [_run] works on the live queue.  A job
    submitted to the class being drained joins the batch that is running and
    is invoked by that same call of [_run], unless it is cancelled first;
    the call returns with the queue empty, and no callback is invoked
    twice. *)
Theorem run_takes_jobs_added_meanwhile ty s :
  wf s → ty ≠ TDefer → mode s = phase_of ty →
  let s' := (_run ty s).1 in
  queue ty s' = [] ∧
  ∃ ext, log s' = log s ++ ext ∧
    (∀ id m, EvAdd id ty m ∈ ext →
       EvCall id ty (phase_of ty) ∈ ext ∨ EvClear id ∈ ext) ∧
    NoDup (call_ids ext) ∧ NoDup (call_ids (log s')).
Proof.
  intros Hwf Hty Hm.
  destruct (run_spec ty s Hwf Hty Hm)
    as (_ & H2 & Hwf' & _ & ext & E & _ & _ & Ha & Hn & _).
  cbn zeta. split; [done|]. exists ext. split_and!; [done..|].
  apply (wf_once _ Hwf').
Qed.

Lemma wf_nested_read : wf nested_read.
Proof. apply wf_set_mode, wf_read, wf_new. Qed.

Lemma run_takes_jobs_added_meanwhile_witness :
  wf nested_read ∧ TRead ≠ TDefer ∧ mode nested_read = phase_of TRead ∧
  queue TRead (_run TRead nested_read).1 = [].
Proof.
  pose proof (run_takes_jobs_added_meanwhile TRead nested_read
                wf_nested_read ltac:(discriminate) eq_refl) as (H1 & _).
  split_and!; [apply wf_nested_read|discriminate|reflexivity|exact H1].
Defined.

(** C4 as stated fails: a read submitted by a read callback is invoked by
    the drain that is running, not by a later one. *)
Lemma job_added_meanwhile_runs_in_same_batch :
  log (_run TRead nested_read).1 =
    [EvAdd 1 TRead None; EvCall 1 TRead (Some Reading);
     EvAdd 2 TRead (Some Reading); EvCall 2 TRead (Some Reading)] ∧
  queue_read (_run TRead nested_read).1 = [] ∧
  rafq (_run TRead nested_read).1 = [(0%nat, FrameCb)].
Proof. by vm_compute. Qed.

(** ** Identifiers *)

Lemma run_stops_at_zero ty rest s :
  queue ty s = 0 :: rest → _run ty s = (set_queue ty rest s, Normal).
Proof. intros Hq. rewrite _run_eq, Hq. done. Qed.

(** C10: ids are [lastId + 1] with [lastId] starting at 0, so every id
    handed out and every id in a queue is positive; hence the loop
    [while (id = list.shift())] ends only on the empty queue, every queued
    job having been invoked or cancelled. *)
Theorem ids_positive_and_run_exhausts ty s :
  wf s → ty ≠ TDefer → mode s = phase_of ty →
  (∀ h, lastId (new h) = 0) ∧
  (_uniqueId s).1 = lastId s + 1 ∧ 0 < (_uniqueId s).1 ∧
  (∀ fn ctx, 0 < (read fn ctx s).1) ∧
  (∀ fn ctx, 0 < (write fn ctx s).1) ∧
  (∀ frames fn ctx id, (defer frames fn ctx s).1.2 = Some id → 0 < id) ∧
  (∀ ty' id, id ∈ queue ty' s → 0 < id) ∧
  (_run ty s).2 = Normal ∧ queue ty (_run ty s).1 = [] ∧
  ∃ ext, log (_run ty s).1 = log s ++ ext ∧
    ∀ id, id ∈ queue ty s →
      EvCall id ty (phase_of ty) ∈ ext ∨ EvClear id ∈ ext.
Proof.
  intros Hwf Hty Hm. pose proof (wf_lastId _ Hwf) as Hl.
  destruct (run_spec ty s Hwf Hty Hm)
    as (H1 & H2 & _ & _ & ext & E & _ & Hq & _).
  split_and!; try done.
  - cbn. lia.
  - intros fn ctx. destruct (read_fields fn ctx s) as (-> & _). lia.
  - intros fn ctx. destruct (write_fields fn ctx s) as (-> & _). lia.
  - intros frames fn ctx id. unfold defer, defer_with.
    case_decide; [done|]. cbn [_add _uniqueId job_id fst snd].
    destruct (wrapped _ _ _ _ _ _) as [s2 [|e]]; cbn; [|done].
    intros [= <-]. lia.
  - intros ty' id Hin.
    apply (wf_queue _ Hwf) in Hin as [(j & Hj & _) _].
    apply (wf_jobs _ Hwf) in Hj. lia.
  - by exists ext.
Qed.

Lemma ids_positive_and_run_exhausts_witness :
  wf nested_read ∧ TRead ≠ TDefer ∧ mode nested_read = phase_of TRead ∧
  0 < (_uniqueId nested_read).1 ∧
  queue TRead (_run TRead nested_read).1 = [].
Proof.
  pose proof (ids_positive_and_run_exhausts TRead nested_read
                wf_nested_read ltac:(discriminate) eq_refl)
    as (_ & _ & H1 & _ & _ & _ & _ & _ & H2 & _).
  split_and!; [apply wf_nested_read|discriminate|reflexivity|exact H1|exact H2].
Defined.

(** ** Requests for the next frame *)

Lemma request_armed ty s :
  let s' := _request ty s in
  queue_read s' = queue_read s ∧ queue_write s' = queue_write s ∧
  mode s' = mode s ∧
  (pending s = true → pending s' = true) ∧
  (mode s = None → pending s' = true) ∧
  (mode s = Some Writing → ty = TRead → pending s' = true).
Proof.
  unfold _request, raf. destruct s; cbn.
  repeat case_match; cbn; split_and!; try done; by intros; simplify_eq.
Qed.

Lemma remove_first_nil id l : l = [] → remove_first id l = [].
Proof. by intros ->. Qed.

Lemma armed_step s s' : armed s → step s s' → armed s'.
Proof.
  intros Ha Hs. destruct Hs as [fn ctx s|fn ctx s|id s|fn s|frames fn ctx s Hfr
                                |ty id rest j s Hq Hj Hm|id o s Hid].
  - rewrite read_eq.
    match goal with |- armed (_request ?t ?x) =>
      destruct (request_armed t x) as (Er & Ew & Em & Hp & Hn & Hw) end.
    unfold armed in *. rewrite Em, Er, Ew. cbn in *.
    destruct (mode s) as [[]|]; auto.
  - rewrite write_eq.
    match goal with |- armed (_request ?t ?x) =>
      destruct (request_armed t x) as (Er & Ew & Em & Hp & Hn & Hw) end.
    unfold armed in *. rewrite Em, Er, Ew. cbn in *.
    destruct (mode s) as [[]|]; auto.
  - unfold clear. destruct (jobs s !! id) as [j|]; [|done].
    unfold armed in *.
    destruct (job_type j); try destruct (job_timer j); cbn;
      destruct (mode s) as [[]|]; try done; intros H; apply Ha;
      try (destruct H as [H|H]; [left|right]); try done;
      intros E; apply H; by rewrite E.
  - done.
  - done.
  - unfold armed, take_job in *. destruct ty; cbn in *; rewrite Hm in *; done.
  - destruct o as [|e]; [done|]. unfold armed, catch_run in *. cbn.
    by destruct (onError s).
Qed.

Lemma armed_hstep s s' : armed s → hstep s s' → armed s'.
Proof.
  intros Ha Hst.
  destruct Hst as [s s' Hst|s Hc Hm|h rest s Hc Hm|s Hm Hq|s Hm Hq
                   |h id fn ctx rest s Hc Hm|h n id fn ctx rest s Hc Hm Hn|r].
  - by eapply armed_step.
  - done.
  - done.
  - unfold armed in *. cbn. by rewrite Hq.
  - unfold armed in *. cbn. rewrite Hm in Ha. rewrite Hq. intros [?|?]; auto.
  - done.
  - done.
  - by destruct r as [s [|e]].
Qed.

(** ** Ids are handed out in order *)

Lemma hstep_shape s s' :
  hstep s s' →
  ∃ ext, log s' = log s ++ ext ∧
    ∀ l1 l2 id ty m, ext = l1 ++ EvAdd id ty m :: l2 →
      l1 = [] ∧ id = lastId s + 1.
Proof.
  assert (∀ L, ∀ l1 l2 id ty m, [] = l1 ++ EvAdd id ty m :: l2 →
            l1 = [] ∧ id = L) as Hnil.
  { intros L l1 l2 id ty m H. by destruct l1. }
  assert (∀ L e, (∀ id ty m, e = EvAdd id ty m → id = L) →
            ∀ l1 l2 id ty m, [e] = l1 ++ EvAdd id ty m :: l2 →
              l1 = [] ∧ id = L) as Hone.
  { intros L e He l1 l2 id ty m H. destruct l1 as [|x [|y l1]]; simplify_eq/=.
    split; [done|]. by eapply He. }
  assert (∀ (s0 : state) L, ∃ ext, log s0 = log s0 ++ ext ∧
            ∀ l1 l2 id ty m, ext = l1 ++ EvAdd id ty m :: l2 →
              l1 = [] ∧ id = L) as Hempty.
  { intros s0 L. exists []. rewrite app_nil_r. split; [done|apply Hnil]. }
  intros Hst.
  destruct Hst as [s s' Hst|s Hc Hm|h rest s Hc Hm|s Hm Hq|s Hm Hq
                   |h id fn ctx rest s Hc Hm|h n id fn ctx rest s Hc Hm Hn|r].
  - destruct Hst as [fn ctx s|fn ctx s|id s|fn s|frames fn ctx s Hfr
                     |ty id rest j s Hq Hj Hm|id o s Hid].
    + destruct (read_fields fn ctx s) as (_ & _ & _ & _ & _ & _ & Hlog & _).
      eexists. split; [done|]. apply Hone. by intros ? ? ? [= <-].
    + destruct (write_fields fn ctx s) as (_ & _ & _ & _ & _ & _ & Hlog & _).
      eexists. split; [done|]. apply Hone. by intros ? ? ? [= <-].
    + unfold clear. destruct (jobs s !! id) as [j|]; [|apply Hempty].
      destruct (job_type j); try destruct (job_timer j); cbn;
        (eexists; split; [done|]; by apply Hone).
    + cbn. rewrite <- app_assoc. eexists. split; [done|]. cbn.
      intros l1 l2 id ty m H. destruct l1 as [|x [|y [|z l1]]]; by simplify_eq/=.
    + cbn. eexists. split; [done|]. apply Hone. by intros ? ? ? [= <-].
    + unfold take_job. destruct ty; cbn; (eexists; split; [done|]; by apply Hone).
    + destruct o as [|e]; cbn; [apply Hempty|].
      destruct (onError s); cbn; (eexists; split; [done|]; by apply Hone).
  - exact (Hempty s _).
  - exact (Hempty s _).
  - exact (Hempty s _).
  - exact (Hempty s _).
  - cbn. eexists. split; [done|]. by apply Hone.
  - exact (Hempty s _).
  - destruct (report_fields r) as (_ & _ & -> & _). apply Hempty.
Qed.

Lemma ordered_hstep s s' : wf s → ordered s → hstep s s' → ordered s'.
Proof.
  intros Hwf Ho (ext & E & Hext)%hstep_shape l1 l2 id ty m El e He.
  rewrite E in El. apply app_eq_inv in El as [(k & Hl & Hk)|(k & Hl & Hk)].
  - destruct k as [|x k]; cbn in Hk.
    + symmetry in Hk. apply (Hext []) in Hk as [_ ->].
      rewrite app_nil_r in Hl. subst l1. apply (wf_log _ Hwf) in He. lia.
    + simplify_eq. by eapply Ho.
  - apply Hext in Hk as [-> ->]. rewrite app_nil_r in Hl. subst l1.
    apply (wf_log _ Hwf) in He. lia.
Qed.

Lemma fsteps_invariant (I : state → Prop) :
  (∀ s s', wf s → sched s → I s → fstep s s' → I s') →
  ∀ s s', wf s → sched s → I s → rtc fstep s s' → I s'.
Proof.
  intros HI s s' Hwf Hsc Hi Hs. induction Hs as [s|s s1 s2 H1 H2 IH]; [done|].
  apply IH.
  - by eapply wf_hstep, fstep_hstep.
  - by eapply sched_hstep, fstep_hstep.
  - by eapply HI.
Qed.

Lemma quiescent_hsteps s s' :
  wf s → sched s → armed s → ordered s → rtc hstep s s' →
  wf s' ∧ sched s' ∧ armed s' ∧ ordered s'.
Proof.
  intros Hwf Hsc Ha Ho Hs. induction Hs as [s|s s1 s2 H1 H2 IH]; [done|].
  apply IH; eauto using wf_hstep, sched_hstep, armed_hstep, ordered_hstep.
Qed.

Lemma quiescent_new h : quiescent (new h).
Proof.
  split_and!; [apply wf_new|reflexivity| | |done|done].
  - by intros [?|?].
  - intros l1 l2 id ty m H. by destruct l1.
Qed.

Lemma quiescent_tick s : quiescent s → quiescent (tick s).
Proof.
  intros (Hwf & Hs & Ha & Ho & Hm & Hc).
  destruct (tick_hsteps s Hwf Hm Hc) as (H1 & H2 & H3).
  destruct (quiescent_hsteps _ _ Hwf Hs Ha Ho H1) as (? & ? & ? & ?).
  by split_and!.
Qed.

Lemma quiescent_turn c s : quiescent s → quiescent (turn c s).
Proof.
  intros (Hwf & Hs & Ha & Ho & Hm & Hc).
  pose proof (turn_hsteps c s) as H1.
  pose proof (exec_steps c s) as H2.
  apply steps_basics in H2 as (Hm' & _ & _ & _ & _ & _ & _ & Hl).
  destruct (report_fields (exec c s)) as (Em & Ec & _).
  destruct (quiescent_hsteps _ _ Hwf Hs Ha Ho H1) as (? & ? & ? & ?).
  split_and!; [done..|unfold turn; congruence|].
  unfold turn. rewrite Ec. rewrite Hc in Hl.
  destruct (current (exec c s).1); [done|cbn in Hl; lia].
Qed.

(** ** The course of one animation frame *)

Lemma step_current_frames s s' :
  wf s → step s s' → count_frames (current s') = count_frames (current s).
Proof.
  intros Hwf Hs. destruct Hs as [fn ctx s|fn ctx s|id s|fn s|frames fn ctx s Hfr
                                 |ty id rest j s Hq Hj Hm|id o s Hid].
  - by destruct (read_fields fn ctx s) as (_ & _ & _ & _ & _ & _ & _ & _ & _ & _ & ->).
  - by destruct (write_fields fn ctx s) as (_ & _ & _ & _ & _ & _ & _ & _ & _ & _ & ->).
  - unfold clear. destruct (jobs s !! id) as [j|] eqn:Hj; [|done].
    destruct (job_type j); try done.
    destruct (job_timer j) as [h|] eqn:Ht; [|done]. cbn.
    apply count_frames_drop. intros cb Hin.
    destruct (wf_timer _ Hwf id j h Hj Ht) as [_ Hcb].
    destruct (Hcb cb) as (n & fn & ctx & ->); [|done].
    apply elem_of_app. auto.
  - done.
  - done.
  - unfold take_job. by destruct ty.
  - destruct o as [|e]; [done|]. unfold catch_run. cbn. by destruct (onError s).
Qed.

Lemma tick_inv_extend L l0 s s' ext :
  wf s → tick_inv L l0 s →
  mode s' = mode s → log s' = log s ++ ext →
  Forall (ev_mode_is (mode s)) ext →
  lastId s ≤ lastId s' →
  count_frames (current s') = count_frames (current s) →
  (∀ ty i, i ∈ queue ty s' → i ∈ queue ty s ∨ i = lastId s + 1) →
  tick_inv L l0 s'.
Proof.
  intros Hwf (HL & pre & R & W & post & E & (Fp & FR & FW & Fq) & Hst)
    Em El Ft Hid Hcf Hq.
  assert (∀ ty i (l : list event), i ∈ queue ty s' →
            (i ∈ queue ty s → L < i ∧ ∀ e, e ∈ l → ev_id e < i) →
            (∀ e, e ∈ l → e ∈ log s) →
            L < i ∧ ∀ e, e ∈ l → ev_id e < i) as Hfresh.
  { intros ty i l [Hi| ->]%Hq Hold Hsub; [auto|]. split; [lia|].
    intros e He%Hsub%(wf_log _ Hwf). lia. }
  split; [lia|]. rewrite Em, Hcf, El, E.
  destruct (mode s) as [[]|] eqn:Hmode.
  - destruct Hst as (Hc & -> & ->).
    exists pre, (R ++ ext), [], []. rewrite !app_nil_r in *.
    split_and!; [by rewrite !app_assoc| |done|done|done].
    split_and!; [done|by apply Forall_app|done|done].
  - destruct Hst as (Hc & -> & Hr).
    exists pre, R, (W ++ ext), []. rewrite !app_nil_r in *.
    split_and!; [by rewrite !app_assoc| |done|done|].
    + split_and!; [done|done|by apply Forall_app|done].
    + intros i Hi. apply (Hfresh TRead i _ Hi); [apply Hr|].
      intros e He. rewrite E, !app_assoc, !elem_of_app.
      apply elem_of_app in He. tauto.
  - destruct Hst as [(Hc & -> & -> & ->)|(Hc & Hr & Hw)].
    + exists (pre ++ ext), [], [], []. rewrite !app_nil_r in *.
      split_and!; [by rewrite !app_assoc| |by left].
      split_and!; [by apply Forall_app|done..].
    + exists pre, R, W, (post ++ ext).
      split_and!; [by rewrite !app_assoc| |right].
      * split_and!; [done|done|done|by apply Forall_app].
      * split_and!; [done| |].
        -- intros i Hi. apply (Hfresh TRead i _ Hi); [apply Hr|].
           intros e He. rewrite E, !app_assoc, !elem_of_app.
           apply elem_of_app in He. tauto.
        -- intros i Hi. apply (Hfresh TWrite i _ Hi); [apply Hw|].
           intros e He. rewrite E, !app_assoc, !elem_of_app.
           rewrite !app_assoc, !elem_of_app in He. tauto.
Qed.

Lemma tick_inv_fstep L l0 s s' :
  wf s → sched s → tick_inv L l0 s → fstep s s' → tick_inv L l0 s'.
Proof.
  intros Hwf Hsc Hti Hst.
  destruct Hst as [s s' Hst|h rest s Hc Hm|s Hm Hq|s Hm Hq
                   |h id fn ctx rest s Hc Hm|h n id fn ctx rest s Hc Hm Hn|r].
  - destruct (step_tagged _ _ Hst) as (ext & E & F).
    pose proof (step_basics _ _ Hst) as (Em & _ & _ & Hl & _).
    pose proof (step_sources _ _ Hst) as (_ & Hq & _).
    apply (tick_inv_extend L l0 s s' ext Hwf Hti); try done.
    by apply step_current_frames.
  - destruct Hti as (HL & pre & R & W & post & E & Hph & Hstage).
    rewrite Hm, Hc in Hstage. rewrite count_frames_cons in Hstage. cbn in Hstage.
    destruct Hstage as [(Hcf & -> & -> & ->)|(Hcf & _)]; [|lia].
    split; [done|]. exists pre, [], [], []. cbn.
    split_and!; [done|done|lia|done|done].
  - destruct Hti as (HL & pre & R & W & post & E & Hph & Hstage).
    rewrite Hm in Hstage. destruct Hstage as (Hcf & -> & ->).
    split; [done|]. exists pre, R, [], []. cbn.
    split_and!; [done|done|done|done|]. intros i Hi. rewrite Hq in Hi.
    by apply elem_of_nil in Hi.
  - destruct Hti as (HL & pre & R & W & post & E & Hph & Hstage).
    rewrite Hm in Hstage. destruct Hstage as (Hcf & -> & Hr).
    split; [done|]. exists pre, R, W, []. cbn.
    split_and!; [done|done|]. right. split_and!; [done|done|].
    intros i Hi. rewrite Hq in Hi. by apply elem_of_nil in Hi.
  - apply (tick_inv_extend L l0 s _ [EvCall id TDefer None] Hwf Hti).
    + done.
    + cbn. by rewrite Hm.
    + rewrite Hm. by repeat constructor.
    + cbn. lia.
    + cbn. by rewrite Hc, count_frames_cons.
    + intros [] i; cbn; auto.
  - apply (tick_inv_extend L l0 s _ [] Hwf Hti).
    + done.
    + cbn. by rewrite app_nil_r.
    + done.
    + cbn. lia.
    + cbn. by rewrite Hc, count_frames_cons.
    + intros [] i; cbn; auto.
  - destruct (report_fields r) as (Em & Ec & El & Eid & Er & Ew & _).
    apply (tick_inv_extend L l0 r.1 _ [] Hwf Hti).
    + done.
    + by rewrite app_nil_r.
    + done.
    + lia.
    + by rewrite Ec.
    + intros [] i; cbn; rewrite ?Er, ?Ew; auto.
Qed.

Lemma tick_inv_begin s :
  quiescent s →
  tick_inv (lastId s) (log s) (set_current (rafq s) (set_rafq [] s)).
Proof.
  intros (Hwf & Hs & Ha & Ho & Hm & Hc).
  split; [cbn; lia|]. exists [], [], [], []. cbn. rewrite app_nil_r, Hm.
  split_and!; [done|by repeat constructor|].
  unfold sched, frame_cbs in Hs. rewrite Hc, app_nil_r in Hs.
  unfold armed in Ha. rewrite Hm in Ha.
  destruct (pending s); [by left|right].
  split_and!; [done| |].
  - intros i Hi. destruct (queue_read s); [by apply elem_of_nil in Hi|].
    exfalso. by assert (false = true) by (apply Ha; by left).
  - intros i Hi. destruct (queue_write s); [by apply elem_of_nil in Hi|].
    exfalso. by assert (false = true) by (apply Ha; by right).
Qed.

(** The log of one animation frame, and the queues at its end: every job
    still queued is younger than the frame. *)
Lemma tick_spec s :
  quiescent s →
  ∃ pre R W post,
    log (tick s) = log s ++ pre ++ R ++ W ++ post ∧ phased pre R W post ∧
    (∀ id, id ∈ queue_read (tick s) →
       lastId s < id ∧ ∀ e, e ∈ pre ++ R → ev_id e < id) ∧
    (∀ id, id ∈ queue_write (tick s) →
       lastId s < id ∧ ∀ e, e ∈ pre ++ R ++ W → ev_id e < id).
Proof.
  intros Hq. pose proof (tick_inv_begin s Hq) as Hb.
  destruct Hq as (Hwf & Hs & Ha & Ho & Hm & Hc).
  destruct (tick_fsteps s Hwf Hm Hc) as (H1 & H2 & H3).
  assert (tick_inv (lastId s) (log s) (tick s)) as Ht.
  { eapply (fsteps_invariant (tick_inv (lastId s) (log s)));
      [apply tick_inv_fstep| | |done|done].
    - by apply wf_tick_begin.
    - eapply sched_hstep; [done|done|by apply hstep_tick_begin]. }
  destruct Ht as (_ & pre & R & W & post & E & Hph & Hstage).
  rewrite H2, H3 in Hstage. exists pre, R, W, post.
  destruct Hstage as [(Hcf & _)|(_ & Hr & Hw)]; [done|]. done.
Qed.

(** ** Reads before writes *)

Lemma tagged_elem m l e : Forall (ev_mode_is m) l → e ∈ l → ev_mode_is m e.
Proof. intros F Hin. by eapply Forall_forall in F. Qed.

Lemma phased_reading pre R W post e :
  phased pre R W post → e ∈ pre ++ R ++ W ++ post →
  ev_mode_is (Some Reading) e → (∀ id, e ≠ EvClear id) → (∀ id x, e ≠ EvFail id x) →
  e ∈ R.
Proof.
  intros (Fp & FR & FW & Fq) Hin He Hc Hf.
  rewrite !elem_of_app in Hin. destruct Hin as [Hin|[Hin|[Hin|Hin]]]; [|done| |].
  - apply (tagged_elem _ _ _ Fp) in Hin. destruct e; cbn in *; congruence.
  - apply (tagged_elem _ _ _ FW) in Hin. destruct e; cbn in *; congruence.
  - apply (tagged_elem _ _ _ Fq) in Hin. destruct e; cbn in *; congruence.
Qed.

Lemma phased_writing pre R W post e :
  phased pre R W post → e ∈ pre ++ R ++ W ++ post →
  ev_mode_is (Some Writing) e → (∀ id, e ≠ EvClear id) → (∀ id x, e ≠ EvFail id x) →
  e ∈ W.
Proof.
  intros (Fp & FR & FW & Fq) Hin He Hc Hf.
  rewrite !elem_of_app in Hin. destruct Hin as [Hin|[Hin|[Hin|Hin]]]; [| |done|].
  - apply (tagged_elem _ _ _ Fp) in Hin. destruct e; cbn in *; congruence.
  - apply (tagged_elem _ _ _ FR) in Hin. destruct e; cbn in *; congruence.
  - apply (tagged_elem _ _ _ Fq) in Hin. destruct e; cbn in *; congruence.
Qed.

Lemma phased_reads_first pre R W post :
  phased pre R W post →
  (∀ id ty m, EvCall id ty m ∈ pre ++ R ++ W ++ post → ty ≠ TDefer →
     m = phase_of ty) →
  reads_first (pre ++ R ++ W ++ post).
Proof.
  intros (Fp & FR & FW & Fq) Hcm i j id1 id2 m1 m2 Hi Hj.
  pose proof (Hcm _ _ _ (list_elem_of_lookup_2 _ _ _ Hi) ltac:(done)) as ->.
  pose proof (Hcm _ _ _ (list_elem_of_lookup_2 _ _ _ Hj) ltac:(done)) as ->.
  cbn in *.
  assert (∀ m l k e, Forall (ev_mode_is m) l → l !! k = Some e → ev_mode_is m e)
    as Hlk.
  { intros m l k e F Hk. eapply tagged_elem; [done|].
    by eapply list_elem_of_lookup_2. }
  (* the write call lies in W or later, the read call in R or earlier *)
  assert (length pre + length R ≤ i)%nat as Hge.
  { apply lookup_app_Some in Hi as [Hi|[? Hi]].
    { by apply (Hlk _ _ _ _ Fp) in Hi. }
    apply lookup_app_Some in Hi as [Hi|[? Hi]].
    { by apply (Hlk _ _ _ _ FR) in Hi. }
    lia. }
  assert (j < length pre + length R)%nat as Hlt.
  { apply lookup_app_Some in Hj as [Hj|[? Hj]].
    { apply lookup_lt_Some in Hj. lia. }
    apply lookup_app_Some in Hj as [Hj|[? Hj]].
    { apply lookup_lt_Some in Hj. lia. }
    apply lookup_app_Some in Hj as [Hj|[? Hj]].
    { by apply (Hlk _ _ _ _ FW) in Hj. }
    by apply (Hlk _ _ _ _ Fq) in Hj. }
  lia.
Qed.

(** A job queued between two frames is invoked, in its phase, or
    cancelled in the next frame. *)
Lemma tick_drains s ty id :
  quiescent s → id ∈ queue ty s →
  ∃ ext, log (tick s) = log s ++ ext ∧
    (EvCall id ty (phase_of ty) ∈ ext ∨ EvClear id ∈ ext).
Proof.
  intros Hq Hin. destruct (tick_spec s Hq) as (pre & R & W & post & E & _ & Hr & Hw).
  pose proof (quiescent_tick s Hq) as (Hwf' & _).
  destruct Hq as (Hwf & _).
  exists (pre ++ R ++ W ++ post). split; [done|].
  apply (drained ty id s (tick s)); try done.
  destruct (wf_queue _ Hwf _ _ Hin) as [(j & Hj & _) _].
  apply (wf_jobs _ Hwf) in Hj.
  intros Hin'. destruct ty; cbn in Hin'.
  - apply Hr in Hin' as [? _]. lia.
  - apply Hw in Hin' as [? _]. lia.
  - by apply elem_of_nil in Hin'.
Qed.

Lemma turn_ext c s :
  ∃ sub, log (turn c s) = log s ++ sub ∧
    Forall (ev_mode_is (mode s)) sub ∧
    (∀ id ty m, EvAdd id ty m ∈ sub → lastId s < id).
Proof.
  destruct (steps_ext _ _ (exec_steps c s)) as (sub & E & F & A & _).
  exists sub. unfold turn.
  by destruct (report_fields (exec c s)) as (_ & _ & -> & _).
Qed.

(** Whatever a synchronous turn submits between two frames, in the next
    frame no write callback is invoked before a read callback, every read
    submitted is invoked in the reading phase and every write submitted in
    the writing phase, unless cancelled. *)
Lemma turn_then_frame s c :
  quiescent s →
  ∃ sub ext,
    log (turn c s) = log s ++ sub ∧
    log (tick (turn c s)) = log (turn c s) ++ ext ∧
    reads_first ext ∧
    (∀ id m, EvAdd id TRead m ∈ sub →
       EvCall id TRead (Some Reading) ∈ ext ∨ EvClear id ∈ sub ++ ext) ∧
    (∀ id m, EvAdd id TWrite m ∈ sub →
       EvCall id TWrite (Some Writing) ∈ ext ∨ EvClear id ∈ sub ++ ext).
Proof.
  intros Hq. pose proof (quiescent_turn c s Hq) as Hq1.
  pose proof (quiescent_tick _ Hq1) as Hq2.
  destruct (turn_ext c s) as (sub & Es & Fs & As).
  destruct (tick_spec _ Hq1) as (pre & R & W & post & E & Hph & Hr & Hw).
  destruct Hq as (Hwf & _ & _ & _ & Hm & _).
  destruct Hq1 as (Hwf1 & Hq1').
  destruct Hq2 as (Hwf2 & _).
  exists sub, (pre ++ R ++ W ++ post). split_and!; [done|done| | |].
  - apply phased_reads_first; [done|]. intros id ty m Hin Hty.
    apply (wf_call_mode _ Hwf2 id ty m); [|done].
    rewrite E, elem_of_app. auto.
  - intros id m Hin.
    assert (∀ e, ev_id e = id → e ∈ log (turn c s) → e ∈ sub) as Hsub.
    { intros e He. rewrite Es. intros [Hl|?]%elem_of_app; [|done].
      apply (wf_log _ Hwf) in Hl. apply As in Hin. lia. }
    destruct (wf_added _ Hwf1 id TRead m) as [Hqr|[(m' & Hc)|Hc]];
      [rewrite Es, elem_of_app; auto|done| | |].
    + destruct (tick_drains (turn c s) TRead id) as (ext' & E' & Hd);
        [by split|done|].
      assert (ext' = pre ++ R ++ W ++ post) as ->.
      { rewrite E in E'. by apply app_inv_head in E'. }
      destruct Hd as [?|?]; [by left|right]. rewrite !elem_of_app in *. tauto.
    + pose proof (wf_call_mode _ Hwf1 _ _ _ Hc ltac:(done)) as ->.
      apply Hsub in Hc; [|done]. apply (tagged_elem _ _ _ Fs) in Hc.
      cbn in Hc. congruence.
    + right. apply elem_of_app. left. by apply Hsub.
  - intros id m Hin.
    assert (∀ e, ev_id e = id → e ∈ log (turn c s) → e ∈ sub) as Hsub.
    { intros e He. rewrite Es. intros [Hl|?]%elem_of_app; [|done].
      apply (wf_log _ Hwf) in Hl. apply As in Hin. lia. }
    destruct (wf_added _ Hwf1 id TWrite m) as [Hqr|[(m' & Hc)|Hc]];
      [rewrite Es, elem_of_app; auto|done| | |].
    + destruct (tick_drains (turn c s) TWrite id) as (ext' & E' & Hd);
        [by split|done|].
      assert (ext' = pre ++ R ++ W ++ post) as ->.
      { rewrite E in E'. by apply app_inv_head in E'. }
      destruct Hd as [?|?]; [by left|right]. rewrite !elem_of_app in *. tauto.
    + pose proof (wf_call_mode _ Hwf1 _ _ _ Hc ltac:(done)) as ->.
      apply Hsub in Hc; [|done]. apply (tagged_elem _ _ _ Fs) in Hc.
      cbn in Hc. congruence.
    + right. apply elem_of_app. left. by apply Hsub.
Qed.


(** ** Submissions from inside a frame *)

Lemma count_frames_elem l :
  (0 < count_frames l)%nat → ∃ h, (h, FrameCb) ∈ l.
Proof.
  induction l as [|[h cb] l IH]; [by cbv; lia|].
  rewrite count_frames_cons. destruct cb as [|n id fn ctx]; cbn.
  - intros _. exists h. left.
  - intros (h' & Hin)%IH. exists h'. by right.
Qed.

Lemma pending_frame s :
  sched s → pending s = true → ∃ h, (h, FrameCb) ∈ rafq s ++ current s.
Proof.
  unfold sched, frame_cbs. intros Hs Hp. rewrite Hp in Hs.
  apply count_frames_elem. lia.
Qed.

Lemma write_while_reading fn ctx s :
  mode s = Some Reading →
  rafq (write fn ctx s).2 = rafq s ∧ pending (write fn ctx s).2 = pending s ∧
  queue_write (write fn ctx s).2 = queue_write s ++ [(write fn ctx s).1].
Proof.
  intros Hm. unfold write, _add, _uniqueId, _request. cbn. by rewrite Hm.
Qed.

(** A read submitted while writing asks the host for a frame, unless one
    has been asked for already since the frame in progress began. *)
Lemma read_while_writing_request fn ctx s :
  mode s = Some Writing →
  rafq (read fn ctx s).2 =
    if pending s then rafq s else rafq s ++ [(next_handle s, FrameCb)].
Proof.
  intros Hm. unfold read, _add, _uniqueId, _request. cbn. rewrite Hm.
  by destruct (pending s).
Qed.

Lemma read_while_writing fn ctx s :
  wf s → sched s → mode s = Some Writing →
  pending (read fn ctx s).2 = true ∧
  (∃ h, (h, FrameCb) ∈ rafq (read fn ctx s).2 ++ current (read fn ctx s).2) ∧
  queue_read (read fn ctx s).2 = queue_read s ++ [(read fn ctx s).1].
Proof.
  intros Hwf Hs Hm.
  assert (pending (read fn ctx s).2 = true) as Hp.
  { rewrite read_eq.
    match goal with |- pending (_request ?t ?x) = _ =>
      destruct (request_armed t x) as (_ & _ & _ & _ & _ & Hw) end.
    by apply Hw. }
  split_and!; [done| |].
  - apply pending_frame; [|done]. eapply sched_step; [done|done|constructor].
  - by destruct (read_fields fn ctx s) as (-> & _ & -> & _).
Qed.

(** C6: an animation frame invokes every job that waits in a queue, in
    the phase of its queue, unless the job is cancelled.  A write submitted
    while reading requests no frame and is invoked in the writing phase of
    the frame in progress; a read submitted while writing has a frame
    requested for it (by that very call, unless an earlier one of the same
    frame has requested it), is not invoked in the frame in progress and is
    invoked in the reading phase of the next frame (each unless
    cancelled). *)
Theorem cross_phase_submissions s :
  quiescent s →
  (∀ s0 fn ctx, mode s0 = Some Reading →
     rafq (write fn ctx s0).2 = rafq s0 ∧
     pending (write fn ctx s0).2 = pending s0) ∧
  (∀ s0 fn ctx, wf s0 → sched s0 → mode s0 = Some Writing →
     pending (read fn ctx s0).2 = true ∧
     rafq (read fn ctx s0).2 =
       (if pending s0 then rafq s0
        else rafq s0 ++ [(next_handle s0, FrameCb)]) ∧
     ∃ h, (h, FrameCb) ∈ rafq (read fn ctx s0).2 ++ current (read fn ctx s0).2) ∧
  ∃ ext, log (tick s) = log s ++ ext ∧
    (∀ ty id, id ∈ queue ty s →
       EvCall id ty (phase_of ty) ∈ ext ∨ EvClear id ∈ ext) ∧
    (∀ id, EvAdd id TWrite (Some Reading) ∈ ext →
       EvCall id TWrite (Some Writing) ∈ ext ∨ EvClear id ∈ ext) ∧
    (∀ id, EvAdd id TRead (Some Writing) ∈ ext →
       (∀ m, EvCall id TRead m ∉ ext) ∧
       (EvClear id ∈ ext ∨
        id ∈ queue_read (tick s) ∧ pending (tick s) = true ∧
        (∃ h, (h, FrameCb) ∈ rafq (tick s)) ∧
        ∃ ext2, log (tick (tick s)) = log (tick s) ++ ext2 ∧
          (EvCall id TRead (Some Reading) ∈ ext2 ∨ EvClear id ∈ ext2))).
Proof.
  intros Hq. split_and!.
  { intros s0 fn ctx Hm. by destruct (write_while_reading fn ctx s0 Hm) as (? & ? & _). }
  { intros s0 fn ctx Hwf0 Hs0 Hm.
    destruct (read_while_writing fn ctx s0 Hwf0 Hs0 Hm) as (? & ? & _).
    split_and!; [done| |done]. by apply read_while_writing_request. }
  pose proof (quiescent_tick s Hq) as Hq1.
  destruct (tick_spec s Hq) as (pre & R & W & post & E & Hph & Hr & Hw).
  assert (∀ ty id, id ∈ queue ty s →
            EvCall id ty (phase_of ty) ∈ pre ++ R ++ W ++ post ∨
            EvClear id ∈ pre ++ R ++ W ++ post) as Hdr.
  { intros ty id Hin. destruct (tick_drains s ty id Hq Hin) as (ext' & E' & Hd).
    assert (ext' = pre ++ R ++ W ++ post) as <-; [|done].
    rewrite E in E'. by apply app_inv_head in E'. }
  destruct Hq as (Hwf & Hsc & Ha & Ho & Hm & Hc).
  destruct (tick_hsteps s Hwf Hm Hc) as (Hsteps & _ & _).
  destruct (hsteps_ext _ _ Hsteps) as (_ & _ & ext' & E' & Hfresh & _).
  assert (ext' = pre ++ R ++ W ++ post) as ->.
  { rewrite E in E'. by apply app_inv_head in E'. }
  destruct Hq1 as (Hwf1 & Hsc1 & Ha1 & Ho1 & Hm1 & Hc1).
  exists (pre ++ R ++ W ++ post). split_and!; [done|exact Hdr| |].
  - intros id Hin.
    apply (added_drained TWrite id (Some Reading) s (tick s)); try done.
    intros Hin'. apply Hw in Hin' as [_ Hlt].
    apply (phased_reading _ _ _ _ _ Hph) in Hin; [|done..].
    assert (id < id); [|lia].
    apply (Hlt (EvAdd id TWrite (Some Reading))). rewrite !elem_of_app. auto.
  - intros id Hin.
    assert (∀ m, EvCall id TRead m ∉ pre ++ R ++ W ++ post) as Hnc.
    { intros m Hc'.
      assert (m = Some Reading) as ->.
      { apply (wf_call_mode _ Hwf1 id TRead m); [|done].
        rewrite E, elem_of_app. auto. }
      apply (phased_reading _ _ _ _ _ Hph) in Hc'; [|done..].
      apply (phased_writing _ _ _ _ _ Hph) in Hin; [|done..].
      apply list_elem_of_split in Hin as (W1 & W2 & ->).
      specialize (Ho1 (log s ++ pre ++ R ++ W1) (W2 ++ post) id TRead (Some Writing)).
      rewrite E in Ho1. rewrite <- !app_assoc in Ho1. cbn in Ho1.
      assert (id < id); [|lia].
      apply (Ho1 eq_refl (EvCall id TRead (Some Reading))).
      rewrite !elem_of_app. auto. }
    split; [done|].
    pose proof (Hfresh _ _ _ Hin) as Hid.
    destruct (wf_added _ Hwf1 id TRead (Some Writing)) as [Hqr|[(m' & Hc')|Hc']];
      [rewrite E, elem_of_app; auto|done| | |].
    + right. assert (pending (tick s) = true) as Hp.
      { unfold armed in Ha1. rewrite Hm1 in Ha1. apply Ha1. left.
        intros Hnil. unfold queue in Hqr. rewrite Hnil in Hqr.
        by apply elem_of_nil in Hqr. }
      split_and!; [done|done| |].
      * destruct (pending_frame _ Hsc1 Hp) as (h & Hh). exists h.
        by rewrite Hc1, app_nil_r in Hh.
      * apply (tick_drains (tick s) TRead id); [by split_and!|done].
    + exfalso. rewrite E in Hc'. apply elem_of_app in Hc' as [Hc'|Hc'].
      * apply (wf_log _ Hwf) in Hc'. cbn in Hc'. lia.
      * by apply Hnc in Hc'.
    + left. rewrite E in Hc'. apply elem_of_app in Hc' as [Hc'|Hc']; [|done].
      apply (wf_log _ Hwf) in Hc'. cbn in Hc'. lia.
Qed.

(** On a read whose callback submits a write whose callback submits a
    read: the frame calls read 1 while reading, which adds write 2; it
    calls write 2 while writing, which adds read 3; read 3 is not called in
    that frame and is called while reading in the next one. *)
Lemma cross_phase_submissions_witness :
  quiescent relay ∧
  ∃ ext,
    log (tick relay) = log relay ++ ext ∧
    EvCall 1 TRead (Some Reading) ∈ ext ∧
    EvAdd 2 TWrite (Some Reading) ∈ ext ∧
    EvCall 2 TWrite (Some Writing) ∈ ext ∧
    EvAdd 3 TRead (Some Writing) ∈ ext ∧
    (∀ m, EvCall 3 TRead m ∉ ext) ∧
    ∃ ext2,
      log (tick (tick relay)) = log (tick relay) ++ ext2 ∧
      EvCall 3 TRead (Some Reading) ∈ ext2.
Proof.
  assert (quiescent relay) as Hq by apply quiescent_turn, quiescent_new.
  split; [exact Hq|].
  destruct (cross_phase_submissions relay Hq)
    as (_ & _ & ext & H1 & H0 & H2 & H3).
  assert (log (tick relay) =
          log relay ++ [EvCall 1 TRead (Some Reading);
                        EvAdd 2 TWrite (Some Reading);
                        EvCall 2 TWrite (Some Writing);
                        EvAdd 3 TRead (Some Writing)]) as Hl
    by (vm_compute; reflexivity).
  assert (ext = [EvCall 1 TRead (Some Reading);
                 EvAdd 2 TWrite (Some Reading);
                 EvCall 2 TWrite (Some Writing);
                 EvAdd 3 TRead (Some Writing)]) as Hext.
  { rewrite Hl in H1. apply app_inv_head in H1. by symmetry. }
  assert (1 ∈ queue TRead relay) as Hin1 by (vm_compute; left).
  assert (EvAdd 2 TWrite (Some Reading) ∈ ext) as Ha2
    by (rewrite Hext; right; left).
  assert (EvAdd 3 TRead (Some Writing) ∈ ext) as Ha3
    by (rewrite Hext; do 3 right; left).
  assert (∀ id, EvClear id ∉ ext) as Hncl.
  { intros id. rewrite Hext, !not_elem_of_cons.
    split_and!; [done..|]. apply not_elem_of_nil. }
  destruct (H3 3 Ha3) as (Hn3 & [Hc3|(_ & _ & _ & ext2 & L2 & Hc2)]);
    [by apply Hncl in Hc3|].
  assert (log (tick (tick relay)) =
          log (tick relay) ++ [EvCall 3 TRead (Some Reading)]) as Hl2
    by (vm_compute; reflexivity).
  assert (ext2 = [EvCall 3 TRead (Some Reading)]) as Hext2.
  { rewrite Hl2 in L2. apply app_inv_head in L2. by symmetry. }
  exists ext. split_and!; [exact H1| |exact Ha2| |exact Ha3|exact Hn3|].
  - destruct (H0 TRead 1 Hin1) as [?|Hc]; [done|by apply Hncl in Hc].
  - destruct (H2 2 Ha2) as [?|Hc]; [done|by apply Hncl in Hc].
  - exists ext2. split; [exact L2|].
    destruct Hc2 as [?|Hc]; [done|]. rewrite Hext2 in Hc.
    by apply list_elem_of_singleton in Hc.
Defined.

(** ** Deferred jobs count frames down *)

(** The fate of a pending run of [wrapped] while callbacks run: it stays
    where it is, unless its job is cancelled. *)
Lemma step_entry s s' h n id fn ctx :
  wf s → step s s' →
  let e := (h, Wrapped n id fn ctx) in
  e ∈ rafq s ++ current s →
  ((e ∈ rafq s → e ∈ rafq s') ∧ (e ∈ current s → e ∈ current s')) ∨
  (EvClear id ∈ log s' ∧ ¬ called id (log s') ∧ dead id s').
Proof.
  intros Hwf Hs e He.
  destruct (wf_wrapped _ Hwf _ _ _ _ _ He) as (_ & Hnc & j & Hj & Hty & Htm).
  destruct Hs as [fn' ctx' s|fn' ctx' s|id' s|fn' s|frames fn' ctx' s Hfr
                  |ty id' rest j' s Hq Hj' Hm|id' o s Hid].
  - left. rewrite read_eq.
    match goal with |- context [_request ?t ?x] =>
      destruct (request_cases t x) as [->|[-> _]] end; cbn;
      rewrite ?elem_of_app; auto.
  - left. rewrite write_eq.
    match goal with |- context [_request ?t ?x] =>
      destruct (request_cases t x) as [->|[-> _]] end; cbn;
      rewrite ?elem_of_app; auto.
  - unfold clear. destruct (jobs s !! id') as [j0|] eqn:Hj0; [|by left].
    destruct (job_type j0) eqn:Hty0; [by left|by left|].
    destruct (job_timer j0) as [h0|] eqn:Htm0; [|by left].
    destruct (decide (h0 = h)) as [->|Hne].
    + right. destruct (wf_timer _ Hwf id' j0 h Hj0 Htm0) as [_ Hcb].
      destruct (Hcb _ He) as (? & ? & ? & [= _ <- _ _]).
      cbn. split_and!; [| |unfold dead; split_and!].
      * apply elem_of_snoc. auto.
      * by intros [?|(? & ? & ?)]%called_snoc.
      * apply (wf_jobs _ Hwf) in Hj. cbn. lia.
      * intros ty Hin. cbn in Hin.
        assert (id ∈ queue ty s) as Hin' by (by destruct ty).
        destruct (wf_queue _ Hwf _ _ Hin') as [(j1 & Hj1 & Hty1) _].
        assert (ty = TDefer) as -> by congruence. by apply elem_of_nil in Hin'.
      * intros (h1 & n1 & fn1 & ctx1 & Hin). cbn in Hin.
        rewrite drop_handle_app in Hin. unfold drop_handle in Hin.
        apply list_elem_of_filter in Hin as [Hh1 Hin]. cbn in Hh1.
        destruct (wf_wrapped _ Hwf _ _ _ _ _ Hin) as (_ & _ & j1 & Hj1 & _ & Htm1).
        congruence.
    + left. cbn. unfold drop_handle. rewrite !list_elem_of_filter. cbn.
      by split; intros ?.
  - by left.
  - left. cbn. rewrite elem_of_app. auto.
  - left. unfold take_job. by destruct ty.
  - left. destruct o as [|x]; [done|]. unfold catch_run. cbn.
    by destruct (onError s).
Qed.

Lemma head_is_entry s h h0 cb cb0 rest :
  wf s → current s = (h0, cb0) :: rest → (h, cb) ∈ current s →
  (h0 = h ∧ cb0 = cb) ∨ (h0 ≠ h ∧ (h, cb) ∈ rest).
Proof.
  intros Hwf Hc Hin. rewrite Hc in Hin. apply elem_of_cons in Hin as [[= -> ->]|Hin].
  { by left. }
  right. split; [|done]. intros ->.
  apply (popped_handle_fresh s h cb0 rest Hwf Hc).
  rewrite fmap_app, elem_of_app. right.
  apply list_elem_of_fmap. by exists (h, cb).
Qed.

Lemma entry_inv_fstep h n id fn ctx s s' :
  wf s → sched s → entry_inv h n id fn ctx s → fstep s s' →
  entry_inv h n id fn ctx s'.
Proof.
  intros Hwf _ Hi Hst. unfold entry_inv in *.
  destruct Hi as [(Hcl & Hnc & Hd)|[Hin|[(-> & Hc)|(Hn & h' & Hin)]]].
  - left. destruct (dead_hstep id _ _ (fstep_hstep _ _ Hst) Hd) as [Hd' Hc'].
    destruct (hstep_ext _ _ (fstep_hstep _ _ Hst)) as (_ & _ & ext & E & _).
    split_and!; [rewrite E, elem_of_app; auto|auto|done].
  - destruct Hst as [s s' Hst|h0 rest s Hc Hm|s Hm Hq|s Hm Hq
                     |h0 id0 fn0 ctx0 rest s Hc Hm
                     |h0 n0 id0 fn0 ctx0 rest s Hc Hm Hn0|r].
    + destruct (step_entry s s' h n id fn ctx Hwf Hst) as [[_ H2]|H2].
      * apply elem_of_app. auto.
      * right. left. auto.
      * by left.
    + right. left. cbn.
      by destruct (head_is_entry s h h0 _ _ rest Hwf Hc Hin) as [[_ ?]|[_ ?]].
    + by right; left.
    + by right; left.
    + destruct (head_is_entry s h h0 _ _ rest Hwf Hc Hin) as [[_ [= <- <- <- <-]]|[_ ?]].
      * right. right. left. split; [done|]. cbn. rewrite Hm.
        apply elem_of_snoc. auto.
      * by right; left.
    + destruct (head_is_entry s h h0 _ _ rest Hwf Hc Hin) as [[_ [= <- <- <- <-]]|[_ ?]].
      * right. right. right. split; [done|]. exists (next_handle s). cbn.
        apply elem_of_snoc. auto.
      * by right; left.
    + right. left. by destruct (report_fields r) as (_ & -> & _).
  - right. right. left. split; [done|].
    destruct (hstep_ext _ _ (fstep_hstep _ _ Hst)) as (_ & _ & ext & E & _).
    rewrite E, elem_of_app. auto.
  - destruct Hst as [s s' Hst|h0 rest s Hc Hm|s Hm Hq|s Hm Hq
                     |h0 id0 fn0 ctx0 rest s Hc Hm
                     |h0 n0 id0 fn0 ctx0 rest s Hc Hm Hn0|r].
    + destruct (step_entry s s' h' (n - 1) id fn ctx Hwf Hst) as [[H1 _]|H2].
      * apply elem_of_app. auto.
      * right. right. right. eauto.
      * by left.
    + right. right. right. eauto.
    + right. right. right. eauto.
    + right. right. right. eauto.
    + right. right. right. eauto.
    + right. right. right. split; [done|]. exists h'. cbn.
      apply elem_of_app. auto.
    + right. right. right. split; [done|]. exists h'.
      by destruct (report_fields r) as (_ & _ & _ & _ & _ & _ & _ & -> & _).
Qed.

(** What one frame does to a pending run of [wrapped]. *)
Lemma tick_entry s h n id fn ctx :
  quiescent s → (h, Wrapped n id fn ctx) ∈ rafq s →
  (EvClear id ∈ log (tick s) ∧ ¬ called id (log (tick s)) ∧ dead id (tick s)) ∨
  (n = 0 ∧ EvCall id TDefer None ∈ log (tick s)) ∨
  (n ≠ 0 ∧ ∃ h', (h', Wrapped (n - 1) id fn ctx) ∈ rafq (tick s)).
Proof.
  intros (Hwf & Hs & Ha & Ho & Hm & Hc) Hin.
  destruct (tick_fsteps s Hwf Hm Hc) as (H1 & H2 & H3).
  assert (entry_inv h n id fn ctx (tick s)) as Hi.
  { eapply (fsteps_invariant (entry_inv h n id fn ctx));
      [apply entry_inv_fstep| | | |done].
    - by apply wf_tick_begin.
    - eapply sched_hstep; [done|done|by apply hstep_tick_begin].
    - right. left. done. }
  destruct Hi as [?|[Hi|[?|?]]]; auto.
  rewrite H3 in Hi. by apply elem_of_nil in Hi.
Qed.

Lemma quiescent_ticks k : ∀ s, quiescent s → quiescent (ticks k s).
Proof. induction k as [|k IH]; intros s Hq; [done|]. cbn. by apply IH, quiescent_tick. Qed.

Lemma ticks_hsteps k : ∀ s, quiescent s → rtc hstep s (ticks k s).
Proof.
  induction k as [|k IH]; intros s Hq; [done|]. cbn.
  etrans; [|by apply IH, quiescent_tick].
  destruct Hq as (Hwf & _ & _ & _ & Hm & Hc). by apply tick_hsteps.
Qed.

Lemma hsteps_log_mono s s' e : rtc hstep s s' → e ∈ log s → e ∈ log s'.
Proof.
  intros (_ & _ & ext & -> & _)%hsteps_ext Hin. apply elem_of_app. auto.
Qed.

Lemma countdown id fn ctx : ∀ (n : nat) s h,
  quiescent s → (h, Wrapped (Z.of_nat n) id fn ctx) ∈ rafq s →
  (∀ k, (k ≤ n)%nat → ¬ called id (log (ticks k s))) ∧
  (EvClear id ∉ log (ticks (S n) s) →
   EvCall id TDefer None ∈ log (ticks (S n) s)).
Proof.
  assert (∀ s, quiescent s → dead id s → ¬ called id (log s) →
            ∀ k, ¬ called id (log (ticks k s))) as Hdead.
  { intros s Hq Hd Hnc k Hc.
    destruct (dead_hsteps id _ _ (ticks_hsteps k s Hq) Hd) as [_ Hc']. auto. }
  induction n as [|n IH]; intros s h Hq Hin.
  - assert (¬ called id (log s)) as Hnc.
    { destruct Hq as (Hwf & _).
      destruct (wf_wrapped _ Hwf h (Z.of_nat 0) id fn ctx) as (_ & ? & _); [|done].
      apply elem_of_app. auto. }
    split.
    { intros k Hk. by assert (k = 0%nat) as -> by lia. }
    cbn. intros Hncl.
    destruct (tick_entry s h _ id fn ctx Hq Hin) as [(? & _)|[(_ & ?)|(? & _)]];
      done.
  - assert (¬ called id (log s)) as Hnc.
    { destruct Hq as (Hwf & _).
      destruct (wf_wrapped _ Hwf h (Z.of_nat (S n)) id fn ctx) as (_ & ? & _); [|done].
      apply elem_of_app. auto. }
    pose proof (quiescent_tick s Hq) as Hq1.
    destruct (tick_entry s h _ id fn ctx Hq Hin)
      as [(Hcl & Hnc1 & Hd)|[(? & _)|(_ & h' & Hin')]]; [| lia |].
    + split.
      * intros [|k] Hk; [done|]. cbn. by apply Hdead.
      * intros Hncl. destruct Hncl. change (ticks (S (S n)) s) with
          (ticks (S n) (tick s)).
        eapply hsteps_log_mono; [by apply ticks_hsteps|done].
    + replace (Z.of_nat (S n) - 1) with (Z.of_nat n) in Hin' by lia.
      destruct (IH (tick s) h' Hq1 Hin') as [IH1 IH2]. split.
      * intros [|k] Hk; [done|]. cbn. apply IH1. lia.
      * done.
Qed.

(** C2 (as the code has it): [defer(n, fn)] invokes [fn] during the [n]-th
    frame after the call, not before and at most once, unless the job is
    cancelled; [defer(0, fn)] invokes [fn] during the call itself. *)
Theorem defer_fires_after_n_frames s (n : nat) fn ctx :
  quiescent s →
  let id := lastId s + 1 in
  let s1 := turn (CallDefer (Z.of_nat n) fn ctx Ret) s in
  (∀ k, (k < n)%nat → ¬ called id (log (ticks k s1))) ∧
  (EvClear id ∉ log (ticks n s1) →
   EvCall id TDefer None ∈ log (ticks n s1)) ∧
  (∀ k, NoDup (call_ids (log (ticks k s1)))).
Proof.
  intros Hq id s1.
  pose proof (quiescent_turn (CallDefer (Z.of_nat n) fn ctx Ret) s Hq) as Hq1.
  fold s1 in Hq1.
  split_and!; [| |intros k; apply wf_once, (quiescent_ticks k s1 Hq1)].
  - destruct n as [|n]; [lia|].
    assert ((next_handle s, Wrapped (Z.of_nat n) id fn ctx) ∈ rafq s1) as Hin.
    { unfold s1, turn. cbn [exec]. unfold defer_with.
      rewrite decide_False by lia. cbn [_add _uniqueId fst snd job_id].
      unfold wrapped. rewrite decide_False by lia. cbn.
      replace (Z.of_nat (S n) - 1) with (Z.of_nat n) by lia.
      apply elem_of_snoc. auto. }
    intros k Hk. apply (countdown id fn ctx n s1 _ Hq1 Hin). lia.
  - destruct n as [|n].
    + intros _. cbn [ticks]. unfold s1, turn.
      destruct (report_fields (exec (CallDefer (Z.of_nat 0) fn ctx Ret) s))
        as (_ & _ & -> & _).
      cbn [exec]. unfold defer_with. rewrite decide_False by lia.
      cbn [_add _uniqueId fst snd job_id]. unfold wrapped.
      rewrite decide_True by done.
      destruct Hq as (Hwf & _ & _ & _ & Hm & _).
      match goal with |- context [exec fn ?x] =>
        pose proof (exec_steps fn x) as He;
        assert (EvCall id TDefer None ∈ log x) as Hx end.
      { cbn. rewrite Hm. rewrite <- app_assoc. rewrite !elem_of_app.
        right. right. by left. }
      apply steps_hsteps in He.
      pose proof (hsteps_log_mono _ _ _ He Hx) as Hx'.
      destruct (exec fn _) as [s2 [|e]]; done.
    + assert ((next_handle s, Wrapped (Z.of_nat n) id fn ctx) ∈ rafq s1) as Hin.
      { unfold s1, turn. cbn [exec]. unfold defer_with.
        rewrite decide_False by lia. cbn [_add _uniqueId fst snd job_id].
        unfold wrapped. rewrite decide_False by lia. cbn.
        replace (Z.of_nat (S n) - 1) with (Z.of_nat n) by lia.
        apply elem_of_snoc. auto. }
      apply (countdown id fn ctx n s1 _ Hq1 Hin).
Qed.

Lemma defer_fires_after_n_frames_witness :
  quiescent (new false) ∧
  (∀ k, (k < 3)%nat →
        ¬ called 1 (log (ticks k (turn (CallDefer 3 Ret None Ret) (new false))))).
Proof.
  split; [apply quiescent_new|].
  destruct (defer_fires_after_n_frames (new false) 3 Ret None (quiescent_new false))
    as (H1 & _).
  exact H1.
Defined.

(** C2 as stated fails: [defer(0, fn)] has invoked [fn] when it returns,
    no frame callback being requested, and [defer(1, fn)] invokes [fn] in
    the first frame after the call. *)
Lemma defer_zero_runs_at_once :
  log (defer 0 Ret None (new false)).1.1 =
    [EvAdd 1 TDefer None; EvCall 1 TDefer None] ∧
  rafq (defer 0 Ret None (new false)).1.1 = [] ∧
  log (tick (defer 1 Ret None (new false)).1.1) =
    [EvAdd 1 TDefer None; EvCall 1 TDefer None].
Proof. by vm_compute. Qed.

End FastDomFacts.

Module SandboxedFacts.
Import Sandboxed.

(** ** [clearAll] walks an array it is shrinking *)

Lemma delete_past {A} (l : list A) : ∀ i, (length l ≤ i)%nat → delete i l = l.
Proof.
  induction l as [|x l IH]; intros [|i] Hi; cbn in *; try done; [lia|].
  rewrite IH; [done|lia].
Qed.

Lemma delete_app_length {A} (pre l : list A) :
  delete (length pre) (pre ++ l) = pre ++ tail l.
Proof.
  induction pre as [|x pre IH]; [by destruct l|].
  change (x :: delete (length pre) (pre ++ l) = x :: pre ++ tail l).
  by rewrite IH.
Qed.

(** Once the index is past the end, [tasks[i]] is [undefined] and neither
    [clear] nor [splice] does anything. *)
Lemma clearAll_loop_past n : ∀ i tasks s,
  (length tasks ≤ i)%nat → clearAll_loop n i tasks s = (tasks, s).
Proof.
  induction n as [|n IH]; intros i tasks s Hi; [done|]. cbn.
  rewrite lookup_ge_None_2 by done.
  rewrite delete_past by done. cbn. apply IH. lia.
Qed.

Lemma clearAll_loop_spec n : ∀ pre l s,
  (length l ≤ 2 * n)%nat →
  clearAll_loop n (length pre) (pre ++ l) s =
  (pre ++ odds l, clear_each (evens l) s).
Proof.
  unfold clear_each.
  induction n as [|n IH]; intros pre l s Hl.
  { destruct l; [|cbn in Hl; lia]. done. }
  destruct l as [|a [|b l]].
  - rewrite clearAll_loop_past by (rewrite length_app; cbn; lia). done.
  - cbn [clearAll_loop]. rewrite lookup_app_r, Nat.sub_diag by done. cbn [lookup].
    rewrite delete_app_length. cbn.
    rewrite clearAll_loop_past by (rewrite length_app; cbn; lia).
    by rewrite app_nil_r.
  - cbn [clearAll_loop]. rewrite lookup_app_r, Nat.sub_diag by done.
    rewrite delete_app_length. cbn [tail odds evens foldl list_lookup lookup].
    replace (pre ++ b :: l) with ((pre ++ [b]) ++ l) by (by rewrite <- app_assoc).
    replace (S (length pre)) with (length (pre ++ [b]))
      by (rewrite length_app; cbn; lia).
    rewrite IH by (cbn in Hl; lia).
    rewrite <- app_assoc. cbn. by destruct l.
Qed.

(** [clearAll] cancels the tasks at the even positions only, and leaves
    those at the odd positions in the array. *)
Lemma clearAll_spec tasks s :
  clearAll tasks s = (odds tasks, clear_each (evens tasks) s).
Proof. apply (clearAll_loop_spec (length tasks) [] tasks s). lia. Qed.

(** ** What [fastdom.clear] leaves alone *)

Lemma clear_boxes t s : boxes (clear t s) = boxes s.
Proof.
  destruct t as [t|]; [|done]. unfold clear, clear_ref.
  by repeat case_match.
Qed.

Lemma clear_each_boxes ts : ∀ s, boxes (clear_each ts s) = boxes s.
Proof.
  unfold clear_each.
  induction ts as [|t ts IH]; intros s; [done|]. cbn. rewrite IH.
  apply (clear_boxes (Some t)).
Qed.

Lemma indexOf_lookup r l i :
  indexOf r l = Some i → ∃ t, l !! i = Some t ∧ task_ref t = r.
Proof.
  revert i. induction l as [|x l IH]; intros i; [done|]. cbn.
  case_decide as Hx.
  - intros [= <-]. by exists x.
  - destruct (indexOf r l) as [j|]; [|done]. intros [= <-].
    apply (IH j). done.
Qed.

Lemma delete_keeps_others (l : list task) i t u :
  l !! i = Some u → t ∈ l → task_ref t ≠ task_ref u → t ∈ delete i l.
Proof.
  revert i. induction l as [|x l IH]; intros i Hi Ht Hne; [done|].
  destruct i as [|i]; cbn in *.
  - injection Hi as ->. apply elem_of_cons in Ht as [->|Ht]; done.
  - apply elem_of_cons in Ht as [->|Ht]; [left|right; by apply (IH i)].
Qed.

(** A task that is not the one being cleared stays where it is. *)
Lemma clear_keeps_others c t s :
  task_ref t ≠ task_ref c →
  (t ∈ reads s → t ∈ reads (clear (Some c) s)) ∧
  (t ∈ writes s → t ∈ writes (clear (Some c) s)).
Proof.
  intros Hne. unfold clear, clear_ref.
  destruct (indexOf (task_ref c) (reads s)) as [i|] eqn:Hr.
  { apply indexOf_lookup in Hr as (u & Hu & Href). cbn. split; [|done].
    intros Ht. apply (delete_keeps_others _ i t u); [done..|congruence]. }
  destruct (indexOf (task_ref c) (writes s)) as [i|] eqn:Hw; [|done].
  apply indexOf_lookup in Hw as (u & Hu & Href). cbn. split; [done|].
  intros Ht. apply (delete_keeps_others _ i t u); [done..|congruence].
Qed.

Lemma clear_each_keeps_others t ts : ∀ s,
  task_ref t ∉ fmap task_ref ts →
  (t ∈ reads s → t ∈ reads (clear_each ts s)) ∧
  (t ∈ writes s → t ∈ writes (clear_each ts s)).
Proof.
  unfold clear_each.
  induction ts as [|c ts IH]; intros s Hn; [done|]. cbn [foldl].
  cbn in Hn. apply not_elem_of_cons in Hn as [Hc Hn].
  destruct (IH (clear (Some c) s) Hn) as [IHr IHw].
  destruct (clear_keeps_others c t s Hc) as [Hr Hw].
  split; intros Ht; [apply IHr, Hr, Ht | apply IHw, Hw, Ht].
Qed.

(** ** [Sandbox.prototype.clear()] *)

Lemma box_set_box b v s :
  (b < length (boxes s))%nat → box b (set_box b v s) = v.
Proof.
  intros Hb. unfold box, set_box. cbn.
  by rewrite list_lookup_insert_eq.
Qed.

Lemma box_set_box_ne b b' v s : b ≠ b' → box b' (set_box b v s) = box b' s.
Proof.
  intros Hb. unfold box, set_box. cbn.
  by rewrite list_lookup_insert_ne.
Qed.

Lemma box_absent b s : (length (boxes s) ≤ b)%nat → box b s = Sandbox [] [].
Proof. intros Hb. unfold box. by rewrite lookup_ge_None_2. Qed.

Lemma box_ext b s s' : boxes s' = boxes s → box b s' = box b s.
Proof. unfold box. by intros ->. Qed.

Lemma clear_set_boxes t v s :
  clear t (set_boxes v s) = set_boxes v (clear t s).
Proof.
  destruct t as [t|]; [|done]. unfold clear, clear_ref. cbn.
  by repeat case_match.
Qed.

Lemma clear_each_set_boxes ts v : ∀ s,
  clear_each ts (set_boxes v s) = set_boxes v (clear_each ts s).
Proof.
  unfold clear_each.
  induction ts as [|t ts IH]; intros s; [done|]. cbn [foldl].
  by rewrite clear_set_boxes, IH.
Qed.

(** What [sandbox.clear()] does in full: in each of the sandbox's arrays
    the tasks at the even positions are cleared from the scheduler, the
    writes first, and the tasks at the odd positions stay recorded. *)
Lemma sandbox_clear_spec b s :
  let R := sb_reads (box b s) in
  let W := sb_writes (box b s) in
  let s' := sandbox_clear b None s in
  box b s' = Sandbox (odds R) (odds W) ∧
  reads s' = reads (clear_each (evens R) (clear_each (evens W) s)) ∧
  writes s' = writes (clear_each (evens R) (clear_each (evens W) s)) ∧
  ∀ b', b' ≠ b → box b' s' = box b' s.
Proof.
  intros R W s'. subst s'. unfold sandbox_clear.
  rewrite clearAll_spec. fold W.
  set (s1 := clear_each (evens W) s).
  assert (Hb1 : boxes s1 = boxes s) by apply clear_each_boxes.
  set (s2 := set_box b _ s1).
  rewrite clearAll_spec.
  destruct (decide (b < length (boxes s))%nat) as [Hb|Hb].
  - assert (E2 : box b s2 = Sandbox R (odds W)).
    { unfold s2. rewrite box_set_box by (by rewrite Hb1).
      by rewrite (box_ext b s s1). }
    rewrite E2. cbn [sb_reads].
    set (s3 := clear_each (evens R) s2).
    assert (Hb3 : boxes s3 = boxes s2) by apply clear_each_boxes.
    rewrite (box_ext b s2 s3 Hb3), E2. cbn [sb_writes].
    split; [|split; [|split]].
    + apply box_set_box. rewrite Hb3. unfold s2, set_box. cbn.
      by rewrite length_insert, Hb1.
    + unfold s3, s2, set_box. by rewrite clear_each_set_boxes.
    + unfold s3, s2, set_box. by rewrite clear_each_set_boxes.
    + intros b' Hb'. rewrite box_set_box_ne by done.
      rewrite (box_ext b' s2 s3 Hb3). unfold s2.
      rewrite box_set_box_ne by done. by apply box_ext.
  - assert (HR : R = []) by (unfold R; rewrite box_absent; [done|lia]).
    assert (HW : W = []) by (unfold W; rewrite box_absent; [done|lia]).
    assert (E2 : s2 = s1).
    { unfold s2, set_box. rewrite list_insert_ge by (rewrite Hb1; lia).
      by destruct s1. }
    rewrite E2, (box_ext b s s1 Hb1). fold R. rewrite HR. cbn.
    unfold set_box. rewrite list_insert_ge by (rewrite Hb1; lia).
    rewrite HW. cbn. fold s1.
    assert (E1 : s1 = s) by (unfold s1; by rewrite HW).
    rewrite E1. destruct s; cbn. split; [|done].
    unfold box. cbn. cbn in Hb. rewrite lookup_ge_None_2; [done|lia].
Qed.

Lemma elem_of_odds {A} (x : A) l : x ∈ odds l → x ∈ l.
Proof.
  revert x. induction l as [l IH] using (induction_ltof1 _ length).
  unfold ltof in IH. intros x.
  destruct l as [|a [|b l]]; cbn; try by intros ?%elem_of_nil.
  intros [->|Hx]%elem_of_cons; [right; left|].
  do 2 right. apply IH; [cbn; lia|done].
Qed.

Lemma elem_of_evens {A} (x : A) l : x ∈ evens l → x ∈ l.
Proof.
  destruct l as [|a l]; [done|]. cbn.
  intros [->|Hx]%elem_of_cons; [left|right; by apply elem_of_odds].
Qed.

(** The sound half of the contract of [sandbox.clear()]: a task that is
    recorded in neither array of the sandbox, be it submitted directly or
    through another sandbox, stays queued, and the other sandboxes keep
    their records. *)
Lemma sandbox_clear_keeps_others b s t :
  task_ref t ∉ fmap task_ref (sb_reads (box b s) ++ sb_writes (box b s)) →
  (t ∈ reads s → t ∈ reads (sandbox_clear b None s)) ∧
  (t ∈ writes s → t ∈ writes (sandbox_clear b None s)) ∧
  ∀ b', b' ≠ b → box b' (sandbox_clear b None s) = box b' s.
Proof.
  intros Hn. destruct (sandbox_clear_spec b s) as (_ & -> & -> & Hb).
  rewrite map_app, not_elem_of_app in Hn. destruct Hn as [HnR HnW].
  assert (HR : task_ref t ∉ fmap task_ref (evens (sb_reads (box b s)))).
  { intros (u & Hu & Hin)%list_elem_of_fmap. apply HnR.
    apply list_elem_of_fmap. exists u. split; [done|by apply elem_of_evens]. }
  assert (HW : task_ref t ∉ fmap task_ref (evens (sb_writes (box b s)))).
  { intros (u & Hu & Hin)%list_elem_of_fmap. apply HnW.
    apply list_elem_of_fmap. exists u. split; [done|by apply elem_of_evens]. }
  split; [|split; [|done]]; intros Ht.
  - by apply clear_each_keeps_others, clear_each_keeps_others.
  - by apply clear_each_keeps_others, clear_each_keeps_others.
Qed.

(** ** The loops of [runTasks] and [_flushList] end *)

Lemma weight_set_tasks k v s :
  (weight (set_tasks k v s) + sum_list_with task_cost (tasks k s) =
   weight s + sum_list_with task_cost v)%nat.
Proof. destruct k; unfold weight; cbn; lia. Qed.

Lemma sum_list_delete (l : list task) i t :
  l !! i = Some t →
  (sum_list_with task_cost (delete i l) + task_cost t =
   sum_list_with task_cost l)%nat.
Proof.
  revert i. induction l as [|x l IH]; intros [|i] Hi; try done.
  - injection Hi as ->. simpl. lia.
  - specialize (IH i Hi). simpl in *. lia.
Qed.

Lemma clear_ref_weight r s : (weight (clear_ref r s) ≤ weight s)%nat.
Proof.
  unfold clear_ref.
  destruct (indexOf r (reads s)) as [i|] eqn:Hr.
  { apply indexOf_lookup in Hr as (t & Ht & _).
    pose proof (sum_list_delete _ _ _ Ht). unfold weight. cbn. lia. }
  destruct (indexOf r (writes s)) as [i|] eqn:Hw; [|done].
  apply indexOf_lookup in Hw as (t & Ht & _).
  pose proof (sum_list_delete _ _ _ Ht). unfold weight. cbn. lia.
Qed.

Lemma scheduleFlush_fields s :
  reads (scheduleFlush s) = reads s ∧ writes (scheduleFlush s) = writes s ∧
  catch (scheduleFlush s) = catch s ∧ handled (scheduleFlush s) = handled s ∧
  log (scheduleFlush s) = log s ∧ boxes (scheduleFlush s) = boxes s ∧
  reported (scheduleFlush s) = reported s.
Proof. unfold scheduleFlush. by destruct (scheduled s). Qed.

Lemma scheduleReadFlush_fields s :
  reads (scheduleReadFlush s) = reads s ∧
  writes (scheduleReadFlush s) = writes s ∧
  catch (scheduleReadFlush s) = catch s ∧
  handled (scheduleReadFlush s) = handled s ∧
  log (scheduleReadFlush s) = log s ∧ boxes (scheduleReadFlush s) = boxes s ∧
  reported (scheduleReadFlush s) = reported s.
Proof.
  unfold scheduleReadFlush. destruct (scheduledRead s); [done|].
  by destruct (scheduleFlush_fields
    (set_timers (timers s ++ [FlushReads]) (set_scheduledRead true s)))
    as (-> & -> & -> & -> & -> & -> & ->).
Qed.

Lemma measure_fields fn ctx s :
  let s' := (measure fn ctx s).2 in
  reads s' = reads s ++ [Task (next_ref s) fn ctx] ∧ writes s' = writes s ∧
  catch s' = catch s ∧ handled s' = handled s ∧ log s' = log s ∧
  boxes s' = boxes s ∧ reported s' = reported s.
Proof.
  cbn. unfold measure, alloc. cbn.
  by destruct (scheduleReadFlush_fields
    (set_reads (reads s ++ [Task (next_ref s) fn ctx])
       (State (next_ref s + 1) (reads s) (writes s) (scheduled s)
          (scheduledRead s) (catch s) (boxes s) (rafq s) (timers s)
          (handled s) (reported s) (log s))))
    as (-> & -> & -> & -> & -> & -> & ->).
Qed.

Lemma mutate_fields fn ctx s :
  let s' := (mutate fn ctx s).2 in
  reads s' = reads s ∧ writes s' = writes s ++ [Task (next_ref s) fn ctx] ∧
  catch s' = catch s ∧ handled s' = handled s ∧ log s' = log s ∧
  boxes s' = boxes s ∧ reported s' = reported s.
Proof.
  cbn. unfold mutate, alloc. cbn.
  by destruct (scheduleFlush_fields
    (set_writes (writes s ++ [Task (next_ref s) fn ctx])
       (State (next_ref s + 1) (reads s) (writes s) (scheduled s)
          (scheduledRead s) (catch s) (boxes s) (rafq s) (timers s)
          (handled s) (reported s) (log s))))
    as (-> & -> & -> & -> & -> & -> & ->).
Qed.

Lemma exec_weight c : ∀ s, (weight (exec c s).1 ≤ weight s + cost c)%nat.
Proof.
  induction c as [|e|fn IHfn ctx k IHk|fn IHfn ctx k IHk|r k IHk
                  |frames fn IHfn ctx k IHk]; intros s; cbn [exec cost fst];
    try lia.
  - etrans; [apply IHk|].
    destruct (measure_fields (Plain fn) ctx s) as (Hr & Hw & _).
    unfold weight at 1. rewrite Hr, Hw, sum_list_with_app.
    unfold weight. cbn. lia.
  - etrans; [apply IHk|].
    destruct (mutate_fields (Plain fn) ctx s) as (Hr & Hw & _).
    unfold weight at 1. rewrite Hr, Hw, sum_list_with_app.
    unfold weight. cbn. lia.
  - etrans; [apply IHk|]. pose proof (clear_ref_weight r s). lia.
Qed.

Lemma body_weight t s : (weight (body t s).1 < weight s + task_cost t)%nat.
Proof.
  unfold body, task_cost.
  destruct (task_fn t) as [fn|b fn ctx|b fn ctx];
    match goal with |- context [exec fn ?x] =>
      pose proof (exec_weight fn x) as H end;
    unfold weight in *; cbn in *; lia.
Qed.

Lemma call_task_weight t s :
  (weight (call_task t s).1 < weight s + task_cost t)%nat.
Proof.
  unfold call_task.
  pose proof (body_weight t (emit (EvCall (task_ref t)) s)) as H.
  destruct (body t _) as [s1 [|e]]; cbn in *; unfold weight in *; cbn in *; lia.
Qed.

(** Taking the first task off the array and calling it makes the weight
    drop. *)
Lemma pop_weight k t rest s :
  tasks k s = t :: rest →
  (weight (call_task t (set_tasks k rest s)).1 < weight s)%nat.
Proof.
  intros Hq. pose proof (call_task_weight t (set_tasks k rest s)) as H1.
  pose proof (weight_set_tasks k rest s) as H2. rewrite Hq in H2.
  cbn in H2. lia.
Qed.

Lemma runTasks_loop_enough k : ∀ fuel s,
  (weight s < fuel)%nat →
  ∃ r, ∀ fuel', (weight s < fuel')%nat → runTasks_loop fuel' k s = Some r.
Proof.
  induction fuel as [|fuel IH]; intros s Hlt; [lia|].
  destruct (tasks k s) as [|t rest] eqn:Hq.
  { exists (s, Normal). intros [|f] ?; [lia|]. cbn. by rewrite Hq. }
  pose proof (pop_weight k t rest s Hq) as Hw.
  destruct (call_task t (set_tasks k rest s)) as [s1 [|e]] eqn:Hc.
  - destruct (IH s1) as [r Hr]; [cbn in Hw; lia|].
    exists r. intros [|f] ?; [lia|]. cbn. rewrite Hq, Hc.
    apply Hr. cbn in Hw. lia.
  - exists (s1, Threw e). intros [|f] ?; [lia|]. cbn. by rewrite Hq, Hc.
Qed.

Lemma runTasks_loop_run k s fuel :
  (weight s < fuel)%nat → runTasks_loop fuel k s = Some (runTasks k s).
Proof.
  intros Hlt. destruct (runTasks_loop_enough k fuel s Hlt) as [r Hr].
  unfold runTasks. rewrite (Hr (S (weight s))) by lia. by apply Hr.
Qed.

(** The loop of [runTasks], as the source writes it. *)
Lemma runTasks_eq k s :
  runTasks k s =
  match tasks k s with
  | [] => (s, Normal)
  | t :: rest =>
      match call_task t (set_tasks k rest s) with
      | (s1, Normal) => runTasks k s1
      | (s1, Threw e) => (s1, Threw e)
      end
  end.
Proof.
  pose proof (runTasks_loop_run k s (S (weight s))) as H.
  cbn [runTasks_loop] in H. specialize (H ltac:(lia)).
  destruct (tasks k s) as [|t rest] eqn:Hq; [congruence|].
  pose proof (pop_weight k t rest s Hq) as Hw.
  destruct (call_task t (set_tasks k rest s)) as [s1 [|e]]; [|congruence].
  cbn in Hw. rewrite runTasks_loop_run in H by lia. congruence.
Qed.

(** Induction along the iterations of [runTasks]. *)
Lemma runTasks_ind k (P : state → state * outcome → Prop) :
  (∀ s, tasks k s = [] → P s (s, Normal)) →
  (∀ s t rest s1 e, tasks k s = t :: rest →
     call_task t (set_tasks k rest s) = (s1, Threw e) → P s (s1, Threw e)) →
  (∀ s t rest s1, tasks k s = t :: rest →
     call_task t (set_tasks k rest s) = (s1, Normal) →
     P s1 (runTasks k s1) → P s (runTasks k s1)) →
  ∀ s, P s (runTasks k s).
Proof.
  intros Hnil Hthrow Hstep s.
  remember (weight s) as n eqn:Hn. revert s Hn.
  induction n as [n IH] using lt_wf_ind. intros s ->.
  destruct (tasks k s) as [|t rest] eqn:Hq.
  { rewrite runTasks_eq, Hq. by apply Hnil. }
  pose proof (pop_weight k t rest s Hq) as Hw.
  destruct (call_task t (set_tasks k rest s)) as [s1 [|e]] eqn:Hc.
  - rewrite runTasks_eq, Hq, Hc. apply (Hstep s t rest s1 Hq Hc).
    by apply (IH (weight s1)).
  - rewrite runTasks_eq, Hq, Hc. by apply (Hthrow s t rest).
Qed.

(** ** What a flush adds to the log *)

Lemma elem_of_delete_or (l : list task) i u t :
  l !! i = Some t → u ∈ l → u ∈ delete i l ∨ u = t.
Proof.
  revert i. induction l as [|x l IH]; intros i Hi Hu; [done|].
  destruct i as [|i]; cbn in *.
  - injection Hi as ->. apply elem_of_cons in Hu as [->|Hu]; auto.
  - apply elem_of_cons in Hu as [->|Hu]; [left; left|].
    destruct (IH i Hi Hu) as [?|?]; [left; by right|by right].
Qed.

Lemma grows_refl s : grows s s [].
Proof. constructor; auto. by rewrite app_nil_r. Qed.

Lemma grows_trans s1 s2 s3 e1 e2 :
  grows s1 s2 e1 → grows s2 s3 e2 → grows s1 s3 (e1 ++ e2).
Proof.
  intros [L1 C1 H1 R1 K1] [L2 C2 H2 R2 K2]. constructor.
  - by rewrite L2, L1, app_assoc.
  - congruence.
  - congruence.
  - congruence.
  - intros k u Hu. rewrite !elem_of_app.
    destruct (K1 k u Hu) as [Hu2|[?|?]]; [|auto..].
    destruct (K2 k u Hu2) as [?|[?|?]]; auto.
Qed.

Lemma grows_measure fn ctx s : grows s (measure fn ctx s).2 [].
Proof.
  destruct (measure_fields fn ctx s) as (Hr & Hw & Hc & Hh & Hl & _ & Hrep).
  constructor; [by rewrite app_nil_r|done..|].
  intros [] u Hu; left; cbn [tasks] in *.
  - rewrite Hr, elem_of_app. auto.
  - by rewrite Hw.
Qed.

Lemma grows_mutate fn ctx s : grows s (mutate fn ctx s).2 [].
Proof.
  destruct (mutate_fields fn ctx s) as (Hr & Hw & Hc & Hh & Hl & _ & Hrep).
  constructor; [by rewrite app_nil_r|done..|].
  intros [] u Hu; left; cbn [tasks] in *.
  - by rewrite Hr.
  - rewrite Hw, elem_of_app. auto.
Qed.

Lemma grows_clear_ref r s :
  ∃ ext, grows s (clear_ref r s) ext ∧ failures ext = [] ∧ calls ext = [].
Proof.
  unfold clear_ref.
  destruct (indexOf r (reads s)) as [i|] eqn:Hr.
  { apply indexOf_lookup in Hr as (t & Ht & Href).
    exists [EvClear r]. split; [|done]. constructor; try done.
    intros [] u Hu; cbn [tasks] in *; cbn; [|by left].
    destruct (elem_of_delete_or _ i u t Ht Hu) as [?| ->]; [by left|].
    right. right. rewrite Href. left. }
  destruct (indexOf r (writes s)) as [i|] eqn:Hw.
  { apply indexOf_lookup in Hw as (t & Ht & Href).
    exists [EvClear r]. split; [|done]. constructor; try done.
    intros [] u Hu; cbn [tasks] in *; cbn; [by left|].
    destruct (elem_of_delete_or _ i u t Ht Hu) as [?| ->]; [by left|].
    right. right. rewrite Href. left. }
  exists []. split; [apply grows_refl|done].
Qed.

Lemma failures_of_app l1 l2 : failures (l1 ++ l2) = failures l1 ++ failures l2.
Proof. apply omap_app. Qed.

Lemma calls_of_app l1 l2 : calls (l1 ++ l2) = calls l1 ++ calls l2.
Proof. apply omap_app. Qed.

Lemma grows_exec c : ∀ s,
  ∃ ext, grows s (exec c s).1 ext ∧ failures ext = [] ∧ calls ext = [].
Proof.
  induction c as [|e|fn IHfn ctx k IHk|fn IHfn ctx k IHk|r k IHk
                  |frames fn IHfn ctx k IHk]; intros s; cbn [exec fst].
  - exists []. split; [apply grows_refl|done].
  - exists []. split; [apply grows_refl|done].
  - destruct (IHk (measure (Plain fn) ctx s).2) as (ext & Hg & Hf & Hc).
    exists ([] ++ ext). split; [|done].
    eapply grows_trans; [apply grows_measure|done].
  - destruct (IHk (mutate (Plain fn) ctx s).2) as (ext & Hg & Hf & Hc).
    exists ([] ++ ext). split; [|done].
    eapply grows_trans; [apply grows_mutate|done].
  - destruct (grows_clear_ref r s) as (e1 & Hg1 & Hf1 & Hc1).
    destruct (IHk (clear_ref r s)) as (e2 & Hg2 & Hf2 & Hc2).
    exists (e1 ++ e2). split; [by eapply grows_trans|].
    by rewrite failures_of_app, calls_of_app, Hf1, Hf2, Hc1, Hc2.
  - exists []. split; [apply grows_refl|done].
Qed.

Lemma grows_set_box b v s : grows s (set_box b v s) [].
Proof. constructor; try done; [by rewrite app_nil_r|]. intros []; auto. Qed.

Lemma grows_emit e s : grows s (emit e s) [e].
Proof. constructor; try done. intros []; auto. Qed.

Lemma grows_body t s :
  ∃ ext, grows s (body t s).1 ext ∧ failures ext = [] ∧ calls ext = [].
Proof.
  unfold body. destruct (task_fn t) as [fn|b fn ctx|b fn ctx].
  - apply grows_exec.
  - match goal with |- context [exec fn ?x] =>
      destruct (grows_exec fn x) as (ext & Hg & Hf) end.
    exists ([] ++ ext). split; [|done].
    eapply grows_trans; [apply grows_set_box|done].
  - match goal with |- context [exec fn ?x] =>
      destruct (grows_exec fn x) as (ext & Hg & Hf) end.
    exists ([] ++ ext). split; [|done].
    eapply grows_trans; [apply grows_set_box|done].
Qed.

(** Calling a task: its call is logged, then what its body does, then its
    failure if it throws. *)
Lemma grows_call_task t s :
  ∃ ext, grows s (call_task t s).1 ext ∧
    calls ext = [task_ref t] ∧
    failures ext = match (call_task t s).2 with
                   | Normal => []
                   | Threw e => [e]
                   end.
Proof.
  unfold call_task.
  destruct (grows_body t (emit (EvCall (task_ref t)) s)) as (ext & Hg & Hf & Hc).
  pose proof (grows_trans _ _ _ _ _ (grows_emit (EvCall (task_ref t)) s) Hg)
    as Hg1.
  destruct (body t _) as [s1 [|e]]; cbn [fst snd] in *.
  - exists ([EvCall (task_ref t)] ++ ext). split; [done|].
    by rewrite calls_of_app, failures_of_app, Hf, Hc.
  - exists (([EvCall (task_ref t)] ++ ext) ++ [EvFail (task_ref t) e]).
    split; [eapply grows_trans; [done|apply grows_emit]|].
    by rewrite !calls_of_app, !failures_of_app, Hf, Hc.
Qed.

Lemma grows_set_tasks k t rest s :
  tasks k s = t :: rest →
  log (set_tasks k rest s) = log s ∧ catch (set_tasks k rest s) = catch s ∧
  handled (set_tasks k rest s) = handled s ∧
  reported (set_tasks k rest s) = reported s ∧
  tasks k (set_tasks k rest s) = rest ∧
  ∀ k', k' ≠ k → tasks k' (set_tasks k rest s) = tasks k' s.
Proof. destruct k; cbn; intros _; split_and!; try done; by intros []. Qed.

Lemma elem_of_calls r l : r ∈ calls l ↔ EvCall r ∈ l.
Proof.
  unfold calls. rewrite list_elem_of_omap. split.
  - intros (e & He & Hr). destruct e; simplify_eq. done.
  - intros He. by exists (EvCall r).
Qed.

(** A task shifted off its array and then called has left it by being
    called. *)
Lemma grows_pop k t rest s s1 ext :
  tasks k s = t :: rest →
  grows (set_tasks k rest s) s1 ext → EvCall (task_ref t) ∈ ext →
  grows s s1 ext.
Proof.
  intros Hq [L C H R K] Ht.
  destruct (grows_set_tasks k t rest s Hq) as (L0 & C0 & H0 & R0 & Q0 & O0).
  constructor; try congruence.
  intros k' u Hu. destruct (decide (k' = k)) as [->|Hk].
  - rewrite Hq in Hu. apply elem_of_cons in Hu as [->|Hu]; [auto|].
    apply K. by rewrite Q0.
  - apply K. by rewrite O0.
Qed.

Lemma runTasks_spec k s :
  ∃ ext, grows s (runTasks k s).1 ext ∧
    (weight (runTasks k s).1 ≤ weight s)%nat ∧
    match (runTasks k s).2 with
    | Normal => tasks k (runTasks k s).1 = [] ∧ failures ext = []
    | Threw e =>
        (weight (runTasks k s).1 < weight s)%nat ∧ failures ext = [e]
    end.
Proof.
  apply (runTasks_ind k (λ s r, ∃ ext, grows s r.1 ext ∧
    (weight r.1 ≤ weight s)%nat ∧
    match r.2 with
    | Normal => tasks k r.1 = [] ∧ failures ext = []
    | Threw e => (weight r.1 < weight s)%nat ∧ failures ext = [e]
    end)); clear s.
  - intros s Hq. exists []. cbn. split_and!; [apply grows_refl|lia|done|done].
  - intros s t rest s1 e Hq Hc.
    destruct (grows_call_task t (set_tasks k rest s)) as (ext & Hg & Hcl & Hf).
    pose proof (pop_weight k t rest s Hq) as Hw.
    rewrite Hc in Hg, Hf, Hw. cbn [fst snd] in *.
    exists ext. split_and!; [|lia|lia|done].
    apply (grows_pop k t rest); [done..|].
    apply elem_of_calls. rewrite Hcl. left.
  - intros s t rest s1 Hq Hc (ext2 & Hg2 & Hw2 & Hm).
    destruct (grows_call_task t (set_tasks k rest s)) as (ext & Hg & Hcl & Hf).
    pose proof (pop_weight k t rest s Hq) as Hw.
    rewrite Hc in Hg, Hf, Hw. cbn [fst snd] in *.
    exists (ext ++ ext2). split_and!; [|lia|].
    + eapply grows_trans; [|done]. apply (grows_pop k t rest); [done..|].
      apply elem_of_calls. rewrite Hcl. left.
    + rewrite failures_of_app, Hf.
      destruct (runTasks k s1) as [s2 [|e]]; cbn [fst snd app] in *.
      * done.
      * split; [lia|tauto].
Qed.

(** ** [_flushList] *)

(** If tasks are left when [runTasks] is over, a task threw, and the
    weight has dropped. *)
Lemma runTasks_left k s :
  tasks k (runTasks k s).1 ≠ [] →
  (weight (runTasks k s).1 < weight s)%nat ∧ (runTasks k s).2 ≠ Normal.
Proof.
  intros Hne. destruct (runTasks_spec k s) as (ext & _ & _ & Hm).
  destruct (runTasks k s) as [s1 [|e]]; cbn [fst snd] in *.
  - by destruct Hm.
  - split; [tauto|done].
Qed.

Lemma flushList_loop_enough k : ∀ fuel s,
  (weight s < fuel)%nat →
  ∃ r, ∀ fuel', (weight s < fuel')%nat → flushList_loop fuel' k s = Some r.
Proof.
  induction fuel as [|fuel IH]; intros s Hlt; [lia|].
  pose proof (runTasks_left k s) as Hleft.
  destruct (runTasks k s) as [s1 o] eqn:Hr. cbn [fst snd] in Hleft.
  set (s2 := set_scheduledRead false (set_scheduled false s1)).
  assert (tasks k s2 = tasks k s1) as Hq by (by destruct k).
  assert (weight s2 = weight s1) as Hw by done.
  destruct (tasks k s2) as [|t rest] eqn:Hq2.
  { exists (settle o s2). intros [|f] ?; [lia|]. cbn [flushList_loop].
    rewrite Hr. fold s2. by rewrite Hq2. }
  destruct Hleft as [Hlt1 _]; [by rewrite <- Hq|].
  destruct (IH s2) as [[s3 o3] H3]; [lia|].
  exists (match o3 with Normal => settle o s3 | Threw e => (s3, Threw e) end).
  intros [|f] ?; [lia|]. cbn [flushList_loop]. rewrite Hr. fold s2.
  rewrite Hq2, H3 by lia. by destruct o3.
Qed.

Lemma flushList_loop_run k s fuel :
  (weight s < fuel)%nat → flushList_loop fuel k s = Some (_flushList k s).
Proof.
  intros Hlt. destruct (flushList_loop_enough k fuel s Hlt) as [r Hr].
  unfold _flushList. rewrite (Hr (S (weight s))) by lia. by apply Hr.
Qed.

(** [_flushList], as the source writes it. *)
Lemma _flushList_eq k s :
  _flushList k s =
  let s2 := set_scheduledRead false (set_scheduled false (runTasks k s).1) in
  match tasks k s2 with
  | [] => settle (runTasks k s).2 s2
  | _ :: _ =>
      match _flushList k s2 with
      | (s3, Threw e) => (s3, Threw e)
      | (s3, Normal) => settle (runTasks k s).2 s3
      end
  end.
Proof.
  pose proof (flushList_loop_run k s (S (weight s))) as H.
  cbn [flushList_loop] in H. specialize (H ltac:(lia)).
  pose proof (runTasks_left k s) as Hleft.
  destruct (runTasks k s) as [s1 o] eqn:Hr. cbn [fst snd] in *. cbn zeta.
  set (s2 := set_scheduledRead false (set_scheduled false s1)) in *.
  assert (tasks k s2 = tasks k s1) as Hq by (by destruct k).
  assert (weight s2 = weight s1) as Hw by done.
  destruct (tasks k s2) as [|t rest] eqn:Hq2; [congruence|].
  destruct Hleft as [Hlt1 _]; [by rewrite <- Hq|].
  rewrite flushList_loop_run in H by lia.
  destruct (_flushList k s2) as [s3 [|e]]; congruence.
Qed.

(** Induction along the recursive calls of [_flushList]. *)
Lemma _flushList_ind k (P : state → state * outcome → Prop) :
  (∀ s, let s2 := set_scheduledRead false
                    (set_scheduled false (runTasks k s).1) in
        tasks k s2 = [] → P s (settle (runTasks k s).2 s2)) →
  (∀ s, let s2 := set_scheduledRead false
                    (set_scheduled false (runTasks k s).1) in
        tasks k s2 ≠ [] → P s2 (_flushList k s2) →
        P s (match _flushList k s2 with
             | (s3, Threw e) => (s3, Threw e)
             | (s3, Normal) => settle (runTasks k s).2 s3
             end)) →
  ∀ s, P s (_flushList k s).
Proof.
  intros Hdone Hrec s.
  remember (weight s) as n eqn:Hn. revert s Hn.
  induction n as [n IH] using lt_wf_ind. intros s ->.
  rewrite _flushList_eq. cbn zeta.
  pose proof (runTasks_left k s) as Hleft.
  specialize (Hdone s). specialize (Hrec s). cbn zeta in *.
  set (s2 := set_scheduledRead false (set_scheduled false (runTasks k s).1)) in *.
  assert (tasks k s2 = tasks k (runTasks k s).1) as Hq by (by destruct k).
  assert (weight s2 = weight (runTasks k s).1) as Hw by done.
  destruct (tasks k s2) as [|t rest] eqn:Hq2; [by apply Hdone|].
  destruct Hleft as [Hlt1 _]; [by rewrite <- Hq|].
  apply Hrec; [done|]. apply (IH (weight s2)); [lia|done].
Qed.

Lemma truthy_failures_app l1 l2 :
  truthy_failures (l1 ++ l2) = truthy_failures l1 ++ truthy_failures l2.
Proof. unfold truthy_failures. by rewrite failures_of_app, filter_app. Qed.

Lemma truthy_single e :
  filter (λ e, truthy e = true) [e] = if truthy e then [e] else [].
Proof.
  rewrite filter_cons, filter_nil.
  destruct (decide (truthy e = true)) as [->|H]; [done|]. by destruct (truthy e).
Qed.

Lemma settle_fields o s ext :
  failures ext = match o with Normal => [] | Threw e => [e] end →
  log (settle o s).1 = log s ∧ catch (settle o s).1 = catch s ∧
  reported (settle o s).1 = reported s ∧
  (∀ k, tasks k (settle o s).1 = tasks k s) ∧
  if catch s
  then (settle o s).2 = Normal ∧
       handled (settle o s).1 = handled s ++ truthy_failures ext
  else (settle o s).2 = from_option Threw Normal (last (truthy_failures ext)) ∧
       handled (settle o s).1 = handled s.
Proof.
  unfold settle, truthy_failures. intros ->.
  destruct o as [|e].
  { cbn. destruct (catch s); rewrite ?app_nil_r; split_and!; try done;
      by intros []. }
  rewrite truthy_single.
  destruct (truthy e), (catch s) eqn:Hc; cbn; rewrite ?Hc, ?app_nil_r;
    split_and!; try done; by intros [].
Qed.

(** What [_flushList] does, whatever the tasks throw: the array ends up
    empty, every task that was in it or joined it having been called or
    cleared.  Of the failures, those whose value is truthy count: with
    [catch] set the call returns and they have been handed to [catch], the
    latest first; without it the latest of them is thrown on and the
    earlier ones are lost. *)
Lemma flushList_spec k s :
  tasks k (_flushList k s).1 = [] ∧
  catch (_flushList k s).1 = catch s ∧
  reported (_flushList k s).1 = reported s ∧
  ∃ ext, log (_flushList k s).1 = log s ++ ext ∧
    (∀ k' u, u ∈ tasks k' s →
       u ∈ tasks k' (_flushList k s).1 ∨
       EvCall (task_ref u) ∈ ext ∨ EvClear (task_ref u) ∈ ext) ∧
    if catch s
    then (_flushList k s).2 = Normal ∧
         handled (_flushList k s).1 = handled s ++ rev (truthy_failures ext)
    else handled (_flushList k s).1 = handled s ∧
         (_flushList k s).2 =
           from_option Threw Normal (last (truthy_failures ext)).
Proof.
  apply (_flushList_ind k (λ s r,
    tasks k r.1 = [] ∧ catch r.1 = catch s ∧ reported r.1 = reported s ∧
    ∃ ext, log r.1 = log s ++ ext ∧
      (∀ k' u, u ∈ tasks k' s →
         u ∈ tasks k' r.1 ∨
         EvCall (task_ref u) ∈ ext ∨ EvClear (task_ref u) ∈ ext) ∧
      if catch s
      then r.2 = Normal ∧ handled r.1 = handled s ++ rev (truthy_failures ext)
      else handled r.1 = handled s ∧
           r.2 = from_option Threw Normal (last (truthy_failures ext))));
    clear s.
  - intros s s2 Hq.
    destruct (runTasks_spec k s) as (ext & [L C H R K] & _ & Hm).
    assert (failures ext =
            match (runTasks k s).2 with Normal => [] | Threw e => [e] end)
      as Hf by (destruct (runTasks k s).2; by destruct Hm).
    destruct (settle_fields (runTasks k s).2 s2 ext Hf)
      as (L' & C' & R' & Q' & S').
    assert (∀ k', tasks k' s2 = tasks k' (runTasks k s).1) as Hq2
      by (by intros []).
    split_and!; [by rewrite Q'|by rewrite C'|by rewrite R'|].
    exists ext. split_and!; [by rewrite L'| |].
    + intros k' u Hu. rewrite Q', Hq2. by apply K.
    + change (catch s2) with (catch (runTasks k s).1) in S'. rewrite C in S'.
      change (handled s2) with (handled (runTasks k s).1) in S'.
      rewrite H in S'.
      assert (rev (truthy_failures ext) = truthy_failures ext) as ->.
      { unfold truthy_failures. rewrite Hf.
        destruct (runTasks k s).2 as [|e]; [done|].
        rewrite truthy_single. by destruct (truthy e). }
      destruct (catch s); destruct S' as [-> ->]; done.
  - intros s s2 Hq (Q3 & C3 & R3 & ext2 & L3 & K3 & S3).
    destruct (runTasks_spec k s) as (ext & [L C H R K] & _ & Hm).
    destruct (runTasks_left k s) as [_ Hthrew]; [done|].
    assert (∀ k', tasks k' s2 = tasks k' (runTasks k s).1) as Hq2
      by (by intros []).
    change (catch s2) with (catch (runTasks k s).1) in *.
    change (handled s2) with (handled (runTasks k s).1) in *.
    change (reported s2) with (reported (runTasks k s).1) in *.
    change (log s2) with (log (runTasks k s).1) in *.
    rewrite C in *. rewrite H in *. rewrite R in *. rewrite L in *.
    destruct (runTasks k s).2 as [|e1]; [done|]. destruct Hm as [_ Hf1].
    assert (∀ k' u, u ∈ tasks k' s →
              u ∈ tasks k' (_flushList k s2).1 ∨
              EvCall (task_ref u) ∈ ext ++ ext2 ∨
              EvClear (task_ref u) ∈ ext ++ ext2) as Hkept.
    { intros k' u Hu. rewrite !elem_of_app.
      destruct (K k' u Hu) as [Hu1|[?|?]]; [|auto..].
      rewrite <- Hq2 in Hu1. destruct (K3 k' u Hu1) as [?|[?|?]]; auto. }
    destruct (_flushList k s2) as [s3 [|e3]]; cbn [fst snd] in *.
    + destruct (settle_fields (Threw e1) s3 ext Hf1)
        as (L' & C' & R' & Q' & S').
      split_and!; [by rewrite Q'|by rewrite C'|by rewrite R'|].
      exists (ext ++ ext2).
      split_and!; [by rewrite L', L3, app_assoc| |].
      * intros k' u Hu. rewrite Q'. by apply Hkept.
      * rewrite truthy_failures_app. rewrite C3 in S'.
        destruct (catch s).
        -- destruct S3 as [_ S3]. destruct S' as [-> ->].
           rewrite S3, rev_app_distr, <- app_assoc. f_equal. f_equal.
           unfold truthy_failures. rewrite Hf1.
           rewrite truthy_single. by destruct (truthy e1).
        -- destruct S3 as [S3 S3']. destruct S' as [-> ->].
           split; [done|].
           destruct (truthy_failures ext2) as [|x l] eqn:E2.
           { by rewrite app_nil_r. }
           rewrite last_app. by rewrite last_cons in S3' |- *; destruct (last l).
    + split_and!; [done..|]. exists (ext ++ ext2).
      split_and!; [by rewrite L3, app_assoc|done|].
      rewrite truthy_failures_app. destruct (catch s); [by destruct S3|].
      destruct S3 as [S3 S3']. split; [done|].
      destruct (truthy_failures ext2) as [|x l] eqn:E2; [done|].
      rewrite last_app. rewrite S3'. by rewrite last_cons; destruct (last l).
Qed.

(** Every task in the array when [_flushList] is called is called by it,
    unless it is cleared first, also when a task before it throws. *)
Lemma flushList_runs_all k s t :
  t ∈ tasks k s →
  ∃ ext, log (_flushList k s).1 = log s ++ ext ∧
    (EvCall (task_ref t) ∈ ext ∨ EvClear (task_ref t) ∈ ext).
Proof.
  intros Ht. destruct (flushList_spec k s) as (Hq & _ & _ & ext & L & K & _).
  exists ext. split; [done|].
  destruct (K k t Ht) as [Hin|?]; [|done].
  rewrite Hq in Hin. by apply elem_of_nil in Hin.
Qed.

(** ** The examples *)

(** Two reads throw and no [catch] is set: the animation frame calls the
    three reads, the host is told of the second failure only, and the write
    is neither called nor waited for by any callback. *)
Lemma earlier_failure_is_lost :
  calls (log (frame (two_failures false))) = [1; 2; 3] ∧
  failures (log (frame (two_failures false))) = [UserError 1; UserError 2] ∧
  reported (frame (two_failures false)) = [UserError 2] ∧
  task_ref <$> writes (frame (two_failures false)) = [4] ∧
  rafq (frame (two_failures false)) = [] ∧
  scheduled (frame (two_failures false)) = false.
Proof. by vm_compute. Qed.

(** The same with [catch] set: both failures are handed to it, the second
    one first, and the write is called. *)
Lemma failures_are_caught :
  calls (log (frame (two_failures true))) = [1; 2; 3; 4] ∧
  handled (frame (two_failures true)) = [UserError 2; UserError 1] ∧
  reported (frame (two_failures true)) = [].
Proof. by vm_compute. Qed.

(** A read that throws a falsy value: the frame calls it, and the failure
    reaches neither [catch], set or not, nor the host. *)
Lemma falsy_failure_reaches_nobody :
  failures (log (frame (measure (Plain (Throw 0)) None (new true)).2)) =
    [UserError 0] ∧
  handled (frame (measure (Plain (Throw 0)) None (new true)).2) = [] ∧
  reported (frame (measure (Plain (Throw 0)) None (new true)).2) = [] ∧
  failures (log (frame (measure (Plain (Throw 0)) None (new false)).2)) =
    [UserError 0] ∧
  handled (frame (measure (Plain (Throw 0)) None (new false)).2) = [] ∧
  reported (frame (measure (Plain (Throw 0)) None (new false)).2) = [].
Proof. by vm_compute. Qed.

(** C8, on the example in the documentation of [sandbox()], where tasks 1
    and 2 go through a sandbox and tasks 3 and 4 directly to the scheduler:
    [sandbox.clear()] cancels task 1 only.  Task 2 is still queued in
    [fastdom.reads] and still recorded in the sandbox, so the sandbox's
    array is not emptied and not every recorded task is cancelled, and the
    next flush calls task 2 before the direct tasks 3 and 4, which are
    untouched. *)
Theorem sandbox_clear_skips_second_task :
  task_ref <$> sb_reads (box 0 documented_example) = [1; 2] ∧
  task_ref <$> reads documented_example = [1; 2; 3; 4] ∧
  task_ref <$> sb_reads (box 0 (sandbox_clear 0 None documented_example)) = [2] ∧
  task_ref <$> reads (sandbox_clear 0 None documented_example) = [2; 3; 4] ∧
  calls (log (timeout (sandbox_clear 0 None documented_example))) = [2; 3; 4] ∧
  calls (log (frame (sandbox_clear 0 None documented_example))) = [2; 3; 4].
Proof. by vm_compute. Qed.

End SandboxedFacts.

Module FailureFacts.
Import FastDom FastDomFacts.

(** ** A whole frame of [src/lib/fastdom.js] *)


(** ** A whole flush of the bundled variant, [catch] being set *)




End FailureFacts.

Module FastDomMore.
Import FastDom FastDomFacts.

#[local] Set Warnings "-clear-no-such-hyp".

(** ** Turns and frames from a fresh scheduler *)

Lemma host_run_quiescent s s' :
  quiescent s → host_run s s' → quiescent s' ∧ rtc hstep s s'.
Proof.
  intros Hq Hr. induction Hr as [s|c s s' Hr IH|s s' Hr IH]; [done| |].
  - destruct (IH (quiescent_turn c s Hq)) as [Hq' Hs]. split; [done|].
    etrans; [apply turn_hsteps|done].
  - destruct (IH (quiescent_tick s Hq)) as [Hq' Hs]. split; [done|].
    destruct Hq as (Hwf & _ & _ & _ & Hm & Hc).
    destruct (tick_hsteps s Hwf Hm Hc) as (H1 & _). by etrans.
Qed.

Lemma host_run_trans s1 s2 s3 : host_run s1 s2 → host_run s2 s3 → host_run s1 s3.
Proof.
  induction 1 as [s|c s s' Hr IH|s s' Hr IH]; [done| |]; intros H3.
  - apply (host_turn c). by apply IH.
  - apply host_tick. by apply IH.
Qed.

(** ** Jobs run in the order of their submission *)

#[local] Arguments calls_of : simpl never.

Lemma StronglySorted_sublist {A} (R : relation A) l1 l2 :
  l1 `sublist_of` l2 → StronglySorted R l2 → StronglySorted R l1.
Proof.
  induction 1 as [|x l1 l2 Hs IH|x l1 l2 Hs IH]; [done| |].
  - rewrite !StronglySorted_cons. intros [Hf Hss]. split; [|by apply IH].
    rewrite Forall_forall in *. intros y Hy. apply Hf.
    by eapply elem_of_sublist.
  - rewrite StronglySorted_cons. intros [_ Hss]. by apply IH.
Qed.

Lemma calls_of_type_app ty l1 l2 :
  calls_of ty (l1 ++ l2) = calls_of ty l1 ++ calls_of ty l2.
Proof. apply omap_app. Qed.

(** A transition that shrinks the lists of [fifo], or leaves them. *)
Lemma fifo_shrink s s' :
  lastId s ≤ lastId s' →
  (∀ ty, ty ≠ TDefer →
     calls_of ty (log s') ++ queue ty s' `sublist_of`
     calls_of ty (log s) ++ queue ty s) →
  fifo s → fifo s'.
Proof.
  intros Hl Hsub Hf ty Hty. destruct (Hf ty Hty) as [Hs Hb]. split.
  - eapply StronglySorted_sublist; [by apply Hsub|done].
  - intros id Hin. eapply elem_of_sublist in Hin; [|by apply Hsub].
    apply Hb in Hin. lia.
Qed.

(** A new job joins the end of its queue. *)
Lemma fifo_enqueue ty0 s s' :
  lastId s' = lastId s + 1 →
  (∀ ty, calls_of ty (log s') = calls_of ty (log s)) →
  queue ty0 s' = queue ty0 s ++ [lastId s + 1] →
  (∀ ty, ty ≠ ty0 → queue ty s' = queue ty s) →
  fifo s → fifo s'.
Proof.
  intros Hl Hc Hq Ho Hf ty Hty. destruct (Hf ty Hty) as [Hs Hb].
  rewrite Hc. destruct (decide (ty = ty0)) as [->|Hne].
  - rewrite Hq, app_assoc. split.
    + apply StronglySorted_app_2; [|done|repeat constructor].
      intros a b Ha ->%list_elem_of_singleton. apply Hb in Ha. lia.
    + intros id [Hin| ->%list_elem_of_singleton]%elem_of_app; [|lia].
      apply Hb in Hin. lia.
  - rewrite (Ho ty Hne). split; [done|]. intros id Hin%Hb. lia.
Qed.

Lemma fifo_hstep s s' : wf s → fifo s → hstep s s' → fifo s'.
Proof.
  intros Hwf Hf Hst.
  assert (∀ (s0 : state) ext, log s0 = log s ++ ext →
            (∀ ty, ty ≠ TDefer → calls_of ty ext = []) →
            lastId s ≤ lastId s0 →
            (∀ ty, queue ty s0 `sublist_of` queue ty s) → fifo s0) as Hquiet.
  { intros s0 ext E1 He E2 E3. apply (fifo_shrink s); [done| |done].
    intros ty Hty. rewrite E1, calls_of_type_app, (He ty Hty), app_nil_r.
    by apply sublist_app. }
  assert (∀ s0 : state, log s0 = log s → lastId s0 = lastId s →
            queue_read s0 = queue_read s → queue_write s0 = queue_write s →
            fifo s0) as Hsame.
  { intros s0 E1 E2 E3 E4. apply (Hquiet s0 []); [by rewrite app_nil_r|done|lia|].
    intros []; cbn; by rewrite ?E3, ?E4. }
  destruct Hst as [s s' Hst|s Hc Hm|h rest s Hc Hm|s Hm Hq|s Hm Hq
                   |h id fn ctx rest s Hc Hm|h n id fn ctx rest s Hc Hm Hn|r].
  - destruct Hst as [fn ctx s|fn ctx s|id s|fn s|frames fn ctx s Hfr
                     |ty id rest j s Hq Hj Hm|id o s Hid].
    + destruct (read_fields fn ctx s)
        as (_ & _ & Hqr & Hqw & Hl & _ & Hlog & _).
      apply (fifo_enqueue TRead s); [done| |done| |done].
      * intros ty. rewrite Hlog, calls_of_type_app.
        by replace (calls_of ty [_]) with (@nil Z); [rewrite app_nil_r|].
      * by intros [] Hne.
    + destruct (write_fields fn ctx s)
        as (_ & _ & Hqr & Hqw & Hl & _ & Hlog & _).
      apply (fifo_enqueue TWrite s); [done| |done| |done].
      * intros ty. rewrite Hlog, calls_of_type_app.
        by replace (calls_of ty [_]) with (@nil Z); [rewrite app_nil_r|].
      * by intros [] Hne.
    + unfold clear. destruct (jobs s !! id) as [j|]; [|done].
      destruct (job_type j) eqn:Hty.
      * apply (Hquiet _ [EvClear id]); [done|done|done|].
        intros []; cbn; [apply remove_first_sublist|done|done].
      * apply (Hquiet _ [EvClear id]); [done|done|done|].
        intros []; cbn; [done|apply remove_first_sublist|done].
      * apply (Hquiet _ [EvClear id]); [by destruct (job_timer j)|done
                                        |by destruct (job_timer j)|].
        intros []; by destruct (job_timer j).
    + apply (Hquiet _ [EvAdd (lastId s + 1) TDefer (mode s);
                       EvCall (lastId s + 1) TDefer (mode s)]);
        [by cbn; rewrite <- app_assoc|by intros []|cbn; lia|by intros []].
    + apply (Hquiet _ [EvAdd (lastId s + 1) TDefer (mode s)]);
        [done|by intros []|cbn; lia|by intros []].
    + assert (ty ≠ TDefer) as Hty by (by intros ->).
      assert (job_type j = ty) as Ej.
      { destruct (wf_queue _ Hwf ty id) as [(j' & Hj' & Ht) _];
          [rewrite Hq; left|congruence]. }
      apply (fifo_shrink s); [by destruct ty| |done].
      intros ty' Hty'.
      assert (log (take_job id j (set_queue ty rest s)) =
              log s ++ [EvCall id ty (mode s)]) as ->
        by (by unfold take_job; destruct ty; cbn; rewrite Ej).
      rewrite calls_of_type_app.
      destruct (decide (ty' = ty)) as [->|Hne].
      * replace (calls_of ty [EvCall id ty (mode s)]) with [id]
          by (unfold calls_of; cbn; by rewrite decide_True).
        replace (queue ty (take_job id j (set_queue ty rest s))) with rest
          by (by destruct ty).
        by rewrite Hq, <- app_assoc.
      * replace (calls_of ty' [EvCall id ty (mode s)]) with (@nil Z)
          by (unfold calls_of; cbn; by rewrite decide_False).
        rewrite app_nil_r.
        replace (queue ty' (take_job id j (set_queue ty rest s)))
          with (queue ty' s) by (by destruct ty, ty').
        done.
    + destruct o as [|e]; cbn; [done|].
      apply (Hquiet _ [EvFail id e]); [by destruct (onError s)|done
                                        |by destruct (onError s)|].
      intros []; by destruct (onError s).
  - by apply Hsame.
  - by apply Hsame.
  - by apply Hsame.
  - by apply Hsame.
  - apply (Hquiet _ [EvCall id TDefer (mode s)]);
      [done|by intros []|done|by intros []].
  - by apply Hsame.
  - destruct (report_fields r) as (_ & _ & E1 & E2 & E3 & E4 & _).
    apply (fifo_shrink r.1); [lia| |done].
    intros ty Hty. rewrite E1. by destruct ty; cbn; rewrite ?E3, ?E4.
Qed.

Lemma fifo_new h : fifo (new h).
Proof. intros ty Hty. split; [by destruct ty; constructor|]. by destruct ty; intros ? ?%elem_of_nil. Qed.

Lemma fifo_hsteps s s' : wf s → fifo s → rtc hstep s s' → fifo s'.
Proof. apply hsteps_invariant. intros. by eapply fifo_hstep. Qed.

(** ** Identifiers *)

(** X1: as long as [lastId] is below 2^53, up to where [++this.lastId]
    on a JavaScript number is exact, [read], [write] and [defer] hand out
    the id [lastId + 1], which names no job of the registry and no event so
    far, and whatever the scheduler and the host do afterwards, every later
    id is larger: an id is not handed out twice. *)
Theorem ids_never_repeat fn ctx s s' :
  wf s → rtc hstep (read fn ctx s).2 s' → lastId s' < 2 ^ 53 →
  lastId s + 1 < 2 ^ 53 ∧
  (read fn ctx s).1 = lastId s + 1 ∧
  (write fn ctx s).1 = lastId s + 1 ∧
  jobs s !! (lastId s + 1) = None ∧
  (∀ e, e ∈ log s → ev_id e ≠ lastId s + 1) ∧
  (∀ fn' ctx', lastId s + 1 < (read fn' ctx' s').1 ≤ 2 ^ 53) ∧
  (∀ fn' ctx', lastId s + 1 < (write fn' ctx' s').1 ≤ 2 ^ 53) ∧
  (∀ n fn' ctx' i, (defer n fn' ctx' s').1.2 = Some i →
     lastId s + 1 < i ≤ 2 ^ 53).
Proof.
  intros Hwf Hs Hb.
  destruct (read_fields fn ctx s) as (Hid & _ & _ & _ & Hl & _).
  destruct (write_fields fn ctx s) as (Hid' & _).
  destruct (hsteps_ext _ _ Hs) as (_ & Hle & _). rewrite Hl in Hle.
  split_and!; [lia|done|done|by apply fresh_not_job| | | |].
  - intros e He Heq. apply (wf_log _ Hwf) in He. lia.
  - intros fn' ctx'. destruct (read_fields fn' ctx' s') as (-> & _). lia.
  - intros fn' ctx'. destruct (write_fields fn' ctx' s') as (-> & _). lia.
  - intros n fn' ctx' i. unfold defer, defer_with.
    case_decide; [done|]. cbn [_add _uniqueId job_id fst snd].
    destruct (wrapped _ _ _ _ _ _) as [s2 [|e]]; cbn; [|done].
    intros [= <-]. lia.
Qed.

Lemma ids_never_repeat_witness :
  wf (new false) ∧
  lastId (tick (read Ret None (new false)).2) < 2 ^ 53 ∧
  (read Ret None (new false)).1 = 1 ∧
  1 < (write Ret None (tick (read Ret None (new false)).2)).1.
Proof.
  assert (rtc hstep (read Ret None (new false)).2
            (tick (read Ret None (new false)).2)) as Hs.
  { apply tick_hsteps; [apply wf_read, wf_new|done|done]. }
  assert (lastId (tick (read Ret None (new false)).2) < 2 ^ 53) as Hb
    by (vm_compute; reflexivity).
  destruct (ids_never_repeat Ret None (new false) _ (wf_new false) Hs Hb)
    as (_ & H1 & _ & _ & _ & _ & H2 & _).
  split_and!; [apply wf_new|exact Hb|exact H1|].
  destruct (H2 Ret None) as [H _]. exact H.
Defined.

(** ** The registry and the queues *)

(** X2: after any turns of user code and any animation frames on a fresh
    scheduler, every queued id has a record in the registry, of the type of
    its queue, no id is queued twice, and so [_frame] cannot meet the
    [TypeError] of a missing record: it returns normally. *)
Theorem queued_jobs_are_registered h s :
  host_run (new h) s →
  (∀ ty id, id ∈ queue ty s →
     0 < id ≤ lastId s ∧ ∃ j, jobs s !! id = Some j ∧ job_type j = ty) ∧
  NoDup (queue_read s) ∧ NoDup (queue_write s) ∧
  (∀ id, id ∈ queue_read s → id ∉ queue_write s) ∧
  (_frame s).2 = Normal.
Proof.
  intros Hr.
  destruct (host_run_quiescent _ _ (quiescent_new h) Hr) as [(Hwf & _) _].
  split_and!.
  - intros ty id Hin.
    destruct (wf_queue _ Hwf ty id Hin) as [(j & Hj & Hty) _].
    split; [by apply (wf_jobs _ Hwf id j)|by exists j].
  - apply (wf_nodup _ Hwf TRead).
  - apply (wf_nodup _ Hwf TWrite).
  - intros id Hr' Hw.
    destruct (wf_queue _ Hwf TRead id Hr') as [(j & Hj & Hty) _].
    destruct (wf_queue _ Hwf TWrite id Hw) as [(j' & Hj' & Hty') _].
    congruence.
  - destruct (frame_spec s Hwf) as (s2 & s3 & _ & _ & _ & _ & ->). done.
Qed.

Lemma queued_jobs_are_registered_witness :
  host_run (new false) (turn (CallRead Ret None Ret) (new false)) ∧
  NoDup (queue_read (turn (CallRead Ret None Ret) (new false))) ∧
  (_frame (turn (CallRead Ret None Ret) (new false))).2 = Normal.
Proof.
  assert (host_run (new false) (turn (CallRead Ret None Ret) (new false)))
    as Hr by (apply (host_turn (CallRead Ret None Ret)), host_stay).
  destruct (queued_jobs_are_registered false _ Hr) as (_ & H1 & _ & _ & H2).
  split_and!; [exact Hr|exact H1|exact H2].
Defined.

(** ** Requests for a frame *)

(** X3: between the turns and frames of a scheduler that started fresh,
    at most one [_frame] callback waits at the host, and one does exactly
    when [pending] is set: [_request] never asks for a second frame while
    one is due. *)
Theorem one_frame_callback_at_most h s :
  host_run (new h) s →
  current s = [] ∧
  count_frames (rafq s) = (if pending s then 1 else 0)%nat.
Proof.
  intros Hr.
  destruct (host_run_quiescent _ _ (quiescent_new h) Hr)
    as [(_ & Hs & _ & _ & _ & Hc) _].
  split; [done|]. unfold sched, frame_cbs in Hs.
  by rewrite Hc, app_nil_r in Hs.
Qed.

Lemma one_frame_callback_at_most_witness :
  host_run (new false)
    (turn (CallRead Ret None (CallWrite Ret None Ret)) (new false)) ∧
  count_frames
    (rafq (turn (CallRead Ret None (CallWrite Ret None Ret)) (new false))) =
  1%nat.
Proof.
  assert (host_run (new false)
            (turn (CallRead Ret None (CallWrite Ret None Ret)) (new false)))
    as Hr by (apply (host_turn (CallRead Ret None (CallWrite Ret None Ret))),
              host_stay).
  destruct (one_frame_callback_at_most false _ Hr) as [_ H].
  split; [exact Hr|exact H].
Defined.

(** X4: no job is left behind.  Between the turns and frames of a
    scheduler that started fresh, a frame callback waits at the host for
    every queued job, and the next animation frame invokes the job's
    callback in its phase, unless the job is cancelled first. *)
Theorem no_job_is_stranded h s ty id :
  host_run (new h) s → id ∈ queue ty s →
  pending s = true ∧ (∃ k, (k, FrameCb) ∈ rafq s) ∧
  ∃ ext, log (tick s) = log s ++ ext ∧
    (EvCall id ty (phase_of ty) ∈ ext ∨ EvClear id ∈ ext).
Proof.
  intros Hr Hin.
  destruct (host_run_quiescent _ _ (quiescent_new h) Hr) as [Hq _].
  pose proof Hq as (Hwf & Hs & Ha & _ & Hm & Hc).
  assert (pending s = true) as Hp.
  { unfold armed in Ha. rewrite Hm in Ha. apply Ha.
    destruct ty; cbn in Hin; [left|right|by apply elem_of_nil in Hin];
      by intros E; rewrite E in Hin; apply elem_of_nil in Hin. }
  split_and!; [done| |by apply tick_drains].
  destruct (pending_frame s Hs Hp) as [k Hk]. exists k.
  by rewrite Hc, app_nil_r in Hk.
Qed.

Lemma no_job_is_stranded_witness :
  host_run (new false) (turn (CallWrite Ret None Ret) (new false)) ∧
  1 ∈ queue TWrite (turn (CallWrite Ret None Ret) (new false)) ∧
  pending (turn (CallWrite Ret None Ret) (new false)) = true.
Proof.
  assert (host_run (new false) (turn (CallWrite Ret None Ret) (new false)))
    as Hr by (apply (host_turn (CallWrite Ret None Ret)), host_stay).
  assert (1 ∈ queue TWrite (turn (CallWrite Ret None Ret) (new false)))
    as Hin by (vm_compute; left).
  destruct (no_job_is_stranded false _ TWrite 1 Hr Hin) as (H & _).
  split_and!; [exact Hr|exact Hin|exact H].
Defined.

(** X5: first in, first out.  Over the whole life of a scheduler that
    started fresh, the read callbacks are invoked in the order of their
    ids, which is the order of their submission, every read still queued
    comes after every read invoked, and the queue is in that order; the
    same holds of the writes. *)
Theorem jobs_run_in_submission_order h s ty :
  host_run (new h) s → ty ≠ TDefer →
  StronglySorted Z.lt (calls_of ty (log s)) ∧
  StronglySorted Z.lt (queue ty s) ∧
  ∀ a b, a ∈ calls_of ty (log s) → b ∈ queue ty s → a < b.
Proof.
  intros Hr Hty.
  destruct (host_run_quiescent _ _ (quiescent_new h) Hr) as [_ Hs].
  destruct (fifo_hsteps _ _ (wf_new h) (fifo_new h) Hs ty Hty) as [Hf _].
  apply StronglySorted_app in Hf as (H1 & H2 & H3). done.
Qed.

Lemma jobs_run_in_submission_order_witness :
  host_run (new false)
    (tick (turn (CallRead Ret None (CallRead Ret None Ret)) (new false))) ∧
  TRead ≠ TDefer ∧
  StronglySorted Z.lt
    (calls_of TRead
       (log (tick (turn (CallRead Ret None (CallRead Ret None Ret))
                     (new false))))).
Proof.
  assert (host_run (new false)
            (tick (turn (CallRead Ret None (CallRead Ret None Ret))
                     (new false)))) as Hr
    by (apply (host_turn (CallRead Ret None (CallRead Ret None Ret))),
        host_tick, host_stay).
  destruct (jobs_run_in_submission_order false _ TRead Hr ltac:(discriminate))
    as (H & _).
  split_and!; [exact Hr|discriminate|exact H].
Defined.

(** ** Submitting and cancelling *)

Lemma remove_first_snoc id l : id ∉ l → remove_first id (l ++ [id]) = l.
Proof.
  induction l as [|x l IH]; intros Hn; cbn.
  - by rewrite decide_True.
  - apply not_elem_of_cons in Hn as [Hx Hn].
    rewrite decide_False by done. by rewrite IH.
Qed.

Lemma clear_last ty s1 id j q (m : gmap Z job) :
  jobs s1 = <[id := j]> m → m !! id = None →
  job_type j = ty → ty ≠ TDefer →
  queue ty s1 = q ++ [id] → id ∉ q →
  jobs (clear id s1) = m ∧ queue ty (clear id s1) = q ∧
  (∀ ty', ty' ≠ ty → queue ty' (clear id s1) = queue ty' s1) ∧
  rafq (clear id s1) = rafq s1 ∧ pending (clear id s1) = pending s1 ∧
  jobs (_remove ty id s1) = m ∧ queue ty (_remove ty id s1) = q.
Proof.
  intros Ej Hm Hty Hnd Eq Hq. unfold clear, _remove.
  rewrite Ej, lookup_insert_eq, Hty, Eq, remove_first_snoc by done.
  destruct ty; [| |done]; cbn; cbn in Eq;
    rewrite Ej, delete_insert_id, ?Eq, ?remove_first_snoc by done;
    (split_and!; [done..| |done|done|done|done]); by intros [].
Qed.

(** X6: cancelling a job right after submitting it puts the registry and
    both queues back as they were, by [clear] as by the private
    [_remove]; the frame that the submission requested stays requested. *)
Theorem submit_then_clear_restores fn ctx s :
  wf s →
  (jobs (clear (read fn ctx s).1 (read fn ctx s).2) = jobs s ∧
   queue_read (clear (read fn ctx s).1 (read fn ctx s).2) = queue_read s ∧
   queue_write (clear (read fn ctx s).1 (read fn ctx s).2) = queue_write s ∧
   rafq (clear (read fn ctx s).1 (read fn ctx s).2) = rafq (read fn ctx s).2 ∧
   pending (clear (read fn ctx s).1 (read fn ctx s).2) =
     pending (read fn ctx s).2 ∧
   jobs (_remove TRead (read fn ctx s).1 (read fn ctx s).2) = jobs s ∧
   queue_read (_remove TRead (read fn ctx s).1 (read fn ctx s).2) =
     queue_read s) ∧
  (jobs (clear (write fn ctx s).1 (write fn ctx s).2) = jobs s ∧
   queue_read (clear (write fn ctx s).1 (write fn ctx s).2) = queue_read s ∧
   queue_write (clear (write fn ctx s).1 (write fn ctx s).2) = queue_write s ∧
   rafq (clear (write fn ctx s).1 (write fn ctx s).2) =
     rafq (write fn ctx s).2 ∧
   pending (clear (write fn ctx s).1 (write fn ctx s).2) =
     pending (write fn ctx s).2 ∧
   jobs (_remove TWrite (write fn ctx s).1 (write fn ctx s).2) = jobs s ∧
   queue_write (_remove TWrite (write fn ctx s).1 (write fn ctx s).2) =
     queue_write s).
Proof.
  intros Hwf.
  pose proof (fresh_not_job s Hwf) as Hj.
  pose proof (fresh_not_queued s TRead Hwf) as Hqr.
  pose proof (fresh_not_queued s TWrite Hwf) as Hqw.
  split.
  - destruct (read_fields fn ctx s) as (-> & Ej & Er & Ew & _).
    destruct (clear_last TRead (read fn ctx s).2 (lastId s + 1) _ _ _
                Ej Hj eq_refl ltac:(done) Er Hqr)
      as (H0 & H1 & H2 & H3 & H4 & H5 & H6).
    split_and!; [exact H0|exact H1| |exact H3|exact H4|exact H5|exact H6].
    etrans; [exact (H2 TWrite ltac:(done))|exact Ew].
  - destruct (write_fields fn ctx s) as (-> & Ej & Er & Ew & _).
    destruct (clear_last TWrite (write fn ctx s).2 (lastId s + 1) _ _ _
                Ej Hj eq_refl ltac:(done) Ew Hqw)
      as (H0 & H1 & H2 & H3 & H4 & H5 & H6).
    split_and!; [exact H0| |exact H1|exact H3|exact H4|exact H5|exact H6].
    etrans; [exact (H2 TRead ltac:(done))|exact Er].
Qed.

Lemma submit_then_clear_restores_witness :
  wf (new false) ∧
  jobs (clear (read Ret None (new false)).1 (read Ret None (new false)).2) =
  jobs (new false).
Proof.
  destruct (submit_then_clear_restores Ret None (new false) (wf_new false))
    as ((H & _) & _).
  split; [apply wf_new|exact H].
Defined.

(** X7: cancelling a deferred job that has not run takes its frame
    callback from the host, and nothing the scheduler or the host does
    afterwards invokes its callback. *)
Theorem clear_cancels_deferred_for_good s id j :
  wf s → jobs s !! id = Some j → job_type j = TDefer →
  ¬ called id (log s) →
  ¬ wrapped_pending id (clear id s) ∧
  ∀ s', rtc hstep (clear id s) s' → ¬ called id (log s').
Proof.
  intros Hwf Hj Hty Hnc.
  assert (¬ wrapped_pending id (clear id s)) as Hnw.
  { intros (h & n & fn & ctx & Hin). unfold clear in Hin.
    rewrite Hj, Hty in Hin.
    assert (∀ h', (h', Wrapped n id fn ctx) ∈ rafq s ++ current s →
              job_timer j = Some h') as Htimer.
    { intros h' Hin'.
      apply (wf_wrapped _ Hwf) in Hin' as (_ & _ & j' & Hj' & _ & Ht).
      congruence. }
    destruct (job_timer j) as [t|] eqn:Et; cbn in Hin.
    - apply elem_of_app in Hin as [Hin|Hin];
        apply list_elem_of_filter in Hin as [Hne Hin]; cbn in Hne;
        (assert (Some t = Some h) as [= ->];
         [apply Htimer; rewrite elem_of_app; auto|done]).
    - by apply Htimer in Hin. }
  split; [done|]. intros s' Hs' Hc.
  assert (dead id (clear id s)) as Hd.
  { split_and!; [|intros ty Hin|done].
    - pose proof (step_basics _ _ (step_clear id s)) as (_ & _ & _ & Hl & _).
      apply (wf_jobs _ Hwf) in Hj. lia.
    - pose proof (wf_clear id s Hwf) as Hwf'.
      destruct (wf_queue _ Hwf' ty id Hin) as [(j' & Hj' & Hty') _].
      unfold clear in Hj'. rewrite Hj, Hty in Hj'.
      assert (j' = j) as -> by (destruct (job_timer j); cbn in Hj'; congruence).
      rewrite Hty in Hty'. subst ty. by apply elem_of_nil in Hin. }
  destruct (dead_hsteps id _ _ Hs' Hd) as [_ Hc'].
  apply Hc' in Hc. unfold clear in Hc. rewrite Hj, Hty in Hc.
  assert (called id (log s ++ [EvClear id])) as Hc2
    by (by destruct (job_timer j)).
  apply called_snoc in Hc2 as [?|(? & ? & ?)]; done.
Qed.

Lemma clear_cancels_deferred_for_good_witness :
  wf (defer 2 Ret None (new false)).1.1 ∧
  ¬ wrapped_pending 1 (clear 1 (defer 2 Ret None (new false)).1.1).
Proof.
  assert (wf (defer 2 Ret None (new false)).1.1) as Hwf.
  { apply (wf_step (new false)); [apply wf_new|].
    apply (step_defer_later 2 Ret None (new false)). lia. }
  destruct (clear_cancels_deferred_for_good (defer 2 Ret None (new false)).1.1
              1 (Job 1 Ret None TDefer (Some 0%nat)) Hwf) as [H _].
  - reflexivity.
  - reflexivity.
  - intros (ty & m & Hin). vm_compute in Hin.
    apply list_elem_of_singleton in Hin. discriminate.
  - split; [exact Hwf|exact H].
Defined.

End FastDomMore.

Module SandboxedMore.
Import Sandboxed SandboxedFacts.

#[local] Set Warnings "-clear-no-such-hyp".

(** ** Running tasks as sequences of transitions *)

Lemma task_exec_steps k c : ∀ s, rtc (step k) s (exec c s).1.
Proof.
  induction c as [|e|fn IHfn ctx c IHc|fn IHfn ctx c IHc|r c IHc
                  |frames fn IHfn ctx c IHc]; intros s; cbn [exec fst];
    try done.
  - eapply rtc_l; [apply step_measure|apply IHc].
  - eapply rtc_l; [apply step_mutate|apply IHc].
  - eapply rtc_l; [apply step_clear|apply IHc].
Qed.

Lemma body_steps k t s : rtc (step k) s (body t s).1.
Proof.
  unfold body. destruct (task_fn t) as [fn|b fn ctx|b fn ctx].
  - apply task_exec_steps.
  - eapply rtc_l; [apply step_box|apply task_exec_steps].
  - eapply rtc_l; [apply step_box|apply task_exec_steps].
Qed.

Lemma call_task_steps k t rest s :
  tasks k s = t :: rest →
  rtc (step k) s (call_task t (set_tasks k rest s)).1.
Proof.
  intros Hq. unfold call_task.
  eapply rtc_l; [by apply (step_call k t rest)|].
  pose proof (body_steps k t (emit (EvCall (task_ref t)) (set_tasks k rest s)))
    as Hb.
  destruct (body t _) as [s1 [|e]]; cbn [fst] in *; [done|].
  eapply rtc_r; [done|apply step_fail].
Qed.

Lemma runTasks_steps k s : rtc (step k) s (runTasks k s).1.
Proof.
  apply (runTasks_ind k (λ s r, rtc (step k) s r.1)); clear s.
  - done.
  - intros s t rest s1 e Hq Hc.
    pose proof (call_task_steps k t rest s Hq) as H. by rewrite Hc in H.
  - intros s t rest s1 Hq Hc IH.
    pose proof (call_task_steps k t rest s Hq) as H. rewrite Hc in H.
    by etrans.
Qed.

Lemma settle_steps k o s : rtc (step k) s (settle o s).1.
Proof.
  unfold settle. destruct o as [|e]; [done|].
  destruct (truthy e); [|done].
  destruct (catch s) eqn:Hc; [|done]. by apply rtc_once, step_catch.
Qed.

Lemma flushList_steps k s : rtc (step k) s (_flushList k s).1.
Proof.
  apply (_flushList_ind k (λ s r, rtc (step k) s r.1)); clear s.
  - intros s s2 Hq. etrans; [apply runTasks_steps|].
    eapply rtc_l; [apply step_scheduled_off|].
    eapply rtc_l; [apply step_scheduledRead_off|]. apply settle_steps.
  - intros s s2 Hq IH.
    assert (rtc (step k) s s2) as H2.
    { etrans; [apply runTasks_steps|].
      eapply rtc_l; [apply step_scheduled_off|].
      by apply rtc_once, step_scheduledRead_off. }
    destruct (_flushList k s2) as [s3 [|e]]; cbn [fst] in *.
    + etrans; [done|]. etrans; [done|]. apply settle_steps.
    + by etrans.
Qed.

Lemma flushReads_steps s : rtc (step Reads) s (_flushReads s).1.
Proof.
  unfold _flushReads. pose proof (flushList_steps Reads s) as H.
  destruct (_flushList Reads s) as [s1 [|e]]; cbn [fst] in *; [|done].
  eapply rtc_r; [done|apply step_scheduledRead_off].
Qed.

(** [_flush] runs tasks of [reads], then tasks of [writes]. *)
Lemma flush_steps s :
  ∃ s1, rtc (step Reads) s s1 ∧ rtc (step Writes) s1 (_flush s).1 ∧
    (s1 = (_flushReads s).1) ∧
    ((_flushReads s).2 ≠ Normal → (_flush s) = (_flushReads s)).
Proof.
  exists (_flushReads s).1. unfold _flush.
  pose proof (flushReads_steps s) as H.
  destruct (_flushReads s) as [s1 [|e]]; cbn [fst snd] in *;
    [|by split_and!].
  split_and!; [done| |done|done].
  pose proof (flushList_steps Writes s1) as H2.
  destruct (_flushList Writes s1) as [s2 [|e]]; cbn [fst] in *; [|done].
  eapply rtc_r; [done|apply step_scheduled_off].
Qed.

Lemma step_hsteps k s s' : rtc (step k) s s' → rtc hstep s s'.
Proof.
  induction 1; [done|]. eapply rtc_l; [by eapply hstep_step|done].
Qed.

Lemma run_hostcb_hsteps cb s : rtc hstep s (run_hostcb cb s).
Proof.
  destruct cb; cbn.
  - destruct (flush_steps s) as (s1 & H1 & H2 & _).
    eapply rtc_r; [|apply hstep_report].
    etrans; by eapply step_hsteps.
  - eapply rtc_r; [|apply hstep_report].
    eapply step_hsteps, flushReads_steps.
Qed.

Lemma foldl_hostcb_hsteps l : ∀ s,
  rtc hstep s (foldl (λ s cb, run_hostcb cb s) s l).
Proof.
  induction l as [|cb l IH]; intros s; [done|]. cbn.
  etrans; [apply run_hostcb_hsteps|apply IH].
Qed.

Lemma frame_hsteps s : rtc hstep s (frame s).
Proof.
  unfold frame. eapply rtc_l; [apply (hstep_rafq [])|].
  apply foldl_hostcb_hsteps.
Qed.

Lemma timeout_hsteps s : rtc hstep s (timeout s).
Proof.
  unfold timeout. eapply rtc_l; [apply (hstep_timers [])|].
  apply foldl_hostcb_hsteps.
Qed.

Lemma clear_hsteps t s : rtc hstep s (clear t s).
Proof.
  destruct t as [t|]; [|done]. apply rtc_once, (hstep_step Reads), step_clear.
Qed.

Lemma clearAll_loop_hsteps n : ∀ i ts s,
  rtc hstep s (clearAll_loop n i ts s).2.
Proof.
  induction n as [|n IH]; intros i ts s; [done|]. cbn.
  etrans; [apply clear_hsteps|apply IH].
Qed.

Lemma sandbox_clear_hsteps b t s : rtc hstep s (sandbox_clear b t s).
Proof.
  unfold sandbox_clear. destruct t as [t|]; [apply (clear_hsteps (Some t))|].
  unfold clearAll.
  pose proof (clearAll_loop_hsteps (length (sb_writes (box b s))) 0
                (sb_writes (box b s)) s) as H1.
  destruct (clearAll_loop _ 0 (sb_writes (box b s)) s) as [ws s1].
  cbn [snd] in H1.
  match goal with |- context [clearAll_loop ?n 0 ?ts ?x] =>
    pose proof (clearAll_loop_hsteps n 0 ts x) as H2;
    destruct (clearAll_loop n 0 ts x) as [rs s3] end.
  cbn [snd] in H2.
  etrans; [done|]. eapply rtc_l; [apply hstep_boxes|].
  etrans; [done|]. apply rtc_once, hstep_boxes.
Qed.

Lemma host_run_hsteps s s' : host_run s s' → rtc hstep s s'.
Proof.
  induction 1 as [s|c s s' _ IH|s s' _ IH|s s' _ IH|s s' _ IH
                  |b fn ctx s s' _ IH|b fn ctx s s' _ IH|b t s s' _ IH];
    [done|..]; (etrans; [|exact IH]).
  - eapply rtc_r; [|apply hstep_report].
    apply (step_hsteps Reads), task_exec_steps.
  - apply frame_hsteps.
  - apply timeout_hsteps.
  - apply rtc_once, hstep_boxes.
  - unfold sandbox_measure.
    pose proof (step_measure Reads (ReadWrapper b fn ctx) None s) as H.
    destruct (measure _ None s) as [t s1]. cbn [snd] in *.
    eapply rtc_l; [by eapply hstep_step|]. apply rtc_once, hstep_boxes.
  - unfold sandbox_mutate.
    pose proof (step_mutate Reads (WriteWrapper b fn ctx) None s) as H.
    destruct (mutate _ None s) as [t s1]. cbn [snd] in *.
    eapply rtc_l; [by eapply hstep_step|]. apply rtc_once, hstep_boxes.
  - apply sandbox_clear_hsteps.
Qed.

(** ** What a transition does to the arrays and to the log *)

Lemma step_shape k s s' :
  step k s s' →
  ((∃ k0 fn ctx,
      tasks k0 s' = tasks k0 s ++ [Task (next_ref s) fn ctx] ∧
      next_ref s' = next_ref s + 1 ∧
      ∀ k', k' ≠ k0 → tasks k' s' = tasks k' s) ∨
   (next_ref s' = next_ref s ∧
    ∀ k', tasks k' s' `sublist_of` tasks k' s)) ∧
  ((∃ t rest, tasks k s = t :: rest ∧ tasks k s' = rest ∧
              log s' = log s ++ [EvCall (task_ref t)]) ∨
   (∃ ext, log s' = log s ++ ext ∧ calls ext = [])).
Proof.
  intros Hst.
  assert (∀ s0 : state, next_ref s0 = next_ref s → reads s0 = reads s →
            writes s0 = writes s →
            (∃ ext, log s0 = log s ++ ext ∧ calls ext = []) →
            ((∃ k0 fn ctx,
                tasks k0 s0 = tasks k0 s ++ [Task (next_ref s) fn ctx] ∧
                next_ref s0 = next_ref s + 1 ∧
                ∀ k', k' ≠ k0 → tasks k' s0 = tasks k' s) ∨
             (next_ref s0 = next_ref s ∧
              ∀ k', tasks k' s0 `sublist_of` tasks k' s)) ∧
            ((∃ t rest, tasks k s = t :: rest ∧ tasks k s0 = rest ∧
                        log s0 = log s ++ [EvCall (task_ref t)]) ∨
             (∃ ext, log s0 = log s ++ ext ∧ calls ext = []))) as Hsame.
  { intros s0 E1 E2 E3 E4. split; [right|by right]. split; [done|].
    intros []; cbn; by rewrite ?E2, ?E3. }
  assert (∀ s0 : state, log s0 = log s →
            ∃ ext, log s0 = log s ++ ext ∧ calls ext = []) as Hlog.
  { intros s0 E. exists []. by rewrite app_nil_r. }
  destruct Hst as [fn ctx s|fn ctx s|r s|t rest s Hq|b v s|r e s|s|s|e s Hc].
  - destruct (measure_fields fn ctx s) as (Hr & Hw & _ & _ & Hl & _).
    assert (next_ref (measure fn ctx s).2 = next_ref s + 1) as Hn.
    { unfold measure, alloc, scheduleReadFlush, scheduleFlush. cbn.
      by destruct (scheduledRead s), (scheduled s). }
    split; [left|right; by apply Hlog].
    exists Reads, fn, ctx. split_and!; [done|done|]. by intros [].
  - destruct (mutate_fields fn ctx s) as (Hr & Hw & _ & _ & Hl & _).
    assert (next_ref (mutate fn ctx s).2 = next_ref s + 1) as Hn.
    { unfold mutate, alloc, scheduleFlush. cbn. by destruct (scheduled s). }
    split; [left|right; by apply Hlog].
    exists Writes, fn, ctx. split_and!; [done|done|]. by intros [].
  - unfold clear_ref.
    destruct (indexOf r (reads s)) as [i|];
      [|destruct (indexOf r (writes s)) as [i|]]; cbn.
    + split; [right|right; by exists [EvClear r]]. split; [done|].
      intros []; cbn; [apply sublist_delete|done].
    + split; [right|right; by exists [EvClear r]]. split; [done|].
      intros []; cbn; [done|apply sublist_delete].
    + by apply Hsame; [..|apply Hlog].
  - split; [right|left].
    + split; [by destruct k|].
      intros k'. destruct k, k'; cbn in *; rewrite ?Hq; try done;
        by apply sublist_cons.
    + exists t, rest. split_and!; [done|by destruct k|by destruct k].
  - by apply Hsame; [..|apply Hlog].
  - apply Hsame; [done..|]. by exists [EvFail r e].
  - by apply Hsame; [..|apply Hlog].
  - by apply Hsame; [..|apply Hlog].
  - by apply Hsame; [..|apply Hlog].
Qed.

Lemma refs_sublist k s s' :
  tasks k s' `sublist_of` tasks k s → refs k s' `sublist_of` refs k s.
Proof. apply fmap_sublist. Qed.

(** ** The arrays stay tidy *)

Lemma tidy_shrink s s' :
  next_ref s ≤ next_ref s' →
  (∀ k, tasks k s' `sublist_of` tasks k s) → tidy s → tidy s'.
Proof.
  intros Hn Hsub (Hr & Hw & Hd & Hb).
  assert (∀ k r, r ∈ refs k s' → r ∈ refs k s) as Hin.
  { intros k r Hr'. eapply elem_of_sublist; [done|]. by apply refs_sublist. }
  split_and!.
  - apply (FastDomMore.StronglySorted_sublist _ _ (refs Reads s));
      [by apply refs_sublist|done].
  - apply (FastDomMore.StronglySorted_sublist _ _ (refs Writes s));
      [by apply refs_sublist|done].
  - intros r H1%Hin H2%Hin. by apply (Hd r).
  - intros k r Hr'%Hin. apply Hb in Hr'. lia.
Qed.

Lemma tidy_step k s s' : step k s s' → tidy s → tidy s'.
Proof.
  intros [[(k0 & fn & ctx & E & En & Eo)|[En Hsub]] _]%step_shape Ht;
    [|apply (tidy_shrink s); [lia|done|done]].
  destruct Ht as (Hr & Hw & Hd & Hb).
  assert (refs k0 s' = refs k0 s ++ [next_ref s]) as E0
    by (unfold refs; by rewrite E, fmap_app).
  assert (∀ k', k' ≠ k0 → refs k' s' = refs k' s) as E1
    by (intros k' Hk; unfold refs; by rewrite Eo).
  assert (StronglySorted Z.lt (refs k0 s ++ [next_ref s])) as Hs0.
  { apply StronglySorted_app_2; [|by destruct k0|repeat constructor].
    intros a b Ha ->%list_elem_of_singleton. by apply (Hb k0). }
  split_and!.
  - destruct k0; [by rewrite E0|by rewrite E1]. 
  - destruct k0; [by rewrite E1|by rewrite E0].
  - intros r. destruct k0.
    + rewrite E0, (E1 Writes) by done.
      intros [H1| ->%list_elem_of_singleton]%elem_of_app H2; [by apply (Hd r)|].
      apply (Hb Writes) in H2. lia.
    + rewrite E0, (E1 Reads) by done.
      intros H1 [H2| ->%list_elem_of_singleton]%elem_of_app; [by apply (Hd r)|].
      apply (Hb Reads) in H1. lia.
  - intros k' r. destruct (decide (k' = k0)) as [->|Hne].
    + rewrite E0. intros [H1| ->%list_elem_of_singleton]%elem_of_app; [|lia].
      apply Hb in H1. lia.
    + rewrite E1 by done. intros H1%Hb. lia.
Qed.

Lemma tidy_hstep s s' : hstep s s' → tidy s → tidy s'.
Proof.
  intros [k s0 s0' Hst|v s0|v s0|v s0|[s0 o]]; [by eapply tidy_step|..];
    try (by apply tidy_shrink).
  cbn. destruct o; by apply tidy_shrink.
Qed.

Lemma tidy_hsteps s s' : rtc hstep s s' → tidy s → tidy s'.
Proof. induction 1; eauto using tidy_hstep. Qed.

Lemma tidy_new h : tidy (new h).
Proof.
  split_and!; [constructor|constructor|by intros ? ?%elem_of_nil|].
  by intros [] ? ?%elem_of_nil.
Qed.

(** ** Where the tasks of an array and the calls come from *)

Lemma step_refs k s s' :
  step k s s' →
  next_ref s ≤ next_ref s' ∧
  ∀ k' r, r ∈ refs k' s' → r ∈ refs k' s ∨ r = next_ref s.
Proof.
  intros [[(k0 & fn & ctx & E & En & Eo)|[En Hsub]] _]%step_shape.
  - split; [lia|]. intros k' r. destruct (decide (k' = k0)) as [->|Hne].
    + unfold refs. rewrite E, fmap_app, elem_of_app. cbn.
      rewrite list_elem_of_singleton. tauto.
    + unfold refs. rewrite Eo by done. auto.
  - split; [lia|]. intros k' r Hr. left.
    eapply elem_of_sublist; [done|]. by apply refs_sublist.
Qed.

Lemma step_calls k s s' :
  step k s s' →
  ∃ ext, log s' = log s ++ ext ∧ ∀ r, EvCall r ∈ ext → r ∈ refs k s.
Proof.
  intros [_ [(t & rest & Hq & _ & ->)|(ext & -> & Hc)]]%step_shape.
  - eexists. split; [done|]. intros r [= ->]%list_elem_of_singleton.
    unfold refs. rewrite Hq. left.
  - exists ext. split; [done|]. intros r Hin.
    apply elem_of_calls in Hin. rewrite Hc in Hin. by apply elem_of_nil in Hin.
Qed.

(** A task that is in no array is not called, and stays out. *)
Lemma absent_hstep r s s' :
  hstep s s' → absent r s →
  absent r s' ∧ ∃ ext, log s' = log s ++ ext ∧ EvCall r ∉ ext.
Proof.
  intros Hst [Hlt Hno].
  assert (∀ s0 : state, log s0 = log s →
            ∃ ext, log s0 = log s ++ ext ∧ EvCall r ∉ ext) as Hsame.
  { intros s0 E. exists []. rewrite app_nil_r. split; [done|].
    by intros ?%elem_of_nil. }
  destruct Hst as [k s s' Hst|v s|v s|v s|[s o]];
    try (split; [by split|by apply Hsame]).
  - destruct (step_refs _ _ _ Hst) as [Hn Hr]. split; [split; [lia|]|].
    + intros k' [?| ->]%Hr; [by eapply Hno|lia].
    + destruct (step_calls _ _ _ Hst) as (ext & E & Hc). exists ext.
      split; [done|]. intros Hin%Hc. by destruct (Hno k).
  - cbn. destruct o; (split; [by split|by apply Hsame]).
Qed.

Lemma absent_hsteps r s s' :
  rtc hstep s s' → absent r s →
  absent r s' ∧ ∃ ext, log s' = log s ++ ext ∧ EvCall r ∉ ext.
Proof.
  induction 1 as [s|s s1 s2 H1 H2 IH].
  { intros Ha. split; [done|]. exists []. rewrite app_nil_r.
    split; [done|]. by intros ?%elem_of_nil. }
  intros Ha. destruct (absent_hstep r _ _ H1 Ha) as (Ha1 & e1 & E1 & Hc1).
  destruct (IH Ha1) as (Ha2 & e2 & E2 & Hc2). split; [done|].
  exists (e1 ++ e2). split; [by rewrite E2, E1, app_assoc|].
  rewrite elem_of_app. tauto.
Qed.

(** While the tasks of one array are run, a task that is not in that
    array is not called. *)
Lemma away_steps k r s s' :
  rtc (step k) s s' → r < next_ref s → r ∉ refs k s →
  (r < next_ref s' ∧ r ∉ refs k s') ∧
  ∃ ext, log s' = log s ++ ext ∧ EvCall r ∉ ext.
Proof.
  induction 1 as [s|s s1 s2 H1 H2 IH].
  { intros Hlt Hno. split; [done|]. exists []. rewrite app_nil_r.
    split; [done|]. by intros ?%elem_of_nil. }
  intros Hlt Hno.
  destruct (step_refs _ _ _ H1) as [Hn Hr].
  assert (r < next_ref s1) as Hlt1 by lia.
  assert (r ∉ refs k s1) as Hno1 by (intros [?| ->]%Hr; [done|lia]).
  destruct (IH Hlt1 Hno1) as (Ha & e2 & E2 & Hc2). split; [done|].
  destruct (step_calls _ _ _ H1) as (e1 & E1 & Hc1).
  exists (e1 ++ e2). split; [by rewrite E2, E1, app_assoc|].
  rewrite elem_of_app. intros [?%Hc1|?]; done.
Qed.

(** ** A flush is due *)

Lemma flush_due_step k s s' : step k s s' → flush_due s → flush_due s'.
Proof.
  intros Hst (H1 & H2 & H3).
  destruct Hst as [fn ctx s|fn ctx s|r s|t rest s Hq|b v s|r e s|s|s|e s Hc];
    try done.
  - unfold measure, alloc, scheduleReadFlush, scheduleFlush. cbn.
    destruct (scheduledRead s) eqn:E1; cbn.
    + specialize (H2 eq_refl). by split_and!.
    + destruct (scheduled s) eqn:E2; cbn.
      * specialize (H1 eq_refl). by split_and!.
      * assert (Flush ∈ rafq s ++ [Flush])
          by (apply elem_of_app; right; left).
        by split_and!.
  - unfold mutate, alloc, scheduleFlush. cbn.
    destruct (scheduled s) eqn:E2; cbn.
    + by split_and!.
    + assert (Flush ∈ rafq s ++ [Flush]) by (apply elem_of_app; right; left).
      split_and!; [done| |].
      * intros E. apply H2 in E. apply elem_of_app. by left.
      * intros E. apply H3 in E. apply elem_of_app. by left.
  - unfold clear_ref.
    destruct (indexOf r (reads s)) as [i|] eqn:Hi;
      [|destruct (indexOf r (writes s)) as [j|]]; cbn; try done.
    split_and!; [done|done|]. intros Hne. apply H3. intros E.
    rewrite E in Hi. done.
  - destruct k; cbn in *; split_and!; try done.
    intros _. apply H3. by rewrite Hq.
Qed.

Lemma flush_due_steps k s s' : rtc (step k) s s' → flush_due s → flush_due s'.
Proof. induction 1; eauto using flush_due_step. Qed.

(** When [_flushList] is over both flags are down. *)
Lemma flushList_flags k s :
  scheduled (_flushList k s).1 = false ∧
  scheduledRead (_flushList k s).1 = false.
Proof.
  apply (_flushList_ind k (λ s r,
    scheduled r.1 = false ∧ scheduledRead r.1 = false)); clear s.
  - intros s s2 _. unfold settle.
    destruct (runTasks k s).2 as [|e]; [done|].
    by destruct (truthy e), (catch s2).
  - intros s s2 _ IH. destruct (_flushList k s2) as [s3 [|e]]; [|done].
    cbn [fst] in *. unfold settle.
    destruct (runTasks k s).2 as [|e]; [done|].
    by destruct (truthy e), (catch s3).
Qed.

Lemma host_run_tidy s s' : host_run s s' → tidy s → tidy s'.
Proof. intros H%host_run_hsteps. by apply tidy_hsteps. Qed.

Lemma sorted_NoDup (l : list Z) : StronglySorted Z.lt l → NoDup l.
Proof.
  induction 1 as [|x l Hs IH Hf]; constructor; [|done].
  intros Hin. rewrite Forall_forall in Hf. apply Hf in Hin. lia.
Qed.

Lemma NoDup_delete_lookup {A} (l : list A) i x :
  NoDup l → l !! i = Some x → x ∉ delete i l.
Proof.
  intros Hnd Hi. rewrite delete_take_drop.
  rewrite <- (take_drop_middle l i x Hi) in Hnd.
  apply NoDup_app in Hnd as (_ & H1 & H2). apply NoDup_cons in H2 as [H2 _].
  intros [Hin|Hin]%elem_of_app; [|done]. apply H1 in Hin. apply Hin. left.
Qed.

Lemma indexOf_None r l : indexOf r l = None → r ∉ task_ref <$> l.
Proof.
  induction l as [|x l IH]; cbn; [by intros _ ?%elem_of_nil|].
  case_decide as Hx; [done|].
  destruct (indexOf r l); [done|]. intros _.
  apply not_elem_of_cons. split; [done|]. by apply IH.
Qed.

(** In a tidy state [clear] takes the task out of the arrays for good. *)
Lemma clear_ref_absent r s :
  tidy s → r < next_ref s → absent r (clear_ref r s).
Proof.
  intros (Hr & Hw & Hd & Hb) Hlt. unfold clear_ref.
  destruct (indexOf r (reads s)) as [i|] eqn:Ei.
  { apply indexOf_lookup in Ei as (u & Hu & Href).
    assert (refs Reads s !! i = Some r) as Hi
      by (unfold refs; cbn; by rewrite list_lookup_fmap, Hu; cbn; f_equal).
    split; [done|]. intros []; unfold refs; cbn.
    - rewrite list_fmap_delete.
      by apply NoDup_delete_lookup; [apply sorted_NoDup|].
    - apply Hd. by eapply list_elem_of_lookup_2. }
  apply indexOf_None in Ei.
  destruct (indexOf r (writes s)) as [i|] eqn:Ej.
  { apply indexOf_lookup in Ej as (u & Hu & Href).
    assert (refs Writes s !! i = Some r) as Hi
      by (unfold refs; cbn; by rewrite list_lookup_fmap, Hu; cbn; f_equal).
    split; [done|]. intros []; unfold refs; cbn; [done|].
    rewrite list_fmap_delete.
    by apply NoDup_delete_lookup; [apply sorted_NoDup|]. }
  apply indexOf_None in Ej. split; [done|]. by intros [].
Qed.

Lemma exec_boxes c : ∀ s, boxes (exec c s).1 = boxes s.
Proof.
  induction c as [|e|fn IHfn ctx c IHc|fn IHfn ctx c IHc|r c IHc
                  |frames fn IHfn ctx c IHc]; intros s; cbn [exec fst];
    try done.
  - rewrite IHc. by destruct (measure_fields (Plain fn) ctx s)
      as (_ & _ & _ & _ & _ & -> & _).
  - rewrite IHc. by destruct (mutate_fields (Plain fn) ctx s)
      as (_ & _ & _ & _ & _ & -> & _).
  - rewrite IHc. apply (clear_boxes (Some (Task r (Plain Ret) None))).
Qed.

Lemma indexOf_middle t pre post :
  task_ref t ∉ task_ref <$> pre →
  indexOf (task_ref t) (pre ++ t :: post) = Some (length pre).
Proof.
  induction pre as [|x pre IH]; cbn; intros Hn.
  - by rewrite decide_True.
  - apply not_elem_of_cons in Hn as [Hx Hn].
    rewrite decide_False by done. by rewrite IH.
Qed.

(** ** [Sandbox.prototype.clear] *)

Lemma odds_short {A} (l : list A) : (length l ≤ 1)%nat → odds l = [].
Proof. destruct l as [|a [|b l]]; cbn; [done|done|lia]. Qed.

(** X8: what [sandbox.clear()] does in general.  Of each array of the
    sandbox, the writes first, the tasks at the even positions 0, 2, 4, ...
    are cleared from the scheduler and dropped from the array, and those at
    the odd positions stay recorded; so a sandbox that records at most one
    read and one write is emptied. *)
Theorem sandbox_clear_takes_every_other_task b s :
  box b (sandbox_clear b None s) =
    Sandbox (odds (sb_reads (box b s))) (odds (sb_writes (box b s))) ∧
  reads (sandbox_clear b None s) =
    reads (clear_each (evens (sb_reads (box b s)))
             (clear_each (evens (sb_writes (box b s))) s)) ∧
  writes (sandbox_clear b None s) =
    writes (clear_each (evens (sb_reads (box b s)))
              (clear_each (evens (sb_writes (box b s))) s)) ∧
  ((length (sb_reads (box b s)) ≤ 1)%nat →
   (length (sb_writes (box b s)) ≤ 1)%nat →
   box b (sandbox_clear b None s) = Sandbox [] []).
Proof.
  destruct (sandbox_clear_spec b s) as (H1 & H2 & H3 & _).
  split_and!; [done..|]. intros Hr Hw.
  by rewrite H1, !odds_short.
Qed.

Lemma sandbox_clear_takes_every_other_task_witness :
  sb_reads (box 0 (sandbox_measure 0 Ret None (sandbox_new (new false)).2).2) =
    [Task 1 (ReadWrapper 0 Ret None) None] ∧
  box 0 (sandbox_clear 0 None
           (sandbox_measure 0 Ret None (sandbox_new (new false)).2).2) =
    Sandbox [] [].
Proof.
  split; [reflexivity|].
  destruct (sandbox_clear_takes_every_other_task 0
              (sandbox_measure 0 Ret None (sandbox_new (new false)).2).2)
    as (_ & _ & _ & H).
  apply H; vm_compute; lia.
Defined.

(** X9: [sandbox.clear()] touches nothing else.  A task that is recorded
    in neither array of the sandbox, be it submitted directly or through
    another sandbox, stays queued, and the other sandboxes keep their
    records. *)
Theorem sandbox_clear_spares_the_rest b s t :
  task_ref t ∉ task_ref <$> (sb_reads (box b s) ++ sb_writes (box b s)) →
  (t ∈ reads s → t ∈ reads (sandbox_clear b None s)) ∧
  (t ∈ writes s → t ∈ writes (sandbox_clear b None s)) ∧
  ∀ b', b' ≠ b → box b' (sandbox_clear b None s) = box b' s.
Proof. apply sandbox_clear_keeps_others. Qed.

Lemma sandbox_clear_spares_the_rest_witness :
  (3 ∉ task_ref <$> (sb_reads (box 0 documented_example) ++
                     sb_writes (box 0 documented_example))) ∧
  (Task 3 (Plain Ret) None ∈ reads documented_example →
   Task 3 (Plain Ret) None ∈ reads (sandbox_clear 0 None documented_example)).
Proof.
  assert (3 ∉ task_ref <$> (sb_reads (box 0 documented_example) ++
                            sb_writes (box 0 documented_example))) as Hn.
  { vm_compute. intros Hin.
    repeat (apply elem_of_cons in Hin as [Hin|Hin]; [discriminate|]).
    by apply elem_of_nil in Hin. }
  destruct (sandbox_clear_spares_the_rest 0 documented_example
              (Task 3 (Plain Ret) None) Hn) as (H & _).
  split; [exact Hn|exact H].
Defined.

(** ** Flushing *)

(** X10: without [catch], [_flushList] still empties its array, and then
    throws on to its caller the latest failure whose value is truthy, as an
    [Error] object is; the other failures of the batch reach nobody, and
    when every value thrown is falsy the call returns. *)
Theorem flushList_throws_the_latest_failure k s :
  catch s = false →
  tasks k (_flushList k s).1 = [] ∧
  handled (_flushList k s).1 = handled s ∧
  reported (_flushList k s).1 = reported s ∧
  ∃ ext, log (_flushList k s).1 = log s ++ ext ∧
    (_flushList k s).2 =
      from_option Threw Normal (last (truthy_failures ext)) ∧
    (truthy_failures ext = [] → (_flushList k s).2 = Normal).
Proof.
  intros Hc. destruct (flushList_spec k s) as (Hq & _ & Hr & ext & L & _ & S).
  rewrite Hc in S. destruct S as [Hh Ho].
  split_and!; [done..|]. exists ext. split_and!; [done..|].
  intros E. by rewrite Ho, E.
Qed.

Lemma flushList_throws_the_latest_failure_witness :
  catch (two_failures false) = false ∧
  tasks Reads (_flushList Reads (two_failures false)).1 = [] ∧
  failures (log (_flushList Reads (two_failures false)).1) =
    [UserError 1; UserError 2] ∧
  (_flushList Reads (two_failures false)).2 = Threw (UserError 2).
Proof.
  destruct (flushList_throws_the_latest_failure Reads (two_failures false)
              eq_refl) as (H & _).
  split_and!; [reflexivity|exact H|by vm_compute|by vm_compute].
Defined.

(** X11: no task is left behind by a flush that returns.  With [catch]
    set [_flush] always returns; when it returns, the array of writes is
    empty, and if reads wait, submitted by the writes that ran, a flush is
    due at the host for them. *)
Theorem flush_leaves_no_task_behind s :
  (catch s = true → (_flush s).2 = Normal) ∧
  ((_flush s).2 = Normal →
   writes (_flush s).1 = [] ∧
   (reads (_flush s).1 ≠ [] → Flush ∈ rafq (_flush s).1)).
Proof.
  unfold _flush, _flushReads.
  destruct (flushList_spec Reads s) as (Hq & Hc & _ & ext & _ & _ & S).
  destruct (flushList_flags Reads s) as [F1 F2].
  destruct (_flushList Reads s) as [s1 o1]. cbn [fst snd] in *.
  assert (catch s = true → o1 = Normal) as Ho1
    by (intros E; rewrite E in S; by destruct S).
  destruct o1 as [|e1]; [|split; [by intros ?%Ho1|done]].
  set (s1' := set_scheduledRead false s1).
  assert (flush_due s1') as Hdue.
  { cbn in Hq. split_and!; cbn; [by rewrite F1|done|by rewrite Hq]. }
  destruct (flushList_spec Writes s1') as (Hq2 & Hc2 & _ & ext2 & _ & _ & S2).
  pose proof (flush_due_steps _ _ _ (flushList_steps Writes s1') Hdue)
    as (_ & _ & Hdue2).
  destruct (_flushList Writes s1') as [s2 o2]. cbn [fst snd] in *.
  assert (catch s = true → o2 = Normal) as Ho2.
  { intros E. change (catch s1') with (catch s1) in S2.
    rewrite Hc, E in S2. by destruct S2. }
  destruct o2 as [|e2]; [|split; [by intros ?%Ho2|done]].
  split; [done|]. intros _. cbn. split; [done|]. exact Hdue2.
Qed.

Lemma flush_leaves_no_task_behind_witness :
  catch (two_failures true) = true ∧
  (_flush (two_failures true)).2 = Normal ∧
  writes (_flush (two_failures true)).1 = [].
Proof.
  destruct (flush_leaves_no_task_behind (two_failures true)) as [H1 H2].
  destruct (H2 (H1 eq_refl)) as [H3 _].
  split_and!; [reflexivity|exact (H1 eq_refl)|exact H3].
Defined.

(** ** Cancelling a task *)

(** X12: a cleared task is never called.  In a scheduler that started
    fresh, once [clear(task)] has returned for a task of this scheduler,
    whatever user code, sandboxes, timers and frames do afterwards adds no
    call of that task to the log. *)
Theorem cleared_task_is_never_called h s t s' :
  host_run (new h) s → task_ref t < next_ref s →
  host_run (clear (Some t) s) s' →
  ∃ ext, log s' = log s ++ ext ∧ EvCall (task_ref t) ∉ ext.
Proof.
  intros Hs Hlt Hs'.
  pose proof (host_run_tidy _ _ Hs (tidy_new h)) as Ht.
  pose proof (clear_ref_absent (task_ref t) s Ht Hlt) as Ha.
  destruct (absent_hsteps _ _ _ (host_run_hsteps _ _ Hs') Ha)
    as (_ & ext & E & Hc).
  destruct (step_calls Reads _ _ (step_clear Reads (task_ref t) s))
    as (e0 & E0 & Hc0).
  exists (e0 ++ ext). split; [by rewrite E; cbn [clear]; rewrite E0, app_assoc|].
  rewrite elem_of_app. intros [Hin|Hin]; [|done].
  assert (EvCall (task_ref t) ∉ e0); [|done].
  clear -E0. unfold clear_ref in E0.
  destruct (indexOf (task_ref t) (reads s)) as [i|];
    [|destruct (indexOf (task_ref t) (writes s)) as [i|]]; cbn in E0.
  - apply app_inv_head in E0 as <-. by intros ?%list_elem_of_singleton.
  - apply app_inv_head in E0 as <-. by intros ?%list_elem_of_singleton.
  - rewrite <- (app_nil_r (log s)) in E0 at 1.
    apply app_inv_head in E0 as <-. by intros ?%elem_of_nil.
Qed.

Lemma cleared_task_is_never_called_witness :
  host_run (new false) (report (exec (CallRead Ret None Ret) (new false))) ∧
  ∃ ext,
    log (timeout (clear (Some (Task 1 (Plain Ret) None))
                    (report (exec (CallRead Ret None Ret) (new false))))) =
    log (report (exec (CallRead Ret None Ret) (new false))) ++ ext ∧
    EvCall 1 ∉ ext.
Proof.
  assert (host_run (new false)
            (report (exec (CallRead Ret None Ret) (new false)))) as Hr
    by (apply (host_turn (CallRead Ret None Ret)), host_stay).
  split; [exact Hr|].
  apply (cleared_task_is_never_called false _ (Task 1 (Plain Ret) None) _ Hr).
  - vm_compute. reflexivity.
  - apply host_timeout, host_stay.
Defined.

(** ** The closure of a sandboxed task *)

(** X13: [reads.splice(reads.indexOf(task))] has no second argument, so
    when a sandboxed read is called the sandbox forgets that task and every
    read recorded after it, whether it has run or not; and for a task that
    is no longer recorded, [indexOf] is -1 and the last record goes. *)
Theorem sandboxed_read_forgets_later_reads b fn ctx t s :
  task_fn t = ReadWrapper b fn ctx → (b < length (boxes s))%nat →
  sb_writes (box b (call_task t s).1) = sb_writes (box b s) ∧
  (∀ pre post, sb_reads (box b s) = pre ++ t :: post →
     task_ref t ∉ task_ref <$> pre →
     sb_reads (box b (call_task t s).1) = pre) ∧
  (task_ref t ∉ task_ref <$> sb_reads (box b s) →
   sb_reads (box b (call_task t s).1) =
     take (length (sb_reads (box b s)) - 1) (sb_reads (box b s))).
Proof.
  intros Hfn Hb.
  assert (box b (call_task t s).1 =
          Sandbox (splice_from (indexOf (task_ref t) (sb_reads (box b s)))
                     (sb_reads (box b s)))
                  (sb_writes (box b s))) as E.
  { unfold call_task, body. rewrite Hfn.
    match goal with |- context [exec fn ?x] =>
      pose proof (exec_boxes fn x) as Hx; destruct (exec fn x) as [s1 o] end.
    cbn [fst] in Hx.
    assert (box b s1 = box b (set_box b
              (Sandbox (splice_from (indexOf (task_ref t) (sb_reads (box b s)))
                          (sb_reads (box b s))) (sb_writes (box b s)))
              (emit (EvCall (task_ref t)) s))) as E1 by (by apply box_ext).
    rewrite box_set_box in E1 by done.
    by destruct o. }
  rewrite E. cbn. split_and!; [done| |].
  - intros pre post -> Hn. rewrite indexOf_middle by done. cbn.
    by rewrite take_app_length.
  - intros Hn.
    destruct (indexOf (task_ref t) (sb_reads (box b s))) as [i|] eqn:Ei;
      [|done].
    apply indexOf_lookup in Ei as (u & Hu & Href). destruct Hn.
    apply list_elem_of_fmap. exists u. split; [done|].
    by eapply list_elem_of_lookup_2.
Qed.

Lemma sandboxed_read_forgets_later_reads_witness :
  (0 < length (boxes documented_example))%nat ∧
  sb_reads (box 0 (call_task (Task 1 (ReadWrapper 0 Ret None) None)
                     documented_example).1) = [].
Proof.
  destruct (sandboxed_read_forgets_later_reads 0 Ret None
              (Task 1 (ReadWrapper 0 Ret None) None) documented_example
              eq_refl) as (_ & H & _).
  - vm_compute. lia.
  - split; [vm_compute; lia|].
    apply (H [] [Task 2 (ReadWrapper 0 Ret None) None]).
    + reflexivity.
    + by intros ?%elem_of_nil.
Defined.

(** ** The order of the calls *)

Lemma fifo_step k l0 s s' :
  step k s s' →
  (∃ ext, log s = l0 ++ ext ∧
     StronglySorted Z.lt (calls ext ++ refs k s) ∧
     ∀ r, r ∈ calls ext ++ refs k s → r < next_ref s) →
  ∃ ext, log s' = l0 ++ ext ∧
    StronglySorted Z.lt (calls ext ++ refs k s') ∧
    ∀ r, r ∈ calls ext ++ refs k s' → r < next_ref s'.
Proof.
  intros Hst (ext & L & Hs & Hb).
  destruct (step_refs _ _ _ Hst) as [Hn _].
  destruct (step_shape _ _ _ Hst) as [H1 [(t & rest & Hq & Hq' & L')|
                                          (e & L' & Hc)]].
  - exists (ext ++ [EvCall (task_ref t)]).
    assert (calls (ext ++ [EvCall (task_ref t)]) ++ refs k s' =
            calls ext ++ refs k s) as E.
    { unfold refs. rewrite calls_of_app, Hq, Hq', <- app_assoc. done. }
    rewrite E. split_and!; [by rewrite L', L, app_assoc|done|].
    intros r Hr%Hb. lia.
  - exists (ext ++ e). rewrite calls_of_app, Hc, app_nil_r.
    split; [by rewrite L', L, app_assoc|].
    destruct H1 as [(k0 & fn & ctx & E & En & Eo)|[En Hsub]].
    + destruct (decide (k = k0)) as [->|Hne].
      * unfold refs in *. rewrite E, fmap_app, app_assoc. cbn. split.
        -- apply StronglySorted_app_2; [|done|repeat constructor].
           intros a c Ha ->%list_elem_of_singleton. by apply Hb.
        -- intros r [Hr| ->%list_elem_of_singleton]%elem_of_app; [|lia].
           apply Hb in Hr. lia.
      * unfold refs in *. rewrite Eo by done. split; [done|].
        intros r Hr%Hb. lia.
    + assert (calls ext ++ refs k s' `sublist_of` calls ext ++ refs k s)
        as Hsl by (apply sublist_app; [done|by apply refs_sublist]).
      split.
      * by eapply FastDomMore.StronglySorted_sublist.
      * intros r Hr. eapply elem_of_sublist in Hr; [|done].
        apply Hb in Hr. lia.
Qed.

Lemma fifo_steps k l0 s s' :
  rtc (step k) s s' →
  (∃ ext, log s = l0 ++ ext ∧
     StronglySorted Z.lt (calls ext ++ refs k s) ∧
     ∀ r, r ∈ calls ext ++ refs k s → r < next_ref s) →
  ∃ ext, log s' = l0 ++ ext ∧
    StronglySorted Z.lt (calls ext ++ refs k s') ∧
    ∀ r, r ∈ calls ext ++ refs k s' → r < next_ref s'.
Proof. induction 1; eauto using fifo_step. Qed.

(** X14: first in, first out.  In a scheduler that started fresh,
    [_flushList] calls the tasks of its array in the order of their
    allocation, which is the order of their submission, those submitted
    meanwhile included; and it calls every task that was waiting, unless
    the task is cleared first. *)
Theorem flushList_calls_in_submission_order h k s :
  host_run (new h) s →
  ∃ ext, log (_flushList k s).1 = log s ++ ext ∧
    StronglySorted Z.lt (calls ext) ∧
    ∀ t, t ∈ tasks k s →
      EvCall (task_ref t) ∈ ext ∨ EvClear (task_ref t) ∈ ext.
Proof.
  intros Hs. pose proof (host_run_tidy _ _ Hs (tidy_new h)) as Ht.
  destruct (fifo_steps k (log s) s _ (flushList_steps k s))
    as (ext & L & Hsort & _).
  { exists []. rewrite app_nil_r. cbn. destruct Ht as (Hr & Hw & _ & Hb).
    split_and!; [done|by destruct k|apply Hb]. }
  exists ext. split_and!; [done|by apply StronglySorted_app_1_l in Hsort|].
  intros t Hin. destruct (flushList_runs_all k s t Hin) as (ext' & L' & H).
  rewrite L in L'. by apply app_inv_head in L' as <-.
Qed.

Lemma flushList_calls_in_submission_order_witness :
  host_run (new false)
    (report (exec (CallRead Ret None (CallRead Ret None Ret)) (new false))) ∧
  ∃ ext,
    log (_flushList Reads
           (report (exec (CallRead Ret None (CallRead Ret None Ret))
                      (new false)))).1 =
    log (report (exec (CallRead Ret None (CallRead Ret None Ret))
                   (new false))) ++ ext ∧
    StronglySorted Z.lt (calls ext).
Proof.
  assert (host_run (new false)
            (report (exec (CallRead Ret None (CallRead Ret None Ret))
                       (new false)))) as Hr
    by (apply (host_turn (CallRead Ret None (CallRead Ret None Ret))),
        host_stay).
  split; [exact Hr|].
  destruct (flushList_calls_in_submission_order false Reads _ Hr)
    as (ext & H1 & H2 & _).
  exists ext. split; [exact H1|exact H2].
Defined.

(** X15: reads before writes.  When [_flush] runs in a scheduler that
    started fresh, every task waiting in [reads] is called, unless cleared,
    before any task waiting in [writes] is; the waiting writes are called
    afterwards, unless cleared, provided [_flush] returns. *)
Theorem flush_runs_reads_before_writes h s :
  host_run (new h) s →
  ∃ ext1 ext2,
    log (_flushReads s).1 = log s ++ ext1 ∧
    log (_flush s).1 = log s ++ ext1 ++ ext2 ∧
    (∀ t, t ∈ reads s →
       EvCall (task_ref t) ∈ ext1 ∨ EvClear (task_ref t) ∈ ext1) ∧
    (∀ u, u ∈ writes s → EvCall (task_ref u) ∉ ext1) ∧
    ((_flush s).2 = Normal →
     ∀ u, u ∈ writes s →
       EvCall (task_ref u) ∈ ext2 ∨ EvClear (task_ref u) ∈ ext1 ++ ext2).
Proof.
  intros Hs. pose proof (host_run_tidy _ _ Hs (tidy_new h)) as Ht.
  destruct Ht as (_ & _ & Hd & Hb).
  pose proof (flushReads_steps s) as Hsteps.
  destruct (flushList_spec Reads s) as (Hq & _ & _ & ext1 & L1 & K1 & _).
  assert (log (_flushReads s).1 = log s ++ ext1) as L1'.
  { unfold _flushReads. by destruct (_flushList Reads s) as [s1 [|e]]. }
  assert (∀ k, tasks k (_flushReads s).1 = tasks k (_flushList Reads s).1)
    as Hsame.
  { intros k. unfold _flushReads.
    by destruct (_flushList Reads s) as [s1 [|e]], k. }
  assert (∀ u, u ∈ writes s → EvCall (task_ref u) ∉ ext1) as Hnot.
  { intros u Hu.
    assert (task_ref u ∈ refs Writes s) as Hr
      by (by apply list_elem_of_fmap_2).
    destruct (away_steps Reads (task_ref u) _ _ Hsteps)
      as (_ & e & E & Hc); [by apply (Hb Writes)| |].
    - intros Hr'. by apply (Hd _ Hr').
    - rewrite L1' in E. by apply app_inv_head in E as <-. }
  assert (∀ t, t ∈ reads s →
            EvCall (task_ref t) ∈ ext1 ∨ EvClear (task_ref t) ∈ ext1) as Hall.
  { intros t Hin. destruct (K1 Reads t Hin) as [Hin'|?]; [|done].
    rewrite Hq in Hin'. by apply elem_of_nil in Hin'. }
  unfold _flush.
  destruct (_flushReads s) as [s1 [|e1]] eqn:Er; cbn [fst snd] in *.
  - destruct (flushList_spec Writes s1) as (Hq2 & _ & _ & ext2 & L2 & K2 & _).
    exists ext1, ext2.
    assert (log (match _flushList Writes s1 with
                 | (s2, Normal) => (set_scheduled false s2, Normal)
                 | (s2, Threw e) => (s2, Threw e)
                 end).1 = log s ++ ext1 ++ ext2) as L.
    { rewrite app_assoc, <- L1', <- L2.
      by destruct (_flushList Writes s1) as [s2 [|e2]]. }
    split_and!; [done|done|done|done|].
    intros _ u Hu.
    destruct (K1 Writes u Hu) as [Hin|[Hc|Hc]].
    + rewrite <- Hsame in Hin.
      destruct (K2 Writes u Hin) as [Hin'|[?|?]].
      * rewrite Hq2 in Hin'. by apply elem_of_nil in Hin'.
      * by left.
      * right. apply elem_of_app. by right.
    + by apply Hnot in Hc.
    + right. apply elem_of_app. by left.
  - exists ext1, []. rewrite app_nil_r. by split_and!.
Qed.

Lemma flush_runs_reads_before_writes_witness :
  host_run (new false)
    (report (exec (CallWrite Ret None (CallRead Ret None Ret)) (new false))) ∧
  ∃ ext1,
    log (_flushReads (report (exec (CallWrite Ret None (CallRead Ret None Ret))
                                (new false)))).1 =
    log (report (exec (CallWrite Ret None (CallRead Ret None Ret))
                   (new false))) ++ ext1 ∧
    EvCall 1 ∉ ext1.
Proof.
  assert (host_run (new false)
            (report (exec (CallWrite Ret None (CallRead Ret None Ret))
                       (new false)))) as Hr
    by (apply (host_turn (CallWrite Ret None (CallRead Ret None Ret))),
        host_stay).
  split; [exact Hr|].
  destruct (flush_runs_reads_before_writes false _ Hr)
    as (ext1 & ext2 & H1 & _ & _ & H2 & _).
  exists ext1. split; [exact H1|].
  apply (H2 (Task 1 (Plain Ret) None)). vm_compute. left.
Defined.

(** ** A flush that fails *)

(** X21: a failing read costs the frame its writes.  When [_flushReads]
    throws, which it does only without [catch] and with a truthy value,
    [_flush] ends there: in a scheduler that started fresh no write that
    was waiting is called, every one of them is still in [writes] unless a
    read cleared it, and both flags are down, so that the next flush is the
    one a later submission asks for. *)
Theorem failing_read_skips_the_writes h s e :
  host_run (new h) s → (_flushReads s).2 = Threw e →
  _flush s = _flushReads s ∧ catch s = false ∧ truthy e = true ∧
  reads (_flush s).1 = [] ∧
  scheduled (_flush s).1 = false ∧ scheduledRead (_flush s).1 = false ∧
  ∃ ext, log (_flush s).1 = log s ++ ext ∧
    ∀ u, u ∈ writes s →
      (EvCall (task_ref u) ∉ ext) ∧
      (u ∈ writes (_flush s).1 ∨ EvClear (task_ref u) ∈ ext).
Proof.
  intros Hs He. pose proof (host_run_tidy _ _ Hs (tidy_new h)) as Ht.
  destruct Ht as (_ & _ & Hd & Hb).
  pose proof (flushReads_steps s) as Hsteps.
  assert (_flush s = _flushReads s) as Ef.
  { unfold _flush. by destruct (_flushReads s) as [s1 [|e1]]. }
  rewrite Ef.
  assert (_flushReads s = _flushList Reads s) as Er.
  { unfold _flushReads in *. by destruct (_flushList Reads s) as [s1 [|e1]]. }
  rewrite Er in *.
  destruct (flushList_spec Reads s) as (Hq & _ & _ & ext & L & K & S).
  destruct (flushList_flags Reads s) as [F1 F2].
  assert (catch s = false ∧ truthy e = true) as [Hc Htr].
  { destruct (catch s); [destruct S as [S _]; congruence|].
    destruct S as [_ S]. rewrite He in S. split; [done|].
    destruct (last (truthy_failures ext)) as [x|] eqn:El; [|done].
    cbn in S. injection S as ->.
    apply last_Some_elem_of in El. unfold truthy_failures in El.
    by apply list_elem_of_filter in El as [? _]. }
  split_and!; [done..|]. exists ext. split; [done|]. intros u Hu. split.
  - assert (task_ref u ∈ refs Writes s) as Hr
      by (by apply list_elem_of_fmap_2).
    destruct (away_steps Reads (task_ref u) _ _ Hsteps)
      as (_ & e' & E & Hnc); [by apply (Hb Writes)| |].
    + intros Hr'. by apply (Hd _ Hr').
    + rewrite L in E. by apply app_inv_head in E as <-.
  - destruct (K Writes u Hu) as [?|[Hcall|?]]; [by left| |by right].
    exfalso.
    assert (task_ref u ∈ refs Writes s) as Hr
      by (by apply list_elem_of_fmap_2).
    destruct (away_steps Reads (task_ref u) _ _ Hsteps)
      as (_ & e' & E & Hnc); [by apply (Hb Writes)| |].
    + intros Hr'. by apply (Hd _ Hr').
    + rewrite L in E. by apply app_inv_head in E as <-.
Qed.

Lemma failing_read_skips_the_writes_witness :
  host_run (new false) (two_failures false) ∧
  (_flushReads (two_failures false)).2 = Threw (UserError 2) ∧
  _flush (two_failures false) = _flushReads (two_failures false) ∧
  task_ref <$> writes (_flush (two_failures false)).1 = [4].
Proof.
  assert (host_run (new false) (two_failures false)) as Hr.
  { apply (host_turn (CallRead (Throw 1) None (CallRead (Throw 2) None
             (CallRead Ret None (CallWrite Ret None Ret))))).
    assert (report (exec (CallRead (Throw 1) None (CallRead (Throw 2) None
                            (CallRead Ret None (CallWrite Ret None Ret))))
                      (new false)) = two_failures false) as ->
      by (vm_compute; reflexivity).
    apply host_stay. }
  assert ((_flushReads (two_failures false)).2 = Threw (UserError 2)) as He
    by (vm_compute; reflexivity).
  destruct (failing_read_skips_the_writes false (two_failures false)
              (UserError 2) Hr He) as (H & _).
  split_and!; [exact Hr|exact He|exact H|by vm_compute].
Defined.

End SandboxedMore.

Module DomBatchFacts.
Import DomBatch.

#[local] Set Warnings "-clear-no-such-hyp".

(** ** The loop of [run] ends *)

Lemma batch_request_fields k s :
  reads (request k s) = reads s ∧ writes (request k s) = writes s ∧
  mode (request k s) = mode s ∧
  log (request k s) = log s ∧ reported (request k s) = reported s.
Proof.
  unfold request. destruct s as [r w m p q rep l]; cbn.
  by destruct m as [[]|], k, p.
Qed.

Lemma batch_read_fields f s :
  reads (read f s) = reads s ++ [f] ∧ writes (read f s) = writes s ∧
  mode (read f s) = mode s ∧
  log (read f s) = log s ∧ reported (read f s) = reported s.
Proof.
  unfold read.
  by destruct (batch_request_fields Reads (set_reads (reads s ++ [f]) s))
    as (-> & -> & -> & -> & ->).
Qed.

Lemma batch_write_fields f s :
  reads (write f s) = reads s ∧ writes (write f s) = writes s ++ [f] ∧
  mode (write f s) = mode s ∧
  log (write f s) = log s ∧ reported (write f s) = reported s.
Proof.
  unfold write.
  by destruct (batch_request_fields Writes (set_writes (writes s ++ [f]) s))
    as (-> & -> & -> & -> & ->).
Qed.

Lemma remove_weight r l :
  (sum_list_with (λ f, S (cost (fn_body f))) (remove r l) ≤
   sum_list_with (λ f, S (cost (fn_body f))) l)%nat.
Proof.
  induction l as [|x l IH]; cbn; [done|].
  destruct (decide (fn_ref x = r)); cbn; lia.
Qed.

Lemma batch_weight_exec c : ∀ s, (weight (exec c s).1 ≤ weight s + cost c)%nat.
Proof.
  induction c as [|e|r fn IHfn c IHc|r fn IHfn c IHc|r c IHc|r c IHc];
    intros s; cbn [exec cost fst]; try lia.
  - etrans; [apply IHc|].
    destruct (batch_read_fields (Fn r fn) s) as (Hr & Hw & _).
    unfold weight at 1. rewrite Hr, Hw, sum_list_with_app.
    unfold weight. cbn. lia.
  - etrans; [apply IHc|].
    destruct (batch_write_fields (Fn r fn) s) as (Hr & Hw & _).
    unfold weight at 1. rewrite Hr, Hw, sum_list_with_app.
    unfold weight. cbn. lia.
  - etrans; [apply IHc|]. unfold weight. cbn.
    pose proof (remove_weight r (reads s)). lia.
  - etrans; [apply IHc|]. unfold weight. cbn.
    pose proof (remove_weight r (writes s)). lia.
Qed.

(** Shifting the first job off the array and calling it makes the weight
    drop. *)
Lemma batch_pop_weight k f rest s :
  jobs k s = f :: rest → (weight (call_job k f rest s).1 < weight s)%nat.
Proof.
  intros Hq. unfold call_job.
  match goal with |- context [exec ?c ?x] =>
    pose proof (batch_weight_exec c x) as H end.
  destruct k; unfold weight in *; cbn in *; rewrite Hq in *; cbn; lia.
Qed.

Lemma batch_run_loop_enough k : ∀ fuel s,
  (weight s < fuel)%nat →
  ∃ r, ∀ fuel', (weight s < fuel')%nat → run_loop fuel' k s = Some r.
Proof.
  induction fuel as [|fuel IH]; intros s Hlt; [lia|].
  destruct (jobs k s) as [|f rest] eqn:Hq.
  { exists (s, Normal). intros [|n] ?; [lia|]. cbn. by rewrite Hq. }
  pose proof (batch_pop_weight k f rest s Hq) as Hw.
  destruct (call_job k f rest s) as [s1 [|e]] eqn:Hc.
  - destruct (IH s1) as [r Hr]; [cbn in Hw; lia|].
    exists r. intros [|n] ?; [lia|]. cbn. rewrite Hq, Hc.
    apply Hr. cbn in Hw. lia.
  - exists (s1, Threw e). intros [|n] ?; [lia|]. cbn. by rewrite Hq, Hc.
Qed.

Lemma batch_run_loop_run k s fuel :
  (weight s < fuel)%nat → run_loop fuel k s = Some (run k s).
Proof.
  intros Hlt. destruct (batch_run_loop_enough k fuel s Hlt) as [r Hr].
  unfold run. rewrite (Hr (S (weight s))) by lia. by apply Hr.
Qed.

(** The loop of [run], as the source writes it. *)
Lemma run_eq k s :
  run k s =
  match jobs k s with
  | [] => (s, Normal)
  | f :: rest =>
      match call_job k f rest s with
      | (s1, Normal) => run k s1
      | (s1, Threw e) => (s1, Threw e)
      end
  end.
Proof.
  pose proof (batch_run_loop_run k s (S (weight s))) as H.
  cbn [run_loop] in H. specialize (H ltac:(lia)).
  destruct (jobs k s) as [|f rest] eqn:Hq; [congruence|].
  pose proof (batch_pop_weight k f rest s Hq) as Hw.
  destruct (call_job k f rest s) as [s1 [|e]]; [|congruence].
  cbn in Hw. rewrite batch_run_loop_run in H by lia. congruence.
Qed.

(** Induction along the iterations of [run]. *)
Lemma run_ind k (P : state → state * outcome → Prop) :
  (∀ s, jobs k s = [] → P s (s, Normal)) →
  (∀ s f rest s1 e, jobs k s = f :: rest →
     call_job k f rest s = (s1, Threw e) → P s (s1, Threw e)) →
  (∀ s f rest s1, jobs k s = f :: rest →
     call_job k f rest s = (s1, Normal) →
     P s1 (run k s1) → P s (run k s1)) →
  ∀ s, P s (run k s).
Proof.
  intros Hnil Hthrow Hstep s.
  remember (weight s) as n eqn:Hn. revert s Hn.
  induction n as [n IH] using lt_wf_ind. intros s ->.
  destruct (jobs k s) as [|f rest] eqn:Hq.
  { rewrite run_eq, Hq. by apply Hnil. }
  pose proof (batch_pop_weight k f rest s Hq) as Hw.
  destruct (call_job k f rest s) as [s1 [|e]] eqn:Hc.
  - rewrite run_eq, Hq, Hc. apply (Hstep s f rest s1 Hq Hc).
    by apply (IH (weight s1)).
  - rewrite run_eq, Hq, Hc. by apply (Hthrow s f rest).
Qed.

(** ** Callbacks and [run] as sequences of transitions *)

Lemma batch_exec_steps k c : ∀ s, rtc (step k) s (exec c s).1.
Proof.
  induction c as [|e|r fn IHfn c IHc|r fn IHfn c IHc|r c IHc|r c IHc];
    intros s; cbn [exec fst]; try done.
  - eapply rtc_l; [apply step_read|apply IHc].
  - eapply rtc_l; [apply step_write|apply IHc].
  - eapply rtc_l; [apply step_clearRead|apply IHc].
  - eapply rtc_l; [apply step_clearWrite|apply IHc].
Qed.

Lemma call_job_steps k f rest s :
  jobs k s = f :: rest → rtc (step k) s (call_job k f rest s).1.
Proof.
  intros Hq. unfold call_job.
  eapply rtc_l; [by apply (step_call k f rest)|].
  replace (mode (set_jobs k rest s)) with (mode s) by (by destruct k).
  apply batch_exec_steps.
Qed.

Lemma batch_run_steps k s : rtc (step k) s (run k s).1.
Proof.
  apply (run_ind k (λ s r, rtc (step k) s r.1)); clear s.
  - done.
  - intros s f rest s1 e Hq Hc.
    pose proof (call_job_steps k f rest s Hq) as H. by rewrite Hc in H.
  - intros s f rest s1 Hq Hc IH.
    pose proof (call_job_steps k f rest s Hq) as H. rewrite Hc in H.
    by etrans.
Qed.

(** When [run] returns its array is empty. *)
Lemma run_empties k s : (run k s).2 = Normal → jobs k (run k s).1 = [].
Proof.
  apply (run_ind k (λ s r, r.2 = Normal → jobs k r.1 = [])); clear s; done.
Qed.

(** ** What a phase adds to the log *)

Lemma batch_grows_refl k s : grows k s s [].
Proof.
  constructor; auto; [by rewrite app_nil_r|by intros ? ?%elem_of_nil].
Qed.

Lemma batch_grows_trans k s1 s2 s3 e1 e2 :
  grows k s1 s2 e1 → grows k s2 s3 e2 → grows k s1 s3 (e1 ++ e2).
Proof.
  intros [L1 M1 R1 C1 K1 O1] [L2 M2 R2 C2 K2 O2]. constructor.
  - by rewrite L2, L1, app_assoc.
  - congruence.
  - congruence.
  - intros e [?|He]%elem_of_app; [auto|]. rewrite <- M1. auto.
  - intros f Hf. rewrite !elem_of_app.
    destruct (K1 f Hf) as [Hf2|[?|?]]; [|auto..].
    destruct (K2 f Hf2) as [?|[?|?]]; [auto| |auto]. rewrite <- M1. auto.
  - intros k' f Hk Hf. rewrite elem_of_app.
    destruct (O1 k' f Hk Hf) as [Hf2|?]; [|auto].
    destruct (O2 k' f Hk Hf2) as [?|?]; auto.
Qed.

Lemma elem_of_remove r f l : f ∈ l → f ∈ remove r l ∨ fn_ref f = r.
Proof.
  induction l as [|x l IH]; cbn; [by intros ?%elem_of_nil|].
  intros [->|Hin]%elem_of_cons.
  - destruct (decide (fn_ref x = r)); [by right|left; left].
  - destruct (decide (fn_ref x = r)); [by left|].
    destruct (IH Hin) as [?|?]; [left; by right|by right].
Qed.

Lemma grows_clear k k0 r s :
  grows k s (emit (EvClear r k0) (set_jobs k0 (remove r (jobs k0 s)) s))
        [EvClear r k0].
Proof.
  constructor; try (by destruct k0).
  - intros e ->%list_elem_of_singleton. right. eauto.
  - intros f Hf. destruct (decide (k0 = k)) as [->|Hne].
    + destruct (elem_of_remove r f _ Hf) as [?|<-].
      * left. by destruct k.
      * right. right. apply list_elem_of_singleton. done.
    + left. by destruct k, k0.
  - intros k' f Hk Hf. destruct (decide (k0 = k')) as [->|Hne].
    + destruct (elem_of_remove r f _ Hf) as [?|<-].
      * left. by destruct k'.
      * right. by apply list_elem_of_singleton.
    + left. by destruct k', k0.
Qed.

Lemma grows_step k s s' : step k s s' → ∃ ext, grows k s s' ext.
Proof.
  intros [f s0|f s0|r s0|r s0|f rest s0 Hq].
  - destruct (batch_read_fields f s0) as (Hr & Hw & Hm & Hl & Hrep).
    exists []. constructor; try done; [by rewrite app_nil_r| | |].
    + by intros ? ?%elem_of_nil.
    + intros g Hg. left. destruct k; cbn in *; rewrite ?Hr, ?Hw; [|done].
      apply elem_of_app. by left.
    + intros k' g _ Hg. left. destruct k'; cbn in *; rewrite ?Hr, ?Hw; [|done].
      apply elem_of_app. by left.
  - destruct (batch_write_fields f s0) as (Hr & Hw & Hm & Hl & Hrep).
    exists []. constructor; try done; [by rewrite app_nil_r| | |].
    + by intros ? ?%elem_of_nil.
    + intros g Hg. left. destruct k; cbn in *; rewrite ?Hr, ?Hw; [done|].
      apply elem_of_app. by left.
    + intros k' g _ Hg. left. destruct k'; cbn in *; rewrite ?Hr, ?Hw; [done|].
      apply elem_of_app. by left.
  - exists [EvClear r Reads]. apply (grows_clear k Reads).
  - exists [EvClear r Writes]. apply (grows_clear k Writes).
  - exists [EvCall (fn_ref f) k (mode s0)].
    constructor; try (by destruct k).
    + intros e ->%list_elem_of_singleton. eauto.
    + intros g Hg. rewrite Hq in Hg.
      apply elem_of_cons in Hg as [->|Hg]; [right; left; left|left].
      by destruct k.
    + intros k' g Hk Hg. left. by destruct k, k'.
Qed.

Lemma grows_steps k s s' : rtc (step k) s s' → ∃ ext, grows k s s' ext.
Proof.
  induction 1 as [s|s s1 s2 H1 H2 (e2 & IH)]; [exists []; apply batch_grows_refl|].
  destruct (grows_step _ _ _ H1) as [e1 G1].
  exists (e1 ++ e2). by eapply batch_grows_trans.
Qed.

(** What [run] does to its array: every job that was in it is called, in
    the mode the instance is in, unless it is cancelled or a callback
    throws first. *)
Lemma batch_run_spec k s :
  ∃ ext, grows k s (run k s).1 ext ∧
    ((run k s).2 = Normal →
     jobs k (run k s).1 = [] ∧
     ∀ f, f ∈ jobs k s →
       EvCall (fn_ref f) k (mode s) ∈ ext ∨ EvClear (fn_ref f) k ∈ ext).
Proof.
  destruct (grows_steps _ _ _ (batch_run_steps k s)) as [ext G].
  exists ext. split; [done|]. intros Ho.
  pose proof (run_empties k s Ho) as He. split; [done|].
  intros f Hf. destruct (grows_kept _ _ _ _ G f Hf) as [Hin|?]; [|done].
  rewrite He in Hin. by apply elem_of_nil in Hin.
Qed.

(** ** Requests for a frame *)

Lemma batch_sched_request k s : sched s → sched (request k s).
Proof.
  unfold sched, request. destruct s as [r w m p q rep l]; cbn.
  destruct m as [[]|], k, p; cbn; try done; by intros ->.
Qed.

Lemma batch_sched_step k s s' : step k s s' → sched s → sched s'.
Proof.
  intros [f s0|f s0|r s0|r s0|f rest s0 Hq] Hs; [| |done|done|by destruct k].
  - by apply (batch_sched_request Reads (set_reads (reads s0 ++ [f]) s0)).
  - by apply (batch_sched_request Writes (set_writes (writes s0 ++ [f]) s0)).
Qed.

Lemma batch_sched_steps k s s' : rtc (step k) s s' → sched s → sched s'.
Proof. induction 1; eauto using batch_sched_step. Qed.

Lemma armed_request_read f s : armed (read f s).
Proof.
  unfold armed, read, request. destruct s as [r w m p q rep l]; cbn.
  destruct m as [[]|], p; cbn; done.
Qed.

Lemma armed_write f s : armed s → armed (write f s).
Proof.
  unfold armed, write, request. destruct s as [r w m p q rep l]; cbn.
  destruct m as [[]|], p; cbn; done.
Qed.

Lemma remove_nil r l : remove r l ≠ [] → l ≠ [].
Proof. by destruct l. Qed.

Lemma armed_clearRead r s : armed s → armed (clearRead r s).
Proof.
  unfold armed, clearRead. destruct s as [rs w m p q rep l].
  cbn. destruct m as [[]|]; [done|..].
  - intros Ha Hne%remove_nil. auto.
  - intros Ha [Hne%remove_nil|?]; auto.
Qed.

Lemma armed_clearWrite r s : armed s → armed (clearWrite r s).
Proof.
  unfold armed, clearWrite. destruct s as [rs w m p q rep l].
  cbn. destruct m as [[]|]; [done..|].
  intros Ha [?|Hne%remove_nil]; auto.
Qed.

Lemma batch_armed_step k s s' :
  step k s s' → mode s = Some (phase_of k) → armed s → armed s'.
Proof.
  intros [f s0|f s0|r s0|r s0|f rest s0 Hq] Hm Ha.
  - apply armed_request_read.
  - by apply armed_write.
  - by apply armed_clearRead.
  - by apply armed_clearWrite.
  - unfold armed in *. destruct k, s0 as [rs w m p q rep l];
      simplify_eq/=; [done|]. done.
Qed.

Lemma step_mode k s s' : step k s s' → mode s' = mode s.
Proof. intros (ext & G)%grows_step. apply G. Qed.

Lemma armed_steps k s s' :
  rtc (step k) s s' → mode s = Some (phase_of k) → armed s → armed s'.
Proof.
  induction 1 as [s|s s1 s2 H1 H2 IH]; [done|]. intros Hm Ha.
  apply IH; [by rewrite (step_mode _ _ _ H1)|by eapply batch_armed_step].
Qed.

(** [frame] keeps both invariants, however it ends. *)
Lemma frame_sched_armed s :
  rafq s = 0%nat → sched (frame s).1 ∧ armed (frame s).1.
Proof.
  intros Hq. unfold frame.
  set (s1 := set_mode (Some Reading) (set_pending false s)).
  assert (sched s1) as Hs1 by done.
  assert (armed s1) as Ha1 by done.
  pose proof (batch_run_steps Reads s1) as Hst1.
  pose proof (run_empties Reads s1) as He1.
  pose proof (batch_sched_steps _ _ _ Hst1 Hs1) as Hs2.
  pose proof (armed_steps _ _ _ Hst1 eq_refl Ha1) as Ha2.
  destruct (run Reads s1) as [s2 [|e]]; cbn [fst snd] in *; [|done].
  set (s2' := set_mode (Some Writing) s2).
  assert (sched s2') as Hs2' by done.
  assert (armed s2') as Ha2'.
  { specialize (He1 eq_refl). cbn in He1.
    unfold armed, s2'. cbn. intros Hne. by rewrite He1 in Hne. }
  pose proof (batch_run_steps Writes s2') as Hst2.
  pose proof (run_empties Writes s2') as He2.
  pose proof (batch_sched_steps _ _ _ Hst2 Hs2') as Hs3.
  pose proof (armed_steps _ _ _ Hst2 eq_refl Ha2') as Ha3.
  destruct (grows_steps _ _ _ Hst2) as [ext G].
  pose proof (grows_mode _ _ _ _ G) as Hm3.
  destruct (run Writes s2') as [s3 [|e]]; cbn [fst snd] in *; [|done].
  split; [done|]. unfold armed in *. cbn. rewrite Hm3 in Ha3. cbn in Ha3.
  specialize (He2 eq_refl). cbn in He2. rewrite He2. intros [?|?]; auto.
Qed.

Lemma armed_exec c : ∀ s, armed s → armed (exec c s).1.
Proof.
  induction c as [|e|r fn IHfn c IHc|r fn IHfn c IHc|r c IHc|r c IHc];
    intros s Ha; cbn [exec fst]; try done.
  - apply IHc, armed_request_read.
  - by apply IHc, armed_write.
  - by apply IHc, armed_clearRead.
  - by apply IHc, armed_clearWrite.
Qed.

Lemma batch_report_fields r :
  reads (report r) = reads r.1 ∧ writes (report r) = writes r.1 ∧
  mode (report r) = mode r.1 ∧ pending (report r) = pending r.1 ∧
  rafq (report r) = rafq r.1 ∧ log (report r) = log r.1.
Proof. by destruct r as [s [|e]]. Qed.

Lemma tick_idle s : rafq s = 0%nat → tick s = s.
Proof. intros H. unfold tick. rewrite H. cbn. destruct s; cbn in *; by subst. Qed.

Lemma tick_one s :
  rafq s = 1%nat → tick s = report (frame (set_rafq 0 s)).
Proof. intros H. unfold tick. by rewrite H. Qed.

Lemma host_run_invariant s s' :
  host_run s s' → sched s → armed s → sched s' ∧ armed s'.
Proof.
  induction 1 as [s|f s s' _ IH|f s s' _ IH|r s s' _ IH|r s s' _ IH
                  |c s s' _ IH|s s' _ IH]; intros Hs Ha; [done|..];
    apply IH.
  - by apply (batch_sched_request Reads (set_reads (reads s ++ [f]) s)).
  - apply armed_request_read.
  - by apply (batch_sched_request Writes (set_writes (writes s ++ [f]) s)).
  - by apply armed_write.
  - done.
  - by apply armed_clearRead.
  - done.
  - by apply armed_clearWrite.
  - unfold turn. destruct (batch_report_fields (exec c s)) as (_ & _ & _ & Hp & Hq & _).
    unfold sched. rewrite Hp, Hq.
    apply (batch_sched_steps Reads s); [apply batch_exec_steps|done].
  - unfold turn. pose proof (armed_exec c s Ha) as Ha'.
    destruct (batch_report_fields (exec c s)) as (Hr & Hw & Hm & Hp & _).
    unfold armed in *. by rewrite Hr, Hw, Hm, Hp.
  - unfold sched in Hs. destruct (pending s) eqn:Hp.
    + rewrite tick_one by done.
      destruct (frame_sched_armed (set_rafq 0 s) eq_refl) as [Hs' _].
      destruct (batch_report_fields (frame (set_rafq 0 s)))
        as (_ & _ & _ & Hp' & Hq' & _).
      unfold sched. by rewrite Hp', Hq'.
    + rewrite tick_idle by done. unfold sched. by rewrite Hp.
  - unfold sched in Hs. destruct (pending s) eqn:Hp.
    + rewrite tick_one by done.
      destruct (frame_sched_armed (set_rafq 0 s) eq_refl) as [_ Ha'].
      destruct (batch_report_fields (frame (set_rafq 0 s)))
        as (Hr & Hw & Hm & Hp' & _).
      unfold armed in *. by rewrite Hr, Hw, Hm, Hp'.
    + by rewrite tick_idle.
Qed.

(** ** Reads before writes *)

(** What [frame] adds to the log, and what it leaves when it returns. *)
Lemma batch_frame_spec s :
  ∃ R W,
    log (frame s).1 = log s ++ R ++ W ∧
    Forall (call_in_phase Reads) R ∧ Forall (call_in_phase Writes) W ∧
    ((frame s).2 = Normal →
     (∀ f, f ∈ reads s →
        EvCall (fn_ref f) Reads (Some Reading) ∈ R ∨
        EvClear (fn_ref f) Reads ∈ R) ∧
     (∀ f, f ∈ writes s →
        EvCall (fn_ref f) Writes (Some Writing) ∈ W ∨
        EvClear (fn_ref f) Writes ∈ R ++ W) ∧
     writes (frame s).1 = [] ∧ mode (frame s).1 = None).
Proof.
  unfold frame.
  set (s1 := set_mode (Some Reading) (set_pending false s)).
  destruct (batch_run_spec Reads s1) as (R & [L1 M1 _ C1 K1 O1] & N1).
  assert (Forall (call_in_phase Reads) R) as HR.
  { apply Forall_forall. intros e [(r & ->)|(r & k' & ->)]%C1; done. }
  destruct (run Reads s1) as [s2 [|e]]; cbn [fst snd] in *.
  - set (s2' := set_mode (Some Writing) s2).
    destruct (batch_run_spec Writes s2') as (W & [L2 M2 _ C2 K2 O2] & N2).
    assert (Forall (call_in_phase Writes) W) as HW.
    { apply Forall_forall. intros e [(r & ->)|(r & k' & ->)]%C2; done. }
    exists R, W.
    assert (∀ x : state * outcome, log x.1 = log s2' ++ W →
              log x.1 = log s ++ R ++ W) as HL.
    { intros x ->. change (log s2') with (log s2). rewrite L1.
      by rewrite app_assoc. }
    destruct (run Writes s2') as [s3 [|e]]; cbn [fst snd] in *.
    + split_and!; [by apply (HL (s3, Normal))|done|done|]. intros _.
      destruct (N1 eq_refl) as [E1 A1]. destruct (N2 eq_refl) as [E2 A2].
      split_and!; [done| |done|done].
      intros f Hf. rewrite elem_of_app.
      destruct (O1 Writes f) as [Hf2|?]; [done|done| |auto].
      destruct (A2 f Hf2) as [?|?]; auto.
    + split_and!; [by apply (HL (s3, Threw e))|done|done|done].
  - exists R, []. rewrite app_nil_r. by split_and!.
Qed.

(** X16: reads before writes.  Whatever [frame] finds queued and whatever
    the callbacks submit and cancel, the calls it makes are calls to
    functions of [reads], made in mode ['reading'], followed by calls to
    functions of [writes], made in mode ['writing']; and if no callback
    throws, every function that was queued is called unless it is cancelled,
    [writes] ends empty and the mode is back to [null]. *)
Theorem frame_calls_reads_then_writes s :
  ∃ R W,
    log (frame s).1 = log s ++ R ++ W ∧
    Forall (call_in_phase Reads) R ∧ Forall (call_in_phase Writes) W ∧
    ((frame s).2 = Normal →
     (∀ f, f ∈ reads s →
        EvCall (fn_ref f) Reads (Some Reading) ∈ R ∨
        EvClear (fn_ref f) Reads ∈ R) ∧
     (∀ f, f ∈ writes s →
        EvCall (fn_ref f) Writes (Some Writing) ∈ W ∨
        EvClear (fn_ref f) Writes ∈ R ++ W) ∧
     writes (frame s).1 = [] ∧ mode (frame s).1 = None).
Proof. apply batch_frame_spec. Qed.

Lemma frame_calls_reads_then_writes_witness :
  (frame (write (Fn 2 Done) (read (Fn 1 (DoClearWrite 2 Done)) new))).2 =
    Normal ∧
  ∃ R W,
    log (frame (write (Fn 2 Done) (read (Fn 1 (DoClearWrite 2 Done)) new))).1 =
      log (write (Fn 2 Done) (read (Fn 1 (DoClearWrite 2 Done)) new)) ++
      R ++ W ∧
    (EvCall 1 Reads (Some Reading) ∈ R ∨ EvClear 1 Reads ∈ R) ∧
    (EvCall 2 Writes (Some Writing) ∈ W ∨ EvClear 2 Writes ∈ R ++ W).
Proof.
  split; [reflexivity|].
  destruct (frame_calls_reads_then_writes
              (write (Fn 2 Done) (read (Fn 1 (DoClearWrite 2 Done)) new)))
    as (R & W & H1 & _ & _ & H2).
  destruct (H2 eq_refl) as (H3 & H4 & _).
  exists R, W. split_and!; [exact H1| |].
  - apply (H3 (Fn 1 (DoClearWrite 2 Done))). left.
  - apply (H4 (Fn 2 Done)). left.
Defined.

(** ** A frame that fails *)

Lemma wedged_exec c : ∀ s,
  mode s = Some Reading →
  mode (exec c s).1 = Some Reading ∧ rafq (exec c s).1 = rafq s ∧
  ∃ ext, log (exec c s).1 = log s ++ ext ∧ Forall no_call ext.
Proof.
  induction c as [|e|r fn IHfn c IHc|r fn IHfn c IHc|r c IHc|r c IHc];
    intros s Hm; cbn [exec fst].
  - split_and!; [done..|]. exists []. by rewrite app_nil_r.
  - split_and!; [done..|]. exists []. by rewrite app_nil_r.
  - assert (read (Fn r fn) s = set_reads (reads s ++ [Fn r fn]) s) as ->
      by (unfold read, request; cbn; by rewrite Hm).
    exact (IHc (set_reads (reads s ++ [Fn r fn]) s) Hm).
  - assert (write (Fn r fn) s = set_writes (writes s ++ [Fn r fn]) s) as ->
      by (unfold write, request; cbn; by rewrite Hm).
    exact (IHc (set_writes (writes s ++ [Fn r fn]) s) Hm).
  - destruct (IHc (clearRead r s) Hm) as (-> & -> & ext & -> & Hf).
    split_and!; [done..|]. exists (EvClear r Reads :: ext).
    split; [cbn; by rewrite <- app_assoc|by constructor].
  - destruct (IHc (clearWrite r s) Hm) as (-> & -> & ext & -> & Hf).
    split_and!; [done..|]. exists (EvClear r Writes :: ext).
    split; [cbn; by rewrite <- app_assoc|by constructor].
Qed.

(** A frame that ends in mode ['reading'] has requested no frame. *)
Lemma frame_dies_reading s :
  rafq s = 0%nat → mode (frame s).1 = Some Reading → wedged (frame s).1.
Proof.
  intros Hq Hm. split; [done|]. unfold frame in *.
  set (s1 := set_mode (Some Reading) (set_pending false s)) in *.
  pose proof (batch_run_steps Reads s1) as Hst.
  assert (∀ a b, rtc (step Reads) a b → mode a = Some Reading →
            rafq b = rafq a) as Hkeep.
  { clear. induction 1 as [a|a b c H1 H2 IH]; [done|]. intros Hma.
    rewrite IH by (by rewrite (step_mode _ _ _ H1)).
    destruct H1 as [f s0|f s0|r s0|r s0|f rest s0 Hq]; try done.
    - unfold read, request. destruct s0 as [rs w m p q rep l].
      cbn in *. by subst m.
    - unfold write, request. destruct s0 as [rs w m p q rep l].
      cbn in *. by subst m. }
  specialize (Hkeep _ _ Hst eq_refl).
  destruct (run Reads s1) as [s2 [|e]]; cbn [fst snd] in *;
    [|by rewrite Hkeep].
  set (s2' := set_mode (Some Writing) s2) in *.
  destruct (grows_steps _ _ _ (batch_run_steps Writes s2')) as [ext G].
  pose proof (grows_mode _ _ _ _ G) as Hm3.
  destruct (run Writes s2') as [s3 [|e]]; cbn [fst snd] in *;
    [done|cbn in Hm3; congruence].
Qed.

Lemma wedged_forever s s' :
  host_run s s' → wedged s →
  wedged s' ∧ ∃ ext, log s' = log s ++ ext ∧ Forall no_call ext.
Proof.
  induction 1 as [s|f s s' _ IH|f s s' _ IH|r s s' _ IH|r s s' _ IH
                  |c s s' _ IH|s s' _ IH]; intros [Hm Hq].
  - split; [done|]. exists []. by rewrite app_nil_r.
  - assert (read f s = set_reads (reads s ++ [f]) s) as E
      by (unfold read, request; cbn; by rewrite Hm).
    rewrite E in IH. by apply IH.
  - assert (write f s = set_writes (writes s ++ [f]) s) as E
      by (unfold write, request; cbn; by rewrite Hm).
    rewrite E in IH. by apply IH.
  - destruct IH as (Hw & ext & -> & Hf); [done|]. split; [done|].
    exists (EvClear r Reads :: ext).
    split; [cbn; by rewrite <- app_assoc|by constructor].
  - destruct IH as (Hw & ext & -> & Hf); [done|]. split; [done|].
    exists (EvClear r Writes :: ext).
    split; [cbn; by rewrite <- app_assoc|by constructor].
  - destruct (wedged_exec c s Hm) as (E1 & E2 & e1 & E3 & Hf1).
    destruct (batch_report_fields (exec c s)) as (_ & _ & Em & _ & Eq & El).
    destruct IH as (Hw & ext & Hl & Hf).
    { unfold turn. split; congruence. }
    split; [done|]. exists (e1 ++ ext). split; [|by apply Forall_app].
    rewrite Hl. unfold turn. rewrite El, E3. by rewrite app_assoc.
  - rewrite tick_idle in IH by done. by apply IH.
Qed.

(** X17: one failing read stops the scheduler for good.  Nothing is
    caught, so when a callback throws in the reading phase, [frame] is left
    with the mode at ['reading']; from then on [request] returns at once for
    reads and for writes alike, no frame is requested, and nothing that is
    queued or submitted is ever called. *)
Theorem failed_read_stops_the_scheduler s s' :
  rafq s = 1%nat → mode (tick s) = Some Reading →
  host_run (tick s) s' →
  wedged s' ∧ ∃ ext, log s' = log (tick s) ++ ext ∧ Forall no_call ext.
Proof.
  intros Hq Hm Hr. apply (wedged_forever (tick s)); [done|].
  rewrite tick_one in * by done.
  destruct (batch_report_fields (frame (set_rafq 0 s)))
    as (_ & _ & Em & _ & Eq & _).
  rewrite Em in Hm.
  destruct (frame_dies_reading (set_rafq 0 s) eq_refl Hm) as [H1 H2].
  split; congruence.
Qed.

Lemma failed_read_stops_the_scheduler_witness :
  rafq (read (Fn 1 (Raise 7)) new) = 1%nat ∧
  mode (tick (read (Fn 1 (Raise 7)) new)) = Some Reading ∧
  ∃ ext,
    log (tick (write (Fn 2 Done) (tick (read (Fn 1 (Raise 7)) new)))) =
      log (tick (read (Fn 1 (Raise 7)) new)) ++ ext ∧
    Forall no_call ext.
Proof.
  destruct (failed_read_stops_the_scheduler (read (Fn 1 (Raise 7)) new)
              (tick (write (Fn 2 Done) (tick (read (Fn 1 (Raise 7)) new)))))
    as [_ H].
  - reflexivity.
  - reflexivity.
  - apply (host_write (Fn 2 Done)), host_tick, host_stay.
  - split_and!; [reflexivity|reflexivity|exact H].
Defined.

(** ** Cancelling by function *)

Lemma remove_middle f pre post :
  fn_ref f ∉ fn_ref <$> pre →
  remove (fn_ref f) (pre ++ f :: post) = pre ++ post.
Proof.
  induction pre as [|x pre IH]; cbn; intros Hn.
  - by rewrite decide_True.
  - apply not_elem_of_cons in Hn as [Hx Hn].
    rewrite decide_False by done. by rewrite IH.
Qed.

Lemma remove_absent r l : r ∉ fn_ref <$> l → remove r l = l.
Proof.
  induction l as [|x l IH]; cbn; intros Hn; [done|].
  apply not_elem_of_cons in Hn as [Hx Hn].
  rewrite decide_False by done. by rewrite IH.
Qed.

(** X18: [clearRead(fn)] takes the first occurrence of [fn] out of
    [reads], and nothing else: a second occurrence stays, [writes] is not
    searched, and the frame that was requested stays requested.  For a
    function that is not in [reads] it changes nothing, and it undoes a
    [read(fn)] of a function that was not queued.  [clearWrite] is the
    same on [writes]. *)
Theorem clearRead_takes_first_occurrence f s :
  (∀ pre post, reads s = pre ++ f :: post → fn_ref f ∉ fn_ref <$> pre →
     reads (clearRead (fn_ref f) s) = pre ++ post) ∧
  (fn_ref f ∉ fn_ref <$> reads s →
     reads (clearRead (fn_ref f) s) = reads s ∧
     reads (clearRead (fn_ref f) (read f s)) = reads s) ∧
  writes (clearRead (fn_ref f) s) = writes s ∧
  rafq (clearRead (fn_ref f) s) = rafq s ∧
  pending (clearRead (fn_ref f) s) = pending s ∧
  mode (clearRead (fn_ref f) s) = mode s ∧
  (∀ pre post, writes s = pre ++ f :: post → fn_ref f ∉ fn_ref <$> pre →
     writes (clearWrite (fn_ref f) s) = pre ++ post) ∧
  (fn_ref f ∉ fn_ref <$> writes s →
     writes (clearWrite (fn_ref f) s) = writes s ∧
     writes (clearWrite (fn_ref f) (write f s)) = writes s) ∧
  reads (clearWrite (fn_ref f) s) = reads s ∧
  rafq (clearWrite (fn_ref f) s) = rafq s ∧
  pending (clearWrite (fn_ref f) s) = pending s ∧
  mode (clearWrite (fn_ref f) s) = mode s.
Proof.
  split_and!; try done.
  - intros pre post E Hn. unfold clearRead. cbn. rewrite E.
    by apply remove_middle.
  - intros Hn. split.
    + unfold clearRead. cbn. by rewrite remove_absent.
    + destruct (batch_read_fields f s) as (Hr & _). unfold clearRead. cbn.
      rewrite Hr. rewrite <- (app_nil_r (reads s)) at 2.
      by apply remove_middle.
  - intros pre post E Hn. unfold clearWrite. cbn. rewrite E.
    by apply remove_middle.
  - intros Hn. split.
    + unfold clearWrite. cbn. by rewrite remove_absent.
    + destruct (batch_write_fields f s) as (_ & Hw & _). unfold clearWrite. cbn.
      rewrite Hw. rewrite <- (app_nil_r (writes s)) at 2.
      by apply remove_middle.
Qed.

Lemma clearRead_takes_first_occurrence_witness :
  reads (read (Fn 1 Done) new) = [] ++ Fn 1 Done :: [] ∧
  reads (clearRead 1 (read (Fn 1 Done) new)) = [].
Proof.
  destruct (clearRead_takes_first_occurrence (Fn 1 Done) (read (Fn 1 Done) new))
    as (H & _).
  split; [reflexivity|].
  apply (H [] []); [reflexivity|]. by intros ?%elem_of_nil.
Defined.

(** ** Frames requested *)

(** X19: in a scheduler that started fresh, whatever was submitted,
    cancelled and run, and whatever was thrown, at most one frame callback
    waits at the host, and one does exactly when [pending] is set; and as
    long as the mode is [null], a frame callback waits whenever a job is
    queued. *)
Theorem one_frame_for_all_jobs s :
  host_run new s →
  rafq s = (if pending s then 1 else 0)%nat ∧
  (mode s = None → reads s ≠ [] ∨ writes s ≠ [] → rafq s = 1%nat).
Proof.
  intros Hr.
  destruct (host_run_invariant _ _ Hr) as [Hs Ha]; [done|by intros [?|?]|].
  split; [exact Hs|]. intros Hm Hne. unfold armed in Ha. rewrite Hm in Ha.
  unfold sched in Hs. by rewrite (Ha Hne) in Hs.
Qed.

Lemma one_frame_for_all_jobs_witness :
  host_run new (write (Fn 2 Done) (read (Fn 1 Done) new)) ∧
  rafq (write (Fn 2 Done) (read (Fn 1 Done) new)) = 1%nat.
Proof.
  assert (host_run new (write (Fn 2 Done) (read (Fn 1 Done) new))) as Hr
    by (apply (host_read (Fn 1 Done)), (host_write (Fn 2 Done)), host_stay).
  destruct (one_frame_for_all_jobs _ Hr) as [_ H].
  split; [exact Hr|]. apply H; [reflexivity|]. left. discriminate.
Defined.

(** ** A failing write *)

(** [frame] leaves the mode at [null] only when it returns. *)
Lemma frame_mode_null s : mode (frame s).1 = None → (frame s).2 = Normal.
Proof.
  unfold frame.
  set (s1 := set_mode (Some Reading) (set_pending false s)).
  destruct (grows_steps _ _ _ (batch_run_steps Reads s1)) as [e1 G1].
  pose proof (grows_mode _ _ _ _ G1) as Hm1.
  destruct (run Reads s1) as [s2 [|e]]; cbn [fst snd] in *;
    [|cbn in Hm1; congruence].
  set (s2' := set_mode (Some Writing) s2).
  destruct (grows_steps _ _ _ (batch_run_steps Writes s2')) as [e2 G2].
  pose proof (grows_mode _ _ _ _ G2) as Hm2.
  destruct (run Writes s2') as [s3 [|e]]; cbn [fst snd] in *;
    [done|cbn in Hm2; congruence].
Qed.

(** In mode ['writing'] with no frame requested, writes and frames only
    make [writes] longer. *)
Lemma writes_held fs : ∀ s,
  mode s = Some Writing → rafq s = 0%nat →
  foldl (λ s g, tick (write g s)) s fs = set_writes (writes s ++ fs) s.
Proof.
  induction fs as [|g fs IH]; intros s Hm Hq; cbn [foldl].
  - rewrite app_nil_r. by destruct s.
  - assert (write g s = set_writes (writes s ++ [g]) s) as ->
      by (unfold write, request; cbn; by rewrite Hm).
    rewrite tick_idle by done. rewrite IH by done.
    cbn. by rewrite <- app_assoc.
Qed.

(** X20: a failing write holds the later writes back.  When a write
    callback has thrown and no frame is requested, the mode stays at
    ['writing'], so [request] returns at once for every write: however many
    writes are submitted and frames pass, none is called.  The next [read]
    requests a frame, and if that frame returns, it has called every write
    that was waiting, unless the write was cancelled. *)
Theorem failed_write_holds_writes_until_a_read s fs f :
  mode s = Some Writing → pending s = false → rafq s = 0%nat →
  writes (foldl (λ s g, tick (write g s)) s fs) = writes s ++ fs ∧
  log (foldl (λ s g, tick (write g s)) s fs) = log s ∧
  rafq (foldl (λ s g, tick (write g s)) s fs) = 0%nat ∧
  rafq (read f (foldl (λ s g, tick (write g s)) s fs)) = 1%nat ∧
  (mode (tick (read f (foldl (λ s g, tick (write g s)) s fs))) = None →
   ∃ ext,
     log (tick (read f (foldl (λ s g, tick (write g s)) s fs))) =
       log s ++ ext ∧
     ∀ g, g ∈ writes s ++ fs →
       EvCall (fn_ref g) Writes (Some Writing) ∈ ext ∨
       EvClear (fn_ref g) Writes ∈ ext).
Proof.
  intros Hm Hp Hq. rewrite writes_held by done.
  set (s' := set_writes (writes s ++ fs) s).
  assert (read f s' =
          set_pending true (set_rafq 1 (set_reads (reads s ++ [f]) s'))) as Er.
  { unfold read, request. cbn. by rewrite Hm, Hp, Hq. }
  split_and!; [done|done|done|by rewrite Er|].
  rewrite tick_one by (by rewrite Er). rewrite Er.
  set (s0 := set_rafq 0 _).
  destruct (batch_report_fields (frame s0)) as (_ & _ & -> & _ & _ & ->).
  intros Hn%frame_mode_null.
  destruct (batch_frame_spec s0) as (R & W & HL & _ & _ & HN).
  destruct (HN Hn) as (_ & HW & _).
  exists (R ++ W). split; [exact HL|]. intros g Hg.
  destruct (HW g Hg) as [?|?]; [left|by right].
  apply elem_of_app. by right.
Qed.

Lemma failed_write_holds_writes_until_a_read_witness :
  mode (tick (write (Fn 1 (Raise 7)) new)) = Some Writing ∧
  pending (tick (write (Fn 1 (Raise 7)) new)) = false ∧
  rafq (tick (write (Fn 1 (Raise 7)) new)) = 0%nat ∧
  log (foldl (λ s g, tick (write g s)) (tick (write (Fn 1 (Raise 7)) new))
         [Fn 2 Done]) =
    log (tick (write (Fn 1 (Raise 7)) new)) ∧
  rafq (read (Fn 3 Done)
          (foldl (λ s g, tick (write g s)) (tick (write (Fn 1 (Raise 7)) new))
             [Fn 2 Done])) = 1%nat.
Proof.
  assert (mode (tick (write (Fn 1 (Raise 7)) new)) = Some Writing) as Hm
    by (vm_compute; reflexivity).
  assert (pending (tick (write (Fn 1 (Raise 7)) new)) = false) as Hp
    by (vm_compute; reflexivity).
  assert (rafq (tick (write (Fn 1 (Raise 7)) new)) = 0%nat) as Hq
    by (vm_compute; reflexivity).
  destruct (failed_write_holds_writes_until_a_read
              (tick (write (Fn 1 (Raise 7)) new)) [Fn 2 Done] (Fn 3 Done)
              Hm Hp Hq)
    as (_ & Hl & _ & Hr & _).
  exact (conj Hm (conj Hp (conj Hq (conj Hl Hr)))).
Defined.

(** ** A turn, then a frame *)

Lemma frame_reported s : reported (frame s).1 = reported s.
Proof.
  unfold frame.
  set (s1 := set_mode (Some Reading) (set_pending false s)).
  destruct (grows_steps _ _ _ (batch_run_steps Reads s1)) as [e1 G1].
  pose proof (grows_reported _ _ _ _ G1) as R1.
  destruct (run Reads s1) as [s2 [|e]]; cbn [fst snd] in *; [|done].
  set (s2' := set_mode (Some Writing) s2).
  destruct (grows_steps _ _ _ (batch_run_steps Writes s2')) as [e2 G2].
  pose proof (grows_reported _ _ _ _ G2) as R2.
  destruct (run Writes s2') as [s3 [|e]]; cbn [fst snd] in *;
    cbn; by rewrite R2.
Qed.

(** The host hears of a frame exactly when a callback threw in it. *)
Lemma report_silent s :
  reported (report (frame s)) = reported s → (frame s).2 = Normal.
Proof.
  pose proof (frame_reported s) as E.
  destruct (frame s) as [s1 [|e]]; cbn in *; [done|].
  rewrite E. intros H. apply (f_equal length) in H.
  rewrite length_app in H. cbn in H. lia.
Qed.

Lemma turn_mode c s : mode (turn c s) = mode s.
Proof.
  unfold turn.
  destruct (batch_report_fields (exec c s)) as (_ & _ & -> & _).
  destruct (grows_steps _ _ _ (batch_exec_steps Reads c s)) as [ext G].
  apply G.
Qed.

(** What a synchronous turn submits to an idle scheduler, the next frame
    calls, reads first, if no callback throws. *)
Lemma batch_turn_then_frame t c :
  host_run new t → mode t = None →
  ∃ R W,
    log (tick (turn c t)) = log (turn c t) ++ R ++ W ∧
    Forall (call_in_phase Reads) R ∧ Forall (call_in_phase Writes) W ∧
    (reported (tick (turn c t)) = reported (turn c t) →
     (∀ f, f ∈ reads (turn c t) →
        EvCall (fn_ref f) Reads (Some Reading) ∈ R ∨
        EvClear (fn_ref f) Reads ∈ R) ∧
     (∀ f, f ∈ writes (turn c t) →
        EvCall (fn_ref f) Writes (Some Writing) ∈ W ∨
        EvClear (fn_ref f) Writes ∈ R ++ W)).
Proof.
  intros Hr Hm.
  destruct (host_run_invariant _ _ Hr) as [Hs Ha]; [done|by intros [?|?]|].
  destruct (host_run_invariant t (turn c t)) as [Hs1 Ha1];
    [apply (host_turn c), host_stay|done|done|].
  pose proof (turn_mode c t) as Hm1. rewrite Hm in Hm1.
  unfold sched in Hs1. unfold armed in Ha1. rewrite Hm1 in Ha1.
  destruct (pending (turn c t)) eqn:Hp.
  - rewrite tick_one by done.
    set (t0 := set_rafq 0 (turn c t)).
    destruct (batch_frame_spec t0) as (R & W & HL & HR & HW & HN).
    destruct (batch_report_fields (frame t0)) as (_ & _ & _ & _ & _ & ->).
    exists R, W. split_and!; [exact HL|done|done|].
    intros Hrep. destruct (HN (report_silent t0 Hrep)) as (A1 & A2 & _).
    by split.
  - rewrite tick_idle by done. exists [], [].
    rewrite !app_nil_r. split_and!; [done|done|done|]. intros _.
    assert (reads (turn c t) = [] ∧ writes (turn c t) = []) as [-> ->].
    { destruct (reads (turn c t)), (writes (turn c t)); try done;
        exfalso; by assert (false = true) by (apply Ha1; auto). }
    split; by intros ? ?%elem_of_nil.
Qed.

(** C1 as stated fails in [src/lib/dom-batch.js]: a turn submits a read
    that throws, a second read and a write; the next frame calls the first
    read and ends there.  The second read and the write are not called, in
    that frame or in a later one, and no frame is requested for them. *)
Lemma throwing_read_ends_the_frame :
  fn_ref <$> reads (turn (DoRead 1 (Raise 7)
                            (DoRead 2 Done (DoWrite 3 Done Done))) new) =
    [1; 2] ∧
  fn_ref <$> writes (turn (DoRead 1 (Raise 7)
                             (DoRead 2 Done (DoWrite 3 Done Done))) new) =
    [3] ∧
  log (tick (turn (DoRead 1 (Raise 7)
                     (DoRead 2 Done (DoWrite 3 Done Done))) new)) =
    [EvCall 1 Reads (Some Reading)] ∧
  reported (tick (turn (DoRead 1 (Raise 7)
                          (DoRead 2 Done (DoWrite 3 Done Done))) new)) =
    [UserError 7] ∧
  rafq (tick (turn (DoRead 1 (Raise 7)
                      (DoRead 2 Done (DoWrite 3 Done Done))) new)) = 0%nat ∧
  log (tick (tick (turn (DoRead 1 (Raise 7)
                           (DoRead 2 Done (DoWrite 3 Done Done))) new))) =
    [EvCall 1 Reads (Some Reading)].
Proof. by vm_compute. Qed.

End DomBatchFacts.

Module ReadsFirst.

(** C1 (as the code has it), in both variants.  Whatever a synchronous
    turn submits to a scheduler between two frames, the next frame invokes
    no write callback before a read callback: reads are invoked in the
    reading phase, writes in the writing phase that follows it.  In
    [src/lib/fastdom.js] every job that waits after the turn is invoked,
    unless it is cancelled, whatever the callbacks throw.  In
    [src/lib/dom-batch.js], which catches nothing, every function that
    waits after the turn is invoked, unless it is cancelled, provided the
    host hears of no failure in that frame. *)
Theorem frame_runs_reads_before_writes
    (s : FastDom.state) c (t : DomBatch.state) d :
  FastDom.quiescent s →
  DomBatch.host_run DomBatch.new t → DomBatch.mode t = None →
  (∃ sub ext,
     FastDom.log (FastDom.turn c s) = FastDom.log s ++ sub ∧
     FastDom.log (FastDom.tick (FastDom.turn c s)) =
       FastDom.log (FastDom.turn c s) ++ ext ∧
     FastDom.reads_first ext ∧
     (∀ ty id, id ∈ FastDom.queue ty (FastDom.turn c s) →
        FastDom.EvCall id ty (FastDom.phase_of ty) ∈ ext ∨
        FastDom.EvClear id ∈ ext) ∧
     (∀ id m, FastDom.EvAdd id FastDom.TRead m ∈ sub →
        FastDom.EvCall id FastDom.TRead (Some FastDom.Reading) ∈ ext ∨
        FastDom.EvClear id ∈ sub ++ ext) ∧
     (∀ id m, FastDom.EvAdd id FastDom.TWrite m ∈ sub →
        FastDom.EvCall id FastDom.TWrite (Some FastDom.Writing) ∈ ext ∨
        FastDom.EvClear id ∈ sub ++ ext)) ∧
  (∃ R W,
     DomBatch.log (DomBatch.tick (DomBatch.turn d t)) =
       DomBatch.log (DomBatch.turn d t) ++ R ++ W ∧
     Forall (DomBatch.call_in_phase DomBatch.Reads) R ∧
     Forall (DomBatch.call_in_phase DomBatch.Writes) W ∧
     (DomBatch.reported (DomBatch.tick (DomBatch.turn d t)) =
        DomBatch.reported (DomBatch.turn d t) →
      (∀ f, f ∈ DomBatch.reads (DomBatch.turn d t) →
         DomBatch.EvCall (DomBatch.fn_ref f) DomBatch.Reads
           (Some DomBatch.Reading) ∈ R ∨
         DomBatch.EvClear (DomBatch.fn_ref f) DomBatch.Reads ∈ R) ∧
      (∀ f, f ∈ DomBatch.writes (DomBatch.turn d t) →
         DomBatch.EvCall (DomBatch.fn_ref f) DomBatch.Writes
           (Some DomBatch.Writing) ∈ W ∨
         DomBatch.EvClear (DomBatch.fn_ref f) DomBatch.Writes ∈ R ++ W))).
Proof.
  intros Hq Hr Hm. split.
  - destruct (FastDomFacts.turn_then_frame s c Hq)
      as (sub & ext & H1 & H2 & H3 & H4 & H5).
    exists sub, ext. split_and!; [done..| |done|done].
    intros ty id Hin.
    destruct (FastDomFacts.tick_drains (FastDom.turn c s) ty id)
      as (ext' & E' & Hd); [by apply FastDomFacts.quiescent_turn|done|].
    assert (ext' = ext) as <-; [|done].
    rewrite H2 in E'. by apply app_inv_head in E'.
  - by apply DomBatchFacts.batch_turn_then_frame.
Qed.

(** On a turn that submits a write and then a read, in either variant:
    the next frame calls the read while reading and then the write while
    writing. *)
Lemma frame_runs_reads_before_writes_witness :
  FastDom.quiescent (FastDom.new true) ∧
  DomBatch.host_run DomBatch.new DomBatch.new ∧
  DomBatch.mode DomBatch.new = None ∧
  (∃ ext,
     FastDom.log (FastDom.tick
       (FastDom.turn (CallWrite Ret None (CallRead Ret None Ret))
          (FastDom.new true))) =
     FastDom.log
       (FastDom.turn (CallWrite Ret None (CallRead Ret None Ret))
          (FastDom.new true)) ++ ext ∧
     FastDom.reads_first ext ∧
     FastDom.EvCall 2 FastDom.TRead (Some FastDom.Reading) ∈ ext ∧
     FastDom.EvCall 1 FastDom.TWrite (Some FastDom.Writing) ∈ ext) ∧
  (∃ R W,
     DomBatch.log (DomBatch.tick
       (DomBatch.turn
          (DomBatch.DoWrite 1 DomBatch.Done
             (DomBatch.DoRead 2 DomBatch.Done DomBatch.Done))
          DomBatch.new)) =
     DomBatch.log
       (DomBatch.turn
          (DomBatch.DoWrite 1 DomBatch.Done
             (DomBatch.DoRead 2 DomBatch.Done DomBatch.Done))
          DomBatch.new) ++ R ++ W ∧
     DomBatch.EvCall 2 DomBatch.Reads (Some DomBatch.Reading) ∈ R ∧
     DomBatch.EvCall 1 DomBatch.Writes (Some DomBatch.Writing) ∈ W).
Proof.
  destruct (frame_runs_reads_before_writes (FastDom.new true)
              (CallWrite Ret None (CallRead Ret None Ret))
              DomBatch.new
              (DomBatch.DoWrite 1 DomBatch.Done
                 (DomBatch.DoRead 2 DomBatch.Done DomBatch.Done))
              (FastDomFacts.quiescent_new true)
              (DomBatch.host_stay DomBatch.new) eq_refl)
    as ((sub & ext & _ & H2 & H3 & H4 & _) & (R & W & L & _ & _ & HN)).
  split_and!; [apply FastDomFacts.quiescent_new|apply DomBatch.host_stay
               |reflexivity| |].
  - assert (FastDom.log (FastDom.tick
              (FastDom.turn (CallWrite Ret None (CallRead Ret None Ret))
                 (FastDom.new true))) =
            FastDom.log
              (FastDom.turn (CallWrite Ret None (CallRead Ret None Ret))
                 (FastDom.new true)) ++
            [FastDom.EvCall 2 FastDom.TRead (Some FastDom.Reading);
             FastDom.EvCall 1 FastDom.TWrite (Some FastDom.Writing)]) as Hl
      by (vm_compute; reflexivity).
    assert (ext = [FastDom.EvCall 2 FastDom.TRead (Some FastDom.Reading);
                   FastDom.EvCall 1 FastDom.TWrite (Some FastDom.Writing)])
      as Hext.
    { rewrite Hl in H2. apply app_inv_head in H2. by symmetry. }
    assert (∀ id, FastDom.EvClear id ∉ ext) as Hncl.
    { intros id. rewrite Hext, !not_elem_of_cons.
      split_and!; [done..|]. apply not_elem_of_nil. }
    exists ext. split_and!; [exact H2|exact H3| |].
    + destruct (H4 FastDom.TRead 2) as [?|Hc];
        [by vm_compute; left|done|by apply Hncl in Hc].
    + destruct (H4 FastDom.TWrite 1) as [?|Hc];
        [by vm_compute; left|done|by apply Hncl in Hc].
  - assert (DomBatch.log (DomBatch.tick
              (DomBatch.turn
                 (DomBatch.DoWrite 1 DomBatch.Done
                    (DomBatch.DoRead 2 DomBatch.Done DomBatch.Done))
                 DomBatch.new)) =
            DomBatch.log
              (DomBatch.turn
                 (DomBatch.DoWrite 1 DomBatch.Done
                    (DomBatch.DoRead 2 DomBatch.Done DomBatch.Done))
                 DomBatch.new) ++
            [DomBatch.EvCall 2 DomBatch.Reads (Some DomBatch.Reading);
             DomBatch.EvCall 1 DomBatch.Writes (Some DomBatch.Writing)])
      as Hl by (vm_compute; reflexivity).
    assert (R ++ W =
            [DomBatch.EvCall 2 DomBatch.Reads (Some DomBatch.Reading);
             DomBatch.EvCall 1 DomBatch.Writes (Some DomBatch.Writing)])
      as Hext.
    { rewrite Hl in L. apply app_inv_head in L. by symmetry. }
    assert (∀ r k, DomBatch.EvClear r k ∉ R ++ W) as Hncl.
    { intros r k. rewrite Hext, !not_elem_of_cons.
      split_and!; [done..|]. apply not_elem_of_nil. }
    destruct HN as [A1 A2]; [by vm_compute|].
    exists R, W. split_and!; [exact L| |].
    + destruct (A1 (DomBatch.Fn 2 DomBatch.Done)) as [?|Hc];
        [by vm_compute; left|done|].
      exfalso. apply (Hncl 2 DomBatch.Reads), elem_of_app. by left.
    + destruct (A2 (DomBatch.Fn 1 DomBatch.Done)) as [?|Hc];
        [by vm_compute; left|done|by apply Hncl in Hc].
Defined.

End ReadsFirst.
